(** * LibraryController: query, sort, range-compaction and search pipeline

    A shallow embedding of the algorithmic parts of
    [server/controllers/LibraryController.js] (audiobookshelf):

    - the [seriesSequenceList] reducer of [getLibraryItems], which compacts
      the sequence tokens of a collapsed series into text such as
      ["1-3, 5, 7-8"];
    - the sort-key chain ([sortArray]) of [getLibraryItems] and the dotted
      path resolution of its primary extractor;
    - the collapse guard, the page/limit slice and the reported total of
      [getLibraryItems];
    - the facet aggregation of [search];
    - the reading of [include], [limit] and [page] from the query string
      that the listing endpoints share, and the page step on Numbers;
    - [getSeriesForLibrary], [getAuthors], [getNarrators] with the
      narrator id, [reorder], the offset of [getLibraryItemsNew] and the
      [force] flag of [scan].

    JavaScript values are modelled as the code uses them: strings as
    [string] (sequences of 8-bit code units), and as lists of UTF-16 code
    units where [Buffer.from] encodes them; Numbers as IEEE-754 binary64
    values ([spec_float] with precision 53 and maximal exponent 1024);
    plain objects used as dictionaries as insertion-ordered association
    lists read back in the order [Object.values] enumerates own
    properties; a property read as the own property or else what the
    prototype chain holds. *)

From Stdlib Require Import ZArith NArith List String Ascii Bool Lia.
From Stdlib Require Import Floats.SpecFloat.
From Stdlib Require Import DecimalString.
From Stdlib Require DecimalFacts DecimalPos DecimalN.
From Stdlib Require Import Sorting.Sorted Sorting.Permutation.
Import ListNotations.

Local Open Scope string_scope.
Local Open Scope Z_scope.

Set Warnings "-register-all".

(* ================================================================= *)
(** ** Characters and strings *)

Module Str.

Definition is_digit (c : ascii) : bool :=
  let n := nat_of_ascii c in (48 <=? n)%nat && (n <=? 57)%nat.

Definition digit_val (c : ascii) : Z := Z.of_nat (nat_of_ascii c) - 48.

(** JavaScript [WhiteSpace] and [LineTerminator] code units below 256. *)
Definition is_space (c : ascii) : bool :=
  let n := nat_of_ascii c in
  ((9 <=? n)%nat && (n <=? 13)%nat) || (n =? 32)%nat || (n =? 160)%nat.

Fixpoint all_digits (s : string) : bool :=
  match s with
  | EmptyString => true
  | String c r => is_digit c && all_digits r
  end.

(** Longest prefix of decimal digits, and the remainder. *)
Fixpoint span_digits (s : string) : string * string :=
  match s with
  | String c r =>
      if is_digit c then let (d, t) := span_digits r in (String c d, t)
      else (EmptyString, s)
  | EmptyString => (EmptyString, EmptyString)
  end.

(** Value of a string of decimal digits, most significant first. *)
Fixpoint digits_value (acc : Z) (s : string) : Z :=
  match s with
  | EmptyString => acc
  | String c r => digits_value (10 * acc + digit_val c) r
  end.

Fixpoint trim_start (s : string) : string :=
  match s with
  | String c r => if is_space c then trim_start r else s
  | EmptyString => EmptyString
  end.

Fixpoint rev_string (acc s : string) : string :=
  match s with
  | EmptyString => acc
  | String c r => rev_string (String c acc) r
  end.

Definition trim (s : string) : string :=
  rev_string "" (trim_start (rev_string "" (trim_start s))).

(** [prefix_rest p s] is what follows [p] in [s], when [s] starts with [p]. *)
Fixpoint prefix_rest (p s : string) : option string :=
  match p, s with
  | EmptyString, _ => Some s
  | String a p', String b s' =>
      if Ascii.eqb a b then prefix_rest p' s' else None
  | String _ _, EmptyString => None
  end.

(** [String.prototype.includes]: does [needle] occur in [s]? *)
Fixpoint includes (needle s : string) : bool :=
  match prefix_rest needle s with
  | Some _ => true
  | None =>
      match s with
      | EmptyString => false
      | String _ r => includes needle r
      end
  end.

(** [String.prototype.split] on a one-character separator: the result is
    never empty, and the empty string splits into one empty piece. *)
Fixpoint split (sep : ascii) (s : string) : list string :=
  match s with
  | EmptyString => [EmptyString]
  | String c r =>
      if Ascii.eqb c sep then EmptyString :: split sep r
      else
        match split sep r with
        | p :: ps => String c p :: ps
        | [] => [String c EmptyString]
        end
  end.

(** Decimal rendering of a natural number. *)
Definition of_N (n : N) : string := NilZero.string_of_uint (N.to_uint n).

(** [n] copies of the digit zero. *)
Fixpoint zeros (n : nat) : string :=
  match n with
  | O => EmptyString
  | S k => String "0" (zeros k)
  end.

(** [Array.prototype.join] over strings. *)
Definition join (sep : string) (l : list string) : string := String.concat sep l.

End Str.

(* ================================================================= *)
(** ** JavaScript Numbers (IEEE-754 binary64) *)

Module Num.

Definition number := spec_float.

Definition prec : Z := 53.
Definition emax : Z := 1024.

Definition zero : number := S754_zero false.
Definition nan : number := S754_nan.

(** The Number nearest to [n / d] (ties to even): the value the
    specification writes F(n/d).  The quotient is rounded once. *)
Definition of_ratio (n : Z) (d : positive) : number :=
  match n with
  | Z0 => zero
  | Zpos p => SFdiv prec emax (S754_finite false p 0) (S754_finite false d 0)
  | Zneg p => SFdiv prec emax (S754_finite true p 0) (S754_finite false d 0)
  end.

(** The Number nearest to [m * 10 ^ e]. *)
Definition of_decimal (m e : Z) : number :=
  match e with
  | Zneg k => of_ratio m (Pos.pow 10 k)
  | _ => of_ratio (m * 10 ^ e) 1
  end.

Definition of_Z (z : Z) : number := of_ratio z 1.

Definition one : number := of_Z 1.

Definition add (x y : number) : number := SFadd prec emax x y.

(** Numeric [==] / [===]: IEEE equality ([NaN] differs from itself,
    the two zeros are equal). *)
Definition eqb (x y : number) : bool := SFeqb x y.

(** Is the Number an integer (a finite value with no fractional part)? *)
Definition is_integer (x : number) : bool :=
  match x with
  | S754_zero _ => true
  | S754_finite _ m e =>
      match e with
      | Zneg k => Z.eqb (Z.modulo (Zpos m) (2 ^ Zpos k)) 0
      | _ => true
      end
  | _ => false
  end.

(** A Number above zero (possibly infinity). *)
Definition is_positive (x : number) : Prop :=
  match x with
  | S754_finite false _ _ | S754_infinity false => True
  | _ => False
  end.

(** The Number whose value is the integer [z], for [0 < z < 2^53]: a
    mantissa of 53 bits. *)
Definition canon (z : Z) : number :=
  S754_finite false (Z.to_pos (z * 2 ^ (52 - Z.log2 z))) (Z.log2 z - 52).

(** *** Number::toString (radix 10)

    For a positive finite Number [x] the specification picks integers
    [n], [k], [s] with [k >= 1], [10^(k-1) <= s < 10^k], F(s * 10^(n-k))
    equal to [x] and [k] as small as possible; [s] is the digit string and
    [n] places the decimal point. *)

Fixpoint ndigits (fuel : nat) (z : Z) : Z :=
  match fuel with
  | O => 1
  | S f => if z <? 10 then 1 else 1 + ndigits f (z / 10)
  end.

(** Least [j >= 1] with [a * 10^j >= b], for [0 < a < b]. *)
Fixpoint lead_zeros (fuel : nat) (a b j : Z) : Z :=
  match fuel with
  | O => j
  | S f => if b <=? a * 10 then j else lead_zeros f (a * 10) b (j + 1)
  end.

(** The [n] with [10^(n-1) <= a/b < 10^n], for positive [a] and [b]. *)
Definition decimal_exponent (a b : Z) : Z :=
  if b <=? a then ndigits (S (Z.to_nat (Z.log2 (a / b)))) (a / b)
  else 1 - lead_zeros (S (Z.to_nat (Z.log2 b))) a b 1.

(** The [k]-digit candidates next to [a/b]: rounding is monotone, so if
    any [k]-digit decimal rounds to [x], the one just below or the one
    just above [a/b] does; of two that do, the closer one is taken, and
    the even one on a tie. *)
Definition candidate (x : number) (a b n k : Z) : option (Z * Z) :=
  let '(p, q) := if n <=? k then (a * 10 ^ (k - n), b) else (a, b * 10 ^ (n - k)) in
  let lo := p / q in
  let r := p mod q in
  let hi := lo + 1 in
  let ok s := eqb (of_decimal s (n - k)) x in
  let up := if hi =? 10 ^ k then (10 ^ (k - 1), n + 1) else (hi, n) in
  if r =? 0 then (if ok lo then Some (lo, n) else None)
  else
    match ok lo, ok hi with
    | true, true =>
        Some (if 2 * r <? q then (lo, n)
              else if q <? 2 * r then up
              else if Z.even lo then (lo, n) else up)
    | true, false => Some (lo, n)
    | false, true => Some up
    | false, false => None
    end.

Fixpoint shortest (fuel : nat) (x : number) (a b n k : Z) : Z * Z :=
  match fuel with
  | O => (a * 10 ^ (k - n) / b, n)
  | S f =>
      match candidate x a b n k with
      | Some sn => sn
      | None => shortest f x a b n (k + 1)
      end
  end.

Definition format (s n : Z) : string :=
  let ds := Str.of_N (Z.to_N s) in
  let k := Z.of_nat (String.length ds) in
  if (k <=? n) && (n <=? 21) then ds ++ Str.zeros (Z.to_nat (n - k))
  else if (0 <? n) && (n <=? 21) then
    substring 0 (Z.to_nat n) ds ++ "." ++ substring (Z.to_nat n) (Z.to_nat (k - n)) ds
  else if (-6 <? n) && (n <=? 0) then "0." ++ Str.zeros (Z.to_nat (- n)) ++ ds
  else
    let e := n - 1 in
    let es := (if e <? 0 then "-" else "+") ++ Str.of_N (Z.to_N (Z.abs e)) in
    if k =? 1 then ds ++ "e" ++ es
    else substring 0 1 ds ++ "." ++ substring 1 (Z.to_nat (k - 1)) ds ++ "e" ++ es.

Definition to_string (x : number) : string :=
  match x with
  | S754_nan => "NaN"
  | S754_zero _ => "0"
  | S754_infinity s => if s then "-Infinity" else "Infinity"
  | S754_finite sg m e =>
      let '(a, b) := match e with
                     | Zneg j => (Zpos m, 2 ^ Zpos j)
                     | _ => (Zpos m * 2 ^ e, 1)
                     end in
      let n := decimal_exponent a b in
      let '(s, n') := shortest 17 (S754_finite false m e) a b n 1 in
      (if sg then "-" else "") ++ format s n'
  end.

(** *** Numeric literals in strings: [parseFloat] and [Number(string)] *)

Inductive literal :=
  | LInfinity
  | LDecimal (mantissa exp10 : Z).

(** An optional [ExponentPart]: it is only read when a digit follows. *)
Definition scan_exponent (s : string) : Z * string :=
  match s with
  | String c r =>
      if Ascii.eqb c "e" || Ascii.eqb c "E" then
        let '(neg, r1) := match r with
                          | String "+" t => (false, t)
                          | String "-" t => (true, t)
                          | _ => (false, r)
                          end in
        let '(ds, rest) := Str.span_digits r1 in
        match ds with
        | EmptyString => (0, s)
        | _ => ((if neg then - Str.digits_value 0 ds else Str.digits_value 0 ds), rest)
        end
      else (0, s)
  | EmptyString => (0, s)
  end.

(** Longest prefix that is an unsigned [StrDecimalLiteral]. *)
Definition scan_unsigned (s : string) : option (literal * string) :=
  match Str.prefix_rest "Infinity" s with
  | Some r => Some (LInfinity, r)
  | None =>
      let '(ip, r1) := Str.span_digits s in
      match r1 with
      | String "." r2 =>
          let '(fp, r3) := Str.span_digits r2 in
          match ip, fp with
          | EmptyString, EmptyString => None
          | _, _ =>
              let '(e, r4) := scan_exponent r3 in
              Some (LDecimal (Str.digits_value 0 (ip ++ fp))
                             (e - Z.of_nat (String.length fp)), r4)
          end
      | _ =>
          match ip with
          | EmptyString => None
          | _ => let '(e, r4) := scan_exponent r1 in
                 Some (LDecimal (Str.digits_value 0 ip) e, r4)
          end
      end
  end.

Definition scan_signed (s : string) : option (bool * literal * string) :=
  let '(neg, r) := match s with
                   | String "+" t => (false, t)
                   | String "-" t => (true, t)
                   | _ => (false, s)
                   end in
  match scan_unsigned r with
  | Some (l, rest) => Some (neg, l, rest)
  | None => None
  end.

Definition literal_value (neg : bool) (l : literal) : number :=
  match l with
  | LInfinity => S754_infinity neg
  | LDecimal m e =>
      match of_decimal m e with
      | S754_zero _ => S754_zero neg
      | S754_finite _ p q => S754_finite neg p q
      | S754_infinity _ => S754_infinity neg
      | S754_nan => S754_nan
      end
  end.

(** [parseFloat]: leading white space is skipped, the longest prefix that
    is a decimal literal is read, and what follows it is ignored. *)
Definition parseFloat (s : string) : number :=
  match scan_signed (Str.trim_start s) with
  | Some (neg, l, _) => literal_value neg l
  | None => nan
  end.

Definition radix_digit (radix : Z) (c : ascii) : option Z :=
  let n := Z.of_nat (nat_of_ascii c) in
  let v := if (48 <=? n) && (n <=? 57) then n - 48
           else if (97 <=? n) && (n <=? 122) then n - 87
           else if (65 <=? n) && (n <=? 90) then n - 55
           else 99 in
  if v <? radix then Some v else None.

Fixpoint radix_value (radix acc : Z) (s : string) : option Z :=
  match s with
  | EmptyString => Some acc
  | String c r =>
      match radix_digit radix c with
      | Some v => radix_value radix (radix * acc + v) r
      | None => None
      end
  end.

(** [Number(string)] (StringToNumber): the whole trimmed string must be a
    numeric literal; the empty string is [0]. *)
Definition of_string (s : string) : number :=
  let t := Str.trim s in
  match t with
  | EmptyString => zero
  | String "0" (String x (String c r)) =>
      let radix := if Ascii.eqb x "x" || Ascii.eqb x "X" then 16
                   else if Ascii.eqb x "o" || Ascii.eqb x "O" then 8
                   else if Ascii.eqb x "b" || Ascii.eqb x "B" then 2
                   else 0 in
      if radix =? 0 then
        match scan_signed t with
        | Some (neg, l, EmptyString) => literal_value neg l
        | _ => nan
        end
      else
        match radix_value radix 0 (String c r) with
        | Some v => of_Z v
        | None => nan
        end
  | _ =>
      match scan_signed t with
      | Some (neg, l, EmptyString) => literal_value neg l
      | _ => nan
      end
  end.

End Num.

(* ================================================================= *)
(** ** Regular expressions

    The one pattern of the controller, [/^(\d+|\d+\.\d*|\d*\.\d+)$/], is
    anchored at both ends and has no flags, so [RegExp.prototype.test]
    holds exactly when the whole string belongs to the language of the
    pattern.  Patterns are matched by Brzozowski derivatives. *)

Module Regex.

Inductive regex :=
  | Never
  | Empty
  | Digit                       (* \d *)
  | Lit (c : ascii)
  | Alt (r s : regex)           (* r|s *)
  | Seq (r s : regex)           (* rs  *)
  | Star (r : regex).           (* r*  *)

(** [r+] *)
Definition Plus (r : regex) : regex := Seq r (Star r).

(** The language of a pattern. *)
Inductive Matches : regex -> string -> Prop :=
  | MEmpty : Matches Empty ""
  | MDigit c : Str.is_digit c = true -> Matches Digit (String c "")
  | MLit c : Matches (Lit c) (String c "")
  | MAltL r s w : Matches r w -> Matches (Alt r s) w
  | MAltR r s w : Matches s w -> Matches (Alt r s) w
  | MSeq r s u v : Matches r u -> Matches s v -> Matches (Seq r s) (u ++ v)
  | MStarNil r : Matches (Star r) ""
  | MStarApp r u v : Matches r u -> Matches (Star r) v -> Matches (Star r) (u ++ v).

Fixpoint nullable (r : regex) : bool :=
  match r with
  | Never | Digit | Lit _ => false
  | Empty | Star _ => true
  | Alt a b => nullable a || nullable b
  | Seq a b => nullable a && nullable b
  end.

Fixpoint deriv (c : ascii) (r : regex) : regex :=
  match r with
  | Never | Empty => Never
  | Digit => if Str.is_digit c then Empty else Never
  | Lit d => if Ascii.eqb c d then Empty else Never
  | Alt a b => Alt (deriv c a) (deriv c b)
  | Seq a b =>
      if nullable a then Alt (Seq (deriv c a) b) (deriv c b)
      else Seq (deriv c a) b
  | Star a => Seq (deriv c a) (Star a)
  end.

(** [/^r$/.test(s)] *)
Fixpoint test (r : regex) (s : string) : bool :=
  match s with
  | EmptyString => nullable r
  | String c t => test (deriv c r) t
  end.

End Regex.

(* ================================================================= *)
(** ** The sequence-range compactor ([seriesSequenceList])

    [getLibraryItems], for a collapsed-series row shown while filtering by
    a series, renders the sequence tokens of the row's books:

    [naturalSort(tokens).asc().reduce(step, []).map(render).join(', ')]

    The definitions below take the token list as [reduce] receives it,
    that is, already filtered (empty tokens dropped) and sorted. *)

Module SequenceList.

Import Regex.

(** [currentSequence] holds the token itself, or its [parseFloat] once the
    token has been recognised as a number. *)
Inductive seqval :=
  | SNum (n : Num.number)
  | SStr (s : string).

Record range := mkRange { start : seqval; end_ : seqval; isNumber : bool }.

(** [/^(\d+|\d+\.\d*|\d*\.\d+)$/] *)
Definition numberPattern : regex :=
  Alt (Plus Digit)
      (Alt (Seq (Plus Digit) (Seq (Lit ".") (Star Digit)))
           (Seq (Star Digit) (Seq (Lit ".") (Plus Digit)))).

Definition to_string (v : seqval) : string :=
  match v with
  | SNum n => Num.to_string n
  | SStr s => s
  end.

(** [v + 1]: numeric addition on a Number, concatenation on a string. *)
Definition plus_one (v : seqval) : seqval :=
  match v with
  | SNum n => SNum (Num.add n Num.one)
  | SStr s => SStr (s ++ "1")
  end.

(** [a == b]: like kinds compare directly, a string against a Number is
    first converted with [Number(string)]. *)
Definition loose_eq (a b : seqval) : bool :=
  match a, b with
  | SNum x, SNum y => Num.eqb x y
  | SStr s, SStr t => String.eqb s t
  | SNum x, SStr t => Num.eqb x (Num.of_string t)
  | SStr s, SNum y => Num.eqb (Num.of_string s) y
  end.

(** [ranges.at(-1)] *)
Fixpoint at_last (ranges : list range) : option range :=
  match ranges with
  | [] => None
  | [r] => Some r
  | _ :: rest => at_last rest
  end.

(** [lastRange.end = v], where [lastRange] aliases the last element. *)
Fixpoint set_last_end (v : seqval) (ranges : list range) : list range :=
  match ranges with
  | [] => []
  | [r] => [mkRange (start r) v (isNumber r)]
  | r :: rest => r :: set_last_end v rest
  end.

(** The spec's wording of the numeric pattern: one or more digits; or a
    decimal point with digits before it, after it, or both. *)
Definition spec_numeric_token (s : string) : Prop :=
  (s <> "" /\ Str.all_digits s = true)
  \/ exists ip fp,
       s = ip ++ "." ++ fp
       /\ Str.all_digits ip = true /\ Str.all_digits fp = true
       /\ (ip <> "" \/ fp <> "").

(** The value [currentSequence] holds after the first two statements of
    the reducer. *)
Definition token_value (token : string) : seqval :=
  if test numberPattern token then SNum (Num.parseFloat token) else SStr token.

(** The callback passed to [reduce]. *)
Definition reducer (ranges : list range) (currentSequence : string) : list range :=
  let lastRange := at_last ranges in
  let isNumber := test numberPattern currentSequence in
  let currentSequence := token_value currentSequence in
  match lastRange with
  | Some lastRange =>
      if isNumber && SequenceList.isNumber lastRange
         && loose_eq (plus_one (end_ lastRange)) currentSequence
      then set_last_end currentSequence ranges
      else ranges ++ [mkRange currentSequence currentSequence isNumber]
  | None => ranges ++ [mkRange currentSequence currentSequence isNumber]
  end.

(** The guard of the reducer's [if], given the last range. *)
Definition extends_guard (lastRange : range) (token : string) : bool :=
  test numberPattern token && isNumber lastRange
  && loose_eq (plus_one (end_ lastRange)) (token_value token).

(** Start and end of a range are of one kind: two Numbers in a numeric
    range, one and the same string otherwise. *)
Definition well_kinded (r : range) : Prop :=
  match start r, end_ r with
  | SNum _, SNum _ => isNumber r = true
  | SStr s, SStr t => s = t /\ isNumber r = false
  | _, _ => False
  end.

(** [tokens.reduce(reducer, [])] *)
Definition ranges_of (tokens : list string) : list range :=
  fold_left reducer tokens [].

(** [r => r.start == r.end ? r.start : `${r.start}-${r.end}`] *)
Definition render (r : range) : seqval :=
  if loose_eq (start r) (end_ r) then start r
  else SStr (to_string (start r) ++ "-" ++ to_string (end_ r)).

(** The spec's wording of the rendering: the start value alone when start
    equals end (the same Number, or the same string), ["start-end"]
    otherwise. *)
Definition spec_same (a b : seqval) : bool :=
  match a, b with
  | SNum x, SNum y => Num.eqb x y
  | SStr s, SStr t => String.eqb s t
  | _, _ => false
  end.

Definition spec_render (r : range) : string :=
  if spec_same (start r) (end_ r) then to_string (start r)
  else to_string (start r) ++ "-" ++ to_string (end_ r).

(** The text stored in [json.collapsedSeries.seriesSequenceList]. *)
Definition seriesSequenceList (tokens : list string) : string :=
  Str.join ", " (map (fun v => to_string v) (map render (ranges_of tokens))).

End SequenceList.

(* ================================================================= *)
(** ** JavaScript values

    Library items, collapsed-series rows and their metadata are objects
    whose attributes the controller reads by name, sometimes by a name
    taken from the request.  An object value lists its own properties,
    the getters of its class included.  What a value inherits beyond
    them (methods, [constructor], the properties of [Object.prototype],
    [String.prototype] and the like) is found in its prototype chain,
    which the read takes as a parameter.  A function, or another object
    of the runtime, is a [VNative] value. *)

Module JS.

Inductive value :=
  | VUndefined
  | VNull
  | VBool (b : bool)
  | VNum (n : Num.number)
  | VStr (s : string)
  | VArr (elems : list value)
  | VObj (props : list (string * value))
  | VNative (id text : string).   (* named [id], converts to the string [text] *)

(** The exceptions the modelled code can raise. *)
Inductive error :=
  | TypeError.

Inductive result (A : Type) :=
  | Ok (a : A)
  | Throw (e : error).

Arguments Ok {A} a.
Arguments Throw {A} e.

Definition bind {A B : Type} (m : result A) (k : A -> result B) : result B :=
  match m with
  | Ok a => k a
  | Throw e => Throw e
  end.

Notation "x <- m ;; k" := (bind m (fun x => k))
  (at level 61, m at next level, right associativity).
Notation "' p <- m ;; k" := (bind m (fun x => let 'p := x in k))
  (at level 61, p pattern, m at next level, right associativity).

(** [l.map(f)] where [f] may throw: the first exception ends the walk. *)
Fixpoint mapM {A B : Type} (f : A -> result B) (l : list A) : result (list B) :=
  match l with
  | [] => Ok []
  | a :: r => b <- f a ;; bs <- mapM f r ;; Ok (b :: bs)
  end.

(** ToBoolean *)
Definition truthy (v : value) : bool :=
  match v with
  | VUndefined | VNull => false
  | VBool b => b
  | VNum n =>
      match n with
      | S754_zero _ | S754_nan => false
      | _ => true
      end
  | VStr s => negb (String.eqb s "")
  | VArr _ | VObj _ | VNative _ _ => true
  end.

Definition nullish (v : value) : bool :=
  match v with
  | VUndefined | VNull => true
  | _ => false
  end.

Fixpoint assoc {V : Type} (k : string) (props : list (string * V)) : option V :=
  match props with
  | [] => None
  | (k', v) :: r => if String.eqb k k' then Some v else assoc k r
  end.

(** An array index: the canonical decimal form of an integer between [0]
    and [2^32 - 2]. *)
Definition array_index (k : string) : option N :=
  match k with
  | EmptyString => None
  | String "0" EmptyString => Some 0%N
  | String "0" _ => None
  | _ =>
      if Str.all_digits k then
        let v := Str.digits_value 0 k in
        if v <? 4294967295 then Some (Z.to_N v) else None
      else None
  end.

(** The own property [b] of [a]: a property an object lists, the
    [length] and the elements of an array, the [length] and the
    characters of a string.  A [VNative] value lists none: its
    properties are given with the prototype chains. *)
Definition own (a : value) (b : string) : option value :=
  match a with
  | VObj props => assoc b props
  | VArr elems =>
      if String.eqb b "length" then Some (VNum (Num.of_Z (Z.of_nat (List.length elems))))
      else
        match array_index b with
        | Some i => nth_error elems (N.to_nat i)
        | None => None
        end
  | VStr s =>
      if String.eqb b "length" then Some (VNum (Num.of_Z (Z.of_nat (String.length s))))
      else
        match array_index b with
        | Some i =>
            match String.get (N.to_nat i) s with
            | Some c => Some (VStr (String c EmptyString))
            | None => None
            end
        | None => None
        end
  | _ => None
  end.

(** What the prototype chain of a value holds under a name: nothing, a
    value, or an accessor whose call throws.  For a [VNative] value it
    gives the own properties as well. *)
Definition prototypes := value -> string -> option (result value).

(** [a[b]], the property read: it throws on [undefined] and [null]; an
    own property is read first, then the prototype chain; a property
    that is in neither reads as [undefined]. *)
Definition get (inherited : prototypes) (a : value) (b : string) : result value :=
  if nullish a then Throw TypeError
  else
    match own a b with
    | Some v => Ok v
    | None =>
        match inherited a b with
        | Some r => r
        | None => Ok VUndefined
        end
    end.

(** [a?.b] *)
Definition get_opt (inherited : prototypes) (a : value) (b : string) : result value :=
  if nullish a then Ok VUndefined else get inherited a b.

(** [a || b], with [b] evaluated only when [a] is falsy. *)
Definition or_else (a : value) (b : result value) : result value :=
  if truthy a then Ok a else b.

(** ToString *)
Fixpoint to_string (v : value) : string :=
  match v with
  | VUndefined => "undefined"
  | VNull => "null"
  | VBool b => if b then "true" else "false"
  | VNum n => Num.to_string n
  | VStr s => s
  | VArr elems =>
      Str.join "," (map (fun e => if nullish e then "" else to_string e) elems)
  | VObj _ => "[object Object]"
  | VNative _ text => text
  end.

End JS.

(* ================================================================= *)
(** ** [Array.prototype.slice] on integer bounds

    [slice] with bounds that are integers, as used for the result cap of
    [search], and the page step read on the integers: what the step on
    Numbers ([NumberPaging.limitItems]) comes to when [limit] and [page]
    are integers in the exact range. *)

Module Paging.

(** [l.slice(start, end)]: a negative bound counts from the end of the
    array, and both bounds are clamped to [0 .. l.length]. *)
Definition slice {A : Type} (start end_ : Z) (l : list A) : list A :=
  let len := Z.of_nat (List.length l) in
  let k := if start <? 0 then Z.max (len + start) 0 else Z.min start len in
  let final := if end_ <? 0 then Z.max (len + end_) 0 else Z.min end_ len in
  firstn (Z.to_nat (final - k)) (skipn (Z.to_nat k) l).

(** The position a bound of [slice] denotes: a negative bound counts from
    the end of the list. *)
Definition relative (len bound : Z) : Z :=
  if bound <? 0 then len + bound else bound.

(** A numeric query parameter as the code classifies it:
    [p && !isNaN(p) ? Number(p) : dflt]. *)
Inductive query_number :=
  | QAbsent                 (* missing, or the empty string *)
  | QNotNumber              (* present, [isNaN] *)
  | QNumber (z : Z).        (* present, [Number(p)] is the integer [z] *)

Definition number_or (p : query_number) (dflt : Z) : Z :=
  match p with
  | QNumber z => z
  | QAbsent | QNotNumber => dflt
  end.

(** The page step on integers: no limit keeps the list, otherwise
    [items.slice(page * limit, page * limit + limit)]. *)
Definition limitItems {A : Type} (limit page : Z) (libraryItems : list A) : list A :=
  if limit =? 0 then libraryItems
  else
    let startIndex := page * limit in
    slice startIndex (startIndex + limit) libraryItems.

(** The spec's slice: the elements at the positions [i] of the list with
    [lo <= i < hi]. *)
Definition spec_slice {A : Type} (lo hi : Z) (l : list A) : list A :=
  map snd (filter (fun p => (lo <=? Z.of_nat (fst p)) && (Z.of_nat (fst p) <? hi))
                  (combine (seq 0 (List.length l)) l)).

End Paging.

(* ================================================================= *)
(** ** Query parameters

    Every listing endpoint reads [include], [limit] and [page] from the
    query string in the same way. *)

Module Query.

Import JS.

Local Open Scope list_scope.

(** [String.prototype.toLowerCase] on one code unit below 256: the
    letters A to Z and the accented capitals U+00C0 to U+00DE, the
    multiplication sign U+00D7 excepted, move up by 32. *)
Definition to_lower (c : ascii) : ascii :=
  let n := nat_of_ascii c in
  if ((65 <=? n) && (n <=? 90)
      || (192 <=? n) && (n <=? 222) && negb (n =? 215))%nat
  then ascii_of_nat (n + 32) else c.

Fixpoint toLowerCase (s : string) : string :=
  match s with
  | EmptyString => EmptyString
  | String c r => String (to_lower c) (toLowerCase r)
  end.

(** [p || ''] for a parameter that is a string or missing. *)
Definition or_empty (p : option string) : string :=
  match p with
  | Some s => s
  | None => ""%string
  end.

(** [(req.query.include || '').split(',').map(v => v.trim().toLowerCase()).filter(v => !!v)] *)
Definition include (p : option string) : list string :=
  filter (fun v => negb (String.eqb v ""))
         (map (fun v => toLowerCase (Str.trim v)) (Str.split "," (or_empty p))).

(** [payload.include]: [include.join(',')] *)
Definition payload_include (p : option string) : string :=
  Str.join "," (include p).

(** [findOne]: [(req.query.include || '').split(',')] *)
Definition includeArray (p : option string) : list string :=
  Str.split "," (or_empty p).

(** [Array.prototype.includes] on an array of strings. *)
Definition includes (x : string) (l : list string) : bool :=
  existsb (String.eqb x) l.

Definition is_nan (x : Num.number) : bool :=
  match x with
  | S754_nan => true
  | _ => false
  end.

(** [p && !isNaN(p) ? Number(p) : dflt], for a parameter that is a string
    or missing; [isNaN] converts its argument with [Number]. *)
Definition number_or (p : option string) (dflt : Num.number) : Num.number :=
  match p with
  | Some s =>
      if negb (String.eqb s "") && negb (is_nan (Num.of_string s))
      then Num.of_string s else dflt
  | None => dflt
  end.

(** [payload.limit] and [payload.page] *)
Definition limit (p : option string) : Num.number := number_or p Num.zero.
Definition page (p : option string) : Num.number := number_or p Num.zero.

(** [x || y] on Numbers. *)
Definition or_number (x y : Num.number) : Num.number :=
  if truthy (VNum x) then x else y.

(** [limitPerShelf]:
    [req.query.limit && !isNaN(req.query.limit) ? Number(req.query.limit) || 10 : 10] *)
Definition limitPerShelf (p : option string) : Num.number :=
  match p with
  | Some s =>
      if negb (String.eqb s "") && negb (is_nan (Num.of_string s))
      then or_number (Num.of_string s) (Num.of_Z 10) else Num.of_Z 10
  | None => Num.of_Z 10
  end.

End Query.

(* ================================================================= *)
(** ** The page/limit step on Numbers

    [payload.limit] and [payload.page] are Numbers: [page * limit] and
    [startIndex + limit] are double-precision operations, and [slice]
    converts its bounds with ToIntegerOrInfinity. *)

Module NumberPaging.

Import JS.

Local Open Scope list_scope.

Definition mul (x y : Num.number) : Num.number := SFmul Num.prec Num.emax x y.

Inductive integer_or_infinity :=
  | NegInfinity
  | Finite (z : Z)
  | PosInfinity.

(** ToIntegerOrInfinity: [NaN] and the zeros give 0, a finite Number is
    truncated towards zero. *)
Definition ToIntegerOrInfinity (x : Num.number) : integer_or_infinity :=
  match x with
  | S754_nan | S754_zero _ => Finite 0
  | S754_infinity s => if s then NegInfinity else PosInfinity
  | S754_finite s m e =>
      let magnitude := match e with
                       | Zneg k => Zpos m / 2 ^ Zpos k
                       | _ => Zpos m * 2 ^ e
                       end in
      Finite (if s then - magnitude else magnitude)
  end.

(** The position a bound of [slice] denotes in an array of length [len]. *)
Definition clamp (len : Z) (bound : integer_or_infinity) : Z :=
  match bound with
  | NegInfinity => 0
  | Finite z => if z <? 0 then Z.max (len + z) 0 else Z.min z len
  | PosInfinity => len
  end.

(** [l.slice(start, end)] with Number bounds. *)
Definition slice {A : Type} (start end_ : Num.number) (l : list A) : list A :=
  let len := Z.of_nat (List.length l) in
  let k := clamp len (ToIntegerOrInfinity start) in
  let final := clamp len (ToIntegerOrInfinity end_) in
  firstn (Z.to_nat (final - k)) (skipn (Z.to_nat k) l).

(** [if (payload.limit) { const startIndex = payload.page * payload.limit;
     items = items.slice(startIndex, startIndex + payload.limit) }] *)
Definition limitItems {A : Type} (limit page : Num.number) (items : list A) : list A :=
  if truthy (VNum limit) then
    let startIndex := mul page limit in
    slice startIndex (Num.add startIndex limit) items
  else items.

End NumberPaging.

(* ================================================================= *)
(** ** Sorting ([naturalSort(...).by(sortArray)]) *)

Module Sorting.

Import JS.

Inductive direction :=
  | Asc
  | Desc.

(** One entry of [sortArray]: [{ asc: f }] or [{ desc: f }]. *)
Record sorter := mkSorter { dir : direction; extract : value -> result value }.

(** The comparer given to [createNewSortInstance] is the [compare] of
    [Intl.Collator(undefined, { numeric: true, sensitivity: 'base' })],
    which converts its two arguments with ToString and compares the
    strings: an [undefined] key is compared as the text ["undefined"], a
    [null] key as ["null"]. *)
Definition rank (v : value) : string := to_string v.

Section Chain.

(** The natural comparator on strings. *)
Variable collate : string -> string -> comparison.

Definition directed (d : direction) (c : comparison) : comparison :=
  match d with
  | Asc => c
  | Desc => CompOpp c
  end.

(** Modelled from the spec: the entries of [sortArray] form a
    lexicographic composite order; the first comparator that does not tie
    decides, ties fall through to the next ([libs/fastSort] is not under
    src/). *)
Fixpoint compare_keys (dirs : list direction) (ka kb : list string) : comparison :=
  match dirs, ka, kb with
  | d :: ds, a :: ka', b :: kb' =>
      match directed d (collate a b) with
      | Eq => compare_keys ds ka' kb'
      | c => c
      end
  | _, _, _ => Eq
  end.

(** Modelled from the spec: the sort is stable.  [Array.prototype.sort],
    which [libs/fastSort] calls, is not under src/; it is modelled by
    insertion from the right, which places an element before the first
    element that does not precede it. *)
Fixpoint insert {A : Type} (cmp : A -> A -> comparison) (x : A) (l : list A) : list A :=
  match l with
  | [] => [x]
  | y :: r =>
      match cmp x y with
      | Gt => y :: insert cmp x r
      | _ => x :: l
      end
  end.

Definition sort {A : Type} (cmp : A -> A -> comparison) (l : list A) : list A :=
  fold_right (insert cmp) [] l.

(** [a] does not come after [b]. *)
Definition le {A : Type} (cmp : A -> A -> comparison) (a b : A) : Prop :=
  cmp a b <> Gt.

(** [x] and [y] tie. *)
Definition tiedb {A : Type} (cmp : A -> A -> comparison) (x y : A) : bool :=
  match cmp x y with
  | Eq => true
  | _ => false
  end.

(** The ranks of the keys the entries of [sortArray] extract from a row. *)
Definition keys_of (sortArray : list sorter) (li : value) : result (list string) :=
  mapM (fun s => v <- extract s li ;; Ok (rank v)) sortArray.

Definition compare_rows (sortArray : list sorter)
    (a b : value * list string) : comparison :=
  compare_keys (map dir sortArray) (snd a) (snd b).

(** [naturalSort(libraryItems).by(sortArray)].  The keys of all rows are
    extracted before the rows are compared; an extractor that throws ends
    the request. *)
Definition naturalSortBy (sortArray : list sorter) (libraryItems : list value)
  : result (list value) :=
  keyed <- mapM (fun li => ks <- keys_of sortArray li ;; Ok (li, ks)) libraryItems ;;
  Ok (map fst (sort (compare_rows sortArray) keyed)).

(** The ranks a row is sorted by ([[]] if an extractor throws). *)
Definition key_ranks (sortArray : list sorter) (li : value) : list string :=
  match keys_of sortArray li with
  | Ok ks => ks
  | Throw _ => []
  end.

(** Do two rows have equal keys under the entire chain? *)
Definition tied (sortArray : list sorter) (x y : value) : bool :=
  match compare_keys (map dir sortArray) (key_ranks sortArray x) (key_ranks sortArray y) with
  | Eq => true
  | _ => false
  end.

End Chain.

(** A row paired with the ranks of its keys. *)
Definition good_row (sortArray : list sorter) (row : value * list string) : Prop :=
  keys_of sortArray (fst row) = Ok (snd row).

(** What the proofs ask of the comparator: it is a total preorder. *)
Record Collator (collate : string -> string -> comparison) : Prop := {
  collate_refl : forall s, collate s s = Eq;
  collate_antisym : forall s t, collate t s = CompOpp (collate s t);
  collate_trans : forall s t u,
      collate s t <> Gt -> collate t u <> Gt -> collate s u <> Gt
}.

(** *** A reference comparator

    A comparator with the two traits the spec lists: letters compare
    without regard to case, and a run of digits compares by its numeric
    value.  A string is cut into tokens, each a class (characters below
    the digits, numbers, other characters) followed by a value, and the
    token lists are compared lexicographically. *)

Definition lower (c : ascii) : N :=
  let n := N_of_ascii c in
  if ((65 <=? n) && (n <=? 90))%N then (n + 32)%N else n.

Fixpoint tokens (fuel : nat) (s : string) : list N :=
  match fuel with
  | O => []
  | S f =>
      match s with
      | EmptyString => []
      | String c r =>
          if Str.is_digit c then
            let '(ds, rest) := Str.span_digits s in
            1%N :: Z.to_N (Str.digits_value 0 ds) :: tokens f rest
          else
            (if (N_of_ascii c <? 48)%N then 0%N else 2%N) :: lower c :: tokens f r
      end
  end.

Fixpoint lex (a b : list N) : comparison :=
  match a, b with
  | [], [] => Eq
  | [], _ :: _ => Lt
  | _ :: _, [] => Gt
  | x :: a', y :: b' =>
      match N.compare x y with
      | Eq => lex a' b'
      | c => c
      end
  end.

Definition reference_collate (s t : string) : comparison :=
  lex (tokens (String.length s) s) (tokens (String.length t) t).

End Sorting.

(* ================================================================= *)
(** ** [getLibraryItems] *)

Module Items.

Import JS Sorting NumberPaging.

(** The collaborators of the controller that are not under src/, and the
    runtime. *)
Record Env := {
  (** the prototype chains of the values: what a read finds beyond the
      own properties *)
  inherited : prototypes;
  (** [Database.serverSettings.sortingIgnorePrefix] *)
  sortingIgnorePrefix : bool;
  (** [libraryHelpers.decode] *)
  decode : string -> string;
  (** [libraryHelpers.getFilteredLibraryItems(libraryItems, filterBy, req.user)] *)
  getFilteredLibraryItems : list value -> string -> list value;
  (** [libraryHelpers.collapseBookSeries(libraryItems, Database.series,
      filterSeries, hideSingleBookSeries)] *)
  collapseBookSeries : list value -> option string -> list value;
  (** [metadata.getSeries(seriesId)] on the metadata object [metadata] *)
  getSeries : value -> string -> result value;
  (** [metadata.getSeriesSortTitle(series)] *)
  getSeriesSortTitle : value -> value -> result value;
  (** [Intl.Collator(undefined, { numeric: true, sensitivity: 'base' }).compare] *)
  naturalCompare : string -> string -> comparison
}.

(** The request: the accessible items, the library's media type and the
    query parameters the pipeline reads. *)
Record request := {
  libraryItems : list value;          (* req.libraryItems *)
  mediaType : string;                 (* req.library.mediaType *)
  q_limit : option string;            (* req.query.limit *)
  q_page : option string;             (* req.query.page *)
  q_sort : option string;             (* req.query.sort *)
  q_desc : option string;             (* req.query.desc *)
  q_filter : option string;           (* req.query.filter *)
  q_collapseseries : option string    (* req.query.collapseseries *)
}.

(** The part of [payload] computed before the rows are projected. *)
Record payload := {
  results : list value;
  total : nat;
  limit : Num.number;
  page : Num.number;
  sortBy : option string;
  sortDesc : bool;
  filterBy : option string;
  collapseseries : bool
}.

(** [p === '1'] *)
Definition is_one (p : option string) : bool :=
  match p with
  | Some s => String.eqb s "1"
  | None => false
  end.

(** Truthiness of a string that may be [undefined] or [null]. *)
Definition given (p : option string) : bool :=
  match p with
  | Some s => negb (String.eqb s "")
  | None => false
  end.

Section Pipeline.

Variable E : Env.

(** [a[b]] *)
Definition get (a : value) (b : string) : result value := JS.get (inherited E) a b.

(** [a?.b] *)
Definition get_opt (a : value) (b : string) : result value :=
  JS.get_opt (inherited E) a b.


(** [li.a.b.c], each read throwing on [undefined] and [null]. *)
Definition path (li : value) (names : list string) : result value :=
  fold_left (fun a b => a' <- a ;; get a' b) names (Ok li).

(** [sortKey.split('.').reduce((a, b) => a[b], li)] *)
Definition resolve (sortKey : string) (li : value) : result value :=
  path li (Str.split "." sortKey).

(** [li.media.metadata.getSeries(filterSeries).sequence] *)
Definition sequenceInSeries (filterSeries : string) (li : value) : result value :=
  metadata <- path li ["media"; "metadata"] ;;
  series <- getSeries E metadata filterSeries ;;
  get series "sequence".

(** [li.collapsedSeries?.name || li.media.metadata.title], with the
    article-stripped names when the server ignores prefixes. *)
Definition nameOrTitle (li : value) : result value :=
  collapsedSeries <- get li "collapsedSeries" ;;
  if sortingIgnorePrefix E then
    name <- get_opt collapsedSeries "nameIgnorePrefix" ;;
    or_else name (path li ["media"; "metadata"; "titleIgnorePrefix"])
  else
    name <- get_opt collapsedSeries "name" ;;
    or_else name (path li ["media"; "metadata"; "title"]).

(** [li.collapsedSeries.name], article-stripped when the server ignores
    prefixes. *)
Definition collapsedName (li : value) : result value :=
  collapsedSeries <- get li "collapsedSeries" ;;
  get collapsedSeries
      (if sortingIgnorePrefix E then "nameIgnorePrefix" else "name").

(** The tie-break that sorts collapsed series after the plain rows. *)
Definition collapsedLast (li : value) : result value :=
  collapsedSeries <- get li "collapsedSeries" ;;
  if truthy collapsedSeries then collapsedName li else Ok (VStr "").

(** The primary comparator's key. *)
Definition primaryKey (mediaIsBook sortBySequence sortByTitle : bool)
    (filterSeries sortKey : string) (li : value) : result value :=
  if mediaIsBook && sortBySequence then sequenceInSeries filterSeries li
  else
    collapsedSeries <- (if mediaIsBook && sortByTitle
                        then get li "collapsedSeries" else Ok VUndefined) ;;
    if mediaIsBook && sortByTitle && truthy collapsedSeries then collapsedName li
    else resolve sortKey li.

(** The secondary key when sorting books by author: the sort title of the
    first series of the book, or [null]. *)
Definition seriesSortTitle (li : value) : result value :=
  metadata <- path li ["media"; "metadata"] ;;
  series <- get metadata "series" ;;
  hasSeries <- (if truthy series
                then len <- get series "length" ;; Ok (truthy len)
                else Ok false) ;;
  if hasSeries then
    first <- get series "0" ;;
    getSeriesSortTitle E metadata first
  else Ok VNull.

(** Step 3: the entries pushed on [sortArray], in order. *)
Definition sortArray (mediaIsBook collapseseries sortDesc : bool)
    (filterSeries sortBy : option string) : list sorter :=
  (if given filterSeries && negb (given sortBy) then
     [ mkSorter Asc (sequenceInSeries (match filterSeries with Some s => s | None => "" end));
       mkSorter Asc nameOrTitle ]
   else [])
  ++
  match sortBy with
  | Some sortBy =>
      if negb (String.eqb sortBy "") then
        let sortByTitle := String.eqb sortBy "media.metadata.title" in
        let sortKey := if sortByTitle && sortingIgnorePrefix E
                       then sortBy ++ "IgnorePrefix" else sortBy in
        let sortBySequence := given filterSeries && String.eqb sortKey "sequence" in
        (if collapseseries && negb (sortByTitle || sortBySequence)
         then [ mkSorter Asc collapsedLast ] else [])
        ++ [ mkSorter (if sortDesc then Desc else Asc)
                      (primaryKey mediaIsBook sortBySequence sortByTitle
                                  (match filterSeries with Some s => s | None => "" end)
                                  sortKey) ]
        ++ (if mediaIsBook && Str.includes "author" sortBy
            then [ mkSorter Asc seriesSortTitle ] else [])
      else []
  | None => []
  end.

(** The entries of [sortArray] but the last, for a library of books. *)
Definition entries_before_series (collapseseries sortDesc : bool)
    (filterSeries : option string) (sortBy : string) : list sorter :=
  removelast (sortArray true collapseseries sortDesc filterSeries (Some sortBy)).

(** Step 1: the filtered items, [payload.total] and [filterSeries]. *)
Definition filterStep (mediaIsBook : bool) (filterBy : option string)
    (items : list value) (total : nat) : list value * nat * option string :=
  match filterBy with
  | Some f =>
      if negb (String.eqb f "") then
        let items' := getFilteredLibraryItems E items f in
        let filterSeries :=
          match Str.prefix_rest "series." f with
          | Some rest => if mediaIsBook then Some (decode E rest) else None
          | None => None
          end in
        (items', List.length items',
         match filterSeries with
         | Some s => if String.eqb s "no-series" then None else Some s
         | None => None
         end)
      else (items, total, None)
  | None => (items, total, None)
  end.

(** The guard of Step 2:
    [collapsedItems.length == 1 && collapsedItems[0].collapsedSeries]. *)
Definition singleCollapsedSeries (collapsedItems : list value) : result bool :=
  match collapsedItems with
  | [row] => c <- get row "collapsedSeries" ;; Ok (truthy c)
  | _ => Ok false
  end.

(** Step 2: the working set and [payload.total] after the optional
    collapse. *)
Definition collapseStep (collapseseries : bool) (filterSeries : option string)
    (items : list value) (total : nat) : result (list value * nat) :=
  if collapseseries then
    let collapsedItems := collapseBookSeries E items filterSeries in
    single <- singleCollapsedSeries collapsedItems ;;
    if negb single then Ok (collapsedItems, List.length collapsedItems)
    else Ok (items, total)
  else Ok (items, total).

(** Step 3, applied: [if (sortArray.length) items = naturalSort(items).by(sortArray)]. *)
Definition sortStep (entries : list sorter) (items : list value) : result (list value) :=
  match entries with
  | [] => Ok items
  | _ => naturalSortBy (naturalCompare E) entries items
  end.

(** Steps 1 to 3.5 of [getLibraryItems]; [results] holds the rows that
    Step 4 then projects one by one. *)
Definition getLibraryItems (req : request) : result payload :=
  let limit := Query.limit (q_limit req) in
  let page := Query.page (q_page req) in
  let sortDesc := is_one (q_desc req) in
  let collapseseries := is_one (q_collapseseries req) in
  let mediaIsBook := String.eqb (mediaType req) "book" in
  let '(filtered, total1, filterSeries) :=
    filterStep mediaIsBook (q_filter req) (libraryItems req)
               (List.length (libraryItems req)) in
  '(working, total2) <- collapseStep collapseseries filterSeries filtered total1 ;;
  sorted <- sortStep (sortArray mediaIsBook collapseseries sortDesc filterSeries
                                (q_sort req)) working ;;
  Ok {| results := limitItems limit page sorted;
        total := total2;
        limit := limit;
        page := page;
        sortBy := q_sort req;
        sortDesc := sortDesc;
        filterBy := q_filter req;
        collapseseries := collapseseries |}.

End Pipeline.

End Items.

(* ================================================================= *)
(** ** Plain objects used as dictionaries

    [search] collects its facets in objects created with [{}] and reads
    them back with [Object.values].  Two traits of such objects show in
    the results: a read [d[k]] also finds what the object inherits from
    [Object.prototype], and [Object.values] lists the properties whose
    keys are array indices first, in ascending numeric order, before the
    other properties in the order of their creation. *)

Module Dict.

Local Open Scope list_scope.

Definition dict (V : Type) := list (string * V).

(** The property names an object created with [{}] inherits. *)
Definition inherited_names : list string :=
  [ "constructor"; "__proto__"; "hasOwnProperty"; "isPrototypeOf";
    "propertyIsEnumerable"; "toLocaleString"; "toString"; "valueOf";
    "__defineGetter__"; "__defineSetter__"; "__lookupGetter__";
    "__lookupSetter__" ].

Definition inherited (k : string) : bool := existsb (String.eqb k) inherited_names.

(** What a read [d[k]] finds. *)
Inductive lookup (V : Type) :=
  | Own (v : V)          (* a property of [d] itself *)
  | Inherited            (* a property of [Object.prototype]: truthy *)
  | Absent.              (* [undefined] *)

Arguments Own {V} v.
Arguments Inherited {V}.
Arguments Absent {V}.

Definition get {V : Type} (d : dict V) (k : string) : lookup V :=
  match JS.assoc k d with
  | Some v => Own v
  | None => if inherited k then Inherited else Absent
  end.

(** [d[k] = v], for a key [d] does not own yet. *)
Definition add {V : Type} (k : string) (v : V) (d : dict V) : dict V :=
  d ++ [(k, v)].

(** In-place change of the value stored under [k]. *)
Fixpoint update {V : Type} (k : string) (f : V -> V) (d : dict V) : dict V :=
  match d with
  | [] => []
  | (k', v) :: r =>
      if String.eqb k k' then (k', f v) :: r else (k', v) :: update k f r
  end.

Definition keys {V : Type} (d : dict V) : list string := map fst d.

Fixpoint insert_index {V : Type} (i : N) (v : V) (l : list (N * V)) : list (N * V) :=
  match l with
  | [] => [(i, v)]
  | (j, w) :: r => if (i <? j)%N then (i, v) :: l else (j, w) :: insert_index i v r
  end.

(** The properties under array-index keys, in ascending order of index. *)
Fixpoint indexed {V : Type} (d : dict V) : list (N * V) :=
  match d with
  | [] => []
  | (k, v) :: r =>
      match JS.array_index k with
      | Some i => insert_index i v (indexed r)
      | None => indexed r
      end
  end.

(** The properties under the other keys, in order of creation. *)
Definition named {V : Type} (d : dict V) : list (string * V) :=
  filter (fun kv => match JS.array_index (fst kv) with
                    | Some _ => false
                    | None => true
                    end) d.

(** [Object.values(d)] *)
Definition values {V : Type} (d : dict V) : list V :=
  map snd (indexed d) ++ map snd (named d).

Definition mem (k : string) (l : list string) : bool := existsb (String.eqb k) l.

(** How many times [k] occurs in [l]. *)
Definition occurrences (k : string) (l : list string) : Z :=
  Z.of_nat (List.length (filter (String.eqb k) l)).

(** The members of [l] in order of first occurrence. *)
Fixpoint first_occurrences (seen l : list string) : list string :=
  match l with
  | [] => []
  | x :: r =>
      if existsb (String.eqb x) seen then first_occurrences seen r
      else x :: first_occurrences (x :: seen) r
  end.

End Dict.

(* ================================================================= *)
(** ** [search] *)

Module Search.

Import JS Paging.

Local Open Scope list_scope.

(** A row of [Database.series] or [Database.authors]. *)
Record entity (J : Type) := { id : string; toJSON : J }.

Arguments id {J} e.
Arguments toJSON {J} e.

Section Model.

(** Library items and the JSON projections the controller asks of them
    and of the series and authors of the database. *)
Context {Item ItemJSON ItemExpanded SeriesJSON AuthorJSON : Type}.

(** What [li.searchQuery(q)] returns, as far as [search] reads it; an
    absent list reads like an empty one. *)
Record QueryResult := {
  matchKey : option string;
  matchText : option string;
  series : list string;       (* the [id] of each entry *)
  authors : list string;      (* the [id] of each entry *)
  tags : list string;
  narrators : list string
}.

Record Env := {
  searchQuery : Item -> string -> QueryResult;     (* li.searchQuery(q) *)
  itemJSON : Item -> ItemJSON;                     (* li.toJSON() *)
  itemExpanded : Item -> ItemExpanded;             (* li.toJSONExpanded() *)
  Database_series : list (entity SeriesJSON);
  Database_authors : list (entity AuthorJSON)
}.

Record request := {
  q : option string;             (* req.query.q *)
  q_limit : query_number;        (* req.query.limit *)
  libraryItems : list Item;      (* req.libraryItems *)
  mediaType : string             (* req.library.mediaType *)
}.

Record ItemMatch := {
  libraryItem : ItemExpanded;
  im_matchKey : option string;
  im_matchText : option string
}.

Record SeriesMatch := { sm_series : SeriesJSON; sm_books : list ItemJSON }.
Record AuthorMatch := { am_author : AuthorJSON; numBooks : Z }.
Record NamedMatch := { name : string; books : list ItemJSON }.

(** The five accumulators of the scan. *)
Record matches := {
  itemMatches : list ItemMatch;
  authorMatches : Dict.dict AuthorMatch;
  narratorMatches : Dict.dict NamedMatch;
  seriesMatches : Dict.dict SeriesMatch;
  tagMatches : Dict.dict NamedMatch
}.

Definition no_matches : matches :=
  {| itemMatches := []; authorMatches := []; narratorMatches := [];
     seriesMatches := []; tagMatches := [] |}.

(** [table.find(e => e.id === id)] *)
Definition find_entity {J : Type} (table : list (entity J)) (i : string)
  : option (entity J) :=
  find (fun e => String.eqb (id e) i) table.

Variable E : Env.

(** The body of [queryResult.series.forEach].  Under an inherited name
    [seriesMatches[se.id]] is truthy and has no [books]: the [push]
    throws. *)
Definition addSeries (li : Item) (d : Dict.dict SeriesMatch) (se : string)
  : result (Dict.dict SeriesMatch) :=
  match Dict.get d se with
  | Dict.Absent =>
      match find_entity (Database_series E) se with
      | Some _series =>
          Ok (Dict.add se {| sm_series := toJSON _series;
                             sm_books := [itemJSON E li] |} d)
      | None => Ok d
      end
  | Dict.Own _ =>
      Ok (Dict.update se (fun m => {| sm_series := sm_series m;
                                      sm_books := sm_books m ++ [itemJSON E li] |}) d)
  | Dict.Inherited => Throw TypeError
  end.

(** The body of [queryResult.authors.forEach].  Under an inherited name
    [authorMatches[au.id].numBooks++] counts on the inherited object and
    leaves [authorMatches] as it is. *)
Definition addAuthor (d : Dict.dict AuthorMatch) (au : string)
  : Dict.dict AuthorMatch :=
  match Dict.get d au with
  | Dict.Absent =>
      match find_entity (Database_authors E) au with
      | Some _author =>
          Dict.add au {| am_author := toJSON _author; numBooks := 1 |} d
      | None => d
      end
  | Dict.Own _ =>
      Dict.update au (fun m => {| am_author := am_author m;
                                  numBooks := numBooks m + 1 |}) d
  | Dict.Inherited => d
  end.

(** The body of [queryResult.tags.forEach] and of
    [queryResult.narrators.forEach]. *)
Definition addNamed (li : Item) (d : Dict.dict NamedMatch) (n : string)
  : result (Dict.dict NamedMatch) :=
  match Dict.get d n with
  | Dict.Absent => Ok (Dict.add n {| name := n; books := [itemJSON E li] |} d)
  | Dict.Own _ =>
      Ok (Dict.update n (fun m => {| name := name m;
                                     books := books m ++ [itemJSON E li] |}) d)
  | Dict.Inherited => Throw TypeError
  end.

(** [l.forEach(x => { d = f(d, x) })], where [f] may throw. *)
Fixpoint foldM {A S : Type} (f : S -> A -> result S) (l : list A) (s : S) : result S :=
  match l with
  | [] => Ok s
  | a :: r => s' <- f s a ;; foldM f r s'
  end.

(** The body of [libraryItems.forEach]. *)
Definition scanItem (query : string) (m : matches) (li : Item) : result matches :=
  let queryResult := searchQuery E li query in
  let items :=
    if Items.given (matchKey queryResult)
    then itemMatches m ++ [ {| libraryItem := itemExpanded E li;
                               im_matchKey := matchKey queryResult;
                               im_matchText := matchText queryResult |} ]
    else itemMatches m in
  sers <- foldM (addSeries li) (series queryResult) (seriesMatches m) ;;
  let auths := fold_left addAuthor (authors queryResult) (authorMatches m) in
  tgs <- foldM (addNamed li) (tags queryResult) (tagMatches m) ;;
  nars <- foldM (addNamed li) (narrators queryResult) (narratorMatches m) ;;
  Ok {| itemMatches := items; authorMatches := auths; narratorMatches := nars;
        seriesMatches := sers; tagMatches := tgs |}.

(** [libraryItems.forEach(...)], with the items whose [searchQuery] was
    called. *)
Fixpoint scan (query : string) (m : matches) (items : list Item)
  : list Item * result matches :=
  match items with
  | [] => ([], Ok m)
  | li :: rest =>
      match scanItem query m li with
      | Ok m' => let '(seen, r) := scan query m' rest in (li :: seen, r)
      | Throw e => ([li], Throw e)
      end
  end.

(** What the scan reads from the items, in scan order. *)
Definition all_tags (query : string) (items : list Item) : list string :=
  flat_map (fun li => tags (searchQuery E li query)) items.

Definition all_narrators (query : string) (items : list Item) : list string :=
  flat_map (fun li => narrators (searchQuery E li query)) items.

Definition all_authors (query : string) (items : list Item) : list string :=
  flat_map (fun li => authors (searchQuery E li query)) items.

Definition all_series (query : string) (items : list Item) : list string :=
  flat_map (fun li => series (searchQuery E li query)) items.

Definition all_item_matches (query : string) (items : list Item) : list ItemMatch :=
  flat_map (fun li =>
              let queryResult := searchQuery E li query in
              if Items.given (matchKey queryResult)
              then [ {| libraryItem := itemExpanded E li;
                        im_matchKey := matchKey queryResult;
                        im_matchText := matchText queryResult |} ]
              else []) items.

(** Can an id become a key of a facet: it names a row of the table and
    is not a name that [{}] inherits. *)
Definition resolvable {J : Type} (table : list (entity J)) (i : string) : bool :=
  match find_entity table i with
  | Some _ => negb (Dict.inherited i)
  | None => false
  end.

(** A key that is neither an array index nor a name that [{}] inherits,
    as the ids the database generates are. *)
Definition plain_key (k : string) : Prop :=
  array_index k = None /\ Dict.inherited k = false.

(** The object passed to [res.json]. *)
Record results := {
  itemKey : string;
  r_items : list ItemMatch;
  r_tags : list NamedMatch;
  r_authors : list AuthorMatch;
  r_series : list SeriesMatch;
  r_narrators : list NamedMatch
}.

Inductive response :=
  | BadRequest (body : string)       (* res.status(400).send(body) *)
  | Json (r : results).              (* res.json(r) *)

(** [req.query.limit && !isNaN(req.query.limit) ? Number(req.query.limit) : 12] *)
Definition maxResults (req : request) : Z := number_or (q_limit req) 12.

Definition respond (req : request) (m : matches) : results :=
  let n := maxResults req in
  {| itemKey := mediaType req;
     r_items := slice 0 n (itemMatches m);
     r_tags := slice 0 n (Dict.values (tagMatches m));
     r_authors := slice 0 n (Dict.values (authorMatches m));
     r_series := slice 0 n (Dict.values (seriesMatches m));
     r_narrators := slice 0 n (Dict.values (narratorMatches m)) |}.

(** [search(req, res)]: the items scanned and the response, or the
    exception that ended the request. *)
Definition search (req : request) : list Item * result response :=
  match q req with
  | Some query =>
      if negb (String.eqb query "") then
        let '(seen, r) := scan query no_matches (libraryItems req) in
        (seen, m <- r ;; Ok (Json (respond req m)))
      else ([], Ok (BadRequest "No query string"))
  | None => ([], Ok (BadRequest "No query string"))
  end.

End Model.

End Search.

(* ================================================================= *)
(** ** Sample data *)

Module Samples.

Import JS Sorting Items.

Local Open Scope list_scope.

(** A series membership as [metadata.series] lists it. *)
Definition membership (name sequence : string) : value :=
  VObj [("name", VStr name); ("sequence", VStr sequence)].

(** A book with the attributes the sort keys read. *)
Definition book (id title authorName : string) (series : list value) : value :=
  VObj [ ("id", VStr id);
         ("media", VObj [ ("metadata",
                           VObj [ ("title", VStr title);
                                  ("authorName", VStr authorName);
                                  ("series", VArr series) ]) ]) ].


(** A collapsed-series row: a book carrying [collapsedSeries]. *)
Definition collapsedRow (id title authorName name : string) : value :=
  VObj [ ("id", VStr id);
         ("collapsedSeries", VObj [ ("id", VStr id); ("name", VStr name);
                                    ("nameIgnorePrefix", VStr name) ]);
         ("media", VObj [ ("metadata",
                           VObj [ ("title", VStr title);
                                  ("authorName", VStr authorName);
                                  ("series", VArr [membership name "1"]) ]) ]) ].

(** A fragment of the runtime, enough for the samples: every value has
    its [constructor], and a constructor has its [name].  The theorems
    hold for every runtime. *)
Definition constructor (name : string) : value :=
  VNative name ("function " ++ name ++ "() { [native code] }").

Definition runtime : prototypes := fun a b =>
  match a with
  | VNative id _ =>
      if String.eqb b "name" then Some (Ok (VStr id))
      else if String.eqb b "constructor" then Some (Ok (constructor "Function"))
      else None
  | _ =>
      if String.eqb b "constructor" then
        Some (Ok (constructor match a with
                              | VStr _ => "String"
                              | VNum _ => "Number"
                              | VBool _ => "Boolean"
                              | VArr _ => "Array"
                              | _ => "Object"
                              end))
      else None
  end.

(** Collaborators for the samples: no filtering, every book of a series
    collapsed into one row named after the series, and the reference
    comparator. *)
Definition sampleEnv (collapsed : list value) : Env :=
  {| inherited := runtime;
     sortingIgnorePrefix := false;
     decode := fun s => s;
     getFilteredLibraryItems := fun items _ => items;
     collapseBookSeries := fun _ _ => collapsed;
     getSeries := fun metadata seriesId =>
       series <- JS.get runtime metadata "series" ;;
       match series with
       | VArr l =>
           Ok (hd VUndefined
                  (filter (fun s => match JS.get runtime s "name" with
                                    | Ok (VStr n) => String.eqb n seriesId
                                    | _ => false
                                    end) l))
       | _ => Ok VUndefined
       end;
     getSeriesSortTitle := fun _ series => JS.get runtime series "name";
     naturalCompare := reference_collate |}.

Definition dune : value :=
  book "b1" "Dune" "Frank Herbert" [membership "Dune Chronicles" "1"].
Definition foundation : value :=
  book "b2" "Foundation" "Isaac Asimov" [membership "Foundation" "1"].
Definition messiah : value :=
  book "b3" "Dune Messiah" "Frank Herbert" [membership "Dune Chronicles" "2"].
Definition whipping_star : value :=
  book "b4" "Whipping Star" "Frank Herbert" [membership "ConSentiency" "1"].
Definition soul_catcher : value :=
  book "b5" "Soul Catcher" "Frank Herbert" [].

Definition byAuthor (items : list value) : request :=
  {| libraryItems := items;
     mediaType := "book";
     q_limit := None;
     q_page := None;
     q_sort := Some "media.metadata.authorName";
     q_desc := None;
     q_filter := None;
     q_collapseseries := None |}.

End Samples.

Module SearchSamples.

Import Paging Search.

Local Open Scope list_scope.

(** An item is given by its title and what its [searchQuery] returns. *)
Definition item : Type := string * QueryResult.

Definition matching (title : string) (authors tags : list string) : item :=
  (title, {| matchKey := Some "title"; matchText := Some title;
             series := []; authors := authors; tags := tags; narrators := [] |}).

Definition herbert : entity string := {| id := "aut_7f3a"; toJSON := "Frank Herbert" |}.
Definition asimov : entity string := {| id := "aut_c21e"; toJSON := "Isaac Asimov" |}.

Definition sampleEnv : @Env item string string string string :=
  {| searchQuery := fun li _ => snd li;
     itemJSON := fst;
     itemExpanded := fst;
     Database_series := [];
     Database_authors := [herbert; asimov] |}.

Definition sampleRequest (limit : query_number) (items : list item) : @request item :=
  {| q := Some "dune"; q_limit := limit; libraryItems := items; mediaType := "book" |}.

(** Three books by Herbert, Asimov, Herbert. *)
Definition aba : list item :=
  [ matching "Dune" ["aut_7f3a"] [];
    matching "Foundation" ["aut_c21e"] [];
    matching "Dune Messiah" ["aut_7f3a"] [] ].

(** A book tagged ["classic"] and then ["1965"]. *)
Definition tagged : list item :=
  [ matching "Dune" [] ["classic"; "1965"] ].

End SearchSamples.

(* ================================================================= *)
(** ** [getSeriesForLibrary] *)

Module SeriesView.

Import JS.

Local Open Scope list_scope.

Section Model.

Context {Item SeriesJSON FeedJSON : Type}.

Record Env := {
  Database_series : list (Search.entity SeriesJSON);
  (** [li.id] *)
  item_id : Item -> string;
  (** [li.media.metadata.hasSeries], a method that the metadata of some
      media types does not have *)
  hasSeries : Item -> option (string -> bool);
  (** [req.user.getMediaProgress(id)?.isFinished], as a boolean; [None]
      when the user has no progress on the item *)
  getMediaProgress : string -> option bool;
  (** [seriesJson.id] *)
  json_id : SeriesJSON -> string;
  (** [(await this.rssFeedManager.findFeedForEntityId(id))?.toJSONMinified()] *)
  findFeedForEntityId : string -> option FeedJSON
}.

Record request := {
  seriesId : string;                  (* req.params.seriesId *)
  q_include : option string;          (* req.query.include *)
  libraryItems : list Item            (* req.libraryItems *)
}.

Record progress := {
  libraryItemIds : list string;
  libraryItemIdsFinished : list string;
  isFinished : bool
}.

(** [seriesJson] with the two optional members; [rssFeed] is [null] when
    no feed is open. *)
Record seriesJson := {
  series : SeriesJSON;
  series_progress : option progress;
  rssFeed : option (option FeedJSON)
}.

Inductive response :=
  | NotFound                          (* res.sendStatus(404) *)
  | Json (j : seriesJson).            (* res.json(seriesJson) *)

Variable E : Env.

(** [li.media.metadata.hasSeries?.(series.id)] *)
Definition inSeries (id : string) (li : Item) : bool :=
  match hasSeries E li with
  | Some method => method id
  | None => false
  end.

(** [!!req.user.getMediaProgress(li.id)?.isFinished] *)
Definition finished (li : Item) : bool :=
  match getMediaProgress E (item_id E li) with
  | Some b => b
  | None => false
  end.

Definition getSeriesForLibrary (req : request) : response :=
  let include := Query.include (q_include req) in
  match Search.find_entity (Database_series E) (seriesId req) with
  | None => NotFound
  | Some series =>
      let libraryItemsInSeries :=
        filter (inSeries (Search.id series)) (libraryItems req) in
      let seriesJson := Search.toJSON series in
      let progress :=
        if Query.includes "progress" include then
          let libraryItemsFinished := filter finished libraryItemsInSeries in
          Some {| libraryItemIds := map (item_id E) libraryItemsInSeries;
                  libraryItemIdsFinished := map (item_id E) libraryItemsFinished;
                  isFinished := (List.length libraryItemsInSeries
                                 <=? List.length libraryItemsFinished)%nat |}
        else None in
      let rssFeed :=
        if Query.includes "rssfeed" include
        then Some (findFeedForEntityId E (json_id E seriesJson))
        else None in
      Json {| series := seriesJson; series_progress := progress; rssFeed := rssFeed |}
  end.

End Model.

End SeriesView.

(* ================================================================= *)
(** ** [getAuthors] and [getNarrators] *)

Module People.

Import JS Dict.

Local Open Scope list_scope.

(** *** The narrator id

    [encodeURIComponent(Buffer.from(n).toString('base64'))]: the UTF-8
    bytes of the name, in Base64, with the characters of Base64 that a
    URI component does not allow escaped.  [Buffer.from] reads the name
    as UTF-16: a surrogate pair is one code point, and a surrogate that
    is not part of a pair is replaced by U+FFFD. *)

(** The UTF-16 code units of a string of code units below 256. *)
Definition code_units (s : string) : list N :=
  map N_of_ascii (list_ascii_of_string s).

Definition high_surrogate (u : N) : bool := ((55296 <=? u) && (u <? 56320))%N.
Definition low_surrogate (u : N) : bool := ((56320 <=? u) && (u <? 57344))%N.

(** The code points of a string given by its UTF-16 code units. *)
Fixpoint code_points (s : list N) : list N :=
  match s with
  | [] => []
  | h :: r =>
      if high_surrogate h then
        match r with
        | l :: r' =>
            if low_surrogate l
            then (65536 + (h - 55296) * 1024 + (l - 56320))%N :: code_points r'
            else 65533%N :: code_points r
        | [] => [65533%N]
        end
      else if low_surrogate h then 65533%N :: code_points r
      else h :: code_points r
  end.

(** The UTF-8 bytes of a code point. *)
Definition utf8_point (cp : N) : list N :=
  (if cp <? 128 then [cp]
   else if cp <? 2048 then [192 + cp / 64; 128 + cp mod 64]
   else if cp <? 65536 then [224 + cp / 4096; 128 + cp / 64 mod 64; 128 + cp mod 64]
   else [240 + cp / 262144; 128 + cp / 4096 mod 64; 128 + cp / 64 mod 64;
         128 + cp mod 64])%N.

(** [Buffer.from(n)] *)
Definition Buffer_from (n : list N) : list N := flat_map utf8_point (code_points n).

(** The UTF-8 bytes of a code unit below 256, as [encodeURIComponent]
    escapes them. *)
Definition utf8_unit (c : ascii) : list N := utf8_point (N_of_ascii c).

(** The Base64 alphabet: [A-Z], [a-z], [0-9], [+], [/]. *)
Definition base64_digit (n : N) : ascii :=
  ascii_of_N (if (n <? 26)%N then 65 + n
              else if (n <? 52)%N then 97 + (n - 26)
              else if (n <? 62)%N then 48 + (n - 52)
              else if (n =? 62)%N then 43 else 47).

(** [buffer.toString('base64')]: three bytes give four digits; one or two
    remaining bytes are padded with [=]. *)
Fixpoint base64 (bytes : list N) : string :=
  match bytes with
  | [] => EmptyString
  | [a] =>
      String (base64_digit (a / 4))
        (String (base64_digit (a mod 4 * 16)) "==")
  | [a; b] =>
      String (base64_digit (a / 4))
        (String (base64_digit (a mod 4 * 16 + b / 16))
           (String (base64_digit (b mod 16 * 4)) "="))
  | a :: b :: c :: rest =>
      String (base64_digit (a / 4))
        (String (base64_digit (a mod 4 * 16 + b / 16))
           (String (base64_digit (b mod 16 * 4 + c / 64))
              (String (base64_digit (c mod 64)) (base64 rest))))
  end%N.

(** The characters [encodeURIComponent] leaves as they are:
    [A-Z a-z 0-9 - _ . ! ~ * ' ( )]. *)
Definition uri_unreserved (c : ascii) : bool :=
  let n := N_of_ascii c in
  ((65 <=? n) && (n <=? 90) || (97 <=? n) && (n <=? 122) || (48 <=? n) && (n <=? 57)
   || existsb (N.eqb n) [45; 95; 46; 33; 126; 42; 39; 40; 41])%N.

Definition hex_digit (n : N) : ascii :=
  ascii_of_N (if (n <? 10)%N then 48 + n else 55 + n).

(** [%XX], in upper-case hexadecimal. *)
Definition percent (byte : N) : string :=
  String "%" (String (hex_digit (byte / 16)) (String (hex_digit (byte mod 16)) "")).

Fixpoint encodeURIComponent (s : string) : string :=
  match s with
  | EmptyString => EmptyString
  | String c r =>
      ((if uri_unreserved c then String c ""
        else String.concat "" (map percent (utf8_unit c)))
       ++ encodeURIComponent r)%string
  end.

Definition narratorId (n : list N) : string :=
  encodeURIComponent (base64 (Buffer_from n)).

(** *** Reading the id back

    The inverse transformations, which show that a narrator id names one
    narrator. *)

Definition hex_value (c : ascii) : N :=
  let n := N_of_ascii c in
  if (n <? 58)%N then n - 48 else n - 55.

Fixpoint utf8_decode (bytes : list N) : list N :=
  match bytes with
  | [] => []
  | a :: rest =>
      (if a <? 128 then a :: utf8_decode rest
       else if a <? 224 then
         match rest with
         | b :: r => ((a - 192) * 64 + (b - 128)) :: utf8_decode r
         | _ => []
         end
       else if a <? 240 then
         match rest with
         | b :: c :: r =>
             ((a - 224) * 4096 + (b - 128) * 64 + (c - 128)) :: utf8_decode r
         | _ => []
         end
       else
         match rest with
         | b :: c :: d :: r =>
             ((a - 240) * 262144 + (b - 128) * 4096 + (c - 128) * 64 + (d - 128))
               :: utf8_decode r
         | _ => []
         end)%N
  end.

(** The UTF-16 code units of a code point. *)
Definition utf16_point (cp : N) : list N :=
  (if cp <? 65536 then [cp]
   else [55296 + (cp - 65536) / 1024; 56320 + (cp - 65536) mod 1024])%N.

Definition base64_value (c : ascii) : N :=
  let n := N_of_ascii c in
  if (n =? 43)%N then 62
  else if (n =? 47)%N then 63
  else if (n <? 58)%N then n - 48 + 52
  else if (n <? 91)%N then n - 65
  else n - 97 + 26.

Fixpoint base64_decode (fuel : nat) (s : string) : list N :=
  match fuel with
  | O => []
  | S f =>
      match s with
      | String c1 (String c2 (String c3 (String c4 r))) =>
          let v1 := base64_value c1 in
          let v2 := base64_value c2 in
          let a := (v1 * 4 + v2 / 16)%N in
          if Ascii.eqb c3 "=" then [a]
          else
            let v3 := base64_value c3 in
            let b := (v2 mod 16 * 16 + v3 / 4)%N in
            if Ascii.eqb c4 "=" then [a; b]
            else
              let v4 := base64_value c4 in
              a :: b :: (v3 mod 4 * 64 + v4)%N :: base64_decode f r
      | _ => []
      end
  end.

Fixpoint decodeURIComponent (fuel : nat) (s : string) : string :=
  match fuel with
  | O => EmptyString
  | S f =>
      match s with
      | EmptyString => EmptyString
      | String "%" (String h (String l r)) =>
          let a := (hex_value h * 16 + hex_value l)%N in
          if (a <? 128)%N then String (ascii_of_N a) (decodeURIComponent f r)
          else
            match r with
            | String "%" (String h' (String l' r')) =>
                let b := (hex_value h' * 16 + hex_value l')%N in
                String (ascii_of_N ((a - 192) * 64 + (b - 128))) (decodeURIComponent f r')
            | _ => EmptyString
            end
      | String c r => String c (decodeURIComponent f r)
      end
  end.

(** The code points of the name an id was made from. *)
Definition narratorName (id : string) : list N :=
  let text := decodeURIComponent (String.length id) id in
  utf8_decode (base64_decode (String.length text) text).

(** A string of UTF-16 code units. *)
Definition is_string (n : list N) : Prop := Forall (fun u => (u < 65536)%N) n.

(** A string in which every surrogate is part of a pair. *)
Fixpoint well_formed (s : list N) : bool :=
  match s with
  | [] => true
  | h :: r =>
      if high_surrogate h then
        match r with
        | l :: r' => low_surrogate l && well_formed r'
        | [] => false
        end
      else negb (low_surrogate h) && (h <? 65536)%N && well_formed r
  end.

(** The characters of a narrator id: letters, digits and the percent
    sign. *)
Definition id_char (c : ascii) : bool :=
  let n := N_of_ascii c in
  ((65 <=? n) && (n <=? 90) || (97 <=? n) && (n <=? 122) || (48 <=? n) && (n <=? 57)
   || (n =? 37))%N.

(** The characters of Base64 text. *)
Definition base64_char (c : ascii) : bool :=
  let n := N_of_ascii c in
  ((65 <=? n) && (n <=? 90) || (97 <=? n) && (n <=? 122) || (48 <=? n) && (n <=? 57)
   || (n =? 43) || (n =? 47) || (n =? 61))%N.

Fixpoint all_chars (p : ascii -> bool) (s : string) : bool :=
  match s with
  | EmptyString => true
  | String c r => p c && all_chars p r
  end.

(** *** The aggregates *)

Record Narrator := { n_id : string; n_name : string; n_numBooks : Z }.

(** The body of [li.media.metadata.narrators.forEach].  An entry that is
    not a string is reported and skipped; under a name that [{}] inherits
    the count goes to the inherited object and [narrators] stays as it
    is. *)
Definition addNarrator (d : dict Narrator) (n : value) : dict Narrator :=
  match n with
  | VStr s =>
      match Dict.get d s with
      | Absent =>
          add s {| n_id := narratorId (code_units s); n_name := s; n_numBooks := 1 |} d
      | Own _ =>
          update s (fun m => {| n_id := n_id m; n_name := n_name m;
                                n_numBooks := n_numBooks m + 1 |}) d
      | Inherited => d
      end
  | _ => d
  end.

Section Model.

Context {Item ItemJSON ItemExpanded SeriesJSON AuthorJSON : Type}.

Variable E : @Search.Env Item ItemJSON ItemExpanded SeriesJSON AuthorJSON.

(** [li.media.metadata.authors], as the ids of its entries, and
    [li.media.metadata.narrators]; a missing list reads like an empty
    one. *)
Variable authorsOf : Item -> list string.
Variable narratorsOf : Item -> list value.

(** The comparer of [naturalSort] and the [name] of an author. *)
Variable collate : string -> string -> comparison.
Variable authorName : AuthorJSON -> string.

(** [authors] after [req.libraryItems.forEach]: the body of the inner
    loop is that of the author facet of [search]. *)
Definition collectAuthors (items : list Item) : dict (@Search.AuthorMatch AuthorJSON) :=
  fold_left (fun d li => fold_left (Search.addAuthor E) (authorsOf li) d) items [].

(** The [authors] member of the response:
    [naturalSort(Object.values(authors)).asc(au => au.name)]. *)
Definition getAuthors (items : list Item) : list (@Search.AuthorMatch AuthorJSON) :=
  Sorting.sort (fun a b => collate (authorName (Search.am_author a))
                                   (authorName (Search.am_author b)))
               (values (collectAuthors items)).

Definition collectNarrators (items : list Item) : dict Narrator :=
  fold_left (fun d li => fold_left addNarrator (narratorsOf li) d) items [].

(** The [narrators] member of the response:
    [naturalSort(Object.values(narrators)).asc(n => n.name)]. *)
Definition getNarrators (items : list Item) : list Narrator :=
  Sorting.sort (fun a b => collate (n_name a) (n_name b))
               (values (collectNarrators items)).

End Model.

(** How many times the string [k] occurs in a list of values. *)
Definition occurrences_of (k : string) (l : list value) : Z :=
  Z.of_nat (List.length (filter (fun v => match v with
                                          | VStr s => String.eqb k s
                                          | _ => false
                                          end) l)).

End People.

(* ================================================================= *)
(** ** The books of a facet of [search] *)

Module Facets.

Import JS Search.

Local Open Scope list_scope.

(** The aggregate [v] of a key, which exists once a book refers to the
    key. *)
Definition aggregate {B V : Type} (bs : list B) (v : V) : option V :=
  match bs with
  | [] => None
  | _ :: _ => Some v
  end.

(** No key of the dictionary is a name that [{}] inherits. *)
Definition own_keys {V : Type} (d : Dict.dict V) : Prop :=
  Forall (fun k => Dict.inherited k = false) (Dict.keys d).

Section Model.

Context {Item ItemJSON ItemExpanded SeriesJSON AuthorJSON : Type}.

Variable E : @Env Item ItemJSON ItemExpanded SeriesJSON AuthorJSON.

(** The JSON of the items that refer to [k], in scan order, an item as
    many times as it refers to [k]. *)
Definition books_of (pick : QueryResult -> list string) (query k : string)
    (items : list Item) : list ItemJSON :=
  flat_map (fun li =>
              repeat (itemJSON E li)
                     (List.length (filter (String.eqb k)
                                          (pick (searchQuery E li query)))))
           items.

(** An item none of whose series ids, tags and narrators is a name that
    [{}] inherits. *)
Definition clean (query : string) (li : Item) : bool :=
  let queryResult := searchQuery E li query in
  forallb (fun k => negb (Dict.inherited k))
          (series queryResult ++ tags queryResult ++ narrators queryResult).

End Model.

End Facets.

(* ================================================================= *)
(** ** Runs of integer tokens *)

Module Runs.

Local Open Scope list_scope.

(** A token that is the decimal spelling of the integer [v]. *)
Definition integer_token (t : string) (v : Z) : Prop :=
  t <> ""%string /\ Str.all_digits t = true /\ Str.digits_value 0 t = v.

(** Tokens that spell [v], [v + 1], [v + 2], ... *)
Fixpoint run_from (v : Z) (tokens : list string) : Prop :=
  match tokens with
  | [] => True
  | t :: rest => integer_token t v /\ run_from (v + 1) rest
  end.

(** The tokens handed to the reducer:
    [naturalSort(books.filter(b => b.filterSeriesSequence)
                      .map(b => b.filterSeriesSequence)).asc()],
    for sequences that are strings; the empty string is falsy. *)
Definition sortedSequences (collate : string -> string -> comparison)
    (sequences : list string) : list string :=
  Sorting.sort collate (filter (fun s => negb (String.eqb s "")) sequences).

(** [json.collapsedSeries.seriesSequenceList] *)
Definition sequenceListOf (collate : string -> string -> comparison)
    (sequences : list string) : string :=
  SequenceList.seriesSequenceList (sortedSequences collate sequences).

End Runs.

(* ================================================================= *)
(** ** [getLibraryItemsNew]: the numeric members of [payload] *)

Module NewListing.

Record payload := {
  limit : Num.number;
  page : Num.number;
  offset : Num.number
}.

(** [payload.offset = payload.page * payload.limit] *)
Definition payload_of (q_limit q_page : option string) : payload :=
  let limit := Query.limit q_limit in
  let page := Query.page q_page in
  {| limit := limit; page := page; offset := NumberPaging.mul page limit |}.

Definition is_zero (x : Num.number) : bool :=
  match x with
  | S754_zero _ => true
  | _ => false
  end.

Definition is_infinite (x : Num.number) : bool :=
  match x with
  | S754_infinity _ => true
  | _ => false
  end.

End NewListing.

(* ================================================================= *)
(** ** [reorder] *)

Module Reorder.

Import JS.

Local Open Scope list_scope.

Section Model.

Context {Library LibraryJSON : Type}.

Record Env := {
  (** [lib.id] *)
  lib_id : Library -> string;
  (** [lib.displayOrder] *)
  displayOrder : Library -> Z;
  (** [library.update({ displayOrder: newOrder })]: the library as the
      call leaves it when it reports a change, [None] when it reports
      none *)
  update : Library -> value -> option Library;
  (** [lib.toJSON()] *)
  toJSON : Library -> LibraryJSON
}.

(** An entry of [req.body]. *)
Record entry := { e_id : string; newOrder : value }.

Record request := {
  isAdminOrUp : bool;                 (* req.user.isAdminOrUp *)
  orderdata : list entry              (* req.body *)
}.

Inductive response :=
  | Forbidden                         (* res.sendStatus(403) *)
  | ServerError                       (* res.sendStatus(500) *)
  | Json (libraries : list LibraryJSON).

Variable E : Env.

(** [libraries.find(lib => lib.id === id)] *)
Definition find_library (libraries : list Library) (id : string) : option Library :=
  find (fun lib => String.eqb (lib_id E lib) id) libraries.

(** The array after the library that [find] returns has been changed in
    place. *)
Fixpoint replace_found (id : string) (lib' : Library) (libraries : list Library)
  : list Library :=
  match libraries with
  | [] => []
  | lib :: rest =>
      if String.eqb (lib_id E lib) id then lib' :: rest
      else lib :: replace_found id lib' rest
  end.

(** How the loop over [orderdata] ends: at an id that names no library,
    or at the end of the data; either way with the rows written by
    [Database.updateLibrary] so far, in order. *)
Inductive outcome :=
  | NotFound (written : list Library)
  | Done (libraries : list Library) (hasUpdates : bool) (written : list Library).

Fixpoint loop (data : list entry) (libraries : list Library) (hasUpdates : bool)
    (written : list Library) : outcome :=
  match data with
  | [] => Done libraries hasUpdates written
  | e :: rest =>
      match find_library libraries (e_id e) with
      | None => NotFound written
      | Some library =>
          match update E library (newOrder e) with
          | Some library' =>
              loop rest (replace_found (e_id e) library' libraries) true
                   (written ++ [library'])
          | None => loop rest libraries hasUpdates written
          end
      end
  end.

(** [libraries.sort((a, b) => a.displayOrder - b.displayOrder)] *)
Definition by_displayOrder (libraries : list Library) : list Library :=
  Sorting.sort (fun a b => Z.compare (displayOrder E a) (displayOrder E b)) libraries.

(** [reorder(req, res)], given the libraries of the database: the rows
    written and the response. *)
Definition reorder (libraries : list Library) (req : request)
  : list Library * response :=
  if negb (isAdminOrUp req) then ([], Forbidden)
  else
    match loop (orderdata req) libraries false [] with
    | NotFound written => (written, ServerError)
    | Done libraries' hasUpdates written =>
        (written,
         Json (map (toJSON E)
                   (if hasUpdates then by_displayOrder libraries' else libraries')))
    end.

End Model.

End Reorder.

(* ================================================================= *)
(** ** [scan] *)

Module Scan.

(** [req.query.force == 1]: a string is compared by the Number it
    converts to; a missing parameter is not equal to 1. *)
Definition forceRescan (force : option string) : bool :=
  match force with
  | Some s => Num.eqb (Num.of_string s) Num.one
  | None => false
  end.

End Scan.

(* ================================================================= *)
(** ** More sample data *)

Module MoreSamples.

Import JS Search.

Local Open Scope list_scope.

(** Items named by their id: ["b1"] and ["b3"] are in the series
    ["ser_1"], ["b2"] is not, ["p1"] is a podcast; the user has finished
    ["b1"] and started ["b3"]. *)
Definition seriesEnv : @SeriesView.Env string string string :=
  {| SeriesView.Database_series := [ {| id := "ser_1"; toJSON := "Dune Chronicles" |} ];
     SeriesView.item_id := fun li => li;
     SeriesView.hasSeries := fun li =>
       if String.eqb li "p1" then None
       else Some (fun id => String.eqb id "ser_1" && negb (String.eqb li "b2"));
     SeriesView.getMediaProgress := fun id =>
       if String.eqb id "b1" then Some true
       else if String.eqb id "b3" then Some false else None;
     SeriesView.json_id := fun _ => "ser_1";
     SeriesView.findFeedForEntityId := fun _ => None |}.

Definition seriesRequest : @SeriesView.request string :=
  {| SeriesView.seriesId := "ser_1";
     SeriesView.q_include := Some "Progress";
     SeriesView.libraryItems := ["b1"; "b2"; "b3"; "p1"] |}.

(** A database with one series and the two authors of the search
    samples. *)
Definition libraryEnv : @Env SearchSamples.item string string string string :=
  {| searchQuery := fun li _ => snd li;
     itemJSON := fst;
     itemExpanded := fst;
     Database_series := [ {| id := "ser_1"; toJSON := "Dune Chronicles" |} ];
     Database_authors := [SearchSamples.herbert; SearchSamples.asimov] |}.

(** An item with the series ids, tags and narrators its [searchQuery]
    reports. *)
Definition reporting (title : string) (series tags narrators : list string)
  : SearchSamples.item :=
  (title, {| matchKey := None; matchText := None;
             series := series; authors := []; tags := tags; narrators := narrators |}).

Definition chronicles : list SearchSamples.item :=
  [ reporting "Dune" ["ser_1"] ["classic"] ["Scott Brick"];
    reporting "Foundation" ["ser_9"] ["classic"; "classic"] [];
    reporting "Dune Messiah" ["ser_1"] [] ["Scott Brick"] ].

(** Three books by Herbert, Asimov, Herbert: the first and the third are
    in the series of the database, the second refers to a series and the
    third to an author that the database does not hold. *)
Definition referring (title : string) (series authors : list string)
  : SearchSamples.item :=
  (title, {| matchKey := Some "title"; matchText := Some title;
             series := series; authors := authors; tags := []; narrators := [] |}).

Definition shelf : list SearchSamples.item :=
  [ referring "Dune" ["ser_1"] ["aut_7f3a"];
    referring "Foundation" ["ser_9"] ["aut_c21e"];
    referring "Dune Messiah" ["ser_1"] ["aut_7f3a"; "aut_gone"] ].

(** A database whose author ids are array indices: author A has the id
    ["2"], author B the id ["1"]. *)
Definition numberedEnv : @Env SearchSamples.item string string string string :=
  {| searchQuery := fun li _ => snd li;
     itemJSON := fst;
     itemExpanded := fst;
     Database_series := [];
     Database_authors := [ {| id := "2"; toJSON := "A" |}; {| id := "1"; toJSON := "B" |} ] |}.

Definition numbered : list SearchSamples.item :=
  [ referring "First" [] ["2"]; referring "Second" [] ["1"]; referring "Third" [] ["2"] ].

(** The authors and narrators of an item of the search samples, read off
    its sample query result. *)
Definition authorsOf (li : SearchSamples.item) : list string := authors (snd li).

Definition narratorsOf (li : SearchSamples.item) : list value :=
  map VStr (narrators (snd li)) ++ [VNull].

(** Three libraries and a change of order that swaps the first two. *)
Definition libraries : list (string * Z) := [("lib_a", 1); ("lib_b", 2); ("lib_c", 3)].

Definition reorderEnv : @Reorder.Env (string * Z) string :=
  {| Reorder.lib_id := fst;
     Reorder.displayOrder := snd;
     Reorder.update := fun lib newOrder =>
       match newOrder with
       | VNum n =>
           match NumberPaging.ToIntegerOrInfinity n with
           | NumberPaging.Finite z => if z =? snd lib then None else Some (fst lib, z)
           | _ => None
           end
       | _ => None
       end;
     Reorder.toJSON := fst |}.

Definition swap : list Reorder.entry :=
  [ {| Reorder.e_id := "lib_a"; Reorder.newOrder := VNum (Num.of_Z 2) |};
    {| Reorder.e_id := "lib_b"; Reorder.newOrder := VNum (Num.of_Z 1) |} ].

(** The second page of two of three books sorted by title, and a request
    that asks for descending order without naming a sort key. *)
Definition secondPage : Items.request :=
  {| Items.libraryItems := [Samples.dune; Samples.foundation; Samples.messiah];
     Items.mediaType := "book";
     Items.q_limit := Some "2";
     Items.q_page := Some "1";
     Items.q_sort := Some "media.metadata.title";
     Items.q_desc := None;
     Items.q_filter := None;
     Items.q_collapseseries := None |}.

Definition descOnly : Items.request :=
  {| Items.libraryItems := [Samples.messiah; Samples.dune];
     Items.mediaType := "book";
     Items.q_limit := None;
     Items.q_page := None;
     Items.q_sort := None;
     Items.q_desc := Some "1";
     Items.q_filter := None;
     Items.q_collapseseries := None |}.

End MoreSamples.

(* ================================================================= *)
(** ** Integers written without leading zeros *)

Module Plain.

(** A decimal numeral as [String(n)] writes a non-negative integer: digits
    only, and no leading zero except in ["0"] itself. *)
Definition plain_integer (t : string) : bool :=
  match t with
  | EmptyString => false
  | String "0" EmptyString => true
  | String "0" _ => false
  | _ => Str.all_digits t
  end.

End Plain.

(* ================================================================= *)
(** * Properties *)

(** ** The matcher decides the language of a pattern *)

Module RegexFacts.

Import Regex.

Lemma append_eq_nil (u v : string) : u ++ v = "" -> u = "" /\ v = "".
Proof. destruct u; simpl; [auto | discriminate]. Qed.

Lemma nullable_sound (r : regex) : nullable r = true -> Matches r "".
Proof.
  induction r; simpl; intros H; try discriminate.
  - constructor.
  - apply orb_true_iff in H as [H | H]; [apply MAltL | apply MAltR]; auto.
  - apply andb_true_iff in H as [H1 H2].
    change "" with ("" ++ ""). constructor; auto.
  - constructor.
Qed.

Lemma nullable_complete (r : regex) (w : string) :
  Matches r w -> w = "" -> nullable r = true.
Proof.
  induction 1; intros E; simpl; try discriminate; try reflexivity.
  - rewrite IHMatches by assumption. reflexivity.
  - rewrite IHMatches by assumption. apply orb_true_r.
  - apply append_eq_nil in E as [E1 E2].
    rewrite IHMatches1, IHMatches2 by assumption. reflexivity.
Qed.

Lemma nullable_spec (r : regex) : nullable r = true <-> Matches r "".
Proof.
  split; [apply nullable_sound | intros H; now apply (nullable_complete r "")].
Qed.

Lemma deriv_sound (c : ascii) (r : regex) :
  forall s, Matches (deriv c r) s -> Matches r (String c s).
Proof.
  induction r; simpl; intros w H.
  - inversion H.
  - inversion H.
  - destruct (Str.is_digit c) eqn:D; inversion H; subst. now constructor.
  - destruct (Ascii.eqb c c0) eqn:E; inversion H; subst.
    apply Ascii.eqb_eq in E. subst. constructor.
  - inversion H; subst; [apply MAltL | apply MAltR]; auto.
  - destruct (nullable r1) eqn:N.
    + inversion H; subst.
      * match goal with M : Matches (Seq _ _) _ |- _ => inversion M; subst end.
        change (String c (u ++ v)) with (String c u ++ v). constructor; auto.
      * change (String c w) with ("" ++ String c w).
        constructor; [now apply nullable_sound | auto].
    + inversion H; subst.
      change (String c (u ++ v)) with (String c u ++ v). constructor; auto.
  - inversion H; subst.
    change (String c (u ++ v)) with (String c u ++ v). constructor; auto.
Qed.

Lemma deriv_complete (r : regex) (w : string) :
  Matches r w -> forall c s, w = String c s -> Matches (deriv c r) s.
Proof.
  induction 1; intros a t E; simpl.
  - discriminate.
  - injection E as -> <-. rewrite H. constructor.
  - injection E as -> <-. rewrite Ascii.eqb_refl. constructor.
  - apply MAltL; eauto.
  - apply MAltR; eauto.
  - destruct u as [|b u]; simpl in E.
    + rewrite (nullable_complete r "" H eq_refl). apply MAltR; eauto.
    + injection E as -> <-.
      destruct (nullable r); [apply MAltL |]; constructor; eauto.
  - discriminate.
  - destruct u as [|b u]; simpl in E.
    + simpl in IHMatches2. eauto.
    + injection E as -> <-. constructor; eauto.
Qed.

Lemma deriv_spec (c : ascii) (r : regex) (s : string) :
  Matches (deriv c r) s <-> Matches r (String c s).
Proof.
  split; [apply deriv_sound | intros H; now apply (deriv_complete r _ H)].
Qed.

Theorem test_spec (r : regex) (s : string) : test r s = true <-> Matches r s.
Proof.
  revert r; induction s as [|c s IH]; intros r; simpl.
  - apply nullable_spec.
  - rewrite IH. apply deriv_spec.
Qed.

(** *** Digit runs *)

Lemma star_digit_intro (s : string) :
  Str.all_digits s = true -> Matches (Star Digit) s.
Proof.
  induction s as [|c s IH]; simpl; intros H.
  - constructor.
  - apply andb_true_iff in H as [D H].
    change (String c s) with (String c "" ++ s).
    constructor; [now constructor | auto].
Qed.

Lemma star_digit_elim (r : regex) (s : string) :
  Matches r s -> r = Star Digit -> Str.all_digits s = true.
Proof.
  induction 1; intros E; try discriminate.
  - reflexivity.
  - injection E as ->. inversion H; subst. simpl.
    match goal with D : Str.is_digit _ = true |- _ => rewrite D end.
    simpl. auto.
Qed.

Lemma star_digit (s : string) :
  Matches (Star Digit) s <-> Str.all_digits s = true.
Proof.
  split; [intros H; now apply (star_digit_elim _ _ H) | apply star_digit_intro].
Qed.

Lemma plus_digit (s : string) :
  Matches (Plus Digit) s <-> s <> "" /\ Str.all_digits s = true.
Proof.
  unfold Plus. split.
  - intros H. inversion H; subst.
    match goal with D : Matches Digit _ |- _ => inversion D; subst end.
    simpl. split; [discriminate |].
    match goal with D : Str.is_digit _ = true |- _ => rewrite D end.
    simpl. now apply star_digit.
  - intros [N H]. destruct s as [|c s]; [congruence |].
    simpl in H. apply andb_true_iff in H as [D H].
    change (String c s) with (String c "" ++ s).
    constructor; [now constructor | now apply star_digit].
Qed.

Lemma lit_inv (c : ascii) (s : string) : Matches (Lit c) s -> s = String c "".
Proof. intros H. now inversion H. Qed.

End RegexFacts.

(* ================================================================= *)
(** ** Numbers

    What the proofs below need of binary64 arithmetic: a positive integer
    converts to a positive Number, and on the integers below [2^53]
    conversion, adding 1 and [==] are exact. *)

Module NumFacts.

Import Num.

Lemma digits2_size (p : positive) : digits2_pos p = Pos.size p.
Proof. induction p; simpl; congruence. Qed.

Lemma Zdigits2_log2 (m : Z) : 0 < m -> Zdigits2 m = Z.log2 m + 1.
Proof.
  destruct m as [|p|p]; try lia. intros _. simpl. rewrite digits2_size.
  destruct p; simpl; lia.
Qed.

Lemma Zdigits2_pos (m : Z) : 0 < m -> 0 < Zdigits2 m.
Proof. intros H. rewrite Zdigits2_log2 by assumption. pose proof (Z.log2_nonneg m). lia. Qed.

Lemma shr_1_m (r : shr_record) : 0 <= shr_m r -> shr_m (shr_1 r) = shr_m r / 2.
Proof.
  destruct r as [m rb sb]. simpl. destruct m as [|p|p]; try lia; intros _.
  - reflexivity.
  - destruct p; simpl.
    + rewrite Pos2Z.inj_xI. apply Z.div_unique with 1; lia.
    + rewrite Pos2Z.inj_xO. apply Z.div_unique with 0; lia.
    + reflexivity.
Qed.

Lemma iter_shr_m (n : positive) :
  forall r, 0 <= shr_m r ->
            shr_m (iter_pos shr_1 n r) = shr_m r / 2 ^ Zpos n.
Proof.
  induction n as [n IH|n IH|]; intros r H; simpl iter_pos.
  - assert (H1 : 0 <= shr_m (shr_1 r)) by (rewrite shr_1_m by assumption; apply Z.div_pos; lia).
    assert (H2 : 0 <= shr_m (iter_pos shr_1 n (shr_1 r)))
      by (rewrite IH by assumption; apply Z.div_pos; lia).
    rewrite IH, IH, shr_1_m by assumption.
    rewrite !Z.div_div by lia. f_equal.
    replace (Z.pos n~1) with (Z.pos n + Z.pos n + 1) by lia.
    rewrite !Z.pow_add_r by lia. change (2 ^ 1) with 2. ring.
  - assert (H2 : 0 <= shr_m (iter_pos shr_1 n r))
      by (rewrite IH by assumption; apply Z.div_pos; lia).
    rewrite IH, IH by assumption.
    rewrite !Z.div_div by lia. f_equal.
    replace (Z.pos n~0) with (Z.pos n + Z.pos n) by lia.
    rewrite !Z.pow_add_r by lia. ring.
  - rewrite shr_1_m by assumption. reflexivity.
Qed.

(** A shift to the format keeps a positive mantissa positive and does not
    lower the magnitude, as long as the magnitude lies above the least
    exponent. *)
Lemma shr_fexp_pos (m e : Z) (l : location) :
  0 < m -> -1073 <= Zdigits2 m + e ->
  0 < shr_m (fst (shr_fexp prec emax m e l))
  /\ Zdigits2 (shr_m (fst (shr_fexp prec emax m e l))) + snd (shr_fexp prec emax m e l)
     = Zdigits2 m + e.
Proof.
  intros M D. unfold shr_fexp, shr.
  assert (R : shr_m (shr_record_of_loc m l) = m) by (destruct l as [|[]]; reflexivity).
  set (n := fexp prec emax (Zdigits2 m + e) - e).
  assert (N : n <= Z.log2 m).
  { unfold n, fexp, emin, prec, emax. rewrite Zdigits2_log2 in * by assumption. lia. }
  destruct n as [|p|p] eqn:En; simpl fst; simpl snd; rewrite ?R; try (split; [assumption | reflexivity]).
  rewrite iter_shr_m by (rewrite R; lia). rewrite R.
  rewrite <- Z.shiftr_div_pow2 by lia.
  assert (P : 0 < Z.shiftr m (Z.pos p)).
  { rewrite Z.shiftr_div_pow2 by lia.
    apply Z.div_str_pos. split; [lia |].
    apply Z.log2_le_pow2; assumption. }
  split; [exact P |].
  rewrite !Zdigits2_log2 by assumption.
  rewrite Z.log2_shiftr by assumption. lia.
Qed.

Lemma round_nearest_even_ge (m : Z) (l : location) : m <= round_nearest_even m l.
Proof.
  unfold round_nearest_even. destruct l as [|[]]; try lia.
  destruct (Z.even m); lia.
Qed.

Lemma Zdigits2_mono (a b : Z) : 0 < a -> a <= b -> Zdigits2 a <= Zdigits2 b.
Proof.
  intros A B. rewrite !Zdigits2_log2 by lia.
  pose proof (Z.log2_le_mono a b B). lia.
Qed.

(** Rounding a positive value whose magnitude lies above the least
    exponent gives a positive Number (possibly infinity). *)
Lemma binary_round_aux_pos (m e : Z) (l : location) :
  0 < m -> -1073 <= Zdigits2 m + e ->
  is_positive (binary_round_aux prec emax false m e l).
Proof.
  intros M D. unfold binary_round_aux.
  destruct (shr_fexp_pos m e l M D) as [P1 E1].
  destruct (shr_fexp prec emax m e l) as [r1 e1]. simpl fst in *; simpl snd in *.
  set (m1 := round_nearest_even (shr_m r1) (loc_of_shr_record r1)).
  assert (M1 : shr_m r1 <= m1) by apply round_nearest_even_ge.
  assert (D1 : -1073 <= Zdigits2 m1 + e1).
  { pose proof (Zdigits2_mono (shr_m r1) m1 P1 M1). lia. }
  destruct (shr_fexp_pos m1 e1 loc_Exact) as [P2 _]; [lia | exact D1 |].
  destruct (shr_fexp prec emax m1 e1 loc_Exact) as [r2 e2]. simpl fst in *.
  destruct (shr_m r2) as [|p|p]; try lia.
  destruct (e2 <=? emax - prec); exact I.
Qed.

Lemma of_Z_positive (p : positive) : is_positive (of_Z (Zpos p)).
Proof.
  unfold of_Z, of_ratio, SFdiv, SFdiv_core_binary.
  set (d1 := Zdigits2 (Z.pos p)).
  assert (Hd : 0 < d1) by (apply Zdigits2_pos; lia).
  set (e' := Z.min (fexp prec emax (d1 + 0 - (Zdigits2 1 + 0))) (0 - 0)).
  assert (He : e' <= 0) by (unfold e'; lia).
  set (m' := match 0 - 0 - e' with
             | 0 => Z.pos p
             | Z.pos _ => Z.shiftl (Z.pos p) (0 - 0 - e')
             | Z.neg _ => 0
             end).
  assert (Hm : m' = Z.pos p * 2 ^ (- e')).
  { unfold m'. replace (0 - 0 - e') with (- e') by lia.
    destruct (- e') as [|s|s] eqn:S; [simpl; lia | | lia].
    apply Z.shiftl_mul_pow2. lia. }
  assert (Q : Z.div_eucl m' 1 = (m', 0)).
  { pose proof (Z.div_1_r m') as Q1. pose proof (Z.mod_1_r m') as Q2.
    unfold Z.div, Z.modulo in Q1, Q2. destruct (Z.div_eucl m' 1). simpl in *. congruence. }
  rewrite Q. simpl xorb.
  assert (Pm : 0 < m') by (rewrite Hm; apply Z.mul_pos_pos; [lia | apply Z.pow_pos_nonneg; lia]).
  apply binary_round_aux_pos; [exact Pm |].
  rewrite Zdigits2_log2 by assumption. rewrite Hm.
  rewrite Z.log2_mul_pow2 by lia.
  pose proof (Z.log2_nonneg (Z.pos p)). lia.
Qed.

Lemma length_truthy (A : Type) (a : A) (l : list A) :
  JS.truthy (JS.VNum (of_Z (Z.of_nat (List.length (a :: l))))) = true.
Proof.
  pose proof (of_Z_positive (Pos.of_succ_nat (List.length l))) as H.
  replace (Z.of_nat (List.length (a :: l))) with (Z.pos (Pos.of_succ_nat (List.length l)))
    by (simpl List.length; lia).
  unfold JS.truthy.
  destruct (of_Z _) as [[]|[]| |[] ? ?]; simpl in H; try contradiction; reflexivity.
Qed.

(** *** Integers below [2^53] are represented exactly *)

Lemma shr_1_even (k : Z) :
  0 < k ->
  shr_1 {| shr_m := 2 * k; shr_r := false; shr_s := false |}
  = {| shr_m := k; shr_r := false; shr_s := false |}.
Proof. destruct k; try lia. reflexivity. Qed.

Lemma iter_shr_exact (n : positive) :
  forall k, 0 < k ->
    iter_pos shr_1 n {| shr_m := k * 2 ^ Zpos n; shr_r := false; shr_s := false |}
    = {| shr_m := k; shr_r := false; shr_s := false |}.
Proof.
  induction n as [n IH|n IH|]; intros k K; cbn [iter_pos].
  - replace (k * 2 ^ Z.pos n~1) with (2 * ((k * 2 ^ Z.pos n) * 2 ^ Z.pos n)).
    + rewrite shr_1_even, IH, IH; auto.
      * apply Z.mul_pos_pos; [lia | apply Z.pow_pos_nonneg; lia].
      * apply Z.mul_pos_pos; [| apply Z.pow_pos_nonneg; lia].
        apply Z.mul_pos_pos; [lia | apply Z.pow_pos_nonneg; lia].
    + replace (Z.pos n~1) with (Z.pos n + Z.pos n + 1) by lia.
      rewrite !Z.pow_add_r by lia. change (2 ^ 1) with 2. ring.
  - replace (k * 2 ^ Z.pos n~0) with ((k * 2 ^ Z.pos n) * 2 ^ Z.pos n).
    + rewrite IH, IH; auto.
      apply Z.mul_pos_pos; [lia | apply Z.pow_pos_nonneg; lia].
    + replace (Z.pos n~0) with (Z.pos n + Z.pos n) by lia.
      rewrite !Z.pow_add_r by lia. ring.
  - change (2 ^ 1) with 2. rewrite Z.mul_comm. now apply shr_1_even.
Qed.

Lemma shr_exact (k e n : Z) :
  0 < k -> 0 <= n ->
  shr {| shr_m := k * 2 ^ n; shr_r := false; shr_s := false |} e n
  = ({| shr_m := k; shr_r := false; shr_s := false |}, e + n).
Proof.
  intros K N. unfold shr. destruct n as [|p|p]; try lia.
  - simpl. rewrite Z.mul_1_r, Z.add_0_r. reflexivity.
  - now rewrite iter_shr_exact.
Qed.

(** Rounding an integer below [2^53], given with trailing zero bits,
    gives its exact representation. *)
Lemma binary_round_aux_exact (z j : Z) :
  0 < z < 2 ^ 53 -> 52 - Z.log2 z <= j ->
  binary_round_aux prec emax false (z * 2 ^ j) (- j) loc_Exact = canon z.
Proof.
  intros Hz J.
  pose proof (Z.log2_nonneg z) as L0.
  assert (L53 : Z.log2 z < 53) by (apply Z.log2_lt_pow2; lia).
  assert (J0 : 0 <= j) by lia.
  set (k := z * 2 ^ (52 - Z.log2 z)).
  assert (K : 0 < k) by (apply Z.mul_pos_pos; [lia | apply Z.pow_pos_nonneg; lia]).
  assert (Lk : Z.log2 k = 52).
  { unfold k. rewrite Z.log2_mul_pow2 by lia. lia. }
  assert (Lm : Z.log2 (z * 2 ^ j) = Z.log2 z + j) by (rewrite Z.log2_mul_pow2 by lia; lia).
  assert (Pm : 0 < z * 2 ^ j) by (apply Z.mul_pos_pos; [lia | apply Z.pow_pos_nonneg; lia]).
  unfold binary_round_aux.
  assert (S1 : shr_fexp prec emax (z * 2 ^ j) (- j) loc_Exact
               = ({| shr_m := k; shr_r := false; shr_s := false |}, Z.log2 z - 52)).
  { unfold shr_fexp. rewrite Zdigits2_log2, Lm by assumption.
    unfold fexp, emin, prec, emax.
    replace (Z.max (Z.log2 z + j + 1 + - j - 53) (3 - 1024 - 53) - - j)
      with (j - (52 - Z.log2 z)) by lia.
    simpl shr_record_of_loc.
    replace (z * 2 ^ j) with (k * 2 ^ (j - (52 - Z.log2 z))).
    - rewrite shr_exact by lia. f_equal. lia.
    - unfold k. rewrite <- Z.mul_assoc, <- Z.pow_add_r by lia. f_equal. f_equal. lia. }
  rewrite S1. simpl loc_of_shr_record. simpl round_nearest_even. simpl shr_m at 1.
  assert (S2 : shr_fexp prec emax k (Z.log2 z - 52) loc_Exact
               = ({| shr_m := k; shr_r := false; shr_s := false |}, Z.log2 z - 52)).
  { unfold shr_fexp. rewrite Zdigits2_log2, Lk by assumption.
    unfold fexp, emin, prec, emax.
    replace (Z.max (52 + 1 + (Z.log2 z - 52) - 53) (3 - 1024 - 53) - (Z.log2 z - 52))
      with 0 by lia.
    reflexivity. }
  rewrite S2. simpl shr_m. unfold canon. fold k.
  destruct k as [|p|p] eqn:Ek; try lia.
  replace (Z.log2 z - 52 <=? emax - prec) with true
    by (symmetry; apply Z.leb_le; unfold emax, prec; lia).
  reflexivity.
Qed.

Lemma of_Z_exact (z : Z) : 0 < z < 2 ^ 53 -> of_Z z = canon z.
Proof.
  intros Hz. destruct z as [|p|p]; try lia.
  pose proof (Z.log2_nonneg (Z.pos p)) as L0.
  assert (L53 : Z.log2 (Z.pos p) < 53) by (apply Z.log2_lt_pow2; lia).
  unfold of_Z, of_ratio, SFdiv, SFdiv_core_binary.
  rewrite (Zdigits2_log2 (Z.pos p)) by lia.
  change (Zdigits2 1) with 1.
  unfold fexp, emin, prec, emax.
  replace (Z.min (Z.max (Z.log2 (Z.pos p) + 1 + 0 - (1 + 0) - 53) (3 - 1024 - 53)) (0 - 0))
    with (- (53 - Z.log2 (Z.pos p))) by lia.
  replace (0 - 0 - - (53 - Z.log2 (Z.pos p))) with (53 - Z.log2 (Z.pos p)) by lia.
  destruct (53 - Z.log2 (Z.pos p)) as [|s|s] eqn:S; try lia.
  rewrite Z.shiftl_mul_pow2 by lia.
  assert (Q : Z.div_eucl (Z.pos p * 2 ^ Z.pos s) 1 = (Z.pos p * 2 ^ Z.pos s, 0)).
  { pose proof (Z.div_1_r (Z.pos p * 2 ^ Z.pos s)) as Q1.
    pose proof (Z.mod_1_r (Z.pos p * 2 ^ Z.pos s)) as Q2.
    unfold Z.div, Z.modulo in Q1, Q2.
    destruct (Z.div_eucl (Z.pos p * 2 ^ Z.pos s) 1). simpl in *. congruence. }
  rewrite Q. simpl xorb. change (new_location 1 0) with loc_Exact.
  apply binary_round_aux_exact; lia.
Qed.

Lemma iter_xO (m d : positive) : Zpos (Pos.iter xO m d) = Zpos m * 2 ^ Zpos d.
Proof.
  rewrite <- Z.shiftl_mul_pow2 by lia. unfold Z.shiftl.
  apply (Pos.iter_swap_gen _ _ Zpos xO (Z.mul 2)). reflexivity.
Qed.

(** Adding 1 to an integer is exact as long as the sum stays below
    [2^53]. *)
Lemma add_one_exact (a : Z) :
  0 < a -> a + 1 < 2 ^ 53 -> add (canon a) one = canon (a + 1).
Proof.
  intros A B.
  pose proof (Z.log2_nonneg a) as L0.
  assert (L53 : Z.log2 a < 53) by (apply Z.log2_lt_pow2; lia).
  assert (Ka : 0 < a * 2 ^ (52 - Z.log2 a))
    by (apply Z.mul_pos_pos; [lia | apply Z.pow_pos_nonneg; lia]).
  unfold add, canon at 1. change one with (S754_finite false 4503599627370496 (-52)).
  unfold SFadd.
  replace (Z.min (Z.log2 a - 52) (-52)) with (-52) by lia.
  assert (Sa : Zpos (fst (shl_align (Z.to_pos (a * 2 ^ (52 - Z.log2 a))) (Z.log2 a - 52) (-52)))
               = a * 2 ^ 52).
  { unfold shl_align.
    replace (-52 - (Z.log2 a - 52)) with (- Z.log2 a) by lia.
    destruct (Z.log2 a) as [|d|d] eqn:La; try lia; simpl Z.opp; cbn [fst].
    - rewrite Z2Pos.id by lia. reflexivity.
    - rewrite iter_xO, Z2Pos.id by lia.
      rewrite <- Z.mul_assoc, <- Z.pow_add_r by lia. f_equal. f_equal. lia. }
  rewrite Sa. change (shl_align 4503599627370496 (-52) (-52)) with (4503599627370496%positive, -52).
  cbn [fst cond_Zopp].
  replace (a * 2 ^ 52 + 4503599627370496) with ((a + 1) * 2 ^ 52) by (change (2 ^ 52) with 4503599627370496; lia).
  assert (P1 : 0 < (a + 1) * 2 ^ 52) by lia.
  unfold binary_normalize.
  destruct ((a + 1) * 2 ^ 52) as [|M|M] eqn:EM; try lia.
  unfold binary_round.
  pose proof (Z.log2_nonneg (a + 1)) as L1.
  assert (LM : Z.log2 (Z.pos M) = Z.log2 (a + 1) + 52)
    by (rewrite <- EM, Z.log2_mul_pow2 by lia; lia).
  assert (Sh : shl_align M (-52) (fexp prec emax (Z.pos (digits2_pos M) + -52)) = (M, -52)).
  { change (Z.pos (digits2_pos M)) with (Zdigits2 (Z.pos M)).
    rewrite Zdigits2_log2, LM by lia. unfold shl_align, fexp, emin, prec, emax.
    destruct (Z.max (Z.log2 (a + 1) + 52 + 1 + -52 - 53) (3 - 1024 - 53) - -52) eqn:X;
      try reflexivity; lia. }
  rewrite Sh, <- EM. apply (binary_round_aux_exact (a + 1) 52); lia.
Qed.

(** On exact integers [==] is equality of the integers. *)
Lemma eqb_canon (a b : Z) :
  0 < a < 2 ^ 53 -> 0 < b < 2 ^ 53 -> eqb (canon a) (canon b) = (a =? b).
Proof.
  intros A B.
  pose proof (Z.log2_nonneg a). pose proof (Z.log2_nonneg b).
  assert (Z.log2 a < 53) by (apply Z.log2_lt_pow2; lia).
  assert (Z.log2 b < 53) by (apply Z.log2_lt_pow2; lia).
  assert (Ka : 0 < a * 2 ^ (52 - Z.log2 a))
    by (apply Z.mul_pos_pos; [lia | apply Z.pow_pos_nonneg; lia]).
  assert (Kb : 0 < b * 2 ^ (52 - Z.log2 b))
    by (apply Z.mul_pos_pos; [lia | apply Z.pow_pos_nonneg; lia]).
  unfold eqb, SFeqb, SFcompare, canon.
  destruct (Z.compare_spec (Z.log2 a - 52) (Z.log2 b - 52)) as [E | L | L].
  - assert (E' : Z.log2 a = Z.log2 b) by lia.
    fold (Pos.compare (Z.to_pos (a * 2 ^ (52 - Z.log2 a))) (Z.to_pos (b * 2 ^ (52 - Z.log2 b)))).
    destruct (Z.eq_dec a b) as [-> | N].
    + rewrite Pos.compare_refl. symmetry. apply Z.eqb_refl.
    + destruct (Pos.compare_spec (Z.to_pos (a * 2 ^ (52 - Z.log2 a)))
                                 (Z.to_pos (b * 2 ^ (52 - Z.log2 b)))) as [Q | Q | Q];
        try (symmetry; now apply Z.eqb_neq).
      exfalso. apply N. apply Z2Pos.inj in Q; try lia.
      rewrite E' in Q. apply Z.mul_reg_r in Q; [exact Q |].
      apply Z.pow_nonzero; lia.
  - symmetry. apply Z.eqb_neq. intros ->. lia.
  - symmetry. apply Z.eqb_neq. intros ->. lia.
Qed.

Lemma eqb_canon_zero (a : Z) : 0 < a -> eqb (canon a) zero = false.
Proof. reflexivity. Qed.

(** The successor test on integers below [2^53]. *)
Lemma successor_test (a b : Z) :
  0 <= a -> a + 1 < 2 ^ 53 -> 0 <= b < 2 ^ 53 ->
  eqb (add (of_Z a) one) (of_Z b) = (b =? a + 1).
Proof.
  intros A A1 B.
  assert (S : add (of_Z a) one = canon (a + 1)).
  { destruct (Z.eq_dec a 0) as [-> | Na]; [reflexivity |].
    rewrite of_Z_exact by lia. apply add_one_exact; lia. }
  rewrite S.
  destruct (Z.eq_dec b 0) as [-> | Nb].
  - change (of_Z 0) with zero. rewrite eqb_canon_zero by lia.
    symmetry. apply Z.eqb_neq. lia.
  - rewrite of_Z_exact by lia. rewrite eqb_canon by lia. apply Z.eqb_sym.
Qed.

(** *** [parseFloat] on a string of digits *)

Lemma span_all_digits (s : string) :
  Str.all_digits s = true -> Str.span_digits s = (s, EmptyString).
Proof.
  induction s as [|c s IH]; simpl; [reflexivity |].
  intros H. apply andb_true_iff in H as [D H]. rewrite D, (IH H). reflexivity.
Qed.

Lemma digits_value_ge (s : string) (acc : Z) :
  0 <= acc -> Str.all_digits s = true -> acc <= Str.digits_value acc s.
Proof.
  revert acc. induction s as [|c s IH];
    cbn [Str.digits_value Str.all_digits]; intros acc A H; [lia |].
  apply andb_true_iff in H as [D H].
  assert (0 <= Str.digit_val c).
  { unfold Str.is_digit in D. cbv zeta in D. unfold Str.digit_val.
    apply andb_true_iff in D as [D1 D2]. apply Nat.leb_le in D1. lia. }
  apply Z.le_trans with (10 * acc + Str.digit_val c); [lia |].
  apply IH; [lia | assumption].
Qed.

Lemma round_sign (s : bool) (m e : Z) (l : location) :
  match binary_round_aux prec emax s m e l with
  | S754_zero s' | S754_infinity s' | S754_finite s' _ _ => s' = s
  | S754_nan => True
  end.
Proof.
  unfold binary_round_aux.
  destruct (shr_fexp prec emax m e l) as [r1 e1].
  destruct (shr_fexp prec emax _ e1 loc_Exact) as [r2 e2].
  destruct (shr_m r2); [reflexivity | | exact I].
  destruct (e2 <=? emax - prec); reflexivity.
Qed.

Lemma of_ratio_sign (n : Z) (d : positive) :
  0 <= n ->
  match of_ratio n d with
  | S754_zero s | S754_infinity s | S754_finite s _ _ => s = false
  | S754_nan => True
  end.
Proof.
  intros N. destruct n as [|p|p]; try lia; [reflexivity |].
  unfold of_ratio, SFdiv.
  destruct (SFdiv_core_binary prec emax (Z.pos p) 0 (Z.pos d) 0) as [[mz ez] lz].
  apply round_sign.
Qed.

Lemma literal_value_nonneg (m e : Z) :
  0 <= m -> literal_value false (LDecimal m e) = of_decimal m e.
Proof.
  intros M. unfold literal_value.
  assert (H : match of_decimal m e with
              | S754_zero s | S754_infinity s | S754_finite s _ _ => s = false
              | S754_nan => True
              end).
  { unfold of_decimal. destruct e; apply of_ratio_sign; try lia;
      try (apply Z.mul_nonneg_nonneg; [lia | apply Z.pow_nonneg; lia]). }
  destruct (of_decimal m e); try reflexivity; now rewrite H.
Qed.

Lemma digit_not_space (c : ascii) : Str.is_digit c = true -> Str.is_space c = false.
Proof.
  destruct c as [[] [] [] [] [] [] [] []]; intros D; try discriminate D; reflexivity.
Qed.

Lemma digit_unsigned (c : ascii) (r : string) :
  Str.is_digit c = true ->
  scan_signed (String c r)
  = match scan_unsigned (String c r) with
    | Some (l, rest) => Some (false, l, rest)
    | None => None
    end.
Proof.
  destruct c as [[] [] [] [] [] [] [] []]; intros D; try discriminate D; reflexivity.
Qed.

Lemma digit_not_Infinity (c : ascii) (r : string) :
  Str.is_digit c = true -> Str.prefix_rest "Infinity" (String c r) = None.
Proof.
  destruct c as [[] [] [] [] [] [] [] []]; intros D; try discriminate D; reflexivity.
Qed.

Lemma parseFloat_digits (s : string) :
  s <> EmptyString -> Str.all_digits s = true ->
  parseFloat s = of_Z (Str.digits_value 0 s).
Proof.
  intros N H. destruct s as [|c r]; [congruence |].
  pose proof (span_all_digits _ H) as Sp.
  pose proof (digits_value_ge _ 0 (Z.le_refl 0) H) as V.
  assert (D : Str.is_digit c = true)
    by (cbn [Str.all_digits] in H; now apply andb_true_iff in H as [D _]).
  unfold parseFloat. cbn [Str.trim_start]. rewrite (digit_not_space _ D).
  rewrite (digit_unsigned _ _ D). unfold scan_unsigned.
  rewrite (digit_not_Infinity _ _ D), Sp. cbn [scan_exponent].
  rewrite literal_value_nonneg by assumption.
  unfold of_decimal, of_Z. now rewrite Z.pow_0_r, Z.mul_1_r.
Qed.

End NumFacts.

(* ================================================================= *)
(** ** The sequence-range compactor *)

Module SequenceListFacts.

Import Regex RegexFacts NumFacts SequenceList.

Local Open Scope list_scope.

(** *** The numeric pattern *)

Lemma numberPattern_spec (t : string) :
  test numberPattern t = true <-> spec_numeric_token t.
Proof.
  rewrite test_spec. unfold numberPattern, spec_numeric_token. split.
  - intros H. inversion H as [| | | ? ? ? H1 | ? ? ? H1 | | |]; subst; clear H.
    + left. now apply plus_digit.
    + right.
      inversion H1 as [| | | ? ? ? H2 | ? ? ? H2 | | |]; subst; clear H1;
        inversion H2 as [| | | | | ? ? ip v Hi Hv | |]; subst; clear H2;
        inversion Hv as [| | | | | ? ? d fp Hd Hf | |]; subst; clear Hv;
        apply lit_inv in Hd; subst d; exists ip, fp.
      * apply plus_digit in Hi as [N D]. apply star_digit in Hf. auto.
      * apply star_digit in Hi. apply plus_digit in Hf as [N D]. auto.
  - intros [H | (ip & fp & -> & Di & Df & [N | N])].
    + apply MAltL. now apply plus_digit.
    + apply MAltR, MAltL. constructor; [now apply plus_digit |].
      change ("." ++ fp)%string with (String "." "" ++ fp)%string.
      constructor; [constructor | now apply star_digit].
    + apply MAltR, MAltR. constructor; [now apply star_digit |].
      change ("." ++ fp)%string with (String "." "" ++ fp)%string.
      constructor; [constructor | now apply plus_digit].
Qed.

Lemma digit_token_numeric (t : string) :
  t <> ""%string -> Str.all_digits t = true -> test numberPattern t = true.
Proof. intros N D. apply numberPattern_spec. left. auto. Qed.

(** *** The last range *)

Lemma at_last_snoc (l : list range) (r : range) : at_last (l ++ [r]) = Some r.
Proof.
  induction l as [|a l IH]; simpl; [reflexivity |].
  destruct (l ++ [r]) eqn:E; [now destruct l | exact IH].
Qed.

Lemma at_last_some (l : list range) (r : range) :
  at_last l = Some r -> exists front, l = front ++ [r].
Proof.
  induction l as [|a l IH]; simpl; [discriminate |].
  destruct l as [|b l].
  - intros [= ->]. now exists [].
  - intros H. destruct (IH H) as [front E]. exists (a :: front).
    simpl. now rewrite E.
Qed.

Lemma at_last_none (l : list range) : at_last l = None -> l = [].
Proof.
  induction l as [|a l IH]; simpl; [reflexivity |].
  destruct l as [|b l]; [discriminate |].
  intros H. specialize (IH H). discriminate.
Qed.

Lemma set_last_end_snoc (v : seqval) (l : list range) (r : range) :
  set_last_end v (l ++ [r]) = l ++ [mkRange (start r) v (isNumber r)].
Proof.
  induction l as [|a l IH]; simpl; [reflexivity |].
  destruct (l ++ [r]) eqn:E; [now destruct l |].
  now rewrite <- IH.
Qed.

Lemma reducer_snoc (front : list range) (lr : range) (token : string) :
  reducer (front ++ [lr]) token =
  if extends_guard lr token
  then front ++ [mkRange (start lr) (token_value token) (isNumber lr)]
  else front ++ [lr; mkRange (token_value token) (token_value token)
                             (test numberPattern token)].
Proof.
  unfold reducer, extends_guard. rewrite at_last_snoc.
  destruct (_ && _ && _).
  - apply set_last_end_snoc.
  - now rewrite <- app_assoc.
Qed.

Lemma reducer_nil (token : string) :
  reducer [] token =
  [mkRange (token_value token) (token_value token) (test numberPattern token)].
Proof. reflexivity. Qed.

Lemma ranges_of_snoc (tokens : list string) (token : string) :
  ranges_of (tokens ++ [token]) = reducer (ranges_of tokens) token.
Proof. unfold ranges_of. now rewrite fold_left_app. Qed.

(** After a token has been processed, the last range ends at that token's
    value and carries that token's classification. *)
Lemma last_after_reducer (ranges : list range) (token : string) :
  exists front lr,
    reducer ranges token = front ++ [lr]
    /\ end_ lr = token_value token
    /\ isNumber lr = test numberPattern token.
Proof.
  destruct (at_last ranges) as [lr|] eqn:L.
  - apply at_last_some in L as [front ->]. rewrite reducer_snoc.
    destruct (extends_guard lr token) eqn:G.
    + exists front, (mkRange (start lr) (token_value token) (isNumber lr)).
      unfold extends_guard in G.
      apply andb_true_iff in G as [G _]. apply andb_true_iff in G as [G1 G2].
      simpl. now rewrite G1, G2.
    + exists (front ++ [lr]), (mkRange (token_value token) (token_value token)
                                       (test numberPattern token)).
      simpl. now rewrite <- app_assoc.
  - apply at_last_none in L as ->. rewrite reducer_nil.
    now exists [], (mkRange (token_value token) (token_value token)
                            (test numberPattern token)).
Qed.

(** The guard, read on the two neighbouring tokens. *)
Lemma extends_guard_tokens (lr : range) (prev cur : string) :
  end_ lr = token_value prev ->
  isNumber lr = test numberPattern prev ->
  extends_guard lr cur =
  test numberPattern cur && test numberPattern prev
  && Num.eqb (Num.add (Num.parseFloat prev) Num.one) (Num.parseFloat cur).
Proof.
  intros E I. unfold extends_guard. rewrite E, I. unfold token_value.
  destruct (test numberPattern cur), (test numberPattern prev); reflexivity.
Qed.

(** *** Start and end of a range are of one kind *)

Lemma token_range_well_kinded (token : string) :
  well_kinded (mkRange (token_value token) (token_value token)
                       (test numberPattern token)).
Proof.
  unfold well_kinded, token_value; simpl.
  destruct (test numberPattern token); auto.
Qed.

Lemma reducer_well_kinded (ranges : list range) (token : string) :
  Forall well_kinded ranges -> Forall well_kinded (reducer ranges token).
Proof.
  intros W. destruct (at_last ranges) as [lr|] eqn:L.
  - apply at_last_some in L as [front ->]. rewrite reducer_snoc.
    apply Forall_app in W as [Wf Wl]. inversion Wl as [|? ? Wlr _]; subst.
    destruct (extends_guard lr token) eqn:G.
    + apply Forall_app; split; [assumption |]. constructor; [|constructor].
      unfold extends_guard in G.
      apply andb_true_iff in G as [G _]. apply andb_true_iff in G as [G1 G2].
      unfold well_kinded in *; simpl. unfold token_value. rewrite G1.
      destruct (start lr), (end_ lr); try contradiction; try assumption.
      destruct Wlr as [_ F]. congruence.
    + apply Forall_app; split; [assumption |].
      constructor; [assumption |]. constructor; [|constructor].
      apply token_range_well_kinded.
  - apply at_last_none in L as ->. rewrite reducer_nil.
    constructor; [apply token_range_well_kinded | constructor].
Qed.

Lemma ranges_of_well_kinded (tokens : list string) :
  Forall well_kinded (ranges_of tokens).
Proof.
  unfold ranges_of.
  assert (G : forall acc, Forall well_kinded acc ->
                          Forall well_kinded (fold_left reducer tokens acc)).
  { induction tokens as [|t ts IH]; simpl; intros acc W; [assumption |].
    apply IH, reducer_well_kinded, W. }
  apply G. constructor.
Qed.

(** On such ranges the coercing [==] of the code is plain equality. *)
Lemma render_well_kinded (r : range) :
  well_kinded r -> to_string (render r) = spec_render r.
Proof.
  unfold well_kinded, render, spec_render.
  destruct (start r), (end_ r); simpl; try contradiction; intros _;
    match goal with |- context [if ?b then _ else _] => destruct b end;
    reflexivity.
Qed.

(** *** When a range is extended *)

(** C1 (as amended): walking the tokens, the token [cur] that follows
    [prev] extends the open range (no new range is started) exactly when
    [cur] is numeric, [prev] is numeric, and the double-precision sum of
    [prev]'s value (the end of the open range) and 1 compares equal to
    [cur]'s value; the range then ends at [cur]'s value.  Otherwise a new
    range seeded by [cur] is appended.  For tokens that are integers
    below [2^53] the test is exact: the range is extended exactly when
    [cur] is [prev] plus 1, so no other integer extends it. *)
Theorem range_extended_iff (pre : list string) (prev cur : string) :
  let before := ranges_of (pre ++ [prev]) in
  let after := ranges_of (pre ++ [prev; cur]) in
  (List.length after = List.length before <->
     test numberPattern cur = true /\ test numberPattern prev = true /\
     Num.eqb (Num.add (Num.parseFloat prev) Num.one) (Num.parseFloat cur) = true)
  /\ (List.length after = List.length before ->
      exists front lr,
        before = front ++ [lr] /\ end_ lr = SNum (Num.parseFloat prev)
        /\ after = front ++ [mkRange (start lr) (SNum (Num.parseFloat cur)) true])
  /\ (List.length after <> List.length before ->
      after = before ++ [mkRange (token_value cur) (token_value cur)
                                 (test numberPattern cur)])
  /\ (prev <> ""%string -> Str.all_digits prev = true ->
      cur <> ""%string -> Str.all_digits cur = true ->
      Str.digits_value 0 prev + 1 < 2 ^ 53 -> Str.digits_value 0 cur < 2 ^ 53 ->
      (List.length after = List.length before
       <-> Str.digits_value 0 cur = Str.digits_value 0 prev + 1)).
Proof.
  intros before after.
  assert (G : (List.length after = List.length before <->
     test numberPattern cur = true /\ test numberPattern prev = true /\
     Num.eqb (Num.add (Num.parseFloat prev) Num.one) (Num.parseFloat cur) = true)
  /\ (List.length after = List.length before ->
      exists front lr,
        before = front ++ [lr] /\ end_ lr = SNum (Num.parseFloat prev)
        /\ after = front ++ [mkRange (start lr) (SNum (Num.parseFloat cur)) true])
  /\ (List.length after <> List.length before ->
      after = before ++ [mkRange (token_value cur) (token_value cur)
                                 (test numberPattern cur)])).
  2:{ destruct G as (G1 & G2 & G3). repeat (split; [assumption |]).
      intros Np Dp Nc Dc Bp Bc. rewrite G1.
      rewrite (digit_token_numeric _ Np Dp), (digit_token_numeric _ Nc Dc).
      rewrite (parseFloat_digits _ Np Dp), (parseFloat_digits _ Nc Dc).
      pose proof (digits_value_ge _ 0 (Z.le_refl 0) Dp).
      pose proof (digits_value_ge _ 0 (Z.le_refl 0) Dc).
      rewrite successor_test by lia. rewrite Z.eqb_eq. tauto. }
  assert (A : after = reducer before cur).
  { unfold after, before. rewrite <- ranges_of_snoc, <- app_assoc. reflexivity. }
  destruct (last_after_reducer (ranges_of pre) prev) as (front & lr & B & E & I).
  rewrite <- ranges_of_snoc in B. fold before in B.
  rewrite A, B, reducer_snoc, (extends_guard_tokens lr prev cur E I).
  assert (L1 : List.length (front ++ [lr; mkRange (token_value cur) (token_value cur)
                                          (test numberPattern cur)])
               <> List.length (front ++ [lr])).
  { rewrite !List.length_app; simpl; lia. }
  assert (L2 : forall x, List.length (front ++ [x]) = List.length (front ++ [lr])).
  { intros x. rewrite !List.length_app; reflexivity. }
  destruct (test numberPattern cur && test numberPattern prev
            && Num.eqb (Num.add (Num.parseFloat prev) Num.one) (Num.parseFloat cur))
    eqn:G.
  - apply andb_true_iff in G as [G Q]. apply andb_true_iff in G as [C P].
    split; [| split].
    + split; [auto | intros _; apply L2].
    + intros _. exists front, lr. split; [reflexivity |]. split.
      * rewrite E. unfold token_value. now rewrite P.
      * rewrite I, P. unfold token_value. now rewrite C.
    + intros F. exfalso. apply F, L2.
  - split; [| split].
    + split; [intros F; now apply L1 in F |].
      intros (C & P & Q). rewrite C, P, Q in G. discriminate.
    + intros F. now apply L1 in F.
    + intros _. now rewrite <- app_assoc.
Qed.

(** The integer case of the theorem, at the tokens ["5"], ["7"], ["8"]. *)
Lemma range_extended_iff_witness :
  ("7" <> "" /\ Str.all_digits "7" = true
   /\ "8" <> "" /\ Str.all_digits "8" = true)%string
  /\ (List.length (ranges_of (["5"] ++ ["7"; "8"])) = List.length (ranges_of (["5"] ++ ["7"]))
      <-> Str.digits_value 0 "8" = Str.digits_value 0 "7" + 1).
Proof.
  split; [repeat split; (discriminate || reflexivity) |].
  apply (proj2 (proj2 (proj2 (range_extended_iff ["5"%string] "7" "8"))));
    (discriminate || reflexivity).
Defined.

(** C1 (as stated) fails: the fractional token ["1.5"] extends the range
    opened by ["0.5"], since [0.5 + 1 == 1.5]. *)
Lemma fractional_token_extends :
  seriesSequenceList ["0.5"; "1.5"] = "0.5-1.5"%string
  /\ ~ (forall (pre : list string) (prev cur : string),
         List.length (ranges_of (pre ++ [prev; cur])) = List.length (ranges_of (pre ++ [prev])) ->
         Num.is_integer (Num.parseFloat cur) = true).
Proof.
  split; [vm_compute; reflexivity |].
  intros H. specialize (H [] "0.5"%string "1.5"%string eq_refl).
  vm_compute in H. discriminate.
Qed.

(** The sum is rounded: a value far from the successor of the range's end
    extends the range when the rounded sum equals it. *)
Example rounded_sum_extends :
  seriesSequenceList ["0.00000000000000001"; "1"] = "1e-17-1"%string.
Proof. vm_compute. reflexivity. Qed.

(** A fraction between two integers extends nothing. *)
Example fraction_between_integers :
  seriesSequenceList ["1"; "1.5"; "2"] = "1, 1.5, 2"%string.
Proof. vm_compute. reflexivity. Qed.

(** *** Classification and rendering *)

(** C2: a token is classified as numeric exactly when it has the shape
    the spec describes; each range is rendered as its start value when
    start equals end and as ["start-end"] otherwise; the rendered ranges
    are joined with [", "]; no tokens give the empty string. *)
Theorem compaction_rendering :
  (forall t, test numberPattern t = true <-> spec_numeric_token t)
  /\ Forall (fun t => test numberPattern t = true) ["3"; "3.5"; ".5"; "3."]%string
  /\ (forall tokens,
        seriesSequenceList tokens =
        String.concat ", " (map spec_render (ranges_of tokens)))
  /\ seriesSequenceList [] = ""%string
  /\ seriesSequenceList ["1"; "2"; "3"; "5"; "7"; "8"] = "1-3, 5, 7-8"%string
  /\ seriesSequenceList ["3a"] = "3a"%string.
Proof.
  split; [exact numberPattern_spec |].
  split; [repeat constructor |].
  split; [| repeat split; vm_compute; reflexivity].
  intros tokens. unfold seriesSequenceList, Str.join. f_equal.
  rewrite map_map. apply map_ext_in. intros r R.
  apply render_well_kinded.
  exact (proj1 (Forall_forall _ _) (ranges_of_well_kinded tokens) r R).
Qed.

End SequenceListFacts.

(* ================================================================= *)
(** ** [slice] on integer bounds *)

Module PagingFacts.

Import Paging.

Local Open Scope list_scope.

Lemma window (A : Type) (l : list A) (s : nat) (lo hi : Z) :
  map snd (filter (fun p => (lo <=? Z.of_nat (fst p)) && (Z.of_nat (fst p) <? hi))
                  (combine (seq s (List.length l)) l))
  = firstn (Z.to_nat (hi - Z.max lo (Z.of_nat s)))
           (skipn (Z.to_nat (lo - Z.of_nat s)) l).
Proof.
  revert s. induction l as [|x r IH]; intros s.
  - simpl. now rewrite skipn_nil, firstn_nil.
  - cbn [List.length seq combine filter fst].
    destruct (lo <=? Z.of_nat s) eqn:Lo; destruct (Z.of_nat s <? hi) eqn:Hi;
      cbn [andb map snd]; rewrite IH;
      try apply Z.leb_le in Lo; try apply Z.leb_gt in Lo;
      try apply Z.ltb_lt in Hi; try apply Z.ltb_ge in Hi.
    + replace (Z.to_nat (lo - Z.of_nat s)) with 0%nat by lia.
      replace (Z.to_nat (lo - Z.of_nat (S s))) with 0%nat by lia.
      replace (Z.to_nat (hi - Z.max lo (Z.of_nat s)))
        with (S (Z.to_nat (hi - Z.max lo (Z.of_nat (S s))))) by lia.
      reflexivity.
    + replace (Z.to_nat (hi - Z.max lo (Z.of_nat (S s)))) with 0%nat by lia.
      replace (Z.to_nat (hi - Z.max lo (Z.of_nat s))) with 0%nat by lia.
      reflexivity.
    + replace (Z.to_nat (lo - Z.of_nat s))
        with (S (Z.to_nat (lo - Z.of_nat (S s)))) by lia.
      replace (Z.max lo (Z.of_nat (S s))) with (Z.max lo (Z.of_nat s)) by lia.
      reflexivity.
    + replace (Z.to_nat (hi - Z.max lo (Z.of_nat (S s)))) with 0%nat by lia.
      replace (Z.to_nat (hi - Z.max lo (Z.of_nat s))) with 0%nat by lia.
      reflexivity.
Qed.

Lemma spec_slice_firstn_skipn (A : Type) (lo hi : Z) (l : list A) :
  spec_slice lo hi l
  = firstn (Z.to_nat (hi - Z.max lo 0)) (skipn (Z.to_nat lo) l).
Proof.
  unfold spec_slice. rewrite (window A l 0 lo hi). simpl Z.of_nat.
  now rewrite Z.sub_0_r.
Qed.

(** [slice] returns the elements between the positions its bounds
    denote. *)
Lemma slice_spec (A : Type) (start end_ : Z) (l : list A) :
  let len := Z.of_nat (List.length l) in
  slice start end_ l = spec_slice (relative len start) (relative len end_) l.
Proof.
  intros len. rewrite spec_slice_firstn_skipn. unfold slice, relative.
  fold len.
  set (lo := if start <? 0 then len + start else start).
  set (hi := if end_ <? 0 then len + end_ else end_).
  replace (if start <? 0 then Z.max (len + start) 0 else Z.min start len)
    with (Z.min (Z.max lo 0) len)
    by (unfold lo; destruct (start <? 0) eqn:S0;
        [apply Z.ltb_lt in S0 | apply Z.ltb_ge in S0]; lia).
  replace (if end_ <? 0 then Z.max (len + end_) 0 else Z.min end_ len)
    with (Z.min (Z.max hi 0) len)
    by (unfold hi; destruct (end_ <? 0) eqn:S0;
        [apply Z.ltb_lt in S0 | apply Z.ltb_ge in S0]; lia).
  clearbody lo hi.
  destruct (Z_lt_le_dec lo len) as [L | L].
  - replace (Z.to_nat (Z.min (Z.max lo 0) len)) with (Z.to_nat lo) by lia.
    destruct (Z_le_gt_dec hi len) as [H | H].
    + f_equal. lia.
    + rewrite !firstn_all2; [reflexivity | |]; rewrite length_skipn; lia.
  - rewrite !skipn_all2 by lia. now rewrite !firstn_nil.
Qed.

(** The page step on integers: no limit returns the list as it is;
    otherwise the result is the run of elements between the positions
    [page * limit] and [page * limit + limit], where a negative bound
    counts from the end of the list; for [limit > 0] and [page >= 0] that
    is the slice [[page * limit, page * limit + limit)]. *)
Lemma integer_page_spec (A : Type) (limit page : Z) (l : list A) :
  let len := Z.of_nat (List.length l) in
  limitItems 0 page l = l
  /\ (limit <> 0 ->
      limitItems limit page l
      = spec_slice (relative len (page * limit))
                   (relative len (page * limit + limit)) l)
  /\ (0 < limit -> 0 <= page ->
      limitItems limit page l = spec_slice (page * limit) (page * limit + limit) l
      /\ limitItems limit page l
         = firstn (Z.to_nat limit) (skipn (Z.to_nat (page * limit)) l)).
Proof.
  intros len. split; [reflexivity |].
  assert (G : limit <> 0 ->
              limitItems limit page l
              = spec_slice (relative len (page * limit))
                           (relative len (page * limit + limit)) l).
  { intros N. unfold limitItems. apply Z.eqb_neq in N. rewrite N.
    apply slice_spec. }
  split; [exact G |].
  intros L P. rewrite G by lia. unfold relative.
  assert (S0 : (page * limit <? 0) = false) by (apply Z.ltb_ge; nia).
  assert (S1 : (page * limit + limit <? 0) = false) by (apply Z.ltb_ge; nia).
  rewrite S0, S1. split; [reflexivity |].
  rewrite spec_slice_firstn_skipn. f_equal. nia.
Qed.

End PagingFacts.

(* ================================================================= *)
(** ** Sorting *)

Module SortingFacts.

Import JS Sorting.

Local Open Scope list_scope.

(** *** Consequences of the comparator laws *)

Section Laws.

Variable collate : string -> string -> comparison.
Hypothesis laws : Collator collate.

Lemma collate_sym_eq (s t : string) : collate s t = Eq -> collate t s = Eq.
Proof. intros H. rewrite (collate_antisym _ laws s t), H. reflexivity. Qed.

Lemma collate_lt_gt (s t : string) : collate s t = Lt <-> collate t s = Gt.
Proof.
  rewrite (collate_antisym _ laws s t).
  destruct (collate s t); simpl; split; congruence.
Qed.

(** Tied strings compare alike against any third. *)
Lemma collate_eq_l (a b c : string) :
  collate a b = Eq -> collate a c = collate b c.
Proof.
  intros H.
  assert (Hab : collate a b <> Gt) by congruence.
  assert (Hba : collate b a <> Gt) by (rewrite (collate_sym_eq _ _ H); congruence).
  pose proof (collate_trans _ laws a b c Hab) as T1.
  pose proof (collate_trans _ laws b a c Hba) as T2.
  pose proof (fun h => collate_trans _ laws c a b h Hab) as T3.
  pose proof (fun h => collate_trans _ laws c b a h Hba) as T4.
  rewrite (collate_antisym _ laws a c) in T3.
  rewrite (collate_antisym _ laws b c) in T3, T4.
  rewrite (collate_antisym _ laws a c) in T4.
  destruct (collate a c) eqn:Eac, (collate b c) eqn:Ebc; simpl in *;
    try reflexivity; exfalso;
    try (now apply T1); try (now apply T2); try (now apply T3); try (now apply T4).
Qed.

Lemma collate_lt_le (a b c : string) :
  collate a b = Lt -> collate b c <> Gt -> collate a c = Lt.
Proof.
  intros H1 H2.
  assert (Hab : collate a b <> Gt) by congruence.
  pose proof (collate_trans _ laws a b c Hab H2) as T.
  destruct (collate a c) eqn:Eac; [exfalso | reflexivity | congruence].
  assert (Hca : collate c a <> Gt) by (rewrite (collate_sym_eq _ _ Eac); congruence).
  pose proof (collate_trans _ laws b c a H2 Hca) as T2.
  apply collate_lt_gt in H1. congruence.
Qed.

(** Either direction of a comparator obeys the laws. *)
Lemma directed_laws (d : direction) :
  Collator (fun s t => directed d (collate s t)).
Proof.
  destruct d; simpl.
  - destruct laws; now constructor.
  - constructor.
    + intros s. now rewrite (collate_refl _ laws).
    + intros s t. now rewrite (collate_antisym _ laws s t).
    + intros s t u H1 H2.
      rewrite (collate_antisym _ laws u s), CompOpp_involutive.
      apply (collate_trans _ laws u t s).
      * rewrite (collate_antisym _ laws t u). exact H2.
      * rewrite (collate_antisym _ laws s t). exact H1.
Qed.

End Laws.

(** *** The lexicographic composite *)

Section Lexicographic.

Variable collate : string -> string -> comparison.
Hypothesis laws : Collator collate.

Lemma compare_keys_refl (dirs : list direction) (k : list string) :
  compare_keys collate dirs k k = Eq.
Proof.
  revert k; induction dirs as [|d ds IH]; intros [|a k]; simpl; try reflexivity.
  rewrite (collate_refl _ laws). destruct d; simpl; apply IH.
Qed.

Lemma compare_keys_antisym (dirs : list direction) (ka kb : list string) :
  compare_keys collate dirs kb ka = CompOpp (compare_keys collate dirs ka kb).
Proof.
  revert ka kb; induction dirs as [|d ds IH]; intros [|a ka] [|b kb]; simpl;
    try reflexivity.
  rewrite (collate_antisym _ (directed_laws _ laws d) a b).
  destruct (directed d (collate a b)); simpl; [apply IH | reflexivity | reflexivity].
Qed.

Lemma compare_keys_trans (dirs : list direction) (ka kb kc : list string) :
  List.length ka = List.length dirs ->
  List.length kb = List.length dirs ->
  List.length kc = List.length dirs ->
  compare_keys collate dirs ka kb <> Gt ->
  compare_keys collate dirs kb kc <> Gt ->
  compare_keys collate dirs ka kc <> Gt.
Proof.
  revert ka kb kc; induction dirs as [|d ds IH];
    intros [|a ka] [|b kb] [|c kc]; simpl; try discriminate; try congruence.
  intros La Lb Lc.
  pose proof (directed_laws _ laws d) as dl.
  pose proof (collate_eq_l _ dl a b c) as Q.
  pose proof (collate_lt_le _ dl a b c) as S. simpl in Q, S.
  destruct (directed d (collate a b)) eqn:X; [| | congruence].
  - rewrite Q by reflexivity.
    destruct (directed d (collate b c)) eqn:Y; [| congruence | congruence].
    apply IH; congruence.
  - intros _ H. rewrite S; [congruence | reflexivity |].
    destruct (directed d (collate b c)); congruence.
Qed.

Lemma compare_keys_eq_trans (dirs : list direction) (ka kb kc : list string) :
  List.length ka = List.length dirs ->
  List.length kb = List.length dirs ->
  List.length kc = List.length dirs ->
  compare_keys collate dirs ka kb = Eq ->
  compare_keys collate dirs ka kc = Eq ->
  compare_keys collate dirs kb kc = Eq.
Proof.
  intros La Lb Lc H1 H2.
  assert (A : compare_keys collate dirs kb ka = Eq)
    by (rewrite compare_keys_antisym, H1; reflexivity).
  assert (B : compare_keys collate dirs kc ka = Eq)
    by (rewrite compare_keys_antisym, H2; reflexivity).
  assert (T1 : compare_keys collate dirs kb kc <> Gt)
    by (apply (compare_keys_trans dirs kb ka kc); congruence).
  assert (T2 : compare_keys collate dirs kc kb <> Gt)
    by (apply (compare_keys_trans dirs kc ka kb); congruence).
  rewrite (compare_keys_antisym dirs kb kc) in T2.
  destruct (compare_keys collate dirs kb kc); simpl in *; congruence.
Qed.

(** Ties on every entry but the last leave the decision to the last. *)
Lemma compare_keys_last (dirs : list direction) (d : direction)
    (ka kb : list string) (a b : string) :
  List.length ka = List.length dirs ->
  List.length kb = List.length dirs ->
  compare_keys collate dirs ka kb = Eq ->
  compare_keys collate (dirs ++ [d]) (ka ++ [a]) (kb ++ [b])
  = directed d (collate a b).
Proof.
  revert ka kb; induction dirs as [|e ds IH]; intros [|x ka] [|y kb]; simpl;
    try discriminate.
  - intros _ _ _. now destruct (directed d (collate a b)).
  - intros La Lb. destruct (directed e (collate x y)); try discriminate.
    apply IH; congruence.
Qed.

End Lexicographic.

(** *** Insertion sort: permutation, order, stability *)

Section InsertionSort.

Variable A : Type.
Variable cmp : A -> A -> comparison.

(** The rows the laws are known for (rows whose key vector has one rank
    per entry of [sortArray]). *)
Variable good : A -> Prop.

Hypothesis cmp_antisym : forall a b, cmp b a = CompOpp (cmp a b).
Hypothesis cmp_trans : forall a b c,
    good a -> good b -> good c ->
    cmp a b <> Gt -> cmp b c <> Gt -> cmp a c <> Gt.
Hypothesis cmp_eq_trans : forall a b c,
    good a -> good b -> good c ->
    cmp a b = Eq -> cmp a c = Eq -> cmp b c = Eq.

Lemma insert_Forall (Q : A -> Prop) (x : A) (l : list A) :
  Forall Q (insert cmp x l) <-> Q x /\ Forall Q l.
Proof.
  induction l as [|y r IH]; simpl.
  - split; [intros H; inversion H; auto | intros [H1 H2]; auto].
  - destruct (cmp x y).
    + split; [intros H; inversion H; auto | intros [H1 H2]; auto].
    + split; [intros H; inversion H; auto | intros [H1 H2]; auto].
    + split.
      * intros H. inversion H as [|? ? Hy Hr]; subst.
        apply IH in Hr as [Hx Hr]. auto.
      * intros [Hx H]. inversion H as [|? ? Hy Hr]; subst.
        constructor; [assumption | apply IH; auto].
Qed.

Lemma sort_Forall (Q : A -> Prop) (l : list A) :
  Forall Q (sort cmp l) <-> Forall Q l.
Proof.
  induction l as [|x r IH]; simpl; [tauto |].
  rewrite insert_Forall, IH. split.
  - intros [H1 H2]; auto.
  - intros H; inversion H; auto.
Qed.

Lemma insert_sorted (x : A) (l : list A) :
  good x -> Forall good l ->
  StronglySorted (le cmp) l -> StronglySorted (le cmp) (insert cmp x l).
Proof.
  intros Gx. induction l as [|y r IH]; intros G S; simpl.
  - constructor; constructor.
  - inversion G as [|? ? Gy Gr]; subst. inversion S as [|? ? Sr Hy]; subst.
    assert (K : cmp x y <> Gt -> StronglySorted (le cmp) (x :: y :: r)).
    { intros L. constructor; [assumption |].
      constructor; [exact L |].
      rewrite Forall_forall in *. intros z Hz.
      apply (cmp_trans x y z); auto. apply Hy, Hz. }
    destruct (cmp x y) eqn:C; try (apply K; congruence).
    constructor; [auto |].
    apply insert_Forall. split; [| assumption].
    unfold Sorting.le. rewrite (cmp_antisym x y), C. discriminate.
Qed.

Lemma sort_sorted (l : list A) :
  Forall good l -> StronglySorted (le cmp) (sort cmp l).
Proof.
  induction l as [|x r IH]; intros G; simpl; [constructor |].
  inversion G; subst. apply insert_sorted; auto. now apply sort_Forall.
Qed.

Lemma insert_stable (x a : A) (l : list A) :
  good x -> good a -> Forall good l ->
  filter (tiedb cmp x) (insert cmp a l) = filter (tiedb cmp x) (a :: l).
Proof.
  intros Gx Ga. induction l as [|y r IH]; intros G; [reflexivity |].
  inversion G as [|? ? Gy Gr]; subst.
  cbn [insert]. destruct (cmp a y) eqn:C; try reflexivity.
  cbn [filter]. rewrite (IH Gr). cbn [filter].
  destruct (tiedb cmp x a) eqn:Ta, (tiedb cmp x y) eqn:Ty; try reflexivity.
  exfalso. unfold Sorting.tiedb in Ta, Ty.
  destruct (cmp x a) eqn:Xa; try discriminate.
  destruct (cmp x y) eqn:Xy; try discriminate.
  rewrite (cmp_eq_trans x a y Gx Ga Gy Xa Xy) in C. discriminate.
Qed.

(** Sorting keeps the rows tied with any given row in their order. *)
Lemma sort_stable (x : A) (l : list A) :
  good x -> Forall good l ->
  filter (tiedb cmp x) (sort cmp l) = filter (tiedb cmp x) l.
Proof.
  intros Gx. induction l as [|a r IH]; intros G; [reflexivity |].
  inversion G as [|? ? Ga Gr]; subst. simpl sort.
  rewrite insert_stable; auto; [| now apply sort_Forall].
  cbn [filter]. now rewrite (IH Gr).
Qed.

Lemma sorted_app_r (l1 l2 : list A) :
  StronglySorted (le cmp) (l1 ++ l2) -> StronglySorted (le cmp) l2.
Proof.
  induction l1 as [|a l1 IH]; simpl; [auto |].
  intros S. inversion S; subst. auto.
Qed.

(** In a sorted list no row follows a row it strictly precedes. *)
Lemma sorted_before (x y : A) (l l1 l2 : list A) :
  StronglySorted (le cmp) l -> cmp x y = Lt -> l = l1 ++ y :: l2 -> ~ In x l2.
Proof.
  intros S L -> I.
  apply sorted_app_r in S.
  inversion S as [|? ? _ F]; subst.
  rewrite Forall_forall in F. specialize (F x I). unfold Sorting.le in F.
  rewrite (cmp_antisym x y), L in F. now apply F.
Qed.

Lemma insert_perm (x : A) (l : list A) : Permutation (insert cmp x l) (x :: l).
Proof.
  induction l as [|y r IH]; simpl; [reflexivity |].
  destruct (cmp x y); try reflexivity.
  rewrite IH. apply perm_swap.
Qed.

Lemma sort_perm (l : list A) : Permutation (sort cmp l) l.
Proof.
  induction l as [|x r IH]; simpl; [reflexivity |].
  rewrite insert_perm. now constructor.
Qed.

End InsertionSort.

(** *** Lists *)

Lemma filter_map_fst (A B : Type) (p : A -> bool) (l : list (A * B)) :
  filter p (map fst l) = map fst (filter (fun r => p (fst r)) l).
Proof.
  induction l as [|[a b] l IH]; simpl; [reflexivity |].
  destruct (p a); simpl; now rewrite IH.
Qed.

Lemma filter_split (A : Type) (p : A -> bool) (l f1 f2 : list A) (x : A) :
  filter p l = f1 ++ x :: f2 ->
  exists l1 l2, l = l1 ++ x :: l2 /\ filter p l1 = f1 /\ filter p l2 = f2.
Proof.
  revert f1. induction l as [|a l IH]; intros f1 H; simpl in H.
  - now destruct f1.
  - destruct (p a) eqn:Pa.
    + destruct f1 as [|b f1]; simpl in H.
      * injection H as -> H. exists [], l. simpl. auto.
      * injection H as -> H. destruct (IH _ H) as (l1 & l2 & -> & F1 & F2).
        exists (b :: l1), l2. simpl. rewrite Pa, F1. auto.
    + destruct (IH _ H) as (l1 & l2 & -> & F1 & F2).
      exists (a :: l1), l2. simpl. rewrite Pa. auto.
Qed.

(** *** [mapM] *)

Lemma mapM_ok (A B : Type) (f : A -> result B) (l : list A) (r : list B) :
  mapM f l = Ok r -> Forall2 (fun a b => f a = Ok b) l r.
Proof.
  revert r. induction l as [|a l IH]; simpl; intros r H.
  - injection H as <-. constructor.
  - destruct (f a) eqn:Fa; simpl in H; [| discriminate].
    destruct (mapM f l) eqn:M; simpl in H; [| discriminate].
    injection H as <-. constructor; auto.
Qed.

Lemma mapM_total (A B : Type) (f : A -> result B) (l : list A) :
  Forall (fun a => exists b, f a = Ok b) l -> exists r, mapM f l = Ok r.
Proof.
  induction 1 as [|a l [b Fa] _ [r IH]]; simpl.
  - now exists [].
  - rewrite Fa, IH. simpl. now exists (b :: r).
Qed.

(** *** [naturalSortBy] *)

Section NaturalSort.

Variable collate : string -> string -> comparison.
Hypothesis laws : Collator collate.

Variable sortArray : list sorter.

Lemma keys_of_length (li : value) (ks : list string) :
  keys_of sortArray li = Ok ks -> List.length ks = List.length sortArray.
Proof.
  intros H. apply mapM_ok in H.
  symmetry. exact (Forall2_length H).
Qed.

Lemma good_length (row : value * list string) :
  (good_row sortArray) row -> List.length (snd row) = List.length (map dir sortArray).
Proof. intros G. rewrite length_map. now apply (keys_of_length (fst row)). Qed.

Lemma keyed_rows (items : list value) (keyed : list (value * list string)) :
  mapM (fun li => ks <- keys_of sortArray li ;; Ok (li, ks)) items = Ok keyed ->
  map fst keyed = items /\ Forall (good_row sortArray) keyed.
Proof.
  intros H. apply mapM_ok in H.
  induction H as [|li row items keyed H _ [IH1 IH2]]; [split; constructor |].
  destruct (keys_of sortArray li) as [ks|] eqn:K; simpl in H; [| discriminate].
  injection H as <-. simpl. rewrite IH1. split; [reflexivity |].
  constructor; [exact K | exact IH2].
Qed.

Lemma compare_rows_antisym (a b : value * list string) :
  compare_rows collate sortArray b a = CompOpp (compare_rows collate sortArray a b).
Proof. apply compare_keys_antisym, laws. Qed.

Lemma compare_rows_trans (a b c : value * list string) :
  (good_row sortArray) a -> (good_row sortArray) b -> (good_row sortArray) c ->
  compare_rows collate sortArray a b <> Gt ->
  compare_rows collate sortArray b c <> Gt ->
  compare_rows collate sortArray a c <> Gt.
Proof.
  intros Ga Gb Gc. apply compare_keys_trans; auto using good_length.
Qed.

Lemma compare_rows_eq_trans (a b c : value * list string) :
  (good_row sortArray) a -> (good_row sortArray) b -> (good_row sortArray) c ->
  compare_rows collate sortArray a b = Eq ->
  compare_rows collate sortArray a c = Eq ->
  compare_rows collate sortArray b c = Eq.
Proof.
  intros Ga Gb Gc. apply compare_keys_eq_trans; auto using good_length.
Qed.

Lemma tied_row (x : value) (kx : list string) (row : value * list string) :
  keys_of sortArray x = Ok kx -> (good_row sortArray) row ->
  tied collate sortArray x (fst row)
  = tiedb (compare_rows collate sortArray) (x, kx) row.
Proof.
  intros Kx G. unfold tied, tiedb, compare_rows, key_ranks. simpl.
  now rewrite Kx, G.
Qed.

(** The sorted rows are the rows given, ordered by the chain, with tied
    rows in the order they came in. *)
Lemma naturalSortBy_spec (items out : list value) :
  naturalSortBy collate sortArray items = Ok out ->
  Permutation out items
  /\ (forall x, In x items ->
       filter (tied collate sortArray x) out = filter (tied collate sortArray x) items)
  /\ exists keyed,
       Forall (good_row sortArray) keyed /\ map fst keyed = out
       /\ StronglySorted (le (compare_rows collate sortArray)) keyed.
Proof.
  unfold naturalSortBy. intros H.
  destruct (mapM _ items) as [keyed|] eqn:M; simpl in H; [| discriminate].
  injection H as <-.
  destruct (keyed_rows _ _ M) as [F G].
  pose proof (proj2 (sort_Forall _ (compare_rows collate sortArray) (good_row sortArray) keyed) G) as G'.
  split; [| split].
  - rewrite <- F. apply Permutation_map, sort_perm.
  - intros x Hx. rewrite <- F in Hx.
    apply in_map_iff in Hx as (rx & <- & Hrx).
    pose proof (proj1 (Forall_forall _ _) G rx Hrx) as Gx.
    rewrite <- F. rewrite !filter_map_fst. f_equal.
    rewrite (filter_ext_in _ (tiedb (compare_rows collate sortArray) rx) (sort _ keyed)).
    2:{ intros r Hr. destruct rx as [x kx].
        apply tied_row; [exact Gx |].
        exact (proj1 (Forall_forall _ _) G' r Hr). }
    rewrite (filter_ext_in _ (tiedb (compare_rows collate sortArray) rx) keyed).
    2:{ intros r Hr. destruct rx as [x kx].
        apply tied_row; [exact Gx |].
        exact (proj1 (Forall_forall _ _) G r Hr). }
    apply (sort_stable _ _ (good_row sortArray));
      [exact compare_rows_eq_trans | exact Gx | exact G].
  - exists (sort (compare_rows collate sortArray) keyed).
    split; [exact G' |]. split; [reflexivity |].
    apply (sort_sorted _ _ (good_row sortArray));
      [exact compare_rows_antisym | exact compare_rows_trans | exact G].
Qed.

(** The sort returns when every extractor does. *)
Lemma naturalSortBy_total (items : list value) :
  Forall (fun li => exists ks, keys_of sortArray li = Ok ks) items ->
  exists out, naturalSortBy collate sortArray items = Ok out.
Proof.
  intros H. unfold naturalSortBy.
  destruct (mapM_total _ _ (fun li => ks <- keys_of sortArray li ;; Ok (li, ks)) items)
    as [keyed M].
  - eapply Forall_impl; [| exact H]. intros li [ks K]. rewrite K. simpl. eauto.
  - rewrite M. simpl. eauto.
Qed.

End NaturalSort.

End SortingFacts.

(* ================================================================= *)
(** ** The reference comparator is a total preorder *)

Module ReferenceCollator.

Import Sorting.

Local Open Scope list_scope.

Lemma lex_refl (a : list N) : lex a a = Eq.
Proof.
  induction a as [|x a IH]; simpl; [reflexivity |].
  now rewrite N.compare_refl.
Qed.

Lemma lex_antisym (a b : list N) : lex b a = CompOpp (lex a b).
Proof.
  revert b; induction a as [|x a IH]; intros [|y b]; simpl; try reflexivity.
  rewrite (N.compare_antisym x y).
  destruct (N.compare x y); simpl; auto.
Qed.

Lemma lex_trans (a b c : list N) :
  lex a b <> Gt -> lex b c <> Gt -> lex a c <> Gt.
Proof.
  revert b c; induction a as [|x a IH]; intros [|y b] [|z c]; simpl;
    try congruence.
  destruct (N.compare_spec x y), (N.compare_spec y z), (N.compare_spec x z);
    subst; try congruence; try lia; eauto.
Qed.

Lemma reference_collate_laws : Collator reference_collate.
Proof.
  constructor; unfold reference_collate.
  - intros s. apply lex_refl.
  - intros s t. apply lex_antisym.
  - intros s t u. apply lex_trans.
Qed.

(** Runs of digits compare by value. *)
Example numbers_by_value : reference_collate "Track 2" "Track 10" = Lt.
Proof. reflexivity. Qed.

(** Letters compare without regard to case. *)
Example case_is_ignored : reference_collate "abc" "ABC" = Eq.
Proof. reflexivity. Qed.

End ReferenceCollator.

(* ================================================================= *)
(** ** [getLibraryItems] *)

Module ItemsFacts.

Import JS Sorting SortingFacts Paging Items.

Local Open Scope list_scope.

(** *** The order the last entry of a chain gives *)

Lemma mapM_app (A B : Type) (f : A -> result B) (l1 l2 : list A) :
  mapM f (l1 ++ l2)
  = (r1 <- mapM f l1 ;; r2 <- mapM f l2 ;; Ok (r1 ++ r2)).
Proof.
  induction l1 as [|a l1 IH]; simpl.
  - destruct (mapM f l2); reflexivity.
  - destruct (f a); simpl; [| reflexivity]. rewrite IH.
    destruct (mapM f l1); simpl; [| reflexivity].
    destruct (mapM f l2); reflexivity.
Qed.

Lemma keys_of_snoc (front : list sorter) (s : sorter) (li : value)
    (ks : list string) :
  keys_of (front ++ [s]) li = Ok ks ->
  exists kf t,
    keys_of front li = Ok kf /\ extract s li = Ok t /\ ks = kf ++ [rank t].
Proof.
  unfold keys_of. rewrite mapM_app. intros H.
  destruct (mapM _ front) as [kf|]; simpl in H; [| discriminate].
  destruct (extract s li) as [t|]; simpl in H; [| discriminate].
  injection H as <-. now exists kf, t.
Qed.

Lemma sortStep_snoc (E : Env) (front : list sorter) (s : sorter)
    (items : list value) :
  sortStep E (front ++ [s]) items
  = naturalSortBy (naturalCompare E) (front ++ [s]) items.
Proof. now destruct front. Qed.

(** Of two rows that tie on the entries before the last, the one whose
    last key text comes first in the direction of the last entry is
    never placed after the other. *)
Lemma last_entry_orders (E : Env) (front : list sorter) (d : direction)
    (f : value -> result value) (items out : list value) (x y tx ty : value) :
  Collator (naturalCompare E) ->
  sortStep E (front ++ [mkSorter d f]) items = Ok out ->
  tied (naturalCompare E) front x y = true ->
  f x = Ok tx -> f y = Ok ty ->
  directed d (naturalCompare E (to_string tx) (to_string ty)) = Lt ->
  forall l1 l2, out = l1 ++ y :: l2 -> ~ In x l2.
Proof.
  intros laws H T Tx Ty HLt l1 l2 -> Ix2.
  rewrite sortStep_snoc in H.
  apply (naturalSortBy_spec _ laws) in H as (_ & _ & keyed & G & M & S).
  apply map_eq_app in M as (k1 & k2' & -> & M1 & M2).
  apply map_eq_cons in M2 as (ry & k2 & -> & Fy & M2).
  rewrite <- M2 in Ix2. apply in_map_iff in Ix2 as (rx & Fx & Irx).
  rewrite Forall_forall in G.
  assert (Gy : good_row (front ++ [mkSorter d f]) ry)
    by (apply G, in_or_app; right; now left).
  assert (Gx : good_row (front ++ [mkSorter d f]) rx)
    by (apply G, in_or_app; right; now right).
  unfold good_row in Gx, Gy. rewrite Fx in Gx. rewrite Fy in Gy.
  apply keys_of_snoc in Gx as (kx & tx' & Kx & Ex & Sx).
  apply keys_of_snoc in Gy as (ky & ty' & Ky & Ey & Sy).
  simpl in Ex, Ey. rewrite Tx in Ex. rewrite Ty in Ey.
  injection Ex as <-. injection Ey as <-.
  assert (C : compare_rows (naturalCompare E) (front ++ [mkSorter d f]) rx ry = Lt).
  { unfold compare_rows. rewrite Sx, Sy, map_app. simpl map.
    rewrite compare_keys_last; [exact HLt | | |].
    - rewrite length_map. apply (keys_of_length front x), Kx.
    - rewrite length_map. apply (keys_of_length front y), Ky.
    - unfold tied, key_ranks in T. rewrite Kx, Ky in T.
      destruct (compare_keys _ _ kx ky); [reflexivity | discriminate | discriminate]. }
  refine (sorted_before _ _ (compare_rows_antisym _ laws _) rx ry _ k1 k2 S C eq_refl Irx).
Qed.

(** *** Resolving a dotted sort key *)









(** A missing last attribute is [undefined]; an inherited one is read
    from the prototype chain. *)
Example missing_attribute_is_undefined :
  resolve (Samples.sampleEnv []) "media.metadata.subtitle" Samples.dune = Ok VUndefined
  /\ resolve (Samples.sampleEnv []) "id.constructor.name" Samples.dune = Ok (VStr "String").
Proof. split; reflexivity. Qed.

(** *** The sort is stable *)

Lemma tied_refl (collate : string -> string -> comparison)
    (entries : list sorter) (x : value) :
  Collator collate -> tied collate entries x x = true.
Proof.
  intros laws. unfold tied. now rewrite compare_keys_refl.
Qed.

(** C8: whatever the sort request, the rows come out as a rearrangement
    of the rows that went in, in which the rows whose keys tie under the
    entire chain keep the order they had. *)
Theorem sort_is_stable (E : Env) (mediaIsBook collapseseries sortDesc : bool)
    (filterSeries sortBy : option string) (items out : list value) :
  Collator (naturalCompare E) ->
  let entries := sortArray E mediaIsBook collapseseries sortDesc filterSeries sortBy in
  sortStep E entries items = Ok out ->
  Permutation out items
  /\ (forall x, In x items ->
        filter (tied (naturalCompare E) entries x) out
        = filter (tied (naturalCompare E) entries x) items)
  /\ (forall x y l1 l2 l3,
        items = l1 ++ x :: l2 ++ y :: l3 ->
        tied (naturalCompare E) entries x y = true ->
        exists o1 o2 o3, out = o1 ++ x :: o2 ++ y :: o3).
Proof.
  intros laws entries H.
  assert (G : Permutation out items
              /\ forall x, In x items ->
                   filter (tied (naturalCompare E) entries x) out
                   = filter (tied (naturalCompare E) entries x) items).
  { unfold sortStep in H. destruct entries as [|s ss] eqn:Es.
    - injection H as <-. split; [reflexivity | reflexivity].
    - apply (naturalSortBy_spec _ laws) in H as (P & S & _). auto. }
  destruct G as [P S]. split; [exact P |]. split; [exact S |].
  intros x y l1 l2 l3 -> T.
  assert (Ix : In x (l1 ++ x :: l2 ++ y :: l3))
    by (apply in_or_app; right; now left).
  specialize (S x Ix).
  rewrite filter_app in S. cbn [filter] in S.
  rewrite (tied_refl _ entries x laws) in S.
  rewrite filter_app in S. cbn [filter] in S. rewrite T in S.
  apply filter_split in S as (o1 & rest & -> & _ & S).
  apply filter_split in S as (o2 & o3 & -> & _ & _).
  now exists o1, o2, o3.
Qed.

(** Two books by one author in one series keep their order when the
    sample books are sorted by author. *)
Lemma sort_is_stable_witness :
  Collator (naturalCompare (Samples.sampleEnv []))
  /\ sortStep (Samples.sampleEnv [])
               (sortArray (Samples.sampleEnv []) true false false None
                          (Some "media.metadata.authorName"%string))
               [Samples.dune; Samples.foundation; Samples.messiah]
     = Ok [Samples.dune; Samples.messiah; Samples.foundation]
  /\ exists o1 o2 o3,
       [Samples.dune; Samples.messiah; Samples.foundation]
       = o1 ++ Samples.dune :: o2 ++ Samples.messiah :: o3.
Proof.
  split; [exact ReferenceCollator.reference_collate_laws |].
  split; [vm_compute; reflexivity |].
  apply (proj2 (proj2 (sort_is_stable (Samples.sampleEnv []) true false false None
                         (Some "media.metadata.authorName"%string)
                         [Samples.dune; Samples.foundation; Samples.messiah]
                         [Samples.dune; Samples.messiah; Samples.foundation]
                         ReferenceCollator.reference_collate_laws eq_refl))
               Samples.dune Samples.messiah [] [Samples.foundation] []);
    reflexivity.
Defined.

(** The sort step returns when every extractor returns on every row. *)
Lemma sortStep_total (E : Env) (entries : list sorter) (items : list value) :
  Forall (fun li => exists ks, keys_of entries li = Ok ks) items ->
  exists out, sortStep E entries items = Ok out.
Proof.
  intros H. unfold sortStep. destruct entries; [eauto |].
  now apply naturalSortBy_total.
Qed.

(** *** The secondary key of a sort by author *)

Lemma includes_author_nonempty (sortBy : string) :
  Str.includes "author" sortBy = true -> String.eqb sortBy "" = false.
Proof. destruct sortBy; [discriminate | reflexivity]. Qed.

Lemma snoc_removelast (A : Type) (l : list A) (p s : A) :
  l ++ [p; s] = removelast (l ++ [p; s]) ++ [s].
Proof.
  replace (l ++ [p; s]) with ((l ++ [p]) ++ [s])
    by (rewrite <- app_assoc; reflexivity).
  now rewrite removelast_last.
Qed.

Lemma sortArray_author (E : Env) (collapseseries sortDesc : bool)
    (filterSeries : option string) (sortBy : string) :
  Str.includes "author" sortBy = true ->
  sortArray E true collapseseries sortDesc filterSeries (Some sortBy)
  = entries_before_series E collapseseries sortDesc filterSeries sortBy
    ++ [mkSorter Asc (seriesSortTitle E)].
Proof.
  intros A. unfold entries_before_series, sortArray.
  cbn [given]. rewrite (includes_author_nonempty _ A), A.
  cbn [negb andb]. rewrite andb_false_r. cbn [app].
  apply snoc_removelast.
Qed.

(** C9 (as amended): for a library of books and a sort field whose name
    contains ["author"], the last entry of the chain is an ascending
    comparator on the sort title of the first series of the book, or
    [null] for a book in no series.  The comparer is handed [null] as the
    text ["null"]: a book in no series is placed where that text falls
    among the series titles, not before them.  Of two books that tie on
    the entries before it, the one whose key text comes first is never
    placed after the other. *)
Theorem author_sort_series_tiebreak (E : Env) (collapseseries sortDesc : bool)
    (filterSeries : option string) (sortBy : string) :
  Str.includes "author" sortBy = true ->
  let entries := sortArray E true collapseseries sortDesc filterSeries (Some sortBy) in
  let front := entries_before_series E collapseseries sortDesc filterSeries sortBy in
  entries = front ++ [mkSorter Asc (seriesSortTitle E)]
  /\ (forall li metadata series,
        path E li ["media"; "metadata"]%string = Ok metadata ->
        get E metadata "series" = Ok series ->
        truthy series = false \/ series = VArr [] ->
        seriesSortTitle E li = Ok VNull
        /\ keys_of [mkSorter Asc (seriesSortTitle E)] li = Ok ["null"%string])
  /\ (forall li metadata first rest,
        path E li ["media"; "metadata"]%string = Ok metadata ->
        get E metadata "series" = Ok (VArr (first :: rest)) ->
        seriesSortTitle E li = getSeriesSortTitle E metadata first)
  /\ (Collator (naturalCompare E) ->
      forall items out x y tx ty,
        sortStep E entries items = Ok out ->
        In x items -> In y items ->
        tied (naturalCompare E) front x y = true ->
        seriesSortTitle E x = Ok tx -> seriesSortTitle E y = Ok ty ->
        naturalCompare E (to_string tx) (to_string ty) = Lt ->
        forall l1 l2, out = l1 ++ y :: l2 -> ~ In x l2).
Proof.
  intros A entries front.
  assert (Es : entries = front ++ [mkSorter Asc (seriesSortTitle E)])
    by (apply sortArray_author, A).
  split; [exact Es |]. split; [| split].
  - intros li metadata series P S F.
    assert (T : seriesSortTitle E li = Ok VNull).
    { unfold seriesSortTitle. rewrite P. cbn [bind]. rewrite S. cbn [bind].
      destruct F as [F | ->]; [now rewrite F | reflexivity]. }
    split; [exact T |]. unfold keys_of. cbn [mapM extract bind]. now rewrite T.
  - intros li metadata first rest P S. unfold seriesSortTitle.
    rewrite P. cbn [bind]. rewrite S. cbn [bind truthy].
    unfold get at 1 2, JS.get. cbn [nullish own String.eqb Ascii.eqb Bool.eqb bind].
    rewrite NumFacts.length_truthy. reflexivity.
  - intros laws items out x y tx ty H Ix Iy T Tx Ty HLt.
    rewrite Es in H.
    exact (last_entry_orders E front Asc (seriesSortTitle E) items out x y tx ty
             laws H T Tx Ty HLt).
Qed.

(** Of two books by one author, the one in the series that sorts first
    is not placed after the other. *)
Lemma author_sort_series_tiebreak_witness :
  Str.includes "author" "media.metadata.authorName" = true
  /\ ~ In Samples.whipping_star [Samples.foundation].
Proof.
  split; [reflexivity |].
  refine (proj2 (proj2 (proj2
            (author_sort_series_tiebreak (Samples.sampleEnv []) false false None
               "media.metadata.authorName"%string eq_refl)))
            ReferenceCollator.reference_collate_laws
            [Samples.dune; Samples.foundation; Samples.whipping_star]
            [Samples.whipping_star; Samples.dune; Samples.foundation]
            Samples.whipping_star Samples.dune
            (VStr "ConSentiency") (VStr "Dune Chronicles")
            _ _ _ _ _ _ _ [Samples.whipping_star] [Samples.foundation] _);
    try (vm_compute; reflexivity); simpl; auto.
Defined.

(** C9 (as stated) fails: the value of a book in no series is not the
    lowest.  Of the sample books by Frank Herbert, sorted by author,
    ["Soul Catcher"], which is in no series, comes after the books of
    ["ConSentiency"] and of ["Dune Chronicles"]: its key is compared as
    the text ["null"]. *)
Lemma no_series_is_not_lowest :
  let E := Samples.sampleEnv [] in
  let entries := sortArray E true false false None
                           (Some "media.metadata.authorName"%string) in
  sortStep E entries
           [Samples.dune; Samples.foundation; Samples.messiah;
            Samples.whipping_star; Samples.soul_catcher]
  = Ok [Samples.whipping_star; Samples.dune; Samples.messiah;
        Samples.soul_catcher; Samples.foundation]
  /\ seriesSortTitle E Samples.soul_catcher = Ok VNull
  /\ seriesSortTitle E Samples.dune = Ok (VStr "Dune Chronicles")
  /\ tied (naturalCompare E) (entries_before_series E false false None
                                "media.metadata.authorName")
          Samples.soul_catcher Samples.dune = true
  /\ ~ (forall items out x y ty l1 l2,
          sortStep E entries items = Ok out ->
          tied (naturalCompare E)
               (entries_before_series E false false None "media.metadata.authorName")
               x y = true ->
          seriesSortTitle E x = Ok VNull -> seriesSortTitle E y = Ok (VStr ty) ->
          out = l1 ++ y :: l2 -> ~ In x l2).
Proof.
  intros E entries.
  assert (S : sortStep E entries
                [Samples.dune; Samples.foundation; Samples.messiah;
                 Samples.whipping_star; Samples.soul_catcher]
              = Ok [Samples.whipping_star; Samples.dune; Samples.messiah;
                    Samples.soul_catcher; Samples.foundation])
    by (vm_compute; reflexivity).
  split; [exact S |]. split; [reflexivity |]. split; [reflexivity |].
  split; [vm_compute; reflexivity |].
  intros H.
  apply (H _ _ Samples.soul_catcher Samples.dune "Dune Chronicles"%string
           [Samples.whipping_star]
           [Samples.messiah; Samples.soul_catcher; Samples.foundation] S);
    try (vm_compute; reflexivity).
  simpl. auto.
Qed.

(** *** The collapse guard *)

Lemma filterStep_total (E : Env) (mediaIsBook : bool) (filterBy : option string)
    (items filtered : list value) (total1 : nat) (filterSeries : option string) :
  filterStep E mediaIsBook filterBy items (List.length items)
  = (filtered, total1, filterSeries) ->
  total1 = List.length filtered.
Proof.
  unfold filterStep. destruct filterBy as [f|].
  - destruct (negb (String.eqb f "")); intros [= <- <- _]; reflexivity.
  - intros [= <- <- _]; reflexivity.
Qed.

(** C10: when collapsing is requested and the collapsing collaborator
    returns a single row that is a collapsed series, the collapsed result
    is dropped: the working set stays the filtered items, the total is
    their number, and it is they that are sorted and sliced. *)
Theorem single_collapsed_series_is_dropped (E : Env) (req : request)
    (filtered : list value) (total1 : nat) (filterSeries : option string)
    (row collapsed : value) :
  let mediaIsBook := String.eqb (mediaType req) "book" in
  is_one (q_collapseseries req) = true ->
  filterStep E mediaIsBook (q_filter req) (libraryItems req)
             (List.length (libraryItems req))
  = (filtered, total1, filterSeries) ->
  collapseBookSeries E filtered filterSeries = [row] ->
  get E row "collapsedSeries" = Ok collapsed ->
  truthy collapsed = true ->
  collapseStep E true filterSeries filtered total1
  = Ok (filtered, List.length filtered)
  /\ getLibraryItems E req
     = (sorted <- sortStep E (sortArray E mediaIsBook true (is_one (q_desc req))
                                        filterSeries (q_sort req)) filtered ;;
        Ok {| results := NumberPaging.limitItems (Query.limit (q_limit req))
                                                 (Query.page (q_page req)) sorted;
              total := List.length filtered;
              limit := Query.limit (q_limit req);
              page := Query.page (q_page req);
              sortBy := q_sort req;
              sortDesc := is_one (q_desc req);
              filterBy := q_filter req;
              collapseseries := true |}).
Proof.
  intros mediaIsBook C F K G T.
  pose proof (filterStep_total _ _ _ _ _ _ _ F) as ->.
  assert (S : collapseStep E true filterSeries filtered (List.length filtered)
              = Ok (filtered, List.length filtered)).
  { unfold collapseStep, singleCollapsedSeries. rewrite K, G. simpl.
    now rewrite T. }
  split; [exact S |].
  unfold getLibraryItems. fold mediaIsBook. rewrite F, C, S. reflexivity.
Qed.

(** Two books that collapse into one series row are listed as two. *)
Lemma single_collapsed_series_is_dropped_witness :
  let E := Samples.sampleEnv [Samples.collapsedRow "b1" "Dune" "Frank Herbert"
                                                   "Dune Chronicles"] in
  let req := {| libraryItems := [Samples.dune; Samples.messiah];
                mediaType := "book";
                q_limit := None; q_page := None;
                q_sort := None; q_desc := None; q_filter := None;
                q_collapseseries := Some "1"%string |} in
  collapseStep E true None [Samples.dune; Samples.messiah] 2
  = Ok ([Samples.dune; Samples.messiah], 2%nat)
  /\ exists p, getLibraryItems E req = Ok p
              /\ total p = 2%nat
              /\ results p = [Samples.dune; Samples.messiah].
Proof.
  intros E req.
  destruct (single_collapsed_series_is_dropped E req
              [Samples.dune; Samples.messiah] 2 None
              (Samples.collapsedRow "b1" "Dune" "Frank Herbert" "Dune Chronicles")
              (VObj [("id", VStr "b1"); ("name", VStr "Dune Chronicles");
                     ("nameIgnorePrefix", VStr "Dune Chronicles")])%string
              eq_refl eq_refl eq_refl eq_refl eq_refl) as [S G].
  split; [exact S |].
  rewrite G. eexists. split; [reflexivity |]. split; reflexivity.
Defined.

End ItemsFacts.

(* ================================================================= *)
(** ** Dictionaries *)

Module DictFacts.

Import Dict.

Local Open Scope list_scope.

Lemma assoc_mem (V : Type) (k : string) (d : dict V) :
  mem k (keys d) = match JS.assoc k d with Some _ => true | None => false end.
Proof.
  induction d as [|[k' v] d IH]; simpl; [reflexivity |].
  destruct (String.eqb k k'); simpl; auto.
Qed.

Lemma get_own_mem (V : Type) (d : dict V) (k : string) (v : V) :
  get d k = Own v -> mem k (keys d) = true.
Proof.
  unfold get. rewrite assoc_mem. destruct (JS.assoc k d); [reflexivity |].
  destruct (inherited k); discriminate.
Qed.

Lemma get_absent (V : Type) (d : dict V) (k : string) :
  get d k = Absent -> mem k (keys d) = false /\ inherited k = false.
Proof.
  unfold get. rewrite assoc_mem. destruct (JS.assoc k d); [discriminate |].
  destruct (inherited k); [discriminate | auto].
Qed.

Lemma get_inherited (V : Type) (d : dict V) (k : string) :
  get d k = Inherited -> inherited k = true.
Proof.
  unfold get. destruct (JS.assoc k d); [discriminate |].
  destruct (inherited k); [reflexivity | discriminate].
Qed.

Lemma keys_add (V : Type) (k : string) (v : V) (d : dict V) :
  keys (add k v d) = keys d ++ [k].
Proof. unfold keys, add. now rewrite map_app. Qed.

Lemma keys_update (V : Type) (k : string) (f : V -> V) (d : dict V) :
  keys (update k f d) = keys d.
Proof.
  induction d as [|[k' v] d IH]; simpl; [reflexivity |].
  destruct (String.eqb k k'); simpl; [reflexivity | now rewrite IH].
Qed.

(** *** First occurrences *)

Lemma first_occurrences_ext (s1 s2 l : list string) :
  (forall x, mem x s1 = mem x s2) ->
  first_occurrences s1 l = first_occurrences s2 l.
Proof.
  revert s1 s2. induction l as [|x l IH]; intros s1 s2 H; simpl; [reflexivity |].
  fold (mem x s1) (mem x s2). rewrite (H x).
  destruct (mem x s2); [now apply IH |].
  f_equal. apply IH. intros y. unfold mem. simpl. f_equal. apply H.
Qed.

Lemma mem_app (x : string) (l1 l2 : list string) :
  mem x (l1 ++ l2) = mem x l1 || mem x l2.
Proof. unfold mem. apply existsb_app. Qed.

Lemma first_occurrences_snoc_seen (seen l : list string) (x : string) :
  first_occurrences (seen ++ [x]) l = first_occurrences (x :: seen) l.
Proof.
  apply first_occurrences_ext. intros y. rewrite mem_app. unfold mem. simpl.
  rewrite orb_false_r. apply orb_comm.
Qed.

Lemma first_occurrences_app (seen l1 l2 : list string) :
  first_occurrences seen (l1 ++ l2)
  = first_occurrences seen l1
    ++ first_occurrences (seen ++ first_occurrences seen l1) l2.
Proof.
  revert seen. induction l1 as [|x l1 IH]; intros seen; simpl.
  - now rewrite app_nil_r.
  - fold (mem x seen). destruct (mem x seen) eqn:M; [apply IH |].
    simpl. f_equal. rewrite IH. f_equal.
    apply first_occurrences_ext. intros y. rewrite !mem_app. unfold mem. simpl.
    destruct (String.eqb y x), (existsb (String.eqb y) seen); reflexivity.
Qed.

(** *** The order of [Object.values] *)

Lemma insert_index_sorted (V : Type) (i : N) (v : V) (l : list (N * V)) :
  Sorted (fun a b => (fst a <= fst b)%N) l ->
  Sorted (fun a b => (fst a <= fst b)%N) (insert_index i v l).
Proof.
  induction l as [|[j w] l IH]; intros S; simpl.
  - repeat constructor.
  - destruct (i <? j)%N eqn:C.
    + apply N.ltb_lt in C. constructor; [assumption |].
      constructor. simpl. lia.
    + apply N.ltb_ge in C. inversion S as [|? ? S' H]; subst.
      constructor; [auto |].
      destruct l as [|[j' w'] l]; simpl.
      * constructor. simpl. lia.
      * inversion H; subst. destruct (i <? j')%N; constructor; simpl in *; lia.
Qed.

(** The entries under array-index keys come out in ascending order of
    index. *)
Lemma indexed_sorted (V : Type) (d : dict V) :
  Sorted (fun a b => (fst a <= fst b)%N) (indexed d).
Proof.
  induction d as [|[k v] d IH]; simpl; [constructor |].
  destruct (JS.array_index k); [now apply insert_index_sorted | exact IH].
Qed.

(** A dictionary none of whose keys is an array index is enumerated in
    order of creation. *)
Lemma values_plain (V : Type) (d : dict V) :
  Forall (fun k => JS.array_index k = None) (keys d) ->
  values d = map snd d.
Proof.
  intros H. unfold values.
  assert (I : indexed d = [] /\ named d = d).
  { induction d as [|[k v] d IH]; simpl; [auto |].
    inversion H as [|? ? Hk Hd]; subst. simpl in Hk.
    destruct (IH Hd) as [I1 I2]. unfold named in *. simpl.
    rewrite Hk, I1, I2. auto. }
  destruct I as [-> ->]. reflexivity.
Qed.

End DictFacts.

(* ================================================================= *)
(** ** Truncation by [slice(0, n)] *)

Module SliceFacts.

Import Paging.

Local Open Scope list_scope.

Lemma slice_0_firstn (A : Type) (n : Z) (l : list A) :
  0 <= n -> slice 0 n l = firstn (Z.to_nat n) l.
Proof.
  intros H. unfold slice. simpl (0 <? 0).
  assert (N : (n <? 0) = false) by (apply Z.ltb_ge; lia). rewrite N.
  replace (Z.min 0 (Z.of_nat (List.length l))) with 0 by lia.
  simpl skipn. rewrite Z.sub_0_r.
  destruct (Z_le_gt_dec n (Z.of_nat (List.length l))).
  - f_equal. lia.
  - rewrite !firstn_all2 by lia. reflexivity.
Qed.

Lemma slice_0_length (A : Type) (n : Z) (l : list A) :
  0 <= n -> Z.of_nat (List.length (slice 0 n l)) <= n.
Proof.
  intros H. rewrite slice_0_firstn by assumption.
  rewrite length_firstn. lia.
Qed.

End SliceFacts.

(* ================================================================= *)
(** ** [search] *)

Module SearchFacts.

Import JS Paging Dict DictFacts SliceFacts Search.

Local Open Scope list_scope.

Section Facts.

Context {Item ItemJSON ItemExpanded SeriesJSON AuthorJSON : Type}.

Variable E : @Env Item ItemJSON ItemExpanded SeriesJSON AuthorJSON.

(** *** What one pass over a list of references does to the keys *)

Lemma addNamed_keys (li : Item) (l : list string) (d d' : dict (@NamedMatch ItemJSON)) :
  foldM (addNamed E li) l d = Ok d' ->
  keys d' = keys d ++ first_occurrences (keys d) l.
Proof.
  revert d. induction l as [|n l IH]; intros d H; simpl in H.
  - injection H as <-. simpl. now rewrite app_nil_r.
  - unfold addNamed in H at 1. simpl. fold (mem n (keys d)).
    destruct (get d n) as [m | |] eqn:G; simpl in H.
    + rewrite (get_own_mem _ _ _ _ G). rewrite (IH _ H), keys_update. reflexivity.
    + discriminate.
    + destruct (get_absent _ _ _ G) as [M _]. rewrite M.
      rewrite (IH _ H), keys_add, <- app_assoc. simpl.
      now rewrite first_occurrences_snoc_seen.
Qed.

Lemma addSeries_keys (li : Item) (l : list string)
    (d d' : dict (@SeriesMatch ItemJSON SeriesJSON)) :
  foldM (addSeries E li) l d = Ok d' ->
  keys d' = keys d
            ++ first_occurrences (keys d) (filter (resolvable (Database_series E)) l).
Proof.
  revert d. induction l as [|n l IH]; intros d H; simpl in H.
  - injection H as <-. simpl. now rewrite app_nil_r.
  - unfold addSeries in H at 1. cbn [filter]. unfold resolvable at 1.
    destruct (get d n) as [m | |] eqn:G; simpl in H.
    + rewrite (IH _ H), keys_update.
      destruct (find_entity _ n); [| reflexivity].
      destruct (negb (inherited n)); [| reflexivity].
      simpl. fold (mem n (keys d)). now rewrite (get_own_mem _ _ _ _ G).
    + discriminate.
    + destruct (get_absent _ _ _ G) as [M I]. rewrite I.
      destruct (find_entity _ n) as [e|]; simpl.
      * fold (mem n (keys d)). rewrite M.
        rewrite (IH _ H), keys_add, <- app_assoc. simpl.
        now rewrite first_occurrences_snoc_seen.
      * apply (IH _ H).
Qed.

Lemma addAuthor_step (d : dict (@AuthorMatch AuthorJSON)) (n : string) :
  keys (addAuthor E d n)
  = keys d ++ first_occurrences (keys d) (filter (resolvable (Database_authors E)) [n]).
Proof.
  unfold addAuthor, resolvable. cbn [filter].
  destruct (get d n) as [m | |] eqn:G.
  - rewrite keys_update.
    destruct (find_entity _ n); [| now rewrite app_nil_r].
    destruct (negb (inherited n)); [| now rewrite app_nil_r].
    simpl. fold (mem n (keys d)). rewrite (get_own_mem _ _ _ _ G).
    now rewrite app_nil_r.
  - rewrite (get_inherited _ _ _ G).
    destruct (find_entity _ n); now rewrite app_nil_r.
  - destruct (get_absent _ _ _ G) as [M I]. rewrite I.
    destruct (find_entity _ n) as [e|]; simpl; [| now rewrite app_nil_r].
    fold (mem n (keys d)). rewrite M. apply keys_add.
Qed.

Lemma addAuthor_keys (l : list string) (d : dict (@AuthorMatch AuthorJSON)) :
  keys (fold_left (addAuthor E) l d)
  = keys d
    ++ first_occurrences (keys d) (filter (resolvable (Database_authors E)) l).
Proof.
  revert d. induction l as [|n l IH]; intros d; simpl fold_left.
  - simpl. now rewrite app_nil_r.
  - rewrite IH, addAuthor_step.
    change (n :: l) with ([n] ++ l).
    now rewrite filter_app, first_occurrences_app, app_assoc.
Qed.

(** *** The scan *)

(** What a completed scan has collected, facet by facet. *)
Lemma scan_collects (query : string) (items seen : list Item) (m m' : @matches ItemJSON ItemExpanded SeriesJSON AuthorJSON) :
  scan E query m items = (seen, Ok m') ->
  seen = items
  /\ itemMatches m'
     = itemMatches m ++ all_item_matches E query items
  /\ authorMatches m'
     = fold_left (addAuthor E) (all_authors E query items)
                 (authorMatches m)
  /\ keys (tagMatches m')
     = keys (tagMatches m)
       ++ first_occurrences (keys (tagMatches m))
                            (all_tags E query items)
  /\ keys (narratorMatches m')
     = keys (narratorMatches m)
       ++ first_occurrences (keys (narratorMatches m))
                            (all_narrators E query items)
  /\ keys (seriesMatches m')
     = keys (seriesMatches m)
       ++ first_occurrences (keys (seriesMatches m))
            (filter (resolvable (Database_series E))
                    (all_series E query items)).
Proof.
  revert seen m. induction items as [|li items IH]; intros seen m H; simpl in H.
  - injection H as <- <-. simpl. rewrite !app_nil_r. repeat split.
  - destruct (scanItem E query m li) as [m1|] eqn:S; [| discriminate].
    destruct (scan E query m1 items) as [seen1 r1] eqn:Sc.
    injection H as <- ->.
    destruct (IH _ _ Sc) as (-> & I & A & T & N & Se).
    unfold scanItem in S.
    destruct (foldM (addSeries E li) _ _) as [sers|] eqn:Fs;
      simpl in S; [| discriminate].
    destruct (foldM (addNamed E li) (tags _) _) as [tgs|] eqn:Ft;
      simpl in S; [| discriminate].
    destruct (foldM (addNamed E li) (narrators _) _) as [nars|] eqn:Fn;
      simpl in S; [| discriminate].
    injection S as <-. simpl in I, A, T, N, Se.
    apply addSeries_keys in Fs. apply addNamed_keys in Ft. apply addNamed_keys in Fn.
    split; [reflexivity |]. split; [| split; [| split; [| split]]].
    + rewrite I. unfold all_item_matches. simpl.
      destruct (Items.given _); simpl; now rewrite <- ?app_assoc.
    + rewrite A. unfold all_authors. simpl. now rewrite fold_left_app.
    + rewrite T, Ft. unfold all_tags. simpl.
      now rewrite first_occurrences_app, app_assoc.
    + rewrite N, Fn. unfold all_narrators. simpl.
      now rewrite first_occurrences_app, app_assoc.
    + rewrite Se, Fs. unfold all_series. simpl.
      now rewrite filter_app, first_occurrences_app, app_assoc.
Qed.

Lemma search_json (req : @request Item) (seen : list Item)
    (r : @results ItemJSON ItemExpanded SeriesJSON AuthorJSON) :
  search E req = (seen, Ok (Json r)) ->
  exists query m,
    q req = Some query /\ query <> ""%string
    /\ scan E query (no_matches) (libraryItems req) = (seen, Ok m)
    /\ r = respond req m.
Proof.
  unfold search. destruct (q req) as [query|]; [| discriminate].
  destruct (String.eqb query "") eqn:Q; simpl; [discriminate |].
  destruct (scan E query _ _) as [seen' res] eqn:S.
  intros H. injection H as -> H.
  destruct res as [m|]; simpl in H; [| discriminate].
  injection H as <-. exists query, m.
  apply String.eqb_neq in Q. auto.
Qed.

(** *** Entries carry their key *)

Lemma update_named (k : string) (f : @NamedMatch ItemJSON -> @NamedMatch ItemJSON)
    (d : dict (@NamedMatch ItemJSON)) :
  (forall m, name (f m) = name m) ->
  Forall (fun kv => name (snd kv) = fst kv) d ->
  Forall (fun kv => name (snd kv) = fst kv) (update k f d).
Proof.
  intros Hf. induction 1 as [|[k' v] d H F IH]; simpl; [constructor |].
  destruct (String.eqb k k'); constructor; simpl in *; auto.
  now rewrite Hf.
Qed.

Lemma addNamed_names (li : Item) (l : list string) (d d' : dict (@NamedMatch ItemJSON)) :
  foldM (addNamed E li) l d = Ok d' ->
  Forall (fun kv => name (snd kv) = fst kv) d ->
  Forall (fun kv => name (snd kv) = fst kv) d'.
Proof.
  revert d. induction l as [|n l IH]; intros d H F; simpl in H.
  - now injection H as <-.
  - unfold addNamed in H at 1.
    destruct (get d n) as [m | |]; simpl in H; [| discriminate |].
    + apply (IH _ H). now apply update_named.
    + apply (IH _ H). unfold add. apply Forall_app. split; [assumption |].
      repeat constructor.
Qed.

Lemma scan_names (query : string) (items seen : list Item)
    (m m' : @matches ItemJSON ItemExpanded SeriesJSON AuthorJSON) :
  scan E query m items = (seen, Ok m') ->
  Forall (fun kv => name (snd kv) = fst kv) (tagMatches m) ->
  Forall (fun kv => name (snd kv) = fst kv) (narratorMatches m) ->
  Forall (fun kv => name (snd kv) = fst kv) (tagMatches m')
  /\ Forall (fun kv => name (snd kv) = fst kv) (narratorMatches m').
Proof.
  revert seen m. induction items as [|li items IH]; intros seen m H Ft Fn; simpl in H.
  - injection H as <- <-. auto.
  - destruct (scanItem E query m li) as [m1|] eqn:S; [| discriminate].
    destruct (scan E query m1 items) as [seen1 r1] eqn:Sc.
    injection H as <- ->.
    unfold scanItem in S.
    destruct (foldM (addSeries E li) _ _) as [sers|]; simpl in S; [| discriminate].
    destruct (foldM (addNamed E li) (tags _) _) as [tgs|] eqn:T;
      simpl in S; [| discriminate].
    destruct (foldM (addNamed E li) (narrators _) _) as [nars|] eqn:N;
      simpl in S; [| discriminate].
    injection S as <-.
    apply (IH _ _ Sc); simpl; eauto using addNamed_names.
Qed.

Lemma names_are_keys (d : dict (@NamedMatch ItemJSON)) :
  Forall (fun kv => name (snd kv) = fst kv) d ->
  map name (map snd d) = keys d.
Proof.
  induction 1 as [|[k v] d H _ IH]; simpl; [reflexivity |].
  simpl in H. now rewrite H, IH.
Qed.

(** *** Truncation of the facets *)

(** C4 (as amended): when the scan completes and the cap [n] is not
    negative, each of the five facets holds the first [n] entries of its
    collection, hence at most [n]; the cap is 12 when no limit is given.
    The matching items are collected in scan order.  A keyed facet is
    enumerated by [Object.values]: the entries under array-index keys
    first, in ascending order of index, then the others in order of
    creation.  The keys were created in order of first occurrence during
    the scan, so a facet none of whose keys is an array index is in that
    order. *)
Theorem facets_truncated (req : @request Item) (seen : list Item)
    (r : @results ItemJSON ItemExpanded SeriesJSON AuthorJSON) :
  let n := maxResults req in
  search E req = (seen, Ok (Json r)) ->
  0 <= n ->
  exists query m,
    q req = Some query
    /\ scan E query no_matches (libraryItems req) = (seen, Ok m)
    /\ (q_limit req = QAbsent -> n = 12)
    /\ r_items r = firstn (Z.to_nat n) (all_item_matches E query (libraryItems req))
    /\ r_tags r = firstn (Z.to_nat n) (values (tagMatches m))
    /\ r_authors r = firstn (Z.to_nat n) (values (authorMatches m))
    /\ r_series r = firstn (Z.to_nat n) (values (seriesMatches m))
    /\ r_narrators r = firstn (Z.to_nat n) (values (narratorMatches m))
    /\ (Z.of_nat (List.length (r_items r)) <= n
        /\ Z.of_nat (List.length (r_tags r)) <= n
        /\ Z.of_nat (List.length (r_authors r)) <= n
        /\ Z.of_nat (List.length (r_series r)) <= n
        /\ Z.of_nat (List.length (r_narrators r)) <= n)
    /\ keys (tagMatches m) = first_occurrences [] (all_tags E query (libraryItems req))
    /\ keys (narratorMatches m)
       = first_occurrences [] (all_narrators E query (libraryItems req))
    /\ keys (authorMatches m)
       = first_occurrences [] (filter (resolvable (Database_authors E))
                                      (all_authors E query (libraryItems req)))
    /\ keys (seriesMatches m)
       = first_occurrences [] (filter (resolvable (Database_series E))
                                      (all_series E query (libraryItems req)))
    /\ (Forall (fun k => array_index k = None) (keys (tagMatches m)) ->
        map name (r_tags r)
        = firstn (Z.to_nat n) (first_occurrences [] (all_tags E query (libraryItems req))))
    /\ (Forall (fun k => array_index k = None) (keys (narratorMatches m)) ->
        map name (r_narrators r)
        = firstn (Z.to_nat n)
                 (first_occurrences [] (all_narrators E query (libraryItems req))))
    /\ (Forall (fun k => array_index k = None) (keys (authorMatches m)) ->
        r_authors r = firstn (Z.to_nat n) (map snd (authorMatches m)))
    /\ (Forall (fun k => array_index k = None) (keys (seriesMatches m)) ->
        r_series r = firstn (Z.to_nat n) (map snd (seriesMatches m)))
    /\ (forall (V : Type) (d : dict V),
          values d = map snd (indexed d) ++ map snd (named d)
          /\ Sorted (fun a b => (fst a <= fst b)%N) (indexed d)).
Proof.
  intros n H N.
  destruct (search_json _ _ _ H) as (query & m & Q & _ & S & ->).
  exists query, m.
  destruct (scan_collects _ _ _ _ _ S) as (_ & I & A & T & Na & Se).
  destruct (scan_names _ _ _ _ _ S) as [Ft Fn]; [constructor | constructor |].
  simpl in I, A, T, Na, Se.
  unfold respond. fold n. cbn [r_items r_tags r_authors r_series r_narrators].
  rewrite !slice_0_firstn by assumption.
  split; [exact Q |]. split; [exact S |].
  split; [intros L; unfold n, maxResults; now rewrite L |].
  split; [now rewrite I |].
  do 4 (split; [reflexivity |]).
  split; [rewrite !length_firstn; lia |].
  split; [exact T |]. split; [exact Na |].
  split; [rewrite A; apply addAuthor_keys |]. split; [exact Se |].
  split; [| split; [| split]].
  - intros P. rewrite (values_plain _ _ P), <- T, <- firstn_map.
    f_equal. now apply names_are_keys.
  - intros P. rewrite (values_plain _ _ P), <- Na, <- firstn_map.
    f_equal. now apply names_are_keys.
  - intros P. now rewrite (values_plain _ _ P).
  - split; [intros P; now rewrite (values_plain _ _ P) |].
    intros V d. split; [reflexivity | apply indexed_sorted].
Qed.

(** *** The empty query *)

(** C5: [search] answers with a bad request exactly when the query
    string is missing or empty, and then no item has been scanned and no
    facet computed: the response is the status alone. *)
Theorem bad_request_iff (req : @request Item) :
  ((exists body, snd (search E req) = Ok (BadRequest body))
   <-> q req = None \/ q req = Some ""%string)
  /\ (q req = None \/ q req = Some ""%string ->
      search E req = ([], Ok (BadRequest "No query string"))).
Proof.
  assert (B : q req = None \/ q req = Some ""%string ->
              search E req = ([], Ok (BadRequest "No query string"))).
  { unfold search. intros [-> | ->]; reflexivity. }
  split; [| exact B]. split.
  - intros [body H]. unfold search in H.
    destruct (q req) as [query|]; [| now left].
    destruct (String.eqb query "") eqn:Q.
    + apply String.eqb_eq in Q. subst. now right.
    + simpl in H. destruct (scan E query _ _) as [seen' res].
      simpl in H. destruct res; discriminate.
  - intros H. rewrite (B H). simpl. eauto.
Qed.

(** *** Authors and series *)

Lemma assoc_update (V : Type) (k k' : string) (f : V -> V) (d : dict V) :
  JS.assoc k' (update k f d)
  = if String.eqb k' k then option_map f (JS.assoc k' d) else JS.assoc k' d.
Proof.
  induction d as [|[k0 v] d IH]; simpl.
  - now destruct (String.eqb k' k).
  - destruct (String.eqb k k0) eqn:K0; simpl.
    + apply String.eqb_eq in K0. subst k0.
      destruct (String.eqb k' k); reflexivity.
    + destruct (String.eqb k' k0) eqn:K1; simpl.
      * apply String.eqb_eq in K1. subst k0.
        rewrite String.eqb_sym, K0. reflexivity.
      * exact IH.
Qed.

Lemma get_update_own (V : Type) (k : string) (f : V -> V) (d : dict V) (v : V) :
  get d k = Own v -> get (update k f d) k = Own (f v).
Proof.
  unfold get. rewrite assoc_update, String.eqb_refl.
  destruct (JS.assoc k d); simpl; [now intros [= ->] |].
  destruct (inherited k); discriminate.
Qed.

Lemma assoc_add (V : Type) (k k' : string) (v : V) (d : dict V) :
  JS.assoc k' (add k v d)
  = match JS.assoc k' d with
    | Some w => Some w
    | None => if String.eqb k' k then Some v else None
    end.
Proof.
  unfold add. induction d as [|[k0 w] d IH]; simpl; [reflexivity |].
  destruct (String.eqb k' k0); [reflexivity | exact IH].
Qed.

(** The aggregate of an author after a pass over a list of references. *)
Lemma author_count (l : list string) (d : dict (@AuthorMatch AuthorJSON))
    (au : string) (a : entity AuthorJSON) :
  find_entity (Database_authors E) au = Some a -> inherited au = false ->
  JS.assoc au (fold_left (addAuthor E) l d)
  = match JS.assoc au d with
    | Some m => Some {| am_author := am_author m;
                        numBooks := numBooks m + occurrences au l |}
    | None => if occurrences au l =? 0 then None
              else Some {| am_author := toJSON a; numBooks := occurrences au l |}
    end.
Proof.
  intros F I. revert d. induction l as [|n l IH]; intros d.
  - simpl. unfold occurrences. simpl. destruct (JS.assoc au d) as [[x y]|]; [| reflexivity].
    simpl. now rewrite Z.add_0_r.
  - cbn [fold_left]. rewrite IH. unfold occurrences. cbn [filter].
    destruct (String.eqb au n) eqn:N.
    + apply String.eqb_eq in N. subst n. unfold addAuthor, get.
      destruct (JS.assoc au d) as [m|] eqn:A.
      * rewrite assoc_update, String.eqb_refl, A. simpl option_map. cbv iota.
        simpl numBooks. simpl am_author. f_equal. f_equal.
        cbn [List.length]. lia.
      * rewrite I, F, assoc_add, A, String.eqb_refl.
        cbn [List.length numBooks am_author].
        destruct (Z.of_nat (S (List.length (filter (String.eqb au) l))) =? 0) eqn:Z0;
          [apply Z.eqb_eq in Z0; lia |].
        f_equal. f_equal. lia.
    + assert (K : JS.assoc au (addAuthor E d n) = JS.assoc au d).
      { unfold addAuthor. destruct (get d n).
        - now rewrite assoc_update, N.
        - reflexivity.
        - destruct (find_entity _ n); [| reflexivity].
          rewrite assoc_add, N. now destruct (JS.assoc au d). }
      now rewrite K.
Qed.
Lemma scan_authors (query : string) (items seen : list Item)
    (m : @matches ItemJSON ItemExpanded SeriesJSON AuthorJSON) :
  scan E query no_matches items = (seen, Ok m) ->
  authorMatches m = fold_left (addAuthor E) (all_authors E query items) [].
Proof. intros S. now destruct (scan_collects _ _ _ _ _ S) as (_ & _ & A & _). Qed.

End Facts.

(** *** Samples *)

(** The theorem on the sample request, which gives no limit. *)
Lemma facets_truncated_witness :
  0 <= 12
  /\ exists r,
       search SearchSamples.sampleEnv
              (SearchSamples.sampleRequest QAbsent SearchSamples.aba)
       = (SearchSamples.aba, Ok (Json r))
       /\ Z.of_nat (List.length (r_authors r)) <= 12.
Proof.
  split; [lia |]. eexists. split; [reflexivity |].
  destruct (facets_truncated SearchSamples.sampleEnv
              (SearchSamples.sampleRequest QAbsent SearchSamples.aba)
              SearchSamples.aba _ eq_refl)
    as (query & m & _ & _ & _ & _ & _ & _ & _ & _ & L & _);
    [unfold maxResults; simpl; lia |].
  exact (proj1 (proj2 (proj2 L))).
Defined.

(** C4 (as stated) fails: a book tagged ["classic"] and then ["1965"]
    gives, with a cap of 1, the tag ["1965"], which was met second:
    [Object.values] lists array-index keys first. *)
Lemma index_like_tag_comes_first :
  (exists r,
      search SearchSamples.sampleEnv
             (SearchSamples.sampleRequest (QNumber 1) SearchSamples.tagged)
      = (SearchSamples.tagged, Ok (Json r))
      /\ map name (r_tags r) = ["1965"%string])
  /\ firstn 1 (first_occurrences []
                 (all_tags SearchSamples.sampleEnv "dune" SearchSamples.tagged))
     = ["classic"%string]
  /\ ~ (forall (req : @request SearchSamples.item) seen r query,
          search SearchSamples.sampleEnv req = (seen, Ok (Json r)) ->
          q req = Some query ->
          map name (r_tags r)
          = firstn (Z.to_nat (maxResults req))
                   (first_occurrences []
                      (all_tags SearchSamples.sampleEnv query (libraryItems req)))).
Proof.
  split; [eexists; split; reflexivity |]. split; [reflexivity |].
  intros H.
  specialize (H (SearchSamples.sampleRequest (QNumber 1) SearchSamples.tagged)
                _ _ "dune"%string eq_refl eq_refl).
  discriminate.
Qed.

(** A negative cap is a bound counted from the end: [slice(0, -1)] drops
    the last entry. *)
Example negative_cap_drops_the_last :
  exists r,
    search SearchSamples.sampleEnv
           (SearchSamples.sampleRequest (QNumber (-1)) SearchSamples.aba)
    = (SearchSamples.aba, Ok (Json r))
    /\ List.length (r_items r) = 2%nat.
Proof. eexists. split; reflexivity. Qed.

(** A tag named after a property of [Object.prototype] ends the request
    with a [TypeError]. *)
Example inherited_name_ends_the_scan :
  search SearchSamples.sampleEnv
         (SearchSamples.sampleRequest QAbsent
            [SearchSamples.matching "Dune" [] ["constructor"%string]])
  = ([SearchSamples.matching "Dune" [] ["constructor"%string]], Throw TypeError).
Proof. reflexivity. Qed.

End SearchFacts.

(* ================================================================= *)
(** ** Query parameters *)

Module QueryFacts.

Import JS Query.

Local Open Scope list_scope.

(** *** Strings *)

Lemma app_assoc_s (a b c : string) : ((a ++ b) ++ c = a ++ (b ++ c))%string.
Proof. induction a as [|x a IH]; simpl; [reflexivity | now rewrite IH]. Qed.

Lemma app_nil_s (a : string) : (a ++ "" = a)%string.
Proof. induction a as [|x a IH]; simpl; [reflexivity | now rewrite IH]. Qed.

Lemma rev_string_acc (s acc : string) :
  Str.rev_string acc s = (Str.rev_string "" s ++ acc)%string.
Proof.
  revert acc. induction s as [|c s IH]; intros acc; simpl; [reflexivity |].
  rewrite IH, (IH (String c "")), app_assoc_s. reflexivity.
Qed.

Lemma rev_string_cons (c : ascii) (s : string) :
  Str.rev_string "" (String c s) = (Str.rev_string "" s ++ String c "")%string.
Proof. simpl. apply rev_string_acc. Qed.

Lemma rev_string_app (a b : string) :
  Str.rev_string "" (a ++ b) = (Str.rev_string "" b ++ Str.rev_string "" a)%string.
Proof.
  induction a as [|c a IH].
  - simpl. now rewrite app_nil_s.
  - change (String c a ++ b)%string with (String c (a ++ b)%string).
    rewrite !rev_string_cons, IH, app_assoc_s. reflexivity.
Qed.

Lemma rev_string_involutive (s : string) :
  Str.rev_string "" (Str.rev_string "" s) = s.
Proof.
  induction s as [|c s IH]; [reflexivity |].
  rewrite rev_string_cons, rev_string_app, IH. reflexivity.
Qed.

(** [trim_start] removes a prefix. *)
Lemma trim_start_prefix (s : string) :
  exists sp, s = (sp ++ Str.trim_start s)%string.
Proof.
  induction s as [|c s [sp IH]]; [now exists ""%string |].
  simpl. destruct (Str.is_space c).
  - exists (String c sp). simpl. now rewrite <- IH.
  - now exists ""%string.
Qed.

Lemma trim_start_length (s : string) :
  (String.length (Str.trim_start s) <= String.length s)%nat.
Proof.
  induction s as [|c s IH]; simpl; [lia |].
  destruct (Str.is_space c); simpl; lia.
Qed.

Lemma trim_start_fixed (c : ascii) (s : string) :
  Str.trim_start (String c s) = String c s <-> Str.is_space c = false.
Proof.
  simpl. destruct (Str.is_space c); split; try reflexivity; try discriminate.
  intros H. pose proof (trim_start_length s) as L. rewrite H in L. simpl in L. lia.
Qed.

Lemma trim_start_idem (s : string) :
  Str.trim_start (Str.trim_start s) = Str.trim_start s.
Proof.
  induction s as [|c s IH]; [reflexivity |].
  simpl. destruct (Str.is_space c) eqn:S; [exact IH |].
  simpl. now rewrite S.
Qed.

(** A prefix of a string that starts with no space starts with none. *)
Lemma trim_start_fixed_prefix (a b : string) :
  Str.trim_start (a ++ b) = (a ++ b)%string -> Str.trim_start a = a.
Proof.
  destruct a as [|c a]; [reflexivity |].
  change (String c a ++ b)%string with (String c (a ++ b)%string).
  rewrite !trim_start_fixed. auto.
Qed.

(** What [trim] leaves starts and ends with no space. *)
Lemma trim_shape (s : string) :
  Str.trim_start (Str.trim s) = Str.trim s
  /\ Str.trim_start (Str.rev_string "" (Str.trim s)) = Str.rev_string "" (Str.trim s)
  /\ exists sp1 sp2, s = (sp1 ++ Str.trim s ++ sp2)%string.
Proof.
  unfold Str.trim.
  set (u := Str.trim_start s).
  set (w := Str.trim_start (Str.rev_string "" u)).
  destruct (trim_start_prefix s) as [sp1 E1]. fold u in E1.
  destruct (trim_start_prefix (Str.rev_string "" u)) as [sp E2]. fold w in E2.
  assert (U : u = (Str.rev_string "" w ++ Str.rev_string "" sp)%string).
  { rewrite <- rev_string_app, <- E2. symmetry. apply rev_string_involutive. }
  split; [| split].
  - apply trim_start_fixed_prefix with (b := Str.rev_string "" sp).
    rewrite <- U. apply trim_start_idem.
  - rewrite rev_string_involutive. apply trim_start_idem.
  - exists sp1, (Str.rev_string "" sp). now rewrite <- U.
Qed.

Lemma trim_fixed (s : string) :
  Str.trim_start s = s ->
  Str.trim_start (Str.rev_string "" s) = Str.rev_string "" s ->
  Str.trim s = s.
Proof.
  intros A B. unfold Str.trim. rewrite A, B. apply rev_string_involutive.
Qed.

Lemma trim_idem (s : string) : Str.trim (Str.trim s) = Str.trim s.
Proof.
  destruct (trim_shape s) as (A & B & _). now apply trim_fixed.
Qed.

(** *** Lower case *)

Lemma to_lower_idem (c : ascii) : to_lower (to_lower c) = to_lower c.
Proof. destruct c as [[] [] [] [] [] [] [] []]; reflexivity. Qed.

Lemma to_lower_space (c : ascii) : Str.is_space (to_lower c) = Str.is_space c.
Proof. destruct c as [[] [] [] [] [] [] [] []]; reflexivity. Qed.

Lemma to_lower_comma (c : ascii) :
  Ascii.eqb (to_lower c) "," = Ascii.eqb c ",".
Proof. destruct c as [[] [] [] [] [] [] [] []]; reflexivity. Qed.

Lemma toLowerCase_idem (s : string) : toLowerCase (toLowerCase s) = toLowerCase s.
Proof.
  induction s as [|c s IH]; simpl; [reflexivity |].
  now rewrite to_lower_idem, IH.
Qed.

Lemma toLowerCase_app (a b : string) :
  toLowerCase (a ++ b) = (toLowerCase a ++ toLowerCase b)%string.
Proof. induction a as [|c a IH]; simpl; [reflexivity | now rewrite IH]. Qed.

Lemma toLowerCase_rev (s : string) :
  toLowerCase (Str.rev_string "" s) = Str.rev_string "" (toLowerCase s).
Proof.
  induction s as [|c s IH]; [reflexivity |].
  cbn [toLowerCase]. rewrite !rev_string_cons, toLowerCase_app, IH. reflexivity.
Qed.

Lemma toLowerCase_trim_start (s : string) :
  toLowerCase (Str.trim_start s) = Str.trim_start (toLowerCase s).
Proof.
  induction s as [|c s IH]; [reflexivity |].
  simpl. rewrite to_lower_space. destruct (Str.is_space c); [exact IH | reflexivity].
Qed.

Lemma toLowerCase_trim (s : string) :
  toLowerCase (Str.trim s) = Str.trim (toLowerCase s).
Proof.
  unfold Str.trim.
  now rewrite toLowerCase_rev, toLowerCase_trim_start, toLowerCase_rev,
    toLowerCase_trim_start.
Qed.

Lemma toLowerCase_empty (s : string) : toLowerCase s = ""%string -> s = ""%string.
Proof. destruct s; [reflexivity | discriminate]. Qed.

(** *** Commas *)

Lemma includes_cons (c : ascii) (s : string) :
  Str.includes "," (String c s) = Ascii.eqb "," c || Str.includes "," s.
Proof.
  cbn [Str.includes Str.prefix_rest]. destruct (Ascii.eqb "," c); reflexivity.
Qed.

Lemma includes_nil : Str.includes "," "" = false.
Proof. reflexivity. Qed.

Lemma includes_app (a b : string) :
  Str.includes "," (a ++ b) = Str.includes "," a || Str.includes "," b.
Proof.
  induction a as [|c a IH]; [reflexivity |].
  change (String c a ++ b)%string with (String c (a ++ b)%string).
  rewrite !includes_cons, IH. now rewrite orb_assoc.
Qed.

Lemma includes_lower (s : string) :
  Str.includes "," (toLowerCase s) = Str.includes "," s.
Proof.
  induction s as [|c s IH]; [reflexivity |].
  cbn [toLowerCase]. rewrite !includes_cons, IH.
  now rewrite (Ascii.eqb_sym "," (to_lower c)), to_lower_comma, (Ascii.eqb_sym c).
Qed.

Lemma includes_trim (s : string) :
  Str.includes "," s = false -> Str.includes "," (Str.trim s) = false.
Proof.
  destruct (trim_shape s) as (_ & _ & sp1 & sp2 & E). intros H.
  rewrite E, !includes_app in H.
  apply orb_false_iff in H as [_ H]. now apply orb_false_iff in H as [H _].
Qed.

(** The pieces [split] cuts hold no separator. *)
Lemma split_pieces (s : string) :
  Forall (fun p => Str.includes "," p = false) (Str.split "," s).
Proof.
  induction s as [|c s IH]; [repeat constructor |].
  cbn [Str.split]. destruct (Ascii.eqb c ",") eqn:C.
  - constructor; [reflexivity | exact IH].
  - destruct (Str.split "," s) as [|p ps].
    + repeat constructor. rewrite includes_cons, Ascii.eqb_sym, C. reflexivity.
    + inversion IH as [|? ? P PS]; subst. constructor; [| exact PS].
      now rewrite includes_cons, Ascii.eqb_sym, C.
Qed.

Lemma split_comma_free (s : string) :
  Str.includes "," s = false -> Str.split "," s = [s].
Proof.
  induction s as [|c s IH]; [reflexivity |].
  rewrite includes_cons. intros H. apply orb_false_iff in H as [C H].
  cbn [Str.split]. rewrite Ascii.eqb_sym, C, (IH H). reflexivity.
Qed.

Lemma split_app (a b : string) :
  Str.includes "," a = false ->
  Str.split "," (a ++ String "," b) = a :: Str.split "," b.
Proof.
  induction a as [|c a IH]; [reflexivity |].
  rewrite includes_cons. intros H. apply orb_false_iff in H as [C H].
  change (String c a ++ String "," b)%string with (String c (a ++ String "," b)%string).
  cbn [Str.split]. rewrite Ascii.eqb_sym, C, (IH H). reflexivity.
Qed.

(** [split] undoes [join] on a non-empty list of comma-free pieces. *)
Lemma split_join (x : string) (l : list string) :
  Forall (fun p => Str.includes "," p = false) (x :: l) ->
  Str.split "," (Str.join "," (x :: l)) = x :: l.
Proof.
  revert x. induction l as [|y l IH]; intros x F.
  - simpl. apply split_comma_free. now inversion F.
  - inversion F as [|? ? P F']; subst.
    change (Str.join "," (x :: y :: l)) with (x ++ String "," (Str.join "," (y :: l)))%string.
    rewrite split_app by assumption. now rewrite IH.
Qed.


(** *** The [include] list *)

Lemma include_entry (x : string) :
  let v := toLowerCase (Str.trim x) in
  Str.trim v = v /\ toLowerCase v = v
  /\ (Str.includes "," x = false -> Str.includes "," v = false).
Proof.
  intros v. unfold v. split; [| split].
  - now rewrite <- toLowerCase_trim, trim_idem.
  - apply toLowerCase_idem.
  - intros H. rewrite includes_lower. now apply includes_trim.
Qed.

(** Every entry of [include] is in canonical form: it is not empty, it
    neither starts nor ends with white space, it is in lower case and it
    holds no comma. *)
Theorem include_entries_canonical (p : option string) :
  Forall (fun v => v <> ""%string /\ Str.trim v = v /\ toLowerCase v = v
                   /\ Str.includes "," v = false)
         (include p).
Proof.
  unfold include. apply Forall_forall. intros v H.
  apply filter_In in H as [H N]. apply in_map_iff in H as (x & <- & H).
  pose proof (split_pieces (or_empty p)) as F.
  rewrite Forall_forall in F. specialize (F _ H).
  destruct (include_entry x) as (A & B & C).
  split; [| auto].
  intros E. rewrite E in N. discriminate.
Qed.

Lemma map_fixed (A : Type) (f : A -> A) (l : list A) :
  Forall (fun x => f x = x) l -> map f l = l.
Proof. induction 1 as [|x l H _ IH]; simpl; [reflexivity | now rewrite H, IH]. Qed.

Lemma filter_all (A : Type) (f : A -> bool) (l : list A) :
  Forall (fun x => f x = true) l -> filter f l = l.
Proof. induction 1 as [|x l H _ IH]; simpl; [reflexivity | now rewrite H, IH]. Qed.

(** [payload.include] is a canonical spelling of the parameter: given
    back as [include], it is read as the same list, and so it reproduces
    itself. *)
Theorem include_round_trip (p : option string) :
  include (Some (payload_include p)) = include p
  /\ payload_include (Some (payload_include p)) = payload_include p.
Proof.
  assert (G : include (Some (payload_include p)) = include p).
  { unfold payload_include. pose proof (include_entries_canonical p) as F.
    destruct (include p) as [|x l] eqn:I; [reflexivity |].
    unfold include at 1. cbn [or_empty]. rewrite split_join.
    - rewrite map_fixed.
      + apply filter_all. eapply Forall_impl; [| exact F].
        intros v (N & _). cbv beta. apply String.eqb_neq in N. now rewrite N.
      + eapply Forall_impl; [| exact F]. intros v (_ & T & L & _). cbv beta.
        now rewrite T, L.
    - eapply Forall_impl; [| exact F]. now intros v (_ & _ & _ & C). }
  split; [exact G |]. unfold payload_include at 1 3. now rewrite G.
Qed.

(** [findOne] looks for its token among the raw pieces of the parameter,
    the other endpoints among the normalised ones: a canonical token that
    [findOne] finds is found by them too, but [findOne] misses a token
    written with a capital or with a space around it. *)
Theorem includeArray_is_stricter (p : option string) (token : string) :
  (token <> ""%string -> Str.trim token = token -> toLowerCase token = token ->
   includes token (includeArray p) = true -> includes token (include p) = true)
  /\ includes "filterdata" (include (Some "FilterData, rssfeed")) = true
  /\ includes "filterdata" (includeArray (Some "FilterData, rssfeed")) = false
  /\ includes "rssfeed" (include (Some "FilterData, rssfeed")) = true
  /\ includes "rssfeed" (includeArray (Some "FilterData, rssfeed")) = false.
Proof.
  split; [| repeat split].
  intros N T L H. unfold includes in *.
  apply existsb_exists in H as (x & H & E). apply String.eqb_eq in E. subst x.
  apply existsb_exists. exists token. split; [| apply String.eqb_refl].
  unfold include. apply filter_In. split.
  - apply in_map_iff. exists token. split; [now rewrite T, L | exact H].
  - apply String.eqb_neq in N. now rewrite N.
Qed.

Lemma includeArray_is_stricter_witness :
  includes "filterdata" (include (Some "rssfeed,filterdata")) = true.
Proof.
  apply (proj1 (includeArray_is_stricter (Some "rssfeed,filterdata") "filterdata"));
    [discriminate | reflexivity | reflexivity | reflexivity].
Defined.

(** *** Numbers in the query string *)

Lemma all_digits_app (a b : string) :
  Str.all_digits (a ++ b) = Str.all_digits a && Str.all_digits b.
Proof.
  induction a as [|c a IH]; [reflexivity |].
  simpl. now rewrite IH, andb_assoc.
Qed.

Lemma all_digits_rev (s : string) :
  Str.all_digits (Str.rev_string "" s) = Str.all_digits s.
Proof.
  induction s as [|c s IH]; [reflexivity |].
  rewrite rev_string_cons, all_digits_app, IH. simpl.
  rewrite andb_true_r. apply andb_comm.
Qed.

Lemma trim_start_digits (s : string) :
  Str.all_digits s = true -> Str.trim_start s = s.
Proof.
  destruct s as [|c s]; [reflexivity |]. intros H.
  apply trim_start_fixed. apply NumFacts.digit_not_space.
  simpl in H. now apply andb_true_iff in H as [D _].
Qed.

Lemma trim_digits (s : string) : Str.all_digits s = true -> Str.trim s = s.
Proof.
  intros H. apply trim_fixed; apply trim_start_digits; [exact H |].
  now rewrite all_digits_rev.
Qed.

Lemma digit_radix (x : ascii) :
  Str.is_digit x = true ->
  (if Ascii.eqb x "x" || Ascii.eqb x "X" then 16
   else if Ascii.eqb x "o" || Ascii.eqb x "O" then 8
   else if Ascii.eqb x "b" || Ascii.eqb x "B" then 2
   else 0) = 0.
Proof.
  destruct x as [[] [] [] [] [] [] [] []]; intros D; try discriminate D; reflexivity.
Qed.

Lemma scan_digits (s : string) :
  s <> EmptyString -> Str.all_digits s = true ->
  Num.scan_signed s = Some (false, Num.LDecimal (Str.digits_value 0 s) 0, EmptyString).
Proof.
  intros N H. destruct s as [|c r]; [congruence |].
  pose proof (NumFacts.span_all_digits _ H) as Sp.
  assert (D : Str.is_digit c = true)
    by (cbn [Str.all_digits] in H; now apply andb_true_iff in H as [D _]).
  rewrite (NumFacts.digit_unsigned _ _ D). unfold Num.scan_unsigned.
  rewrite (NumFacts.digit_not_Infinity _ _ D), Sp. reflexivity.
Qed.

(** [Number(s)] on a string of decimal digits. *)
Lemma of_string_digits (s : string) :
  s <> EmptyString -> Str.all_digits s = true ->
  Num.of_string s = Num.of_Z (Str.digits_value 0 s).
Proof.
  intros N H.
  pose proof (NumFacts.digits_value_ge _ 0 (Z.le_refl 0) H) as V.
  assert (L : Num.literal_value false (Num.LDecimal (Str.digits_value 0 s) 0)
              = Num.of_Z (Str.digits_value 0 s)).
  { rewrite NumFacts.literal_value_nonneg by assumption.
    unfold Num.of_decimal, Num.of_Z. now rewrite Z.pow_0_r, Z.mul_1_r. }
  unfold Num.of_string. rewrite (trim_digits _ H), (scan_digits _ N H), L.
  destruct s as [|c0 [|c1 [|c2 r]]]; [congruence | | |].
  - destruct c0 as [[] [] [] [] [] [] [] []]; reflexivity.
  - destruct c0 as [[] [] [] [] [] [] [] []]; reflexivity.
  - assert (D1 : Str.is_digit c1 = true).
    { cbn [Str.all_digits] in H. apply andb_true_iff in H as [_ H].
      now apply andb_true_iff in H as [D _]. }
    destruct c0 as [[] [] [] [] [] [] [] []]; try reflexivity.
    now rewrite (digit_radix _ D1).
Qed.

Lemma of_Z_not_nan (z : Z) : 0 <= z -> is_nan (Num.of_Z z) = false.
Proof.
  intros Hz. destruct z as [|p|p]; [reflexivity | | lia].
  pose proof (NumFacts.of_Z_positive p) as P.
  destruct (Num.of_Z (Z.pos p)); try reflexivity. contradiction.
Qed.

Lemma number_or_nan (p : option string) (dflt : Num.number) :
  (is_nan dflt = false -> is_nan (number_or p dflt) = false)
  /\ (p = None \/ p = Some ""%string -> number_or p dflt = dflt).
Proof.
  split.
  - intros D. unfold number_or. destruct p as [s|]; [| exact D].
    destruct (String.eqb s ""); simpl; [exact D |].
    destruct (is_nan (Num.of_string s)) eqn:N; simpl; [exact D | exact N].
  - intros [-> | ->]; reflexivity.
Qed.

(** A numeric parameter is never read as [NaN]; missing or empty it is
    the default; written as a string of decimal digits it is the integer
    the digits denote, rounded to a Number. *)
Theorem number_or_spec (p : option string) (dflt : Num.number) :
  (is_nan dflt = false -> is_nan (number_or p dflt) = false)
  /\ (p = None \/ p = Some ""%string -> number_or p dflt = dflt)
  /\ (forall s, p = Some s -> s <> ""%string -> Str.all_digits s = true ->
      number_or p dflt = Num.of_Z (Str.digits_value 0 s)).
Proof.
  split; [apply number_or_nan |]. split; [apply number_or_nan |].
  intros s -> N H. unfold number_or.
  apply String.eqb_neq in N as N'. rewrite N'.
  rewrite of_string_digits by assumption.
  rewrite of_Z_not_nan; [reflexivity |].
  apply (NumFacts.digits_value_ge _ 0 (Z.le_refl 0) H).
Qed.

Lemma number_or_spec_witness :
  number_or (Some "25") Num.zero = Num.of_Z 25.
Proof.
  apply (proj2 (proj2 (number_or_spec (Some "25") Num.zero)) "25"%string);
    [reflexivity | discriminate | reflexivity].
Defined.

(** The shelf limit is never [0] and never [NaN]: it is 10 when the
    parameter is missing, empty, not a number or zero. *)
Theorem limitPerShelf_truthy (p : option string) :
  truthy (VNum (limitPerShelf p)) = true
  /\ (p = None \/ p = Some ""%string -> limitPerShelf p = Num.of_Z 10)
  /\ (forall s, p = Some s ->
      truthy (VNum (Num.of_string s)) = false -> limitPerShelf p = Num.of_Z 10).
Proof.
  assert (T : truthy (VNum (Num.of_Z 10)) = true) by reflexivity.
  split; [| split].
  - unfold limitPerShelf. destruct p as [s|]; [| exact T].
    destruct (negb (String.eqb s "") && negb (is_nan (Num.of_string s))); [| exact T].
    unfold or_number. destruct (truthy (VNum (Num.of_string s))) eqn:S; [exact S | exact T].
  - intros [-> | ->]; reflexivity.
  - intros s -> F. unfold limitPerShelf, or_number. rewrite F.
    now destruct (negb (String.eqb s "") && negb (is_nan (Num.of_string s))).
Qed.

Lemma limitPerShelf_truthy_witness : limitPerShelf (Some "0") = Num.of_Z 10.
Proof.
  apply (proj2 (proj2 (limitPerShelf_truthy (Some "0"))) "0"%string); reflexivity.
Defined.

End QueryFacts.

(* ================================================================= *)
(** ** The page/limit step on Numbers *)

Module NumberPagingFacts.

Import JS NumberPaging.

Local Open Scope list_scope.

Lemma canon_pos (z : Z) :
  0 < z < 2 ^ 53 ->
  0 <= Z.log2 z < 53 /\ 0 < z * 2 ^ (52 - Z.log2 z).
Proof.
  intros Hz. pose proof (Z.log2_nonneg z).
  assert (Z.log2 z < 53) by (apply Z.log2_lt_pow2; lia).
  split; [lia |]. apply Z.mul_pos_pos; [lia | apply Z.pow_pos_nonneg; lia].
Qed.

(** Multiplication of integers is exact as long as the product stays
    below [2^53]. *)
Lemma mul_exact (a b : Z) :
  0 < a -> 0 < b -> a * b < 2 ^ 53 ->
  mul (Num.canon a) (Num.canon b) = Num.canon (a * b).
Proof.
  intros A B AB.
  assert (A53 : a < 2 ^ 53) by nia. assert (B53 : b < 2 ^ 53) by nia.
  destruct (canon_pos a) as [La Ka]; [lia |].
  destruct (canon_pos b) as [Lb Kb]; [lia |].
  unfold mul, Num.canon at 1 2, SFmul. simpl xorb.
  rewrite Pos2Z.inj_mul, !Z2Pos.id by assumption.
  replace (a * 2 ^ (52 - Z.log2 a) * (b * 2 ^ (52 - Z.log2 b)))
    with (a * b * 2 ^ (104 - Z.log2 a - Z.log2 b)).
  - replace (Z.log2 a - 52 + (Z.log2 b - 52)) with (- (104 - Z.log2 a - Z.log2 b)) by lia.
    apply NumFacts.binary_round_aux_exact; [nia |].
    pose proof (Z.log2_mul_below a b A B). lia.
  - replace (104 - Z.log2 a - Z.log2 b) with ((52 - Z.log2 a) + (52 - Z.log2 b)) by lia.
    rewrite Z.pow_add_r by lia. ring.
Qed.

Lemma shl_align_value (m : positive) (e e' : Z) :
  e' <= e ->
  shl_align m e e' = (Z.to_pos (Zpos m * 2 ^ (e - e')), e').
Proof.
  intros L. unfold shl_align.
  destruct (e' - e) as [|d|d] eqn:D; try lia.
  - replace (e - e') with 0 by lia. rewrite Z.mul_1_r. simpl.
    f_equal. lia.
  - f_equal. replace (e - e') with (Zpos d) by lia.
    rewrite <- NumFacts.iter_xO. reflexivity.
Qed.

(** Addition of integers is exact as long as the sum stays below [2^53]. *)
Lemma add_exact (a b : Z) :
  0 < a -> 0 < b -> a + b < 2 ^ 53 ->
  Num.add (Num.canon a) (Num.canon b) = Num.canon (a + b).
Proof.
  intros A B AB.
  destruct (canon_pos a) as [La Ka]; [lia |].
  destruct (canon_pos b) as [Lb Kb]; [lia |].
  destruct (canon_pos (a + b)) as [Ls Ks]; [lia |].
  assert (Ma : Z.log2 a <= Z.log2 (a + b)) by (apply Z.log2_le_mono; lia).
  assert (Mb : Z.log2 b <= Z.log2 (a + b)) by (apply Z.log2_le_mono; lia).
  set (j := 52 - Z.min (Z.log2 a) (Z.log2 b)).
  unfold Num.add, Num.canon at 1 2, SFadd.
  replace (Z.min (Z.log2 a - 52) (Z.log2 b - 52)) with (- j) by (unfold j; lia).
  rewrite !shl_align_value by (unfold j; lia). cbn [fst cond_Zopp].
  rewrite (Z2Pos.id (a * 2 ^ (52 - Z.log2 a))), (Z2Pos.id (b * 2 ^ (52 - Z.log2 b)))
    by assumption.
  assert (Pa : 0 < a * 2 ^ (52 - Z.log2 a) * 2 ^ (Z.log2 a - 52 - - j)).
  { apply Z.mul_pos_pos; [assumption | apply Z.pow_pos_nonneg; unfold j; lia]. }
  assert (Pb : 0 < b * 2 ^ (52 - Z.log2 b) * 2 ^ (Z.log2 b - 52 - - j)).
  { apply Z.mul_pos_pos; [assumption | apply Z.pow_pos_nonneg; unfold j; lia]. }
  rewrite !Z2Pos.id by assumption.
  replace (a * 2 ^ (52 - Z.log2 a) * 2 ^ (Z.log2 a - 52 - - j)
           + b * 2 ^ (52 - Z.log2 b) * 2 ^ (Z.log2 b - 52 - - j))
    with ((a + b) * 2 ^ j).
  2:{ rewrite <- !Z.mul_assoc, <- !Z.pow_add_r by (unfold j; lia).
      replace (52 - Z.log2 a + (Z.log2 a - 52 - - j)) with j by lia.
      replace (52 - Z.log2 b + (Z.log2 b - 52 - - j)) with j by lia. ring. }
  assert (J : 0 <= j) by (unfold j; lia).
  assert (P1 : 0 < (a + b) * 2 ^ j)
    by (apply Z.mul_pos_pos; [lia | apply Z.pow_pos_nonneg; lia]).
  unfold binary_normalize.
  destruct ((a + b) * 2 ^ j) as [|M|M] eqn:EM; try lia.
  unfold binary_round.
  assert (LM : Z.log2 (Z.pos M) = Z.log2 (a + b) + j)
    by (rewrite <- EM, Z.log2_mul_pow2 by lia; lia).
  assert (Sh : shl_align M (- j) (fexp Num.prec Num.emax (Z.pos (digits2_pos M) + - j))
               = (M, - j)).
  { change (Z.pos (digits2_pos M)) with (Zdigits2 (Z.pos M)).
    rewrite NumFacts.Zdigits2_log2, LM by lia.
    unfold shl_align, fexp, emin, Num.prec, Num.emax.
    destruct (Z.max (Z.log2 (a + b) + j + 1 + - j - 53) (3 - 1024 - 53) - - j) eqn:X;
      try reflexivity. unfold j in X. lia. }
  rewrite Sh, <- EM. apply (NumFacts.binary_round_aux_exact (a + b) j); [lia |].
  unfold j. lia.
Qed.

(** An exact integer converts to itself. *)
Lemma canon_integer (z : Z) :
  0 < z < 2 ^ 53 -> ToIntegerOrInfinity (Num.canon z) = Finite z.
Proof.
  intros Hz. destruct (canon_pos z Hz) as [L K].
  unfold ToIntegerOrInfinity, Num.canon. f_equal.
  rewrite Z2Pos.id by assumption.
  destruct (Z.log2 z - 52) as [|e|e] eqn:E; try lia.
  - replace (52 - Z.log2 z) with 0 by lia. simpl. lia.
  - replace (52 - Z.log2 z) with (Z.pos e) by lia.
    apply Z.div_mul. apply Z.pow_nonzero; lia.
Qed.

Lemma of_Z_integer (z : Z) :
  0 <= z < 2 ^ 53 -> ToIntegerOrInfinity (Num.of_Z z) = Finite z.
Proof.
  intros Hz. destruct (Z.eq_dec z 0) as [-> | N]; [reflexivity |].
  rewrite NumFacts.of_Z_exact by lia. apply canon_integer. lia.
Qed.

Lemma clamp_finite (len z : Z) :
  clamp len (Finite z) = if z <? 0 then Z.max (len + z) 0 else Z.min z len.
Proof. reflexivity. Qed.

(** *** Negative integers *)

Lemma binary_round_aux_opp (s : bool) (m e : Z) (l : location) :
  binary_round_aux Num.prec Num.emax (negb s) m e l
  = SFopp (binary_round_aux Num.prec Num.emax s m e l).
Proof.
  unfold binary_round_aux.
  destruct (shr_fexp _ _ m e l) as [r1 e1].
  destruct (shr_fexp _ _ _ e1 loc_Exact) as [r2 e2].
  destruct (shr_m r2); [reflexivity | | reflexivity].
  destruct (e2 <=? _); reflexivity.
Qed.

Lemma of_Z_opp (z : Z) : z <> 0 -> Num.of_Z (- z) = SFopp (Num.of_Z z).
Proof.
  intros N. destruct z as [|p|p]; [congruence | |];
    unfold Num.of_Z, Num.of_ratio, SFdiv; cbn [Z.opp];
    destruct (SFdiv_core_binary _ _ _ _ _ _) as [[mz ez] lz]; cbn [xorb].
  - apply (binary_round_aux_opp false).
  - apply (binary_round_aux_opp true).
Qed.

Lemma mul_opp_l (x y : Num.number) : mul (SFopp x) y = SFopp (mul x y).
Proof.
  destruct x as [sx|sx| |sx mx ex], y as [sy|sy| |sy my ey]; cbn [mul SFmul SFopp];
    try reflexivity; try (now destruct sx, sy).
  rewrite <- binary_round_aux_opp. now destruct sx, sy.
Qed.

Lemma mul_opp_r (x y : Num.number) : mul x (SFopp y) = SFopp (mul x y).
Proof.
  destruct x as [sx|sx| |sx mx ex], y as [sy|sy| |sy my ey]; cbn [mul SFmul SFopp];
    try reflexivity; try (now destruct sx, sy).
  rewrite <- binary_round_aux_opp. now destruct sx, sy.
Qed.

Lemma binary_round_opp (s : bool) (m : positive) (e : Z) :
  binary_round Num.prec Num.emax (negb s) m e
  = SFopp (binary_round Num.prec Num.emax s m e).
Proof.
  unfold binary_round. destruct (shl_align _ _ _) as [mz ez].
  apply binary_round_aux_opp.
Qed.

(** Rounding an integer below [2^53] with any number of trailing zero
    bits gives its exact representation. *)
Lemma binary_round_exact (z j : Z) :
  0 < z < 2 ^ 53 -> 0 <= j ->
  binary_round Num.prec Num.emax false (Z.to_pos (z * 2 ^ j)) (- j) = Num.canon z.
Proof.
  intros Hz J. destruct (canon_pos z Hz) as [L K].
  assert (P : 0 < z * 2 ^ j) by (apply Z.mul_pos_pos; [lia | apply Z.pow_pos_nonneg; lia]).
  unfold binary_round.
  change (Z.pos (digits2_pos (Z.to_pos (z * 2 ^ j))))
    with (Zdigits2 (Z.pos (Z.to_pos (z * 2 ^ j)))).
  rewrite Z2Pos.id, NumFacts.Zdigits2_log2, Z.log2_mul_pow2 by lia.
  unfold fexp, emin, Num.prec, Num.emax.
  replace (Z.max (j + Z.log2 z + 1 + - j - 53) (3 - 1024 - 53)) with (Z.log2 z - 52) by lia.
  destruct (Z_le_gt_dec (Z.log2 z - 52) (- j)) as [S | S].
  - rewrite shl_align_value by exact S. rewrite !Z2Pos.id by lia.
    replace (z * 2 ^ j * 2 ^ (- j - (Z.log2 z - 52))) with (z * 2 ^ (52 - Z.log2 z)).
    + replace (Z.log2 z - 52) with (- (52 - Z.log2 z)) by lia.
      apply (NumFacts.binary_round_aux_exact z (52 - Z.log2 z)); lia.
    + rewrite <- Z.mul_assoc, <- Z.pow_add_r by lia. do 2 f_equal. lia.
  - unfold shl_align.
    destruct (Z.log2 z - 52 - - j) as [|d|d] eqn:D; try lia.
    rewrite Z2Pos.id by lia. apply NumFacts.binary_round_aux_exact; lia.
Qed.

Lemma opp_involutive (x : Num.number) : SFopp (SFopp x) = x.
Proof. destruct x as [[]|[]| |[] m e]; reflexivity. Qed.

Lemma of_Z_neg (z : Z) : z < 0 -> Num.of_Z z = SFopp (Num.of_Z (- z)).
Proof.
  intros N. rewrite <- (of_Z_opp (- z)) by lia. f_equal. lia.
Qed.

(** The Number of an integer that is not zero, below [2^53] in
    magnitude. *)
Lemma of_Z_finite (z : Z) :
  z <> 0 -> Z.abs z < 2 ^ 53 ->
  Num.of_Z z = S754_finite (z <? 0)
                 (Z.to_pos (Z.abs z * 2 ^ (52 - Z.log2 (Z.abs z))))
                 (Z.log2 (Z.abs z) - 52).
Proof.
  intros N B. destruct (Z_lt_le_dec z 0) as [S | S].
  - rewrite of_Z_neg, NumFacts.of_Z_exact by lia.
    replace (z <? 0) with true by (symmetry; apply Z.ltb_lt; lia).
    replace (Z.abs z) with (- z) by lia. reflexivity.
  - rewrite NumFacts.of_Z_exact by lia.
    replace (z <? 0) with false by (symmetry; apply Z.ltb_ge; lia).
    replace (Z.abs z) with z by lia. reflexivity.
Qed.

(** Multiplication of integers is exact as long as the product stays
    below [2^53] in magnitude. *)
Lemma mul_of_Z (a b : Z) :
  a <> 0 -> b <> 0 -> Z.abs (a * b) < 2 ^ 53 ->
  mul (Num.of_Z a) (Num.of_Z b) = Num.of_Z (a * b).
Proof.
  assert (G : forall a b, 0 < a -> 0 < b -> a * b < 2 ^ 53 ->
                mul (Num.of_Z a) (Num.of_Z b) = Num.of_Z (a * b)).
  { intros x y X Y XY. rewrite !NumFacts.of_Z_exact by nia. now apply mul_exact. }
  intros A B AB.
  destruct (Z_lt_le_dec a 0) as [Sa | Sa]; destruct (Z_lt_le_dec b 0) as [Sb | Sb].
  - rewrite (of_Z_neg a), (of_Z_neg b), mul_opp_l, mul_opp_r, opp_involutive by lia.
    rewrite G by nia. f_equal. lia.
  - rewrite (of_Z_neg a), mul_opp_l, G by nia.
    rewrite (of_Z_neg (a * b)) by nia. do 2 f_equal. lia.
  - rewrite (of_Z_neg b), mul_opp_r, G by nia.
    rewrite (of_Z_neg (a * b)) by nia. do 2 f_equal. lia.
  - apply G; nia.
Qed.

(** Addition of integers is exact as long as the operands and the sum
    stay below [2^53] in magnitude. *)
Lemma add_of_Z (a b : Z) :
  a <> 0 -> b <> 0 -> Z.abs a < 2 ^ 53 -> Z.abs b < 2 ^ 53 -> Z.abs (a + b) < 2 ^ 53 ->
  Num.add (Num.of_Z a) (Num.of_Z b) = Num.of_Z (a + b).
Proof.
  intros A B Ba Bb Bs.
  destruct (canon_pos (Z.abs a)) as [La Ka]; [lia |].
  destruct (canon_pos (Z.abs b)) as [Lb Kb]; [lia |].
  set (j := 52 - Z.min (Z.log2 (Z.abs a)) (Z.log2 (Z.abs b))).
  assert (J : 0 <= j) by (unfold j; lia).
  rewrite (of_Z_finite a), (of_Z_finite b) by assumption.
  unfold Num.add, SFadd.
  replace (Z.min (Z.log2 (Z.abs a) - 52) (Z.log2 (Z.abs b) - 52)) with (- j)
    by (unfold j; lia).
  rewrite !shl_align_value by (unfold j; lia). cbn [fst].
  rewrite (Z2Pos.id (Z.abs a * 2 ^ (52 - Z.log2 (Z.abs a)))),
          (Z2Pos.id (Z.abs b * 2 ^ (52 - Z.log2 (Z.abs b)))) by assumption.
  assert (Ea : Z.abs a * 2 ^ (52 - Z.log2 (Z.abs a)) * 2 ^ (Z.log2 (Z.abs a) - 52 - - j)
               = Z.abs a * 2 ^ j).
  { rewrite <- Z.mul_assoc, <- Z.pow_add_r by (unfold j; lia). do 2 f_equal. lia. }
  assert (Eb : Z.abs b * 2 ^ (52 - Z.log2 (Z.abs b)) * 2 ^ (Z.log2 (Z.abs b) - 52 - - j)
               = Z.abs b * 2 ^ j).
  { rewrite <- Z.mul_assoc, <- Z.pow_add_r by (unfold j; lia). do 2 f_equal. lia. }
  rewrite Ea, Eb.
  assert (P : 0 < 2 ^ j) by (apply Z.pow_pos_nonneg; lia).
  rewrite !Z2Pos.id by nia.
  assert (Ca : cond_Zopp (a <? 0) (Z.abs a * 2 ^ j) = a * 2 ^ j).
  { destruct (Z.ltb_spec a 0); cbn [cond_Zopp]; nia. }
  assert (Cb : cond_Zopp (b <? 0) (Z.abs b * 2 ^ j) = b * 2 ^ j).
  { destruct (Z.ltb_spec b 0); cbn [cond_Zopp]; nia. }
  rewrite Ca, Cb. replace (a * 2 ^ j + b * 2 ^ j) with ((a + b) * 2 ^ j) by ring.
  unfold binary_normalize.
  destruct ((a + b) * 2 ^ j) as [|M|M] eqn:EM.
  - replace (a + b) with 0 by nia. reflexivity.
  - assert (S : 0 < a + b) by nia.
    replace M with (Z.to_pos ((a + b) * 2 ^ j)) by (rewrite EM; reflexivity).
    rewrite binary_round_exact by lia. symmetry. apply NumFacts.of_Z_exact. lia.
  - assert (S : a + b < 0) by nia.
    replace M with (Z.to_pos (- (a + b) * 2 ^ j))
      by (replace (- (a + b) * 2 ^ j) with (- ((a + b) * 2 ^ j)) by ring;
          rewrite EM; reflexivity).
    rewrite (binary_round_opp false), binary_round_exact by lia.
    rewrite (of_Z_neg (a + b)), NumFacts.of_Z_exact by lia. reflexivity.
Qed.

Lemma integer_opp (m : positive) (e z : Z) :
  ToIntegerOrInfinity (S754_finite false m e) = Finite z ->
  ToIntegerOrInfinity (S754_finite true m e) = Finite (- z).
Proof. unfold ToIntegerOrInfinity. now intros [= <-]. Qed.

Lemma of_Z_integer_signed (z : Z) :
  Z.abs z < 2 ^ 53 -> ToIntegerOrInfinity (Num.of_Z z) = Finite z.
Proof.
  intros B. destruct (Z_lt_le_dec z 0) as [S | S]; [| apply of_Z_integer; lia].
  rewrite of_Z_neg, NumFacts.of_Z_exact by lia.
  pose proof (canon_integer (- z) ltac:(lia)) as C.
  unfold Num.canon in *. cbn [SFopp negb].
  rewrite (integer_opp _ _ _ C). f_equal. lia.
Qed.

Lemma of_Z_truthy (z : Z) :
  Z.abs z < 2 ^ 53 -> truthy (VNum (Num.of_Z z)) = negb (z =? 0).
Proof.
  intros B. destruct (Z.eq_dec z 0) as [-> | N]; [reflexivity |].
  rewrite of_Z_finite by assumption.
  symmetry. apply negb_true_iff, Z.eqb_neq, N.
Qed.

(** The bounds of the page step on integers. *)
Lemma bounds_of_Z (limit page : Z) :
  limit <> 0 -> Z.abs (page * limit) + Z.abs limit < 2 ^ 53 ->
  ToIntegerOrInfinity (mul (Num.of_Z page) (Num.of_Z limit)) = Finite (page * limit)
  /\ ToIntegerOrInfinity (Num.add (mul (Num.of_Z page) (Num.of_Z limit)) (Num.of_Z limit))
     = Finite (page * limit + limit).
Proof.
  intros L B. destruct (Z.eq_dec page 0) as [-> | P].
  - pose proof (of_Z_integer_signed limit ltac:(lia)) as I.
    rewrite (of_Z_finite limit) in * by lia.
    change (Num.of_Z 0) with (S754_zero false).
    unfold mul, Num.add. cbn [SFmul SFadd]. split; [reflexivity | exact I].
  - rewrite mul_of_Z by lia. split; [apply of_Z_integer_signed; lia |].
    rewrite add_of_Z by nia. apply of_Z_integer_signed. lia.
Qed.

(** On integers in the exact range the page step on Numbers is the page
    step on integers. *)
Lemma limitItems_of_Z (A : Type) (limit page : Z) (items : list A) :
  Z.abs (page * limit) + Z.abs limit < 2 ^ 53 ->
  limitItems (Num.of_Z limit) (Num.of_Z page) items
  = Paging.limitItems limit page items.
Proof.
  intros B. unfold limitItems, Paging.limitItems.
  rewrite of_Z_truthy by lia.
  destruct (Z.eqb_spec limit 0) as [-> | L]; [reflexivity |]. cbn [negb].
  destruct (bounds_of_Z limit page L B) as [S E].
  unfold slice, Paging.slice. rewrite S, E, !clamp_finite. reflexivity.
Qed.

(** *** The page step *)

Lemma clamp_range (len : Z) (b : integer_or_infinity) :
  0 <= len -> 0 <= clamp len b <= len.
Proof.
  intros L. destruct b as [|z|]; cbn [clamp]; [lia | | lia].
  destruct (Z.ltb_spec z 0); lia.
Qed.

Lemma slice_positions (A : Type) (start end_ : Num.number) (l : list A) :
  let len := Z.of_nat (List.length l) in
  slice start end_ l
  = Paging.spec_slice (clamp len (ToIntegerOrInfinity start))
                      (clamp len (ToIntegerOrInfinity end_)) l.
Proof.
  intros len. unfold slice. fold len.
  pose proof (clamp_range len (ToIntegerOrInfinity start) ltac:(unfold len; lia)).
  rewrite PagingFacts.spec_slice_firstn_skipn. do 2 f_equal. lia.
Qed.

(** C7 (as amended): a limit that is zero returns the list as it is.
    Otherwise the page is the run of elements between the positions that
    the bounds [page * limit] and [page * limit + limit], computed on
    Numbers, denote for [slice]: a bound is truncated to an integer, a
    negative bound counts from the end of the list, and both are clamped
    to the list.  For an integer limit that is not zero and an integer
    page, in the exact range, the bounds are the integers [page * limit]
    and [page * limit + limit]; for [limit > 0] and [page >= 0] the page
    is the slice [[page * limit, page * limit + limit)], empty when it
    lies past the end.  The step is a total function: it never throws. *)
Theorem limitItems_spec (A : Type) (limit page : Num.number) (l : list A) :
  let len := Z.of_nat (List.length l) in
  let startIndex := mul page limit in
  (truthy (VNum limit) = false -> limitItems limit page l = l)
  /\ (truthy (VNum limit) = true ->
      limitItems limit page l
      = Paging.spec_slice (clamp len (ToIntegerOrInfinity startIndex))
                          (clamp len (ToIntegerOrInfinity (Num.add startIndex limit))) l)
  /\ (forall n p : Z,
        limit = Num.of_Z n -> page = Num.of_Z p ->
        n <> 0 -> Z.abs (p * n) + Z.abs n < 2 ^ 53 ->
        limitItems limit page l
        = Paging.spec_slice (Paging.relative len (p * n))
                            (Paging.relative len (p * n + n)) l
        /\ (0 < n -> 0 <= p ->
            limitItems limit page l = Paging.spec_slice (p * n) (p * n + n) l
            /\ limitItems limit page l
               = firstn (Z.to_nat n) (skipn (Z.to_nat (p * n)) l))).
Proof.
  intros len startIndex. split; [| split].
  - intros T. unfold limitItems. now rewrite T.
  - intros T. unfold limitItems. rewrite T. apply slice_positions.
  - intros n p -> -> N B. rewrite limitItems_of_Z by exact B.
    destruct (PagingFacts.integer_page_spec A n p l) as (_ & G & H).
    split; [exact (G N) | exact H].
Qed.

(** The second page of ten over 25 items. *)
Lemma limitItems_spec_witness :
  limitItems (Num.of_Z 10) (Num.of_Z 1) (seq 0 25) = Paging.spec_slice 10 20 (seq 0 25)
  /\ limitItems (Num.of_Z 10) (Num.of_Z 1) (seq 0 25) = seq 10 10.
Proof.
  apply (proj2 (proj2 (limitItems_spec nat (Num.of_Z 10) (Num.of_Z 1) (seq 0 25)))
               10 1 eq_refl eq_refl); [lia | simpl; lia | lia | lia].
Defined.

(** C7 (as stated) fails for a negative page and for a limit that is not
    an integer.  With [limit=10] and [page=-2] over 25 items no position
    lies in [[-20, -10)], yet the items at positions 5 to 14 are
    returned.  With [limit=2.5] and [page=1] the positions in [[2.5, 5)]
    are 3 and 4, yet the items at positions 2 to 4 are returned. *)
Lemma negative_page_counts_from_end :
  limitItems (Query.limit (Some "10"%string)) (Query.page (Some "-2"%string)) (seq 0 25)
  = seq 5 10
  /\ Paging.spec_slice (-2 * 10) (-2 * 10 + 10) (seq 0 25) = []
  /\ limitItems (Query.limit (Some "2.5"%string)) (Query.page (Some "1"%string)) (seq 0 25)
     = [2; 3; 4]%nat
  /\ ~ (forall (n p : Z) (l : list nat),
          0 < n ->
          limitItems (Num.of_Z n) (Num.of_Z p) l
          = Paging.spec_slice (p * n) (p * n + n) l).
Proof.
  split; [vm_compute; reflexivity |]. split; [reflexivity |].
  split; [vm_compute; reflexivity |].
  intros H. specialize (H 10 (-2) (seq 0 25) eq_refl).
  vm_compute in H. discriminate.
Qed.

(** [limit = 10], [page = 1] over 25 items: positions 10 to 19. *)
Example page_one_of_25 :
  limitItems (Query.limit (Some "10"%string)) (Query.page (Some "1"%string)) (seq 0 25)
  = [10; 11; 12; 13; 14; 15; 16; 17; 18; 19]%nat.
Proof. vm_compute. reflexivity. Qed.

(** A page past the end is empty. *)
Example page_past_the_end :
  limitItems (Query.limit (Some "10"%string)) (Query.page (Some "7"%string)) (seq 0 25)
  = [].
Proof. vm_compute. reflexivity. Qed.

(** A page is a run of the list, whatever the Numbers. *)
Lemma number_page_run (A : Type) (limit page : Num.number) (l : list A) :
  exists before after, l = before ++ limitItems limit page l ++ after.
Proof.
  unfold limitItems. destruct (truthy (VNum limit)).
  - unfold slice. eexists (firstn _ l), (skipn _ (skipn _ l)).
    now rewrite firstn_skipn, firstn_skipn.
  - exists [], []. now rewrite app_nil_r.
Qed.

(** On integers in the exact range the Number arithmetic of the page
    step is the integer arithmetic: a limit and a page that are not
    negative, with [page * limit + limit] below [2^53], select the items
    the integer model selects. *)
Theorem limitItems_on_integers (A : Type) (limit page : Z) (items : list A) :
  0 <= limit -> 0 <= page -> page * limit + limit < 2 ^ 53 ->
  limitItems (Num.of_Z limit) (Num.of_Z page) items
  = Paging.limitItems limit page items.
Proof.
  intros L P B. unfold limitItems, Paging.limitItems.
  destruct (Z.eq_dec limit 0) as [-> | NL]; [reflexivity |].
  assert (L0 : 0 < limit) by lia.
  replace (limit =? 0) with false by (symmetry; apply Z.eqb_neq; lia).
  assert (T : truthy (VNum (Num.of_Z limit)) = true).
  { destruct limit as [|l|l]; try lia.
    pose proof (NumFacts.of_Z_positive l) as Q. unfold truthy.
    destruct (Num.of_Z (Z.pos l)) as [[]|[]| |[] ? ?]; simpl in Q;
      try contradiction; reflexivity. }
  rewrite T. unfold slice, Paging.slice.
  assert (S : mul (Num.of_Z page) (Num.of_Z limit) = Num.of_Z (page * limit)).
  { rewrite (NumFacts.of_Z_exact limit) by nia.
    destruct (Z.eq_dec page 0) as [-> | NP]; [reflexivity |].
    rewrite (NumFacts.of_Z_exact page) by nia.
    rewrite mul_exact by nia. symmetry. apply NumFacts.of_Z_exact. nia. }
  assert (E : Num.add (Num.of_Z (page * limit)) (Num.of_Z limit)
              = Num.of_Z (page * limit + limit)).
  { destruct (Z.eq_dec page 0) as [-> | NP].
    { replace (0 * limit + limit) with limit by lia.
      rewrite (NumFacts.of_Z_exact limit) by nia. reflexivity. }
    rewrite (NumFacts.of_Z_exact limit) by nia.
    rewrite (NumFacts.of_Z_exact (page * limit)) by nia.
    rewrite add_exact by nia. symmetry. apply NumFacts.of_Z_exact. nia. }
  rewrite S, E, !of_Z_integer by nia. rewrite !clamp_finite. reflexivity.
Qed.

Lemma limitItems_on_integers_witness :
  limitItems (Num.of_Z 10) (Num.of_Z 1) (seq 0 25) = Paging.limitItems 10 1 (seq 0 25).
Proof. apply limitItems_on_integers; lia. Defined.

(** An infinite limit selects nothing, whatever the page: the start
    index is [NaN] or infinite, and so is the end. *)
Theorem infinite_limit_selects_nothing (A : Type) (negative : bool)
    (page : Num.number) (items : list A) :
  limitItems (S754_infinity negative) page items = []
  /\ limitItems (Query.limit (Some "Infinity")) page items = [].
Proof.
  assert (G : forall negative, limitItems (S754_infinity negative) page items = []);
    [| split; [apply G | exact (G false)]].
  clear negative. intros negative.
  unfold limitItems. cbn [truthy]. unfold slice.
  set (len := Z.of_nat (List.length items)).
  assert (L : 0 <= len) by (unfold len; lia). clearbody len.
  assert (Z0 : forall k, Z.to_nat (Z.min 0 len - k) = Z.to_nat (0 - k))
    by (intros k; f_equal; lia).
  destruct page as [sp | sp | | sp m e]; destruct negative; try destruct sp;
    cbn [mul SFmul Num.add SFadd xorb ToIntegerOrInfinity clamp Z.ltb Z.compare];
    rewrite ?Z.sub_diag, ?Z0; try reflexivity;
    replace (Z.to_nat (0 - len)) with 0%nat by lia; reflexivity.
Qed.

End NumberPagingFacts.

(* ================================================================= *)
(** ** Pages *)

Module PageFacts.

Import Paging.

Local Open Scope list_scope.

Lemma firstn_plus (A : Type) (a b : nat) (l : list A) :
  firstn (a + b) l = firstn a l ++ firstn b (skipn a l).
Proof.
  revert l. induction a as [|a IH]; intros l; [reflexivity |].
  destruct l as [|x l]; simpl; [now rewrite firstn_nil | now rewrite IH].
Qed.

(** The page of a positive limit and a page number that is not
    negative. *)
Lemma limitItems_window (A : Type) (limit page : Z) (l : list A) :
  0 < limit -> 0 <= page ->
  limitItems limit page l
  = firstn (Z.to_nat limit) (skipn (Z.to_nat page * Z.to_nat limit) l).
Proof.
  intros L P. unfold limitItems, slice.
  replace (limit =? 0) with false by (symmetry; apply Z.eqb_neq; lia).
  replace (page * limit <? 0) with false by (symmetry; apply Z.ltb_ge; nia).
  replace (page * limit + limit <? 0) with false by (symmetry; apply Z.ltb_ge; nia).
  set (len := Z.of_nat (List.length l)).
  replace (Z.to_nat page * Z.to_nat limit)%nat with (Z.to_nat (page * limit)) by nia.
  destruct (Z_le_gt_dec (page * limit) len) as [S | S].
  - replace (Z.min (page * limit) len) with (page * limit) by lia.
    destruct (Z_le_gt_dec (page * limit + limit) len) as [E | E].
    + replace (Z.min (page * limit + limit) len) with (page * limit + limit) by lia.
      f_equal. lia.
    + replace (Z.min (page * limit + limit) len) with len by lia.
      rewrite !firstn_all2; [reflexivity | |]; rewrite length_skipn; unfold len in *; lia.
  - rewrite !skipn_all2 by (unfold len in *; lia). now rewrite !firstn_nil.
Qed.

(** On integers a positive limit bounds the length of the page. *)
Lemma integer_page_length (A : Type) (limit page : Z) (l : list A) :
  0 < limit -> Z.of_nat (List.length (limitItems limit page l)) <= limit.
Proof.
  unfold limitItems. destruct (limit =? 0) eqn:L0.
  - apply Z.eqb_eq in L0. lia.
  - unfold slice. set (len := Z.of_nat (List.length l)).
    set (k := if page * limit <? 0 then Z.max (len + page * limit) 0
              else Z.min (page * limit) len).
    set (final := if page * limit + limit <? 0
                  then Z.max (len + (page * limit + limit)) 0
                  else Z.min (page * limit + limit) len).
    intros L. rewrite length_firstn.
    assert (final - k <= limit).
    { unfold final, k.
      destruct (page * limit <? 0) eqn:S; destruct (page * limit + limit <? 0) eqn:E;
        try apply Z.ltb_lt in S; try apply Z.ltb_ge in S;
        try apply Z.ltb_lt in E; try apply Z.ltb_ge in E; unfold len; nia. }
    lia.
Qed.

(** On integers the first [n] pages of a positive limit are the first
    [n * limit] items. *)
Lemma integer_pages_in_order (A : Type) (limit : Z) (n : nat) (l : list A) :
  0 < limit ->
  List.concat (map (fun page => limitItems limit (Z.of_nat page) l) (seq 0 n))
  = firstn (n * Z.to_nat limit) l.
Proof.
  intros L. induction n as [|n IH]; [reflexivity |].
  rewrite seq_S, map_app, concat_app, IH. cbn [map List.concat Nat.add].
  rewrite app_nil_r, limitItems_window by lia.
  rewrite Nat2Z.id.
  replace (S n * Z.to_nat limit)%nat with (n * Z.to_nat limit + Z.to_nat limit)%nat by lia.
  now rewrite firstn_plus.
Qed.

Lemma Z2Nat_nonpos (z : Z) : z <= 0 -> Z.to_nat z = 0%nat.
Proof. lia. Qed.

(** On integers a negative limit drops the tail on page 0 and selects
    nothing on the other pages. *)
Lemma integer_negative_limit (A : Type) (limit page : Z) (l : list A) :
  limit < 0 ->
  (page = 0 ->
   limitItems limit page l = firstn (Z.to_nat (Z.of_nat (List.length l) + limit)) l)
  /\ (page <> 0 -> limitItems limit page l = []).
Proof.
  intros L. unfold limitItems, slice.
  replace (limit =? 0) with false by (symmetry; apply Z.eqb_neq; lia).
  set (len := Z.of_nat (List.length l)).
  assert (Hlen : 0 <= len) by (unfold len; lia).
  split.
  - intros ->. cbn [Z.mul Z.add Z.ltb Z.compare].
    replace (limit <? 0) with true by (symmetry; apply Z.ltb_lt; lia).
    replace (Z.min 0 len) with 0 by lia. cbn [Z.to_nat skipn].
    f_equal. lia.
  - intros P.
    replace (Z.to_nat _) with 0%nat; [reflexivity |].
    symmetry. apply Z2Nat_nonpos. clearbody len.
    destruct (page * limit <? 0) eqn:S; destruct (page * limit + limit <? 0) eqn:E;
      try apply Z.ltb_lt in S; try apply Z.ltb_ge in S;
      try apply Z.ltb_lt in E; try apply Z.ltb_ge in E; nia.
Qed.

(** A page is a run of consecutive items of the list, whatever the
    Numbers [limit] and [page] are.  For a positive integer limit and an
    integer page, in the exact range, it holds at most [limit] items; a
    limit that is not an integer can return one item more. *)
Theorem page_is_a_run (A : Type) (limit page : Num.number) (l : list A) :
  (exists before after, l = before ++ NumberPaging.limitItems limit page l ++ after)
  /\ (forall n p : Z,
        limit = Num.of_Z n -> page = Num.of_Z p ->
        0 < n -> Z.abs (p * n) + Z.abs n < 2 ^ 53 ->
        Z.of_nat (List.length (NumberPaging.limitItems limit page l)) <= n)
  /\ List.length (NumberPaging.limitItems (Query.limit (Some "2.5"%string))
                                          (Query.page (Some "1"%string)) (seq 0 25))
     = 3%nat.
Proof.
  split; [apply NumberPagingFacts.number_page_run |]. split.
  - intros n p -> -> N B. rewrite NumberPagingFacts.limitItems_of_Z by exact B.
    now apply integer_page_length.
  - vm_compute. reflexivity.
Qed.

Lemma page_is_a_run_witness :
  Z.of_nat (List.length (NumberPaging.limitItems (Num.of_Z 10) (Num.of_Z (-2)) (seq 0 25)))
  <= 10.
Proof.
  apply (proj1 (proj2 (page_is_a_run nat (Num.of_Z 10) (Num.of_Z (-2)) (seq 0 25)))
               10 (-2) eq_refl eq_refl); [lia | simpl; lia].
Defined.

(** The pages of a positive integer limit, read in order, list every
    item once and in order: the first [n] pages are the first
    [n * limit] items, as long as [n * limit] is below [2^53]. *)
Theorem pages_in_order (A : Type) (limit : Z) (n : nat) (l : list A) :
  0 < limit -> Z.of_nat n * limit < 2 ^ 53 ->
  let pages :=
    List.concat
      (map (fun page => NumberPaging.limitItems (Num.of_Z limit)
                                                (Num.of_Z (Z.of_nat page)) l)
           (seq 0 n)) in
  pages = firstn (n * Z.to_nat limit) l
  /\ (Z.of_nat (List.length l) <= Z.of_nat n * limit -> pages = l).
Proof.
  intros L B pages.
  assert (G : pages = firstn (n * Z.to_nat limit) l).
  { unfold pages. rewrite <- (integer_pages_in_order A limit n l L).
    f_equal. apply map_ext_in. intros page I. apply in_seq in I.
    apply NumberPagingFacts.limitItems_of_Z. nia. }
  split; [exact G |].
  intros C. rewrite G. apply firstn_all2. nia.
Qed.

Lemma pages_in_order_witness :
  List.concat (map (fun page => NumberPaging.limitItems (Num.of_Z 10)
                                                        (Num.of_Z (Z.of_nat page))
                                                        (seq 0 25)) (seq 0 3))
  = seq 0 25.
Proof.
  apply (proj2 (pages_in_order nat 10 3 (seq 0 25) eq_refl eq_refl)). simpl. lia.
Defined.

(** A negative integer limit does not select the items before the page:
    on page 0 it drops the last [- limit] items and returns the others;
    on any other integer page, negative ones too, it returns nothing.  A
    page that is not an integer can return items: [limit=-1] and
    [page=0.5] over 5 items returns the first 4. *)
Theorem negative_limit_drops_the_tail (A : Type) (limit page : Z) (l : list A) :
  limit < 0 -> Z.abs (page * limit) + Z.abs limit < 2 ^ 53 ->
  (page = 0 ->
   NumberPaging.limitItems (Num.of_Z limit) (Num.of_Z page) l
   = firstn (Z.to_nat (Z.of_nat (List.length l) + limit)) l)
  /\ (page <> 0 -> NumberPaging.limitItems (Num.of_Z limit) (Num.of_Z page) l = [])
  /\ NumberPaging.limitItems (Query.limit (Some "-1"%string))
                             (Query.page (Some "0.5"%string)) (seq 0 5)
     = [0; 1; 2; 3]%nat.
Proof.
  intros L B. rewrite NumberPagingFacts.limitItems_of_Z by exact B.
  destruct (integer_negative_limit A limit page l L) as [Z0 N0].
  split; [exact Z0 |]. split; [exact N0 | vm_compute; reflexivity].
Qed.

Lemma negative_limit_drops_the_tail_witness :
  NumberPaging.limitItems (Num.of_Z (-1)) (Num.of_Z 0) (seq 0 5) = seq 0 4
  /\ NumberPaging.limitItems (Num.of_Z (-1)) (Num.of_Z 3) (seq 0 5) = [].
Proof.
  destruct (negative_limit_drops_the_tail nat (-1) 0 (seq 0 5)) as (A & _ & _);
    [lia | simpl; lia |].
  destruct (negative_limit_drops_the_tail nat (-1) 3 (seq 0 5)) as (_ & B & _);
    [lia | simpl; lia |].
  split; [exact (A eq_refl) | apply B; discriminate].
Defined.

End PageFacts.

(* ================================================================= *)
(** ** [getSeriesForLibrary] *)

Module SeriesViewFacts.

Import JS SeriesView.

Local Open Scope list_scope.

Lemma filter_length_all (A : Type) (f : A -> bool) (l : list A) :
  (List.length l <= List.length (filter f l))%nat <-> forallb f l = true.
Proof.
  induction l as [|x l IH]; simpl; [split; auto |].
  pose proof (filter_length_le f l) as B.
  destruct (f x); simpl.
  - rewrite <- IH. lia.
  - split; [lia | discriminate].
Qed.

Lemma filter_filter (A : Type) (f g : A -> bool) (l : list A) :
  filter g (filter f l) = filter (fun x => f x && g x) l.
Proof.
  induction l as [|x l IH]; [reflexivity |].
  simpl. destruct (f x); simpl; [| exact IH].
  destruct (g x); now rewrite IH.
Qed.

Section Facts.

Context {Item SeriesJSON FeedJSON : Type}.

Variable E : @Env Item SeriesJSON FeedJSON.

(** The series is reported finished exactly when every accessible item
    of the series is finished by the user, hence also when the series has
    no accessible item; the finished ids are listed in the order of the
    ids of the series, of which they are a part. *)
Theorem series_finished_iff (req : @request Item) (j : @seriesJson SeriesJSON FeedJSON)
    (p : progress) :
  getSeriesForLibrary E req = Json j -> series_progress j = Some p ->
  (isFinished p = true
   <-> forall li, In li (libraryItems req) ->
                  inSeries E (seriesId req) li = true -> finished E li = true)
  /\ (libraryItemIds p = [] -> isFinished p = true)
  /\ libraryItemIds p
     = map (item_id E) (filter (inSeries E (seriesId req)) (libraryItems req))
  /\ libraryItemIdsFinished p
     = map (item_id E)
           (filter (fun li => inSeries E (seriesId req) li && finished E li)
                   (libraryItems req)).
Proof.
  unfold getSeriesForLibrary.
  destruct (Search.find_entity _ _) as [se|] eqn:F; [| discriminate].
  assert (I : Search.id se = seriesId req).
  { unfold Search.find_entity in F. apply find_some in F as [_ F].
    now apply String.eqb_eq in F. }
  rewrite I. intros [= <-]. cbn [series_progress].
  destruct (Query.includes "progress" _); [| discriminate].
  intros [= <-]. cbn [isFinished libraryItemIds libraryItemIdsFinished].
  set (inS := filter (inSeries E (seriesId req)) (libraryItems req)).
  assert (A : (List.length inS <=? List.length (filter (finished E) inS))%nat = true
              <-> forall li, In li (libraryItems req) ->
                             inSeries E (seriesId req) li = true -> finished E li = true).
  { rewrite Nat.leb_le, filter_length_all, forallb_forall. unfold inS.
    split.
    - intros H li L S. apply H. apply filter_In. auto.
    - intros H li L. apply filter_In in L as [L S]. auto. }
  split; [exact A |]. split; [| split].
  - intros N. apply map_eq_nil in N. rewrite N. reflexivity.
  - reflexivity.
  - unfold inS. now rewrite filter_filter.
Qed.

End Facts.

(** Of the two accessible books of the series one is finished. *)
Lemma series_finished_iff_witness :
  exists j p,
    getSeriesForLibrary MoreSamples.seriesEnv MoreSamples.seriesRequest = Json j
    /\ series_progress j = Some p
    /\ libraryItemIds p = ["b1"; "b3"]%string
    /\ libraryItemIdsFinished p = ["b1"]%string.
Proof.
  eexists. eexists. split; [reflexivity |]. split; [reflexivity |].
  destruct (series_finished_iff MoreSamples.seriesEnv MoreSamples.seriesRequest
              _ _ eq_refl eq_refl) as (_ & _ & A & B).
  split; [exact A | exact B].
Defined.

End SeriesViewFacts.

(* ================================================================= *)
(** ** Narrator ids *)

Module NarratorIdFacts.

Import JS People.

Local Open Scope list_scope.

(** *** UTF-8 *)

Lemma div_64 (n : N) :
  exists q r, (n / 64 = q /\ n mod 64 = r /\ n = 64 * q + r /\ r < 64)%N.
Proof.
  exists (n / 64)%N, (n mod 64)%N. split; [reflexivity |]. split; [reflexivity |].
  split; [apply N.div_mod; discriminate | apply N.mod_upper_bound; discriminate].
Qed.

(** The digits of a code point in base 64. *)
Lemma base_64 (cp : N) :
  exists q1 r1 q2 r2 q3 r3,
    (cp / 64 = q1 /\ cp mod 64 = r1 /\ cp / 4096 = q2 /\ cp / 64 mod 64 = r2
     /\ cp / 262144 = q3 /\ cp / 4096 mod 64 = r3
     /\ cp = 64 * q1 + r1 /\ r1 < 64 /\ q1 = 64 * q2 + r2 /\ r2 < 64
     /\ q2 = 64 * q3 + r3 /\ r3 < 64)%N.
Proof.
  destruct (div_64 cp) as (q1 & r1 & Q1 & M1 & E1 & R1).
  destruct (div_64 q1) as (q2 & r2 & Q2 & M2 & E2 & R2).
  destruct (div_64 q2) as (q3 & r3 & Q3 & M3 & E3 & R3).
  exists q1, r1, q2, r2, q3, r3.
  assert (D2 : (cp / 4096 = q2)%N)
    by (change 4096%N with (64 * 64)%N; now rewrite <- N.Div0.div_div, Q1).
  assert (D3 : (cp / 262144 = q3)%N)
    by (change 262144%N with (4096 * 64)%N; now rewrite <- N.Div0.div_div, D2).
  rewrite D2, D3, Q1. repeat split; assumption.
Qed.

Lemma utf8_point_decode (cp : N) (rest : list N) :
  (cp < 2097152)%N ->
  utf8_decode (utf8_point cp ++ rest) = cp :: utf8_decode rest.
Proof.
  intros B. unfold utf8_point.
  destruct (base_64 cp)
    as (q1 & r1 & q2 & r2 & q3 & r3 & -> & -> & -> & -> & -> & ->
        & E1 & R1 & E2 & R2 & E3 & R3).
  destruct (N.ltb_spec cp 128) as [C1 | C1].
  { cbn [app utf8_decode]. destruct (N.ltb_spec cp 128); [reflexivity | lia]. }
  destruct (N.ltb_spec cp 2048) as [C2 | C2].
  { cbn [app utf8_decode].
    destruct (N.ltb_spec (192 + q1) 128); [lia |].
    destruct (N.ltb_spec (192 + q1) 224); [| lia].
    f_equal. lia. }
  destruct (N.ltb_spec cp 65536) as [C3 | C3].
  { cbn [app utf8_decode].
    destruct (N.ltb_spec (224 + q2) 128); [lia |].
    destruct (N.ltb_spec (224 + q2) 224); [lia |].
    destruct (N.ltb_spec (224 + q2) 240); [| lia].
    f_equal. lia. }
  cbn [app utf8_decode].
  destruct (N.ltb_spec (240 + q3) 128); [lia |].
  destruct (N.ltb_spec (240 + q3) 224); [lia |].
  destruct (N.ltb_spec (240 + q3) 240); [lia |].
  f_equal. lia.
Qed.

Lemma utf8_round_trip (cps : list N) :
  Forall (fun cp => (cp < 2097152)%N) cps ->
  utf8_decode (flat_map utf8_point cps) = cps.
Proof.
  induction 1 as [|cp cps B _ IH]; [reflexivity |].
  cbn [flat_map]. now rewrite utf8_point_decode, IH.
Qed.

Lemma utf8_point_bytes (cp : N) :
  (cp < 2097152)%N -> Forall (fun b => (b < 256)%N) (utf8_point cp).
Proof.
  intros B. unfold utf8_point.
  destruct (base_64 cp)
    as (q1 & r1 & q2 & r2 & q3 & r3 & -> & -> & -> & -> & -> & ->
        & E1 & R1 & E2 & R2 & E3 & R3).
  destruct (N.ltb_spec cp 128); [repeat constructor; lia |].
  destruct (N.ltb_spec cp 2048); [repeat constructor; lia |].
  destruct (N.ltb_spec cp 65536); repeat constructor; lia.
Qed.

(** *** UTF-16 *)

Lemma surrogate_range (u : N) :
  (high_surrogate u = true <-> (55296 <= u < 56320)%N)
  /\ (low_surrogate u = true <-> (56320 <= u < 57344)%N).
Proof.
  unfold high_surrogate, low_surrogate. rewrite !andb_true_iff, !N.leb_le, !N.ltb_lt.
  tauto.
Qed.

Lemma code_points_range (n : nat) :
  forall s, (List.length s <= n)%nat -> is_string s ->
            Forall (fun cp => (cp < 2097152)%N) (code_points s).
Proof.
  induction n as [|n IH]; intros s L F.
  - destruct s; [constructor | cbn [List.length] in *; lia].
  - destruct s as [|h r]; [constructor |].
    inversion F as [|? ? Hh Fr]; subst. cbn [code_points].
    destruct (high_surrogate h) eqn:H.
    + apply surrogate_range in H.
      destruct r as [|l r']; [repeat constructor |].
      inversion Fr as [|? ? Hl Fr']; subst.
      destruct (low_surrogate l) eqn:Lo.
      * apply surrogate_range in Lo. constructor; [lia |].
        apply IH; [cbn [List.length] in *; lia | exact Fr'].
      * constructor; [lia |]. apply IH; [cbn [List.length] in *; lia | exact Fr].
    + destruct (low_surrogate h); (constructor; [lia |]);
        (apply IH; [cbn [List.length] in *; lia | exact Fr]).
Qed.

Lemma Buffer_from_bytes (s : list N) :
  is_string s -> Forall (fun b => (b < 256)%N) (Buffer_from s).
Proof.
  intros F. unfold Buffer_from.
  pose proof (code_points_range (List.length s) s (le_n _) F) as R.
  induction R as [|cp cps B _ IH]; [constructor |].
  cbn [flat_map]. apply Forall_app. split; [now apply utf8_point_bytes | exact IH].
Qed.

Lemma utf16_round_trip (n : nat) :
  forall s, (List.length s <= n)%nat -> well_formed s = true ->
            flat_map utf16_point (code_points s) = s.
Proof.
  induction n as [|n IH]; intros s L W.
  - destruct s; [reflexivity | cbn [List.length] in *; lia].
  - destruct s as [|h r]; [reflexivity |].
    cbn [code_points well_formed] in *.
    destruct (high_surrogate h) eqn:H.
    + apply surrogate_range in H.
      destruct r as [|l r']; [discriminate |].
      apply andb_true_iff in W as [Lo W]. rewrite Lo.
      apply surrogate_range in Lo.
      cbn [flat_map]. rewrite IH by (cbn [List.length] in *; lia || exact W).
      unfold utf16_point.
      destruct (N.ltb_spec (65536 + (h - 55296) * 1024 + (l - 56320)) 65536); [lia |].
      replace (65536 + (h - 55296) * 1024 + (l - 56320) - 65536)%N
        with ((l - 56320) + (h - 55296) * 1024)%N by lia.
      rewrite N.div_add, N.Div0.mod_add by discriminate.
      rewrite N.div_small, N.mod_small by lia.
      cbn [app]. f_equal; [lia |]. f_equal. lia.
    + apply andb_true_iff in W as [W1 W]. apply andb_true_iff in W1 as [Lo B].
      apply negb_true_iff in Lo. rewrite Lo. apply N.ltb_lt in B.
      cbn [flat_map]. rewrite IH by (cbn [List.length] in *; lia || exact W).
      unfold utf16_point. destruct (N.ltb_spec h 65536); [reflexivity | lia].
Qed.

Lemma well_formed_string (n : nat) :
  forall s, (List.length s <= n)%nat -> well_formed s = true -> is_string s.
Proof.
  induction n as [|n IH]; intros s L W.
  - destruct s; [constructor | cbn [List.length] in *; lia].
  - destruct s as [|h r]; [constructor |]. cbn [well_formed] in W.
    destruct (high_surrogate h) eqn:H.
    + apply surrogate_range in H. destruct r as [|l r']; [discriminate |].
      apply andb_true_iff in W as [Lo W]. apply surrogate_range in Lo.
      constructor; [lia |]. constructor; [lia |].
      apply IH; [cbn [List.length] in *; lia | exact W].
    + apply andb_true_iff in W as [W1 W]. apply andb_true_iff in W1 as [_ B].
      apply N.ltb_lt in B. constructor; [exact B |].
      apply IH; [cbn [List.length] in *; lia | exact W].
Qed.

(** *** Base64 *)

Lemma below_64 (v : N) : (v < 64)%N -> In v (map N.of_nat (seq 0 64)).
Proof.
  intros H. apply in_map_iff. exists (N.to_nat v). split; [apply N2Nat.id |].
  apply in_seq. lia.
Qed.

Lemma base64_digit_value (v : N) :
  (v < 64)%N ->
  base64_value (base64_digit v) = v /\ Ascii.eqb (base64_digit v) "=" = false.
Proof.
  intros H.
  assert (A : forallb (fun v => N.eqb (base64_value (base64_digit v)) v
                                && negb (Ascii.eqb (base64_digit v) "="))
                      (map N.of_nat (seq 0 64)) = true) by (vm_compute; reflexivity).
  rewrite forallb_forall in A. specialize (A v (below_64 v H)).
  apply andb_true_iff in A as [A B]. apply N.eqb_eq in A.
  split; [exact A |]. now destruct (Ascii.eqb (base64_digit v) "=").
Qed.

Lemma base64_round_trip (n : nat) :
  forall bytes fuel,
    (List.length bytes <= n)%nat -> (List.length bytes <= fuel)%nat ->
    Forall (fun b => (b < 256)%N) bytes ->
    base64_decode fuel (base64 bytes) = bytes.
Proof.
  induction n as [|n IH]; intros bytes fuel L Fu F.
  - destruct bytes; [now destruct fuel | simpl in L; lia].
  - destruct bytes as [|a [|b [|c rest]]]; [now destruct fuel | | |];
      (destruct fuel as [|fuel]; [simpl in Fu; lia |]).
    + inversion F as [|? ? A _]; subst.
      cbn [base64 base64_decode].
      destruct (base64_digit_value (a / 4)) as [V1 _];
        [apply N.Div0.div_lt_upper_bound; lia |].
      destruct (base64_digit_value (a mod 4 * 16)) as [V2 _];
        [pose proof (N.mod_upper_bound a 4); lia |].
      rewrite V1, V2. cbn [Ascii.eqb Bool.eqb]. f_equal.
      rewrite N.div_mul by lia. pose proof (N.div_mod a 4). lia.
    + inversion F as [|? ? A F1]; subst. inversion F1 as [|? ? B _]; subst.
      cbn [base64 base64_decode].
      pose proof (N.mod_upper_bound a 4). pose proof (N.mod_upper_bound b 16).
      assert (b / 16 < 16)%N by (apply N.Div0.div_lt_upper_bound; lia).
      destruct (base64_digit_value (a / 4)) as [V1 _];
        [apply N.Div0.div_lt_upper_bound; lia |].
      destruct (base64_digit_value (a mod 4 * 16 + b / 16)) as [V2 _]; [lia |].
      destruct (base64_digit_value (b mod 16 * 4)) as [V3 E3]; [lia |].
      rewrite V1, V2, V3, E3. cbn [Ascii.eqb Bool.eqb].
      assert (Q2 : ((a mod 4 * 16 + b / 16) / 16 = a mod 4)%N).
      { rewrite N.div_add_l by lia.
        rewrite (N.div_small (b / 16)) by lia. lia. }
      assert (R2 : ((a mod 4 * 16 + b / 16) mod 16 = b / 16)%N).
      { rewrite N.add_comm, N.Div0.mod_add. apply N.mod_small. lia. }
      rewrite Q2, R2, N.div_mul by lia.
      pose proof (N.div_mod a 4). pose proof (N.div_mod b 16).
      f_equal; [lia |]. f_equal. lia.
    + inversion F as [|? ? A F1]; subst. inversion F1 as [|? ? B F2]; subst.
      inversion F2 as [|? ? C F3]; subst.
      cbn [base64 base64_decode].
      pose proof (N.mod_upper_bound a 4). pose proof (N.mod_upper_bound b 16).
      pose proof (N.mod_upper_bound c 64).
      assert (b / 16 < 16)%N by (apply N.Div0.div_lt_upper_bound; lia).
      assert (c / 64 < 4)%N by (apply N.Div0.div_lt_upper_bound; lia).
      destruct (base64_digit_value (a / 4)) as [V1 _];
        [apply N.Div0.div_lt_upper_bound; lia |].
      destruct (base64_digit_value (a mod 4 * 16 + b / 16)) as [V2 _]; [lia |].
      destruct (base64_digit_value (b mod 16 * 4 + c / 64)) as [V3 E3]; [lia |].
      destruct (base64_digit_value (c mod 64)) as [V4 E4]; [lia |].
      rewrite V1, V2, V3, V4, E3, E4.
      assert (Q2 : ((a mod 4 * 16 + b / 16) / 16 = a mod 4)%N).
      { rewrite N.div_add_l by lia.
        rewrite (N.div_small (b / 16)) by lia. lia. }
      assert (R2 : ((a mod 4 * 16 + b / 16) mod 16 = b / 16)%N).
      { rewrite N.add_comm, N.Div0.mod_add. apply N.mod_small. lia. }
      assert (Q3 : ((b mod 16 * 4 + c / 64) / 4 = b mod 16)%N).
      { rewrite N.div_add_l by lia.
        rewrite (N.div_small (c / 64)) by lia. lia. }
      assert (R3 : ((b mod 16 * 4 + c / 64) mod 4 = c / 64)%N).
      { rewrite N.add_comm, N.Div0.mod_add. apply N.mod_small. lia. }
      rewrite Q2, R2, Q3, R3.
      pose proof (N.div_mod a 4). pose proof (N.div_mod b 16).
      pose proof (N.div_mod c 64).
      f_equal; [lia |]. f_equal; [lia |]. f_equal; [lia |].
      apply IH; [simpl in *; lia | simpl in *; lia | exact F3].
Qed.


Lemma base64_length (bytes : list N) :
  (List.length bytes <= String.length (base64 bytes))%nat.
Proof.
  assert (G : forall n bytes, (List.length bytes <= n)%nat ->
                              (List.length bytes <= String.length (base64 bytes))%nat).
  { clear bytes. induction n as [|n IH]; intros bytes L.
    - destruct bytes; simpl in *; lia.
    - destruct bytes as [|a [|b [|c rest]]]; cbn [base64 String.length List.length];
        try lia.
      assert (List.length rest <= String.length (base64 rest))%nat
        by (apply IH; simpl in L; lia).
      lia. }
  now apply (G (List.length bytes)).
Qed.

(** *** URI components *)

Lemma uri_unit (c : ascii) (fuel : nat) (r : string) :
  decodeURIComponent (S fuel) (encodeURIComponent (String c r))
  = String c (decodeURIComponent fuel (encodeURIComponent r)).
Proof. destruct c as [[] [] [] [] [] [] [] []]; reflexivity. Qed.

Lemma uri_round_trip (s : string) (fuel : nat) :
  (String.length s <= fuel)%nat ->
  decodeURIComponent fuel (encodeURIComponent s) = s.
Proof.
  revert fuel. induction s as [|c s IH]; intros fuel L.
  - destruct fuel; reflexivity.
  - destruct fuel as [|fuel]; [simpl in L; lia |].
    rewrite uri_unit, IH; [reflexivity | simpl in L; lia].
Qed.

Lemma length_app_s (a b : string) :
  String.length (a ++ b) = (String.length a + String.length b)%nat.
Proof. induction a as [|c a IH]; simpl; [reflexivity | now rewrite IH]. Qed.

Lemma uri_length (s : string) :
  (String.length s <= String.length (encodeURIComponent s))%nat.
Proof.
  induction s as [|c s IH]; [simpl; lia |].
  cbn [encodeURIComponent]. rewrite length_app_s. simpl String.length at 1.
  destruct c as [[] [] [] [] [] [] [] []]; simpl; lia.
Qed.

(** *** The characters of an id *)

Lemma all_chars_app (p : ascii -> bool) (a b : string) :
  all_chars p (a ++ b) = all_chars p a && all_chars p b.
Proof.
  induction a as [|c a IH]; [reflexivity |].
  simpl. now rewrite IH, andb_assoc.
Qed.

Lemma base64_digit_char (v : N) : (v < 64)%N -> base64_char (base64_digit v) = true.
Proof.
  intros H.
  assert (A : forallb (fun v => base64_char (base64_digit v))
                      (map N.of_nat (seq 0 64)) = true) by (vm_compute; reflexivity).
  rewrite forallb_forall in A. exact (A v (below_64 v H)).
Qed.

Lemma base64_chars (bytes : list N) :
  Forall (fun b => (b < 256)%N) bytes -> all_chars base64_char (base64 bytes) = true.
Proof.
  assert (G : forall n bytes, (List.length bytes <= n)%nat ->
                Forall (fun b => (b < 256)%N) bytes ->
                all_chars base64_char (base64 bytes) = true).
  { clear bytes. induction n as [|n IH]; intros bytes L F.
    - destruct bytes; [reflexivity | simpl in L; lia].
    - destruct bytes as [|a [|b [|c rest]]]; [reflexivity | | |].
      + inversion F as [|? ? A _]; subst.
        pose proof (N.mod_upper_bound a 4).
        cbn [base64 all_chars].
        rewrite !base64_digit_char; [reflexivity | lia |].
        apply N.Div0.div_lt_upper_bound; lia.
      + inversion F as [|? ? A F1]; subst. inversion F1 as [|? ? B _]; subst.
        pose proof (N.mod_upper_bound a 4). pose proof (N.mod_upper_bound b 16).
        assert (b / 16 < 16)%N by (apply N.Div0.div_lt_upper_bound; lia).
        cbn [base64 all_chars].
        rewrite !base64_digit_char; [reflexivity | lia | lia |].
        apply N.Div0.div_lt_upper_bound; lia.
      + inversion F as [|? ? A F1]; subst. inversion F1 as [|? ? B F2]; subst.
        inversion F2 as [|? ? C F3]; subst.
        pose proof (N.mod_upper_bound a 4). pose proof (N.mod_upper_bound b 16).
        pose proof (N.mod_upper_bound c 64).
        assert (b / 16 < 16)%N by (apply N.Div0.div_lt_upper_bound; lia).
        assert (c / 64 < 4)%N by (apply N.Div0.div_lt_upper_bound; lia).
        cbn [base64 all_chars].
        rewrite !base64_digit_char; [| lia | lia | lia |].
        * apply IH; [simpl in L; lia | exact F3].
        * apply N.Div0.div_lt_upper_bound; lia. }
  now apply (G (List.length bytes)).
Qed.

Lemma uri_unit_chars (c : ascii) (r : string) :
  base64_char c = true ->
  all_chars id_char (encodeURIComponent (String c r))
  = all_chars id_char (encodeURIComponent r).
Proof.
  destruct c as [[] [] [] [] [] [] [] []]; intros B; try discriminate B; reflexivity.
Qed.

Lemma uri_chars (s : string) :
  all_chars base64_char s = true -> all_chars id_char (encodeURIComponent s) = true.
Proof.
  induction s as [|c s IH]; [reflexivity |].
  cbn [all_chars]. intros H. apply andb_true_iff in H as [C H].
  rewrite uri_unit_chars by assumption. auto.
Qed.

(** The code points of the name can be read back from the id. *)
Lemma narratorName_of_id (n : list N) :
  is_string n -> narratorName (narratorId n) = code_points n.
Proof.
  intros F. unfold narratorName, narratorId.
  rewrite uri_round_trip by apply uri_length.
  rewrite (base64_round_trip (List.length (Buffer_from n)));
    [| lia | apply base64_length | now apply Buffer_from_bytes].
  apply utf8_round_trip. exact (code_points_range _ n (le_n _) F).
Qed.

(** Two names have one narrator id exactly when they have the same code
    points, a surrogate that is not part of a pair counting as U+FFFD.
    So an id names one narrator among the well-formed names, while names
    that differ in unpaired surrogates only share their id.  The id is
    made of letters, digits and percent signs only. *)
Theorem narratorId_names_one_narrator (n m : list N) :
  is_string n -> is_string m ->
  (narratorId n = narratorId m <-> code_points n = code_points m)
  /\ (well_formed n = true -> well_formed m = true ->
      narratorId n = narratorId m -> n = m)
  /\ all_chars id_char (narratorId n) = true.
Proof.
  intros Fn Fm.
  assert (G : narratorId n = narratorId m <-> code_points n = code_points m).
  { split.
    - intros H. rewrite <- (narratorName_of_id n Fn), <- (narratorName_of_id m Fm).
      now rewrite H.
    - intros H. unfold narratorId, Buffer_from. now rewrite H. }
  split; [exact G |]. split.
  - intros Wn Wm H. apply G in H.
    rewrite <- (utf16_round_trip _ n (le_n _) Wn), <- (utf16_round_trip _ m (le_n _) Wm).
    now rewrite H.
  - unfold narratorId. now apply uri_chars, base64_chars, Buffer_from_bytes.
Qed.

(** Two unpaired surrogates share the id of U+FFFD. *)
Lemma narratorId_names_one_narrator_witness :
  narratorId [55296%N] = narratorId [57343%N]
  /\ narratorId [55296%N] = "77%2B9"%string.
Proof.
  split; [| reflexivity].
  apply (proj1 (narratorId_names_one_narrator [55296%N] [57343%N]
                  ltac:(repeat constructor) ltac:(repeat constructor))).
  reflexivity.
Defined.

End NarratorIdFacts.

(* ================================================================= *)
(** ** [getAuthors] and [getNarrators] *)

Module PeopleFacts.

Import JS Dict DictFacts People.

Local Open Scope list_scope.

Lemma fold_left_flat_map (A B S : Type) (f : S -> B -> S) (g : A -> list B)
    (l : list A) (s : S) :
  fold_left (fun s a => fold_left f (g a) s) l s = fold_left f (flat_map g l) s.
Proof.
  revert s. induction l as [|a l IH]; intros s; [reflexivity |].
  simpl. now rewrite fold_left_app, IH.
Qed.

(** The aggregate of a narrator after a pass over a list of entries. *)
Lemma narrator_count (l : list value) (d : dict Narrator) (s : string) :
  inherited s = false ->
  JS.assoc s (fold_left addNarrator l d)
  = match JS.assoc s d with
    | Some m => Some {| n_id := n_id m; n_name := n_name m;
                        n_numBooks := n_numBooks m + occurrences_of s l |}
    | None => if occurrences_of s l =? 0 then None
              else Some {| n_id := narratorId (code_units s); n_name := s;
                           n_numBooks := occurrences_of s l |}
    end.
Proof.
  intros I. revert d. induction l as [|n l IH]; intros d.
  - simpl. unfold occurrences_of. simpl.
    destruct (JS.assoc s d) as [[x y z]|]; [| reflexivity].
    simpl. now rewrite Z.add_0_r.
  - cbn [fold_left]. rewrite IH. unfold occurrences_of. cbn [filter].
    destruct n as [| | | |t| | |];
      try (cbn [addNarrator]; reflexivity).
    destruct (String.eqb s t) eqn:N.
    + apply String.eqb_eq in N. subst t. unfold addNarrator, get.
      destruct (JS.assoc s d) as [m|] eqn:A.
      * rewrite SearchFacts.assoc_update, String.eqb_refl, A. simpl option_map. cbv iota.
        cbn [n_id n_name n_numBooks List.length]. f_equal. f_equal. lia.
      * rewrite I, SearchFacts.assoc_add, A, String.eqb_refl.
        cbn [n_id n_name n_numBooks List.length].
        destruct (Z.of_nat (S (List.length _)) =? 0) eqn:Z0;
          [apply Z.eqb_eq in Z0; lia |].
        f_equal. f_equal. lia.
    + assert (K : JS.assoc s (addNarrator d (VStr t)) = JS.assoc s d).
      { unfold addNarrator. destruct (get d t).
        - now rewrite SearchFacts.assoc_update, N.
        - reflexivity.
        - rewrite SearchFacts.assoc_add, N. now destruct (JS.assoc s d). }
      now rewrite K.
Qed.

Lemma nodup_snoc (A : Type) (l : list A) (x : A) :
  NoDup l -> ~ In x l -> NoDup (l ++ [x]).
Proof.
  induction 1 as [|y l Y N IH]; intros X; simpl.
  - repeat constructor. easy.
  - constructor.
    + rewrite in_app_iff. intros [H | [H | []]]; [now apply Y |].
      apply X. now left.
    + apply IH. intros H. apply X. now right.
Qed.

Lemma add_nodup (V : Type) (d : dict V) (k : string) (v : V) :
  NoDup (keys d) -> get d k = Absent -> NoDup (keys (add k v d)).
Proof.
  intros N G. rewrite keys_add. apply nodup_snoc; [exact N |].
  destruct (get_absent _ _ _ G) as [M _]. intros H.
  unfold mem in M. apply Bool.not_true_iff_false in M. apply M.
  apply existsb_exists. exists k. split; [exact H | apply String.eqb_refl].
Qed.

Lemma narrator_keys_nodup (l : list value) (d : dict Narrator) :
  NoDup (keys d) -> NoDup (keys (fold_left addNarrator l d)).
Proof.
  revert d. induction l as [|n l IH]; intros d N; [exact N |].
  cbn [fold_left]. apply IH.
  destruct n as [| | | |t| | |]; try exact N.
  unfold addNarrator. destruct (get d t) as [m| |] eqn:G.
  - now rewrite keys_update.
  - exact N.
  - now apply add_nodup.
Qed.

Section Facts.

Context {Item ItemJSON ItemExpanded SeriesJSON AuthorJSON : Type}.

Variable E : @Search.Env Item ItemJSON ItemExpanded SeriesJSON AuthorJSON.
Variable authorsOf : Item -> list string.
Variable narratorsOf : Item -> list value.
Variable collate : string -> string -> comparison.
Variable authorName : AuthorJSON -> string.

Lemma author_keys_nodup (l : list string) (d : dict (@Search.AuthorMatch AuthorJSON)) :
  NoDup (keys d) -> NoDup (keys (fold_left (Search.addAuthor E) l d)).
Proof.
  revert d. induction l as [|n l IH]; intros d N; [exact N |].
  cbn [fold_left]. apply IH.
  unfold Search.addAuthor. destruct (get d n) as [m| |] eqn:G.
  - now rewrite keys_update.
  - exact N.
  - destruct (Search.find_entity _ n); [now apply add_nodup | exact N].
Qed.

(** [getAuthors] lists every author once.  An author of the database
    whose id is not a name that [{}] inherits is listed when some item
    refers to it, with the number of references as [numBooks]; an id the
    database does not hold is not listed.  The response holds the entries
    of [authors], reordered. *)
Theorem authors_counted (items : list Item) :
  let authors := collectAuthors E authorsOf items in
  NoDup (keys authors)
  /\ (forall au a,
        Search.find_entity (Search.Database_authors E) au = Some a ->
        inherited au = false ->
        JS.assoc au authors
        = if occurrences au (flat_map authorsOf items) =? 0 then None
          else Some {| Search.am_author := Search.toJSON a;
                       Search.numBooks := occurrences au (flat_map authorsOf items) |})
  /\ (forall au,
        Search.find_entity (Search.Database_authors E) au = None ->
        JS.assoc au authors = None)
  /\ Permutation (getAuthors E authorsOf collate authorName items) (values authors).
Proof.
  intros authors. unfold authors, collectAuthors. rewrite fold_left_flat_map.
  split; [apply author_keys_nodup; constructor |]. split; [| split].
  - intros au a F I. exact (SearchFacts.author_count E _ [] au a F I).
  - intros au F.
    destruct (JS.assoc au _) as [m|] eqn:A; [exfalso | reflexivity].
    pose proof (assoc_mem _ au (fold_left (Search.addAuthor E) (flat_map authorsOf items) []))
      as M.
    rewrite A in M. clear A. rename M into A.
    rewrite (SearchFacts.addAuthor_keys E) in A. simpl in A.
    assert (In au (first_occurrences [] (filter (Search.resolvable (Search.Database_authors E))
                                         (flat_map authorsOf items)))) as H.
    { unfold mem in A. apply existsb_exists in A as (x & X & Q).
      apply String.eqb_eq in Q. now subst x. }
    clear A. revert H. generalize (@nil string).
    induction (flat_map authorsOf items) as [|n l IH]; intros seen H; [easy |].
    cbn [filter] in H. unfold Search.resolvable at 1 in H.
    destruct (String.eqb_spec n au) as [-> | N].
    + rewrite F in H. eauto.
    + destruct (Search.find_entity _ n); [| eauto].
      destruct (negb (inherited n)); [| eauto].
      cbn [first_occurrences] in H. destruct (existsb _ seen); [eauto |].
      destruct H as [H | H]; [congruence | eauto].
  - unfold getAuthors, collectAuthors. rewrite fold_left_flat_map.
    apply SortingFacts.sort_perm.
Qed.

(** [getNarrators] lists every narrator once.  A name that [{}] does
    not inherit is listed when it is met, with its id and with the number
    of times it is met as [numBooks]; entries that are not strings are
    not counted.  The response holds the entries of [narrators],
    reordered. *)
Theorem narrators_counted (items : list Item) :
  let narrators := collectNarrators narratorsOf items in
  NoDup (keys narrators)
  /\ (forall s,
        inherited s = false ->
        JS.assoc s narrators
        = if occurrences_of s (flat_map narratorsOf items) =? 0 then None
          else Some {| n_id := narratorId (code_units s); n_name := s;
                       n_numBooks := occurrences_of s (flat_map narratorsOf items) |})
  /\ Permutation (getNarrators narratorsOf collate items) (values narrators).
Proof.
  intros narrators. unfold narrators, collectNarrators. rewrite fold_left_flat_map.
  split; [apply narrator_keys_nodup; constructor |]. split.
  - intros s I. exact (narrator_count _ [] s I).
  - unfold getNarrators, collectNarrators. rewrite fold_left_flat_map.
    apply SortingFacts.sort_perm.
Qed.

End Facts.

(** Herbert is the author of two of the three sample books. *)
Lemma authors_counted_witness :
  JS.assoc "aut_7f3a"
           (collectAuthors MoreSamples.libraryEnv MoreSamples.authorsOf SearchSamples.aba)
  = Some {| Search.am_author := "Frank Herbert"%string; Search.numBooks := 2 |}.
Proof.
  exact (proj1 (proj2 (authors_counted MoreSamples.libraryEnv MoreSamples.authorsOf
                         Sorting.reference_collate (fun name => name) SearchSamples.aba))
               "aut_7f3a"%string SearchSamples.herbert eq_refl eq_refl).
Defined.

(** Scott Brick narrates two of the three sample books; the entry that
    is not a string is not counted. *)
Lemma narrators_counted_witness :
  JS.assoc "Scott Brick" (collectNarrators MoreSamples.narratorsOf MoreSamples.chronicles)
  = Some {| n_id := "U2NvdHQgQnJpY2s%3D"; n_name := "Scott Brick"; n_numBooks := 2 |}.
Proof.
  exact (proj1 (proj2 (narrators_counted MoreSamples.narratorsOf
                         Sorting.reference_collate MoreSamples.chronicles))
               "Scott Brick"%string eq_refl).
Defined.

End PeopleFacts.

(* ================================================================= *)
(** ** The books of a facet of [search] *)

Module FacetFacts.

Import JS Dict DictFacts Search Facets.

Local Open Scope list_scope.

Section Facts.

Context {Item ItemJSON ItemExpanded SeriesJSON AuthorJSON : Type}.

Variable E : @Env Item ItemJSON ItemExpanded SeriesJSON AuthorJSON.

(** The aggregate of a name after the references of one item. *)
Lemma addNamed_books (li : Item) (l : list string) (d d' : dict (@NamedMatch ItemJSON))
    (k : string) :
  inherited k = false ->
  foldM (addNamed E li) l d = Ok d' ->
  JS.assoc k d'
  = match JS.assoc k d, repeat (itemJSON E li) (List.length (filter (String.eqb k) l)) with
    | Some m, bs => Some {| name := name m; books := books m ++ bs |}
    | None, bs => aggregate bs {| name := k; books := bs |}
    end.
Proof.
  intros I. revert d. induction l as [|n l IH]; intros d H; simpl in H.
  - injection H as <-. simpl.
    destruct (JS.assoc k d) as [[x y]|]; [| reflexivity]. simpl. now rewrite app_nil_r.
  - unfold addNamed in H at 1.
    destruct (get d n) as [m| |] eqn:G; simpl in H; [| discriminate |];
      rewrite (IH _ H); cbn [filter]; unfold get in G.
    + rewrite SearchFacts.assoc_update.
      destruct (String.eqb k n) eqn:N.
      * apply String.eqb_eq in N. subst n.
        destruct (JS.assoc k d) as [m'|]; [| destruct (inherited k); discriminate].
        cbn [option_map name books List.length repeat].
        now rewrite <- app_assoc.
      * reflexivity.
    + destruct (JS.assoc n d) eqn:A; [discriminate |].
      rewrite SearchFacts.assoc_add.
      destruct (String.eqb k n) eqn:N.
      * apply String.eqb_eq in N. subst n. rewrite A.
        cbn [name books List.length repeat app]. reflexivity.
      * destruct (JS.assoc k d); reflexivity.
Qed.


(** The aggregate of a series of the database after the references of
    one item. *)
Lemma addSeries_books (li : Item) (l : list string)
    (d d' : dict (@SeriesMatch ItemJSON SeriesJSON)) (k : string)
    (se : entity SeriesJSON) :
  inherited k = false -> find_entity (Database_series E) k = Some se ->
  foldM (addSeries E li) l d = Ok d' ->
  JS.assoc k d'
  = match JS.assoc k d, repeat (itemJSON E li) (List.length (filter (String.eqb k) l)) with
    | Some m, bs => Some {| sm_series := sm_series m; sm_books := sm_books m ++ bs |}
    | None, bs => aggregate bs {| sm_series := toJSON se; sm_books := bs |}
    end.
Proof.
  intros I F. revert d. induction l as [|n l IH]; intros d H; simpl in H.
  - injection H as <-. simpl.
    destruct (JS.assoc k d) as [[x y]|]; [| reflexivity]. simpl. now rewrite app_nil_r.
  - unfold addSeries in H at 1.
    destruct (get d n) as [m| |] eqn:G; simpl in H; [| discriminate |];
      cbn [filter]; unfold get in G.
    + rewrite (IH _ H). rewrite SearchFacts.assoc_update.
      destruct (String.eqb k n) eqn:N.
      * apply String.eqb_eq in N. subst n.
        destruct (JS.assoc k d) as [m'|]; [| destruct (inherited k); discriminate].
        cbn [option_map sm_series sm_books List.length repeat].
        now rewrite <- app_assoc.
      * reflexivity.
    + destruct (JS.assoc n d) eqn:A; [discriminate |].
      destruct (String.eqb k n) eqn:N.
      * apply String.eqb_eq in N. subst n. rewrite F in H.
        rewrite (IH _ H), SearchFacts.assoc_add, A, String.eqb_refl.
        cbn [sm_series sm_books List.length repeat app]. reflexivity.
      * destruct (find_entity (Database_series E) n); rewrite (IH _ H);
          [| reflexivity].
        rewrite SearchFacts.assoc_add, N. now destruct (JS.assoc k d).
Qed.

(** A series the database does not hold gets no aggregate. *)
Lemma addSeries_unknown (li : Item) (l : list string)
    (d d' : dict (@SeriesMatch ItemJSON SeriesJSON)) (k : string) :
  find_entity (Database_series E) k = None ->
  foldM (addSeries E li) l d = Ok d' ->
  JS.assoc k d = None -> JS.assoc k d' = None.
Proof.
  intros F. revert d. induction l as [|n l IH]; intros d H A; simpl in H.
  - now injection H as <-.
  - unfold addSeries in H at 1.
    destruct (get d n) as [m| |] eqn:G; simpl in H; [| discriminate |].
    + apply (IH _ H). rewrite SearchFacts.assoc_update, A. now destruct (String.eqb k n).
    + destruct (find_entity (Database_series E) n) eqn:Fn; [| now apply (IH _ H)].
      apply (IH _ H). rewrite SearchFacts.assoc_add, A.
      destruct (String.eqb_spec k n) as [-> | N]; [congruence | reflexivity].
Qed.

Lemma scanItem_ok (query : string) (li : Item)
    (m m' : @matches ItemJSON ItemExpanded SeriesJSON AuthorJSON) :
  scanItem E query m li = Ok m' ->
  foldM (addSeries E li) (series (searchQuery E li query)) (seriesMatches m)
  = Ok (seriesMatches m')
  /\ foldM (addNamed E li) (tags (searchQuery E li query)) (tagMatches m)
     = Ok (tagMatches m')
  /\ foldM (addNamed E li) (narrators (searchQuery E li query)) (narratorMatches m)
     = Ok (narratorMatches m').
Proof.
  unfold scanItem. intros S.
  destruct (foldM (addSeries E li) _ _) as [sers|]; simpl in S; [| discriminate].
  destruct (foldM (addNamed E li) (tags _) _) as [tgs|]; simpl in S; [| discriminate].
  destruct (foldM (addNamed E li) (narrators _) _) as [nars|]; simpl in S; [| discriminate].
  injection S as <-. auto.
Qed.

Lemma named_step (k : string) (a : option (@NamedMatch ItemJSON)) (b1 b2 : list ItemJSON) :
  match match a, b1 with
        | Some m, bs => Some {| name := name m; books := books m ++ bs |}
        | None, bs => aggregate bs {| name := k; books := bs |}
        end, b2 with
  | Some m, bs => Some {| name := name m; books := books m ++ bs |}
  | None, bs => aggregate bs {| name := k; books := bs |}
  end
  = match a, b1 ++ b2 with
    | Some m, bs => Some {| name := name m; books := books m ++ bs |}
    | None, bs => aggregate bs {| name := k; books := bs |}
    end.
Proof.
  destruct a as [m|]; simpl; [now rewrite <- app_assoc |].
  destruct b1; reflexivity.
Qed.

Lemma series_step (j : SeriesJSON) (a : option (@SeriesMatch ItemJSON SeriesJSON))
    (b1 b2 : list ItemJSON) :
  match match a, b1 with
        | Some m, bs => Some {| sm_series := sm_series m; sm_books := sm_books m ++ bs |}
        | None, bs => aggregate bs {| sm_series := j; sm_books := bs |}
        end, b2 with
  | Some m, bs => Some {| sm_series := sm_series m; sm_books := sm_books m ++ bs |}
  | None, bs => aggregate bs {| sm_series := j; sm_books := bs |}
  end
  = match a, b1 ++ b2 with
    | Some m, bs => Some {| sm_series := sm_series m; sm_books := sm_books m ++ bs |}
    | None, bs => aggregate bs {| sm_series := j; sm_books := bs |}
    end.
Proof.
  destruct a as [m|]; simpl; [now rewrite <- app_assoc |].
  destruct b1; reflexivity.
Qed.

Lemma scan_books (query : string) (items seen : list Item)
    (m m' : @matches ItemJSON ItemExpanded SeriesJSON AuthorJSON) (k : string) :
  inherited k = false ->
  scan E query m items = (seen, Ok m') ->
  JS.assoc k (tagMatches m')
  = match JS.assoc k (tagMatches m), books_of E tags query k items with
    | Some x, bs => Some {| name := name x; books := books x ++ bs |}
    | None, bs => aggregate bs {| name := k; books := bs |}
    end
  /\ JS.assoc k (narratorMatches m')
     = match JS.assoc k (narratorMatches m), books_of E narrators query k items with
       | Some x, bs => Some {| name := name x; books := books x ++ bs |}
       | None, bs => aggregate bs {| name := k; books := bs |}
       end
  /\ (forall se, find_entity (Database_series E) k = Some se ->
      JS.assoc k (seriesMatches m')
      = match JS.assoc k (seriesMatches m), books_of E series query k items with
        | Some x, bs => Some {| sm_series := sm_series x; sm_books := sm_books x ++ bs |}
        | None, bs => aggregate bs {| sm_series := toJSON se; sm_books := bs |}
        end).
Proof.
  intros I. revert seen m. induction items as [|li items IH]; intros seen m H; simpl in H.
  - injection H as <- <-. unfold books_of. simpl.
    repeat split; intros; destruct (JS.assoc k _) as [[x y]|]; simpl;
      now rewrite ?app_nil_r.
  - destruct (scanItem E query m li) as [m1|] eqn:S; [| discriminate].
    destruct (scan E query m1 items) as [seen1 r1] eqn:Sc.
    injection H as <- ->.
    destruct (IH _ _ Sc) as (T & N & Se).
    destruct (scanItem_ok _ _ _ _ S) as (Fs & Ft & Fn).
    unfold books_of in *. cbn [flat_map].
    split; [| split].
    + rewrite T, (addNamed_books _ _ _ _ k I Ft). apply named_step.
    + rewrite N, (addNamed_books _ _ _ _ k I Fn). apply named_step.
    + intros se F. rewrite (Se se F), (addSeries_books _ _ _ _ k se I F Fs).
      apply series_step.
Qed.

(** The tag and narrator facets of a completed scan: a name that [{}]
    does not inherit has an entry when some item refers to it; the entry
    carries the name and the JSON of the referring items in scan order,
    an item once for each time it lists the name. *)
Theorem named_facet_books (query : string) (items seen : list Item)
    (m : @matches ItemJSON ItemExpanded SeriesJSON AuthorJSON) (k : string) :
  inherited k = false ->
  scan E query no_matches items = (seen, Ok m) ->
  JS.assoc k (tagMatches m)
  = aggregate (books_of E tags query k items)
              {| name := k; books := books_of E tags query k items |}
  /\ JS.assoc k (narratorMatches m)
     = aggregate (books_of E narrators query k items)
                 {| name := k; books := books_of E narrators query k items |}.
Proof.
  intros I S. destruct (scan_books _ _ _ _ _ k I S) as (T & N & _).
  now rewrite T, N.
Qed.

Lemma scan_series_unknown (query : string) (items seen : list Item)
    (m m' : @matches ItemJSON ItemExpanded SeriesJSON AuthorJSON) (k : string) :
  find_entity (Database_series E) k = None ->
  scan E query m items = (seen, Ok m') ->
  JS.assoc k (seriesMatches m) = None -> JS.assoc k (seriesMatches m') = None.
Proof.
  intros F. revert seen m. induction items as [|li items IH]; intros seen m H A; simpl in H.
  - now injection H as <- <-.
  - destruct (scanItem E query m li) as [m1|] eqn:S; [| discriminate].
    destruct (scan E query m1 items) as [seen1 r1] eqn:Sc.
    injection H as <- ->.
    destruct (scanItem_ok _ _ _ _ S) as (Fs & _).
    apply (IH _ _ Sc). now apply (addSeries_unknown _ _ _ _ k F Fs).
Qed.

(** The series facet of a completed scan: a series of the database has
    an entry when some item refers to it, with the JSON of the series and
    of the referring items in scan order; a series id the database does
    not hold has none. *)
Theorem series_facet_books (query : string) (items seen : list Item)
    (m : @matches ItemJSON ItemExpanded SeriesJSON AuthorJSON) (k : string) :
  scan E query no_matches items = (seen, Ok m) ->
  (forall se, inherited k = false -> find_entity (Database_series E) k = Some se ->
     JS.assoc k (seriesMatches m)
     = aggregate (books_of E series query k items)
                 {| sm_series := toJSON se;
                    sm_books := books_of E series query k items |})
  /\ (find_entity (Database_series E) k = None -> JS.assoc k (seriesMatches m) = None).
Proof.
  intros S. split.
  - intros se I F. destruct (scan_books _ _ _ _ _ k I S) as (_ & _ & Se).
    now rewrite (Se se F).
  - intros F. now apply (scan_series_unknown _ _ _ _ _ k F S).
Qed.

(** *** When the scan fails *)

Lemma own_keys_add (V : Type) (d : dict V) (k : string) (v : V) :
  own_keys d -> inherited k = false -> own_keys (add k v d).
Proof.
  unfold own_keys. rewrite keys_add. intros O I.
  apply Forall_app. split; [exact O | now repeat constructor].
Qed.

Lemma own_keys_update (V : Type) (d : dict V) (k : string) (f : V -> V) :
  own_keys d -> own_keys (update k f d).
Proof. unfold own_keys. now rewrite keys_update. Qed.

Lemma own_key (V : Type) (d : dict V) (k : string) (v : V) :
  own_keys d -> JS.assoc k d = Some v -> inherited k = false.
Proof.
  unfold own_keys. intros O A. rewrite Forall_forall in O. apply O.
  pose proof (assoc_mem _ k d) as M. rewrite A in M.
  unfold mem in M. apply existsb_exists in M as (x & X & Q).
  apply String.eqb_eq in Q. now subst x.
Qed.

(** A pass over a list of names goes through exactly when none of them
    is a name that [{}] inherits. *)
Lemma addNamed_pass (li : Item) (l : list string) (d : dict (@NamedMatch ItemJSON)) :
  own_keys d ->
  if forallb (fun k => negb (inherited k)) l
  then exists d', foldM (addNamed E li) l d = Ok d' /\ own_keys d'
  else foldM (addNamed E li) l d = Throw TypeError.
Proof.
  revert d. induction l as [|n l IH]; intros d O; cbn [forallb foldM].
  - eauto.
  - unfold addNamed at 1 3. unfold get.
    destruct (JS.assoc n d) as [x|] eqn:A.
    + rewrite (own_key _ _ _ _ O A). cbn [negb andb bind].
      apply IH. now apply own_keys_update.
    + destruct (inherited n) eqn:I; cbn [negb andb bind]; [reflexivity |].
      apply IH. now apply own_keys_add.
Qed.

Lemma addSeries_pass (li : Item) (l : list string)
    (d : dict (@SeriesMatch ItemJSON SeriesJSON)) :
  own_keys d ->
  if forallb (fun k => negb (inherited k)) l
  then exists d', foldM (addSeries E li) l d = Ok d' /\ own_keys d'
  else foldM (addSeries E li) l d = Throw TypeError.
Proof.
  revert d. induction l as [|n l IH]; intros d O; cbn [forallb foldM].
  - eauto.
  - unfold addSeries at 1 3. unfold get.
    destruct (JS.assoc n d) as [x|] eqn:A.
    + rewrite (own_key _ _ _ _ O A). cbn [negb andb bind].
      apply IH. now apply own_keys_update.
    + destruct (inherited n) eqn:I; cbn [negb andb bind]; [reflexivity |].
      destruct (find_entity (Database_series E) n); cbn [bind]; apply IH;
        [now apply own_keys_add | exact O].
Qed.

Lemma scanItem_pass (query : string) (li : Item)
    (m : @matches ItemJSON ItemExpanded SeriesJSON AuthorJSON) :
  own_keys (seriesMatches m) -> own_keys (tagMatches m) -> own_keys (narratorMatches m) ->
  if clean E query li
  then exists m', scanItem E query m li = Ok m'
                  /\ own_keys (seriesMatches m') /\ own_keys (tagMatches m')
                  /\ own_keys (narratorMatches m')
  else scanItem E query m li = Throw TypeError.
Proof.
  intros Os Ot On. unfold clean, scanItem. rewrite !forallb_app.
  pose proof (addSeries_pass li (series (searchQuery E li query)) _ Os) as Ps.
  destruct (forallb _ (series _)); cbn [andb].
  - destruct Ps as (sers & -> & Os'). cbn [bind].
    pose proof (addNamed_pass li (tags (searchQuery E li query)) _ Ot) as Pt.
    destruct (forallb _ (tags _)); cbn [andb].
    + destruct Pt as (tgs & -> & Ot'). cbn [bind].
      pose proof (addNamed_pass li (narrators (searchQuery E li query)) _ On) as Pn.
      destruct (forallb _ (narrators _)).
      * destruct Pn as (nars & -> & On'). cbn [bind]. eexists. split; [reflexivity |].
        auto.
      * now rewrite Pn.
    + now rewrite Pt.
  - now rewrite Ps.
Qed.

Lemma scan_pass (query : string) (items : list Item)
    (m : @matches ItemJSON ItemExpanded SeriesJSON AuthorJSON) :
  own_keys (seriesMatches m) -> own_keys (tagMatches m) -> own_keys (narratorMatches m) ->
  (forallb (clean E query) items = true ->
   exists m', scan E query m items = (items, Ok m'))
  /\ (forall before li after,
        items = before ++ li :: after ->
        forallb (clean E query) before = true -> clean E query li = false ->
        scan E query m items = (before ++ [li], Throw TypeError)).
Proof.
  revert m. induction items as [|li items IH]; intros m Os Ot On.
  - split; [intros _; eexists; reflexivity |]. intros [|? ?] ? ? H; discriminate H.
  - pose proof (scanItem_pass query li m Os Ot On) as P. cbn [scan forallb].
    destruct (clean E query li) eqn:C.
    + destruct P as (m1 & -> & Os' & Ot' & On').
      destruct (IH m1 Os' Ot' On') as [A B]. split.
      * intros H. destruct (A H) as [m' ->]. eauto.
      * intros [|x before] y after H Hb Hc.
        -- injection H as <- <-. congruence.
        -- injection H as <- ->. cbn [forallb] in Hb.
           apply andb_true_iff in Hb as [_ Hb].
           now rewrite (B _ _ _ eq_refl Hb Hc).
    + rewrite P. split; [discriminate |].
      intros [|x before] y after H Hb Hc.
      * now injection H as <- <-.
      * injection H as <- ->. cbn [forallb] in Hb. rewrite C in Hb. discriminate.
Qed.

(** [search] fails exactly on a name that [{}] inherits.  When no item
    lists such a name among its series ids, tags and narrators, every
    item is scanned and a response is made; otherwise the scan ends with
    a [TypeError] at the first item that does, and the items after it are
    not scanned. *)
Theorem scan_fails_on_inherited_name (query : string) (items : list Item) :
  (forallb (clean E query) items = true ->
   exists m, scan E query no_matches items = (items, Ok m))
  /\ (forall before li after,
        items = before ++ li :: after ->
        forallb (clean E query) before = true -> clean E query li = false ->
        scan E query no_matches items = (before ++ [li], Throw TypeError)).
Proof. apply scan_pass; constructor. Qed.

End Facts.

(** The tag ["classic"] is listed once by the first sample book and
    twice by the second. *)
Lemma named_facet_books_witness :
  exists m,
    scan MoreSamples.libraryEnv "dune" no_matches MoreSamples.chronicles
    = (MoreSamples.chronicles, Ok m)
    /\ JS.assoc "classic" (tagMatches m)
       = Some {| name := "classic"; books := ["Dune"; "Foundation"; "Foundation"]%string |}.
Proof.
  eexists. split; [reflexivity |].
  exact (proj1 (named_facet_books MoreSamples.libraryEnv "dune" MoreSamples.chronicles
                  MoreSamples.chronicles _ "classic" eq_refl eq_refl)).
Defined.

(** Two sample books are in the series of the database; the series id
    of the third names no series. *)
Lemma series_facet_books_witness :
  exists m,
    scan MoreSamples.libraryEnv "dune" no_matches MoreSamples.chronicles
    = (MoreSamples.chronicles, Ok m)
    /\ JS.assoc "ser_1" (seriesMatches m)
       = Some {| sm_series := "Dune Chronicles"%string;
                 sm_books := ["Dune"; "Dune Messiah"]%string |}
    /\ JS.assoc "ser_9" (seriesMatches m) = None.
Proof.
  eexists. split; [reflexivity |].
  destruct (series_facet_books MoreSamples.libraryEnv "dune" MoreSamples.chronicles
              MoreSamples.chronicles _ "ser_1" eq_refl) as [A _].
  destruct (series_facet_books MoreSamples.libraryEnv "dune" MoreSamples.chronicles
              MoreSamples.chronicles _ "ser_9" eq_refl) as [_ B].
  split; [exact (A _ eq_refl eq_refl) | exact (B eq_refl)].
Defined.

(** A book tagged ["constructor"] ends the scan; the book after it is
    not scanned. *)
Lemma scan_fails_on_inherited_name_witness :
  scan MoreSamples.libraryEnv "dune" no_matches
       ([MoreSamples.reporting "Dune" [] ["classic"] []]
        ++ MoreSamples.reporting "Emma" [] ["constructor"] []
        :: [MoreSamples.reporting "Ulysses" [] [] []])
  = ([MoreSamples.reporting "Dune" [] ["classic"] []]
     ++ [MoreSamples.reporting "Emma" [] ["constructor"] []], Throw TypeError).
Proof.
  apply (proj2 (scan_fails_on_inherited_name MoreSamples.libraryEnv "dune" _)
               [MoreSamples.reporting "Dune" [] ["classic"] []]
               (MoreSamples.reporting "Emma" [] ["constructor"] [])
               [MoreSamples.reporting "Ulysses" [] [] []]);
    reflexivity.
Defined.

End FacetFacts.

(* ================================================================= *)
(** ** The author and series facets of [search] *)

Module ReferenceFacts.

Import JS Paging Dict DictFacts SliceFacts Search Facets.

Local Open Scope list_scope.

Section Facts.

Context {Item ItemJSON ItemExpanded SeriesJSON AuthorJSON : Type}.

Variable E : @Env Item ItemJSON ItemExpanded SeriesJSON AuthorJSON.

(** An author the database does not hold gets no aggregate. *)
Lemma author_unknown (l : list string) (d : dict (@AuthorMatch AuthorJSON)) (au : string) :
  find_entity (Database_authors E) au = None ->
  JS.assoc au d = None -> JS.assoc au (fold_left (addAuthor E) l d) = None.
Proof.
  intros F. revert d. induction l as [|n l IH]; intros d A; [exact A |].
  cbn [fold_left]. apply IH. unfold addAuthor.
  destruct (get d n) as [m| |] eqn:G.
  - rewrite SearchFacts.assoc_update, A. now destruct (String.eqb au n).
  - exact A.
  - destruct (find_entity (Database_authors E) n) eqn:Fn; [| exact A].
    rewrite SearchFacts.assoc_add, A.
    destruct (String.eqb_spec au n) as [-> | N]; [congruence | reflexivity].
Qed.

(** An author id that [{}] inherits gets no aggregate. *)
Lemma author_inherited (l : list string) (d : dict (@AuthorMatch AuthorJSON)) (au : string) :
  inherited au = true ->
  JS.assoc au d = None -> JS.assoc au (fold_left (addAuthor E) l d) = None.
Proof.
  intros I. revert d. induction l as [|n l IH]; intros d A; [exact A |].
  cbn [fold_left]. apply IH. unfold addAuthor.
  destruct (get d n) as [m| |] eqn:G.
  - rewrite SearchFacts.assoc_update, A. now destruct (String.eqb au n).
  - exact A.
  - destruct (find_entity (Database_authors E) n) eqn:Fn; [| exact A].
    rewrite SearchFacts.assoc_add, A.
    destruct (String.eqb_spec au n) as [-> | N]; [| reflexivity].
    unfold get in G. rewrite A, I in G. discriminate.
Qed.

(** C6 (as amended): an author or series id is looked up in the table of
    the database when it is met and has no aggregate yet.  An id the
    table does not hold is skipped and the scan goes on: the scan
    completes whenever no item lists a name that [{}] inherits.  The
    first occurrence of an author id the table holds creates the
    aggregate at the end of [authorMatches], with [numBooks = 1]; each
    later occurrence adds 1 to [numBooks] in place; so the aggregate of
    an author counts the occurrences of its id in the scan, and the
    aggregate of a series holds the series of the table and the books
    that refer to it, in scan order; an author id that [{}] inherits
    gets no aggregate.  The facets are read back with
    [Object.values], which lists the entries under array-index keys
    first: items matching authors A, B, A in scan order give the facet
    A (2 books), B (1 book) when the two ids are not array indices. *)
Theorem author_facet_counts :
  (forall d au,
      get d au = Absent -> find_entity (Database_authors E) au = None ->
      addAuthor E d au = d)
  /\ (forall li d se,
        get d se = Absent -> find_entity (Database_series E) se = None ->
        addSeries E li d se = Ok d)
  /\ (forall d au a,
        get d au = Absent -> find_entity (Database_authors E) au = Some a ->
        addAuthor E d au = d ++ [(au, {| am_author := toJSON a; numBooks := 1 |})])
  /\ (forall d au m,
        get d au = Own m ->
        get (addAuthor E d au) au
        = Own {| am_author := am_author m; numBooks := numBooks m + 1 |}
        /\ keys (addAuthor E d au) = keys d)
  /\ (forall query items,
        forallb (clean E query) items = true ->
        exists m, scan E query no_matches items = (items, Ok m))
  /\ (forall req seen r,
        search E req = (seen, Ok (Json r)) ->
        exists query m,
          q req = Some query
          /\ scan E query no_matches (libraryItems req) = (libraryItems req, Ok m)
          /\ r_authors r = slice 0 (maxResults req) (values (authorMatches m))
          /\ r_series r = slice 0 (maxResults req) (values (seriesMatches m))
          /\ (forall au,
                inherited au = false ->
                JS.assoc au (authorMatches m)
                = match find_entity (Database_authors E) au with
                  | Some a =>
                      if occurrences au (all_authors E query (libraryItems req)) =? 0
                      then None
                      else Some {| am_author := toJSON a;
                                   numBooks :=
                                     occurrences au
                                       (all_authors E query (libraryItems req)) |}
                  | None => None
                  end)
          /\ (forall se,
                inherited se = false ->
                JS.assoc se (seriesMatches m)
                = match find_entity (Database_series E) se with
                  | Some s =>
                      aggregate (books_of E series query se (libraryItems req))
                                {| sm_series := toJSON s;
                                   sm_books :=
                                     books_of E series query se (libraryItems req) |}
                  | None => None
                  end)
          /\ (forall au, inherited au = true -> JS.assoc au (authorMatches m) = None)
          /\ keys (authorMatches m)
             = first_occurrences [] (filter (resolvable (Database_authors E))
                                            (all_authors E query (libraryItems req)))
          /\ values (authorMatches m)
             = map snd (indexed (authorMatches m)) ++ map snd (named (authorMatches m))
          /\ (forall A B : entity AuthorJSON,
                all_authors E query (libraryItems req) = [id A; id B; id A] ->
                find_entity (Database_authors E) (id A) = Some A ->
                find_entity (Database_authors E) (id B) = Some B ->
                id A <> id B -> plain_key (id A) -> plain_key (id B) ->
                2 <= maxResults req ->
                r_authors r = [ {| am_author := toJSON A; numBooks := 2 |};
                                {| am_author := toJSON B; numBooks := 1 |} ])).
Proof.
  split; [| split; [| split; [| split; [| split]]]].
  - intros d au G F. unfold addAuthor. now rewrite G, F.
  - intros li d se G F. unfold addSeries. now rewrite G, F.
  - intros d au a G F. unfold addAuthor. now rewrite G, F.
  - intros d au m G. unfold addAuthor. rewrite G. split.
    + exact (SearchFacts.get_update_own _ au
               (fun m => {| am_author := am_author m; numBooks := numBooks m + 1 |})
               d m G).
    + apply keys_update.
  - intros query items C.
    exact (proj1 (FacetFacts.scan_pass E query items no_matches
                    ltac:(constructor) ltac:(constructor) ltac:(constructor)) C).
  - intros req seen r H.
    destruct (SearchFacts.search_json _ _ _ _ H) as (query & m & Q & _ & S & ->).
    exists query, m.
    destruct (SearchFacts.scan_collects _ _ _ _ _ _ S) as (-> & _ & A & _).
    cbn [authorMatches no_matches] in A.
    split; [exact Q |]. split; [exact S |].
    split; [reflexivity |]. split; [reflexivity |].
    split; [| split; [| split; [| split; [| split]]]].
    + intros au I. rewrite A.
      destruct (find_entity (Database_authors E) au) as [a|] eqn:F.
      * exact (SearchFacts.author_count E _ [] au a F I).
      * now apply author_unknown.
    + intros se I.
      destruct (find_entity (Database_series E) se) as [s|] eqn:F.
      * destruct (FacetFacts.scan_books E _ _ _ _ _ se I S) as (_ & _ & Se).
        now rewrite (Se s F).
      * now apply (FacetFacts.scan_series_unknown E _ _ _ _ _ se F S).
    + intros au I. rewrite A. now apply author_inherited.
    + rewrite A. exact (SearchFacts.addAuthor_keys E _ []).
    + reflexivity.
    + intros X Y L FA FB D [IA PA] [IB PB] N.
      apply String.eqb_neq in D.
      assert (D' : String.eqb (id Y) (id X) = false)
        by (rewrite String.eqb_sym; exact D).
      unfold respond. cbn [r_authors].
      rewrite slice_0_firstn by lia. rewrite A, L.
      cbn [fold_left]. unfold addAuthor, get.
      cbn [JS.assoc]. rewrite PA, FA. unfold add. cbn [app JS.assoc].
      rewrite D', PB, FB. cbn [app JS.assoc]. rewrite String.eqb_refl.
      cbn [update]. rewrite String.eqb_refl.
      unfold values, named. cbn [indexed filter fst]. rewrite IA, IB.
      cbn [map snd app].
      destruct (Z.to_nat (maxResults req)) as [|[|k]] eqn:K; [lia | lia |].
      simpl. now rewrite firstn_nil.
Qed.

End Facts.

(** Three books by Herbert, Asimov, Herbert, two of them in a series of
    the database; a series and an author that the database does not hold
    are skipped. *)
Lemma author_facet_counts_witness :
  exists m,
    scan MoreSamples.libraryEnv "dune" no_matches MoreSamples.shelf
    = (MoreSamples.shelf, Ok m)
    /\ JS.assoc "aut_7f3a" (authorMatches m)
       = Some {| am_author := "Frank Herbert"%string; numBooks := 2 |}
    /\ JS.assoc "aut_gone" (authorMatches m) = None
    /\ JS.assoc "ser_1" (seriesMatches m)
       = Some {| sm_series := "Dune Chronicles"%string;
                 sm_books := ["Dune"; "Dune Messiah"]%string |}
    /\ JS.assoc "ser_9" (seriesMatches m) = None.
Proof.
  destruct (proj2 (proj2 (proj2 (proj2 (proj2
              (author_facet_counts MoreSamples.libraryEnv)))))
              (SearchSamples.sampleRequest QAbsent MoreSamples.shelf)
              MoreSamples.shelf _ eq_refl)
    as (query & m & Q & S & _ & _ & A & Se & _).
  injection Q as <-. exists m. split; [exact S |].
  split; [exact (A "aut_7f3a"%string eq_refl) |].
  split; [exact (A "aut_gone"%string eq_refl) |].
  split; [exact (Se "ser_1"%string eq_refl) | exact (Se "ser_9"%string eq_refl)].
Defined.

(** C6 (as stated) fails.  With author A under the id ["2"] and author B
    under the id ["1"], items matching A, B, A give the facet B, A: an
    id that is an array index is listed by its numeric value.  And a
    series id that the database does not hold is not always skipped: the
    id ["constructor"] ends the request with a [TypeError]. *)
Lemma index_like_author_comes_first :
  (exists r,
      search MoreSamples.numberedEnv
             (SearchSamples.sampleRequest QAbsent MoreSamples.numbered)
      = (MoreSamples.numbered, Ok (Json r))
      /\ all_authors MoreSamples.numberedEnv "dune" MoreSamples.numbered
         = ["2"; "1"; "2"]%string
      /\ r_authors r = [ {| am_author := "B"%string; numBooks := 1 |};
                         {| am_author := "A"%string; numBooks := 2 |} ])
  /\ search MoreSamples.libraryEnv
            (SearchSamples.sampleRequest QAbsent
               [MoreSamples.referring "Dune" ["constructor"%string] []])
     = ([MoreSamples.referring "Dune" ["constructor"%string] []], Throw TypeError)
  /\ ~ (forall (req : @request SearchSamples.item) seen r query
               (A B : entity string),
          search MoreSamples.numberedEnv req = (seen, Ok (Json r)) ->
          q req = Some query ->
          all_authors MoreSamples.numberedEnv query (libraryItems req)
          = [id A; id B; id A] ->
          find_entity (Database_authors MoreSamples.numberedEnv) (id A) = Some A ->
          find_entity (Database_authors MoreSamples.numberedEnv) (id B) = Some B ->
          id A <> id B ->
          r_authors r = [ {| am_author := toJSON A; numBooks := 2 |};
                          {| am_author := toJSON B; numBooks := 1 |} ]).
Proof.
  split; [eexists; repeat split; reflexivity |]. split; [reflexivity |].
  intros H.
  specialize (H (SearchSamples.sampleRequest QAbsent MoreSamples.numbered) _ _
                "dune"%string {| id := "2"; toJSON := "A" |}%string
                {| id := "1"; toJSON := "B" |}%string
                eq_refl eq_refl eq_refl eq_refl eq_refl).
  assert (D : "2"%string <> "1"%string) by discriminate.
  specialize (H D). discriminate.
Qed.

End ReferenceFacts.


(* ================================================================= *)
(** ** More on the sequence-range compactor *)

Module RunFacts.

Import Regex SequenceList SequenceListFacts Runs.

Local Open Scope list_scope.

Lemma reducer_plain (ranges : list range) (token : string) :
  test numberPattern token = false ->
  reducer ranges token = ranges ++ [mkRange (SStr token) (SStr token) false].
Proof.
  intros T. unfold reducer, token_value. rewrite T.
  now destruct (at_last ranges).
Qed.

Lemma fold_plain (tokens : list string) (ranges : list range) :
  Forall (fun t => test numberPattern t = false) tokens ->
  fold_left reducer tokens ranges
  = ranges ++ map (fun t => mkRange (SStr t) (SStr t) false) tokens.
Proof.
  intros F. revert ranges. induction F as [|t tokens T _ IH]; intros ranges.
  - simpl. now rewrite app_nil_r.
  - cbn [fold_left map]. rewrite IH, reducer_plain by assumption.
    now rewrite <- app_assoc.
Qed.

Lemma filter_snoc (A : Type) (f : A -> bool) (l : list A) (x : A) :
  filter f (l ++ [x]) = filter f l ++ (if f x then [x] else []).
Proof. rewrite filter_app. reflexivity. Qed.

(** What a token adds to the ranges that are not numeric. *)
Lemma reducer_plain_ranges (ranges : list range) (token : string) :
  filter (fun r => negb (isNumber r)) (reducer ranges token)
  = filter (fun r => negb (isNumber r)) ranges
    ++ (if test numberPattern token then []
        else [mkRange (SStr token) (SStr token) false]).
Proof.
  destruct (at_last ranges) as [lr|] eqn:L.
  - apply at_last_some in L as [front ->]. rewrite reducer_snoc.
    destruct (extends_guard lr token) eqn:G.
    + unfold extends_guard in G.
      apply andb_true_iff in G as [G _]. apply andb_true_iff in G as [G1 G2].
      rewrite G1, !filter_snoc. cbn [isNumber]. rewrite G2. cbn [negb].
      now rewrite !app_nil_r.
    + change [lr; mkRange (token_value token) (token_value token)
                          (test numberPattern token)]
        with ([lr] ++ [mkRange (token_value token) (token_value token)
                               (test numberPattern token)]).
      rewrite app_assoc, filter_snoc. cbn [isNumber]. unfold token_value.
      now destruct (test numberPattern token).
  - apply at_last_none in L as ->. rewrite reducer_nil. cbn [filter isNumber].
    unfold token_value. now destruct (test numberPattern token).
Qed.

(** A token that is not a number is never merged into a range.
    Whatever the list handed to the reducer, which the code sorts
    first, the ranges that are not numeric are the tokens that are not
    numbers, one range for each, in the order of the list, and such a
    range is shown as the token itself.  A list without numbers is shown
    as it is. *)
Theorem plain_tokens_verbatim (tokens : list string) :
  filter (fun r => negb (isNumber r)) (ranges_of tokens)
  = map (fun t => mkRange (SStr t) (SStr t) false)
        (filter (fun t => negb (test numberPattern t)) tokens)
  /\ (forall t, to_string (render (mkRange (SStr t) (SStr t) false)) = t)
  /\ (forall collate,
        Forall (fun t => test numberPattern t = false) tokens ->
        seriesSequenceList tokens = Str.join ", " tokens
        /\ List.length (ranges_of tokens) = List.length tokens
        /\ sequenceListOf collate tokens
           = Str.join ", " (sortedSequences collate tokens)).
Proof.
  split; [| split].
  - induction tokens as [|t tokens IH] using rev_ind; [reflexivity |].
    rewrite ranges_of_snoc, reducer_plain_ranges, IH, filter_snoc, map_app.
    now destruct (test numberPattern t).
  - intros t. unfold render. cbn [start end_ loose_eq]. now rewrite String.eqb_refl.
  - intros collate F.
    assert (G : forall l, Forall (fun t => test numberPattern t = false) l ->
                  seriesSequenceList l = Str.join ", " l
                  /\ List.length (ranges_of l) = List.length l).
    { intros l Fl. unfold seriesSequenceList, ranges_of.
      rewrite fold_plain by assumption.
      cbn [app]. rewrite !map_map, length_map. split; [| reflexivity].
      f_equal. rewrite <- (map_id l) at 2. apply map_ext.
      intros t. unfold render. cbn [start end_ loose_eq]. now rewrite String.eqb_refl. }
    destruct (G tokens F) as [G1 G2]. split; [exact G1 |]. split; [exact G2 |].
    apply G. unfold sortedSequences.
    apply (SortingFacts.sort_Forall string collate).
    rewrite Forall_forall in *. intros t I. apply filter_In in I as [I _]. auto.
Qed.

(** The sequences ["Prequel"], ["1a"], ["2b"] are sorted and listed. *)
Lemma plain_tokens_verbatim_witness :
  sequenceListOf Sorting.reference_collate ["Prequel"; "1a"; "2b"]%string
  = "1a, 2b, Prequel"%string.
Proof.
  apply (proj2 (proj2 (plain_tokens_verbatim ["Prequel"; "1a"; "2b"]%string))
               Sorting.reference_collate).
  repeat constructor.
Defined.

(** Between the numbers 1 to 3 and 5 the token ["3a"] keeps its own
    entry. *)
Example plain_token_between_numbers :
  seriesSequenceList ["1"; "2"; "3"; "3a"; "5"]%string = "1-3, 3a, 5"%string.
Proof. vm_compute. reflexivity. Qed.

Lemma integer_token_value (t : string) (v : Z) :
  integer_token t v ->
  test numberPattern t = true /\ token_value t = SNum (Num.of_Z v).
Proof.
  intros (N & D & V). pose proof (digit_token_numeric t N D) as T.
  split; [exact T |]. unfold token_value. rewrite T.
  now rewrite NumFacts.parseFloat_digits, V.
Qed.

Lemma fold_run (tokens : list string) (a b : Z) :
  0 <= b -> b + Z.of_nat (List.length tokens) < 2 ^ 53 ->
  run_from (b + 1) tokens ->
  fold_left reducer tokens [mkRange (SNum (Num.of_Z a)) (SNum (Num.of_Z b)) true]
  = [mkRange (SNum (Num.of_Z a))
             (SNum (Num.of_Z (b + Z.of_nat (List.length tokens)))) true].
Proof.
  revert b. induction tokens as [|t tokens IH]; intros b B L R.
  - simpl. now rewrite Z.add_0_r.
  - destruct R as [I R]. destruct (integer_token_value _ _ I) as [T V].
    cbn [fold_left].
    change [mkRange (SNum (Num.of_Z a)) (SNum (Num.of_Z b)) true]
      with ([] ++ [mkRange (SNum (Num.of_Z a)) (SNum (Num.of_Z b)) true]) at 1.
    rewrite reducer_snoc.
    unfold extends_guard. rewrite T, V.
    cbn [isNumber end_ plus_one loose_eq andb start app].
    cbn [List.length] in L.
    rewrite NumFacts.successor_test by lia. rewrite Z.eqb_refl.
    rewrite IH by (try assumption; lia).
    replace (b + Z.of_nat (List.length (t :: tokens)))
      with (b + 1 + Z.of_nat (List.length tokens)) by (cbn [List.length]; lia).
    reflexivity.
Qed.

Lemma run_ranges (a : Z) (tokens : list string) :
  let b := a + Z.of_nat (List.length tokens) - 1 in
  0 <= a -> b < 2 ^ 53 -> tokens <> [] -> run_from a tokens ->
  ranges_of tokens = [mkRange (SNum (Num.of_Z a)) (SNum (Num.of_Z b)) true].
Proof.
  intros b A B N R. destruct tokens as [|t tokens]; [congruence |].
  destruct R as [I R]. destruct (integer_token_value _ _ I) as [T V].
  cbn [List.length] in b.
  unfold ranges_of. cbn [fold_left]. rewrite reducer_nil, T, V.
  rewrite fold_run by (try assumption; unfold b in B; lia).
  replace (a + Z.of_nat (List.length tokens)) with b by (unfold b; lia).
  reflexivity.
Qed.

Lemma of_Z_eqb (a b : Z) :
  0 <= a <= b -> b < 2 ^ 53 -> Num.eqb (Num.of_Z a) (Num.of_Z b) = (a =? b).
Proof.
  intros A B.
  destruct (Z.eq_dec a 0) as [-> | Na]; destruct (Z.eq_dec b 0) as [Eb | Nb].
  - rewrite Eb. reflexivity.
  - rewrite (NumFacts.of_Z_exact b) by lia.
    replace (0 =? b) with false by (symmetry; apply Z.eqb_neq; lia).
    unfold Num.eqb. change (Num.of_Z 0) with (S754_zero false).
    unfold Num.canon. reflexivity.
  - lia.
  - rewrite !NumFacts.of_Z_exact by lia. apply NumFacts.eqb_canon; lia.
Qed.

(** A run of consecutive integers collapses into one range: tokens that
    spell [a], [a + 1], ..., [b], all below [2^53], give the single range
    from [a] to [b], shown as the Number [a] alone when [a = b] and as
    the two Numbers with a hyphen between them otherwise. *)
Theorem consecutive_integers_collapse (a : Z) (tokens : list string) :
  let b := a + Z.of_nat (List.length tokens) - 1 in
  0 <= a -> b < 2 ^ 53 -> tokens <> [] -> run_from a tokens ->
  ranges_of tokens = [mkRange (SNum (Num.of_Z a)) (SNum (Num.of_Z b)) true]
  /\ seriesSequenceList tokens
     = if a =? b then Num.to_string (Num.of_Z a)
       else (Num.to_string (Num.of_Z a) ++ "-" ++ Num.to_string (Num.of_Z b))%string.
Proof.
  intros b A B N R.
  pose proof (run_ranges a tokens A B N R) as G. fold b in G.
  split; [exact G |].
  unfold seriesSequenceList. rewrite G. cbn [map]. unfold render.
  cbn [start end_ loose_eq].
  assert (L : (0 < List.length tokens)%nat)
    by (destruct tokens; [congruence | cbn [List.length]; lia]).
  rewrite of_Z_eqb by (unfold b in *; lia).
  destruct (a =? b); reflexivity.
Qed.

Lemma consecutive_integers_collapse_witness :
  ranges_of ["7"; "8"; "9"]%string
  = [mkRange (SNum (Num.of_Z 7)) (SNum (Num.of_Z 9)) true].
Proof.
  apply (consecutive_integers_collapse 7 ["7"; "8"; "9"]%string);
    [lia | simpl; lia | discriminate |].
  repeat split; discriminate.
Defined.

End RunFacts.

(* ================================================================= *)
(** ** More on [getLibraryItems] *)

Module ListingFacts.

Import JS Sorting NumberPaging Items.

Local Open Scope list_scope.

(** [desc=1] turns the primary comparator around and nothing else.
    With a sort key the chain is the same for both values of the flag
    but for the direction of one entry, the one that extracts the primary
    key: the comparators before it (collapsed series last) and after it
    (the books of an author by series) are ascending.  Without a sort
    key the flag is not read: the chain is the same, and ascending. *)
Theorem desc_turns_the_primary_key_only (E : Env) (mediaIsBook collapseseries : bool)
    (filterSeries sortBy : option string) :
  let chain d := sortArray E mediaIsBook collapseseries d filterSeries sortBy in
  (forall s, sortBy = Some s -> s <> ""%string ->
     let sortByTitle := String.eqb s "media.metadata.title" in
     let sortKey := if sortByTitle && sortingIgnorePrefix E
                    then (s ++ "IgnorePrefix")%string else s in
     let sortBySequence := given filterSeries && String.eqb sortKey "sequence" in
     let key := primaryKey E mediaIsBook sortBySequence sortByTitle
                           (match filterSeries with Some f => f | None => ""%string end)
                           sortKey in
     exists front back,
       (forall d, chain d = front ++ mkSorter (if d then Desc else Asc) key :: back)
       /\ Forall (fun s => dir s = Asc) front
       /\ Forall (fun s => dir s = Asc) back
       /\ (List.length front <= 1)%nat /\ (List.length back <= 1)%nat)
  /\ (given sortBy = false ->
      chain true = chain false /\ Forall (fun s => dir s = Asc) (chain true)).
Proof.
  intros chain. split.
  - intros s -> N sortByTitle sortKey sortBySequence key.
    apply String.eqb_neq in N. unfold chain, sortArray. cbn [given]. rewrite N.
    cbn [negb]. rewrite andb_false_r. cbn [app].
    fold sortByTitle. fold sortKey. fold sortBySequence. fold key.
    eexists _, _. split; [intros d; reflexivity |].
    destruct (collapseseries && negb _); destruct (mediaIsBook && Str.includes _ _);
      repeat split; repeat constructor.
  - unfold chain, sortArray. destruct sortBy as [s|]; cbn [given].
    + intros G. apply negb_false_iff in G. rewrite G. cbn [negb].
      rewrite !app_nil_r. destruct (given filterSeries); cbn [negb andb];
        repeat split; repeat constructor.
    + intros _. rewrite !app_nil_r. destruct (given filterSeries); cbn [negb andb];
        repeat split; repeat constructor.
Qed.

(** Books sorted by author, in descending order: the primary comparator
    is turned around, the one on the series stays ascending. *)
Lemma desc_turns_the_primary_key_only_witness :
  exists front back,
    (forall d,
        sortArray (Samples.sampleEnv []) true false d None
                  (Some "media.metadata.authorName"%string)
        = front ++ mkSorter (if d then Desc else Asc)
                            (primaryKey (Samples.sampleEnv []) true false false ""
                                        "media.metadata.authorName") :: back)
    /\ Forall (fun s => dir s = Asc) front
    /\ Forall (fun s => dir s = Asc) back
    /\ (List.length front <= 1)%nat /\ (List.length back <= 1)%nat.
Proof.
  apply (proj1 (desc_turns_the_primary_key_only (Samples.sampleEnv []) true false None
                  (Some "media.metadata.authorName"%string))
               "media.metadata.authorName"%string eq_refl).
  discriminate.
Defined.

Lemma naturalSortBy_perm (collate : string -> string -> comparison)
    (entries : list sorter) (items out : list value) :
  naturalSortBy collate entries items = Ok out -> Permutation out items.
Proof.
  unfold naturalSortBy. intros H.
  destruct (mapM _ items) as [keyed|] eqn:M; simpl in H; [| discriminate].
  injection H as <-. destruct (SortingFacts.keyed_rows _ _ _ M) as [F _].
  rewrite <- F. apply Permutation_map, SortingFacts.sort_perm.
Qed.

Lemma sortStep_perm (E : Env) (entries : list sorter) (items out : list value) :
  sortStep E entries items = Ok out -> Permutation out items.
Proof.
  unfold sortStep. destruct entries; [now intros [= <-] |].
  apply naturalSortBy_perm.
Qed.

Lemma filterStep_count (E : Env) (mediaIsBook : bool) (filterBy : option string)
    (items items' : list value) (total : nat) (filterSeries : option string) :
  filterStep E mediaIsBook filterBy items (List.length items)
  = (items', total, filterSeries) ->
  total = List.length items'.
Proof.
  unfold filterStep. destruct filterBy as [f|]; [| now intros [= <- <- _]].
  destruct (negb (String.eqb f "")); now intros [= <- <- _].
Qed.

Lemma collapseStep_count (E : Env) (collapseseries : bool) (filterSeries : option string)
    (items working : list value) (total : nat) :
  collapseStep E collapseseries filterSeries items (List.length items)
  = Ok (working, total) ->
  total = List.length working.
Proof.
  unfold collapseStep. destruct collapseseries; [| now intros [= <- <-]].
  destruct (singleCollapsedSeries _) as [single|]; cbn [bind]; [| discriminate].
  destruct (negb single); now intros [= <- <-].
Qed.

(** [total] counts the rows before the page is cut: it does not depend
    on [limit] and [page], the page never holds more rows than [total],
    the rows of the page are rows that were counted, and without a limit
    the response holds [total] rows. *)
Theorem total_counts_all_pages (E : Env) (req : request) (p : payload) :
  getLibraryItems E req = Ok p ->
  (List.length (results p) <= total p)%nat
  /\ (truthy (VNum (limit p)) = false -> List.length (results p) = total p)
  /\ (forall l' p', exists q,
        getLibraryItems E {| libraryItems := libraryItems req;
                             mediaType := mediaType req;
                             q_limit := l'; q_page := p';
                             q_sort := q_sort req; q_desc := q_desc req;
                             q_filter := q_filter req;
                             q_collapseseries := q_collapseseries req |} = Ok q
        /\ total q = total p).
Proof.
  unfold getLibraryItems. cbn [libraryItems mediaType q_limit q_page q_sort q_desc
                               q_filter q_collapseseries].
  destruct (filterStep _ _ _ _ _) as [[filtered total1] filterSeries] eqn:F.
  apply filterStep_count in F. subst total1.
  destruct (collapseStep _ _ _ _ _) as [[working total2]|] eqn:C; cbn [bind];
    [| discriminate].
  apply collapseStep_count in C. subst total2.
  destruct (sortStep _ _ _) as [sorted|] eqn:S; cbn [bind]; [| discriminate].
  apply sortStep_perm in S. apply Permutation_length in S.
  intros [= <-]. cbn [results total limit].
  destruct (NumberPagingFacts.number_page_run _ (Query.limit (q_limit req))
              (Query.page (q_page req)) sorted) as (before & after & R).
  split; [| split].
  - rewrite <- S. rewrite R at 2. rewrite !length_app. lia.
  - intros L. unfold limitItems. rewrite L. exact S.
  - intros l' p'. eexists. split; reflexivity.
Qed.

Lemma total_counts_all_pages_witness :
  exists p,
    getLibraryItems (Samples.sampleEnv []) MoreSamples.secondPage = Ok p
    /\ (List.length (results p) <= total p)%nat.
Proof.
  eexists. split; [reflexivity |].
  exact (proj1 (total_counts_all_pages (Samples.sampleEnv []) MoreSamples.secondPage
                  _ eq_refl)).
Defined.

(** The rows are sorted only when there is something to sort by: the
    chain is empty exactly when no sort key is given and no series is
    filtered by.  So a request without sort key, filter and collapse gets
    a page of the accessible items in the order they are stored in, and
    their number as [total]. *)
Theorem stored_order_without_sort_key (E : Env) :
  (forall mediaIsBook collapseseries sortDesc filterSeries sortBy,
      sortArray E mediaIsBook collapseseries sortDesc filterSeries sortBy = []
      <-> given sortBy = false /\ given filterSeries = false)
  /\ (forall req,
        given (q_sort req) = false -> given (q_filter req) = false ->
        is_one (q_collapseseries req) = false ->
        exists p,
          getLibraryItems E req = Ok p
          /\ results p = limitItems (limit p) (page p) (libraryItems req)
          /\ total p = List.length (libraryItems req)).
Proof.
  assert (G : forall mediaIsBook collapseseries sortDesc filterSeries sortBy,
             sortArray E mediaIsBook collapseseries sortDesc filterSeries sortBy = []
             <-> given sortBy = false /\ given filterSeries = false).
  { intros mediaIsBook collapseseries sortDesc filterSeries sortBy. unfold sortArray.
    destruct sortBy as [sortBy|]; cbn [given].
    - destruct (String.eqb sortBy "") eqn:N; cbn [negb].
      + rewrite app_nil_r, andb_true_r. destruct (given filterSeries); split;
          try discriminate; auto. intros [_ H]. discriminate.
      + rewrite andb_false_r. cbn [app]. split; [| intros [H _]; discriminate].
        destruct (collapseseries && negb _); discriminate.
    - rewrite app_nil_r, andb_true_r. destruct (given filterSeries); split;
        try discriminate; auto. intros [_ H]. discriminate. }
  split; [exact G |].
  intros req S F C. unfold getLibraryItems. rewrite C.
  assert (Fs : filterStep E (String.eqb (mediaType req) "book") (q_filter req)
                 (libraryItems req) (List.length (libraryItems req))
               = (libraryItems req, List.length (libraryItems req), None)).
  { unfold filterStep. destruct (q_filter req) as [f|]; [| reflexivity].
    cbn [given] in F. now rewrite F. }
  rewrite Fs. cbn [collapseStep bind].
  rewrite (proj2 (G _ _ _ None (q_sort req)) (conj S eq_refl)). cbn [sortStep bind].
  eexists. split; [reflexivity |]. split; reflexivity.
Qed.

Lemma stored_order_without_sort_key_witness :
  exists p,
    getLibraryItems (Samples.sampleEnv []) MoreSamples.descOnly = Ok p
    /\ results p = [Samples.messiah; Samples.dune].
Proof.
  destruct (proj2 (stored_order_without_sort_key (Samples.sampleEnv []))
              MoreSamples.descOnly eq_refl eq_refl eq_refl) as (p & H & R & _).
  exists p. split; [exact H |]. rewrite R.
  injection H as <-. reflexivity.
Defined.

End ListingFacts.

(* ================================================================= *)
(** ** [getLibraryItemsNew]: the offset *)

Module NewListingFacts.

Import JS NewListing.

Local Open Scope list_scope.

Lemma shr_fexp_nonneg (m e : Z) (l : location) :
  0 <= m -> 0 <= shr_m (fst (shr_fexp Num.prec Num.emax m e l)).
Proof.
  intros M. unfold shr_fexp, shr.
  assert (R : shr_m (shr_record_of_loc m l) = m) by (destruct l as [|[]]; reflexivity).
  destruct (fexp Num.prec Num.emax (Zdigits2 m + e) - e) as [|p|p]; simpl fst;
    rewrite ?R; try assumption.
  rewrite NumFacts.iter_shr_m by (rewrite R; lia). rewrite R.
  apply Z.div_pos; [assumption | apply Z.pow_pos_nonneg; lia].
Qed.

(** Rounding does not give [NaN]. *)
Lemma binary_round_aux_number (s : bool) (m e : Z) (l : location) :
  0 <= m -> Query.is_nan (binary_round_aux Num.prec Num.emax s m e l) = false.
Proof.
  intros M. unfold binary_round_aux.
  pose proof (shr_fexp_nonneg m e l M) as P1.
  destruct (shr_fexp Num.prec Num.emax m e l) as [r1 e1]. simpl fst in P1.
  set (m1 := round_nearest_even (shr_m r1) (loc_of_shr_record r1)).
  assert (M1 : 0 <= m1)
    by (pose proof (NumFacts.round_nearest_even_ge (shr_m r1) (loc_of_shr_record r1));
        unfold m1; lia).
  pose proof (shr_fexp_nonneg m1 e1 loc_Exact M1) as P2.
  destruct (shr_fexp Num.prec Num.emax m1 e1 loc_Exact) as [r2 e2]. simpl fst in P2.
  destruct (shr_m r2) as [|p|p]; [reflexivity | | lia].
  now destruct (e2 <=? Num.emax - Num.prec).
Qed.

Lemma mul_nan (x y : Num.number) :
  Query.is_nan x = false -> Query.is_nan y = false ->
  Query.is_nan (NumberPaging.mul x y)
  = is_zero x && is_infinite y || is_infinite x && is_zero y.
Proof.
  unfold NumberPaging.mul, SFmul.
  destruct x as [sx | sx | | sx mx ex]; destruct y as [sy | sy | | sy my ey];
    try discriminate; intros _ _; try reflexivity.
  cbn [is_zero is_infinite andb orb]. apply binary_round_aux_number. lia.
Qed.

(** [payload.limit] and [payload.page] are never [NaN], yet
    [payload.offset] can be: it is [NaN] exactly when one of the two is
    zero and the other infinite, as for [limit=Infinity] without a
    page. *)
Theorem offset_nan_iff (q_limit q_page : option string) :
  let p := payload_of q_limit q_page in
  Query.is_nan (limit p) = false
  /\ Query.is_nan (page p) = false
  /\ (Query.is_nan (offset p) = true
      <-> is_zero (limit p) = true /\ is_infinite (page p) = true
          \/ is_infinite (limit p) = true /\ is_zero (page p) = true)
  /\ Query.is_nan (offset (payload_of (Some "Infinity") None)) = true.
Proof.
  intros p.
  assert (L : Query.is_nan (limit p) = false)
    by (apply (proj1 (QueryFacts.number_or_nan q_limit Num.zero)); reflexivity).
  assert (P : Query.is_nan (page p) = false)
    by (apply (proj1 (QueryFacts.number_or_nan q_page Num.zero)); reflexivity).
  split; [exact L |]. split; [exact P |]. split; [| reflexivity].
  unfold p, payload_of in *. cbn [limit page offset] in *.
  rewrite mul_nan by assumption.
  rewrite orb_true_iff, !andb_true_iff. tauto.
Qed.

End NewListingFacts.

(* ================================================================= *)
(** ** [reorder] *)

Module ReorderFacts.

Import JS Reorder.

Local Open Scope list_scope.

Lemma sorted_weaken (A : Type) (P Q : A -> A -> Prop) (l : list A) :
  (forall a b, P a b -> Q a b) -> StronglySorted P l -> StronglySorted Q l.
Proof.
  intros W. induction 1 as [|a l S IH F]; constructor; [exact IH |].
  eapply Forall_impl; [| exact F]. auto.
Qed.

Section Facts.

Context {Library LibraryJSON : Type}.

Variable E : @Env Library LibraryJSON.

Lemma loop_app (d1 d2 : list entry) (libraries : list Library) (h : bool)
    (w : list Library) :
  loop E (d1 ++ d2) libraries h w
  = match loop E d1 libraries h w with
    | NotFound w' => NotFound w'
    | Done l' h' w' => loop E d2 l' h' w'
    end.
Proof.
  revert libraries h w. induction d1 as [|e d1 IH]; intros libraries h w; [reflexivity |].
  cbn [app loop]. destruct (find_library E libraries (e_id e)) as [lib|]; [| reflexivity].
  destruct (update E lib (newOrder e)); apply IH.
Qed.

Lemma replace_found_length (id : string) (lib' : Library) (libraries : list Library) :
  List.length (replace_found E id lib' libraries) = List.length libraries.
Proof.
  induction libraries as [|lib rest IH]; [reflexivity |].
  simpl. destruct (String.eqb _ _); simpl; [reflexivity | now rewrite IH].
Qed.

(** What the loop keeps: the number of libraries; a change once seen
    stays seen, and with it a row has been written; without a change the
    libraries are as they were and nothing has been written. *)
Lemma loop_done (data : list entry) (libraries libraries' : list Library)
    (h h' : bool) (w w' : list Library) :
  loop E data libraries h w = Done libraries' h' w' ->
  List.length libraries' = List.length libraries
  /\ (h = true -> h' = true)
  /\ (h' = false -> libraries' = libraries /\ w' = w)
  /\ (h' = true -> h = true \/ w' <> []).
Proof.
  revert libraries h w. induction data as [|e data IH]; intros libraries h w H.
  - injection H as <- <- <-. repeat split; auto.
  - cbn [loop] in H.
    destruct (find_library E libraries (e_id e)) as [lib|]; [| discriminate].
    destruct (update E lib (newOrder e)) as [lib'|].
    + destruct (IH _ _ _ H) as (L & T & F & W).
      rewrite replace_found_length in L.
      split; [exact L |]. split; [auto |]. split.
      * intros Hf. rewrite (T eq_refl) in Hf. discriminate.
      * intros _. right. intros ->.
        clear - H. revert H. generalize (replace_found E (e_id e) lib' libraries).
        assert (G : forall d l hh ww, ww <> [] -> loop E d l hh ww <> Done libraries' h' []).
        { induction d as [|x d IHd]; intros l hh ww N; cbn [loop].
          - intros [= _ _ ->]. now apply N.
          - destruct (find_library E l (e_id x)) as [y|]; [| discriminate].
            destruct (update E y (newOrder x)); apply IHd; [| exact N].
            now destruct ww. }
        intros l H. apply (G data l true (w ++ [lib'])); [now destruct w | exact H].
    + apply (IH _ _ _ H).
Qed.

(** [reorder] is not atomic.  A user below admin changes nothing.  For
    an admin the entries are worked through in order, and an id that
    names no library ends the request with status 500 after the changes
    of the entries before it have been written. *)
Theorem reorder_stops_at_unknown_id (libraries libraries' : list Library)
    (before after : list entry) (bad : entry) (h : bool) (written : list Library) :
  loop E before libraries false [] = Done libraries' h written ->
  find_library E libraries' (e_id bad) = None ->
  reorder E libraries {| isAdminOrUp := true; orderdata := before ++ bad :: after |}
  = (written, ServerError)
  /\ reorder E libraries {| isAdminOrUp := false; orderdata := before ++ bad :: after |}
     = ([], Forbidden).
Proof.
  intros L F. split; [| reflexivity].
  unfold reorder. cbn [isAdminOrUp orderdata negb].
  rewrite loop_app, L. cbn [loop]. now rewrite F.
Qed.

(** When every id names a library the response lists every library
    once.  If some entry changed a library the list is in ascending
    order of [displayOrder]; if none did, nothing is written and the
    list is in the order of the database, sorted or not. *)
Theorem reorder_lists_every_library (libraries libraries' : list Library)
    (req : request) (h : bool) (written : list Library) :
  isAdminOrUp req = true ->
  loop E (orderdata req) libraries false [] = Done libraries' h written ->
  exists shown,
    reorder E libraries req = (written, Json (map (toJSON E) shown))
    /\ Permutation shown libraries'
    /\ List.length shown = List.length libraries
    /\ (h = true ->
        written <> []
        /\ StronglySorted (fun a b => displayOrder E a <= displayOrder E b) shown)
    /\ (h = false -> written = [] /\ shown = libraries).
Proof.
  intros A L. unfold reorder. rewrite A, L. cbn [negb].
  destruct (loop_done _ _ _ _ _ _ _ L) as (Len & _ & F & W).
  destruct h.
  - exists (by_displayOrder E libraries'). split; [reflexivity |].
    assert (P : Permutation (by_displayOrder E libraries') libraries')
      by apply SortingFacts.sort_perm.
    split; [exact P |]. split; [now rewrite (Permutation_length P) |].
    split; [| discriminate]. intros _. split.
    + destruct (W eq_refl) as [X | X]; [discriminate | exact X].
    + apply sorted_weaken with
        (P := Sorting.le (fun a b => Z.compare (displayOrder E a) (displayOrder E b))).
      * unfold Sorting.le. intros a b H. now apply Z.compare_le_iff.
      * apply (SortingFacts.sort_sorted _ _ (fun _ => True)).
        -- intros a b. apply Z.compare_antisym.
        -- intros a b c _ _ _. rewrite !Z.compare_le_iff. lia.
        -- apply Forall_forall. auto.
  - destruct (F eq_refl) as [-> ->]. exists libraries.
    repeat split; try reflexivity; try discriminate.
Qed.

End Facts.

(** The first entry is written before the second is found to name no
    library. *)
Lemma reorder_stops_at_unknown_id_witness :
  reorder MoreSamples.reorderEnv MoreSamples.libraries
          {| isAdminOrUp := true;
             orderdata := [ {| e_id := "lib_a"; newOrder := VNum (Num.of_Z 2) |} ]
                          ++ {| e_id := "lib_x"; newOrder := VNum (Num.of_Z 1) |} :: [] |}
  = ([("lib_a", 2)]%string, ServerError).
Proof.
  apply (proj1 (reorder_stops_at_unknown_id MoreSamples.reorderEnv MoreSamples.libraries
                  _ [ {| e_id := "lib_a"; newOrder := VNum (Num.of_Z 2) |} ] []
                  {| e_id := "lib_x"; newOrder := VNum (Num.of_Z 1) |} _ _
                  eq_refl eq_refl)).
Defined.

(** Swapping the first two libraries. *)
Lemma reorder_lists_every_library_witness :
  exists shown,
    reorder MoreSamples.reorderEnv MoreSamples.libraries
            {| isAdminOrUp := true; orderdata := MoreSamples.swap |}
    = ([("lib_a", 2); ("lib_b", 1)]%string,
       Json (map (Reorder.toJSON MoreSamples.reorderEnv) shown))
    /\ List.length shown = 3%nat.
Proof.
  destruct (reorder_lists_every_library MoreSamples.reorderEnv MoreSamples.libraries _
              {| isAdminOrUp := true; orderdata := MoreSamples.swap |} _ _
              eq_refl eq_refl) as (shown & R & _ & L & _).
  exists shown. split; [exact R | exact L].
Defined.

End ReorderFacts.

(* ================================================================= *)
(** ** [scan] *)

Module ScanFacts.

Import Scan.

(** [force] is compared loosely with 1: a string of digits forces a
    rescan exactly when its value is 1, so ["01"] does and ["2"] does
    not; ["1.0"] does, ["true"] and a missing parameter do not. *)
Theorem force_is_compared_loosely (s : string) :
  (s <> ""%string -> Str.all_digits s = true -> Str.digits_value 0 s < 2 ^ 53 ->
   forceRescan (Some s) = (Str.digits_value 0 s =? 1))
  /\ forceRescan (Some "1.0") = true
  /\ forceRescan (Some "true") = false
  /\ forceRescan None = false.
Proof.
  split; [| repeat split].
  intros N D B. unfold forceRescan.
  rewrite QueryFacts.of_string_digits by assumption.
  pose proof (NumFacts.digits_value_ge _ 0 (Z.le_refl 0) D) as V.
  destruct (Z.eq_dec (Str.digits_value 0 s) 0) as [-> | NZ]; [reflexivity |].
  rewrite NumFacts.of_Z_exact by lia.
  change Num.one with (Num.canon 1). apply NumFacts.eqb_canon; lia.
Qed.

Lemma force_is_compared_loosely_witness : forceRescan (Some "01") = true.
Proof.
  apply (proj1 (force_is_compared_loosely "01")); [discriminate | reflexivity |].
  reflexivity.
Defined.

End ScanFacts.

(* ================================================================= *)
(** ** Integers as text *)

Module NumeralFacts.

Import Plain DecimalFacts DecimalPos DecimalN.

Local Open Scope list_scope.

(** *** The value of a string of digits *)

Lemma digits_value_acc (s : string) (acc : Z) :
  Str.digits_value acc s
  = acc * 10 ^ Z.of_nat (String.length s) + Str.digits_value 0 s.
Proof.
  revert acc. induction s as [|c s IH]; intros acc.
  - simpl. lia.
  - cbn [Str.digits_value String.length]. rewrite IH, (IH (10 * 0 + Str.digit_val c)).
    rewrite Nat2Z.inj_succ, Z.pow_succ_r by lia. ring.
Qed.

Lemma digit_val_range (c : ascii) : Str.is_digit c = true -> 0 <= Str.digit_val c <= 9.
Proof.
  destruct c as [[] [] [] [] [] [] [] []]; intros D; try discriminate D;
    unfold Str.digit_val; simpl; lia.
Qed.

Lemma digit_val_inj (c d : ascii) :
  Str.is_digit c = true -> Str.is_digit d = true ->
  Str.digit_val c = Str.digit_val d -> c = d.
Proof.
  unfold Str.digit_val. intros _ _ H.
  assert (E : nat_of_ascii c = nat_of_ascii d) by lia.
  rewrite <- (ascii_nat_embedding c), <- (ascii_nat_embedding d). now rewrite E.
Qed.

Lemma digits_value_bound (s : string) :
  Str.all_digits s = true ->
  0 <= Str.digits_value 0 s < 10 ^ Z.of_nat (String.length s).
Proof.
  induction s as [|c s IH]; intros H.
  - simpl. lia.
  - cbn [Str.all_digits] in H. apply andb_true_iff in H as [D H].
    pose proof (digit_val_range c D). specialize (IH H).
    cbn [Str.digits_value String.length]. rewrite digits_value_acc.
    rewrite Nat2Z.inj_succ, Z.pow_succ_r by lia. nia.
Qed.

(** Strings of digits of one length and one value are the same. *)
Lemma digits_value_inj (s t : string) :
  Str.all_digits s = true -> Str.all_digits t = true ->
  String.length s = String.length t ->
  Str.digits_value 0 s = Str.digits_value 0 t -> s = t.
Proof.
  revert t. induction s as [|c s IH]; intros [|d t] Hs Ht L V; try discriminate L;
    [reflexivity |].
  cbn [Str.all_digits] in Hs, Ht.
  apply andb_true_iff in Hs as [Dc Hs]. apply andb_true_iff in Ht as [Dd Ht].
  injection L as L. cbn [Str.digits_value] in V.
  rewrite (digits_value_acc s), (digits_value_acc t), <- L in V.
  pose proof (digits_value_bound s Hs) as Bs.
  pose proof (digits_value_bound t Ht) as Bt. rewrite <- L in Bt.
  pose proof (digit_val_range c Dc). pose proof (digit_val_range d Dd).
  set (P := 10 ^ Z.of_nat (String.length s)) in *.
  assert (Pp : 0 < P) by (apply Z.pow_pos_nonneg; lia).
  assert (E : Str.digit_val c = Str.digit_val d) by nia.
  rewrite (digit_val_inj c d Dc Dd E). f_equal. apply IH; auto. nia.
Qed.

Lemma plain_integer_digits (t : string) :
  plain_integer t = true -> t <> ""%string /\ Str.all_digits t = true.
Proof.
  destruct t as [|c [|d r]]; [discriminate | |];
    destruct c as [[] [] [] [] [] [] [] []]; intros H; try discriminate H;
    (split; [discriminate | exact H || reflexivity]).
Qed.

(** A plain integer of [k] digits lies between [10^(k-1)] and [10^k],
    zero excepted. *)
Lemma plain_integer_bound (t : string) :
  plain_integer t = true -> t <> "0"%string ->
  10 ^ (Z.of_nat (String.length t) - 1) <= Str.digits_value 0 t
  < 10 ^ Z.of_nat (String.length t).
Proof.
  intros P N. destruct (plain_integer_digits t P) as [_ D].
  split; [| apply digits_value_bound; exact D].
  destruct t as [|c r]; [discriminate |].
  assert (C : 1 <= Str.digit_val c).
  { destruct r as [|d r]; destruct c as [[] [] [] [] [] [] [] []];
      try discriminate P; try congruence; unfold Str.digit_val; simpl; lia. }
  cbn [Str.all_digits] in D. apply andb_true_iff in D as [_ D].
  pose proof (digits_value_bound r D) as B.
  cbn [Str.digits_value String.length]. rewrite digits_value_acc.
  replace (Z.of_nat (S (String.length r)) - 1) with (Z.of_nat (String.length r)) by lia.
  set (Q := 10 ^ Z.of_nat (String.length r)) in *. nia.
Qed.

(** Plain integers of one value are the same. *)
Lemma plain_integer_inj (s t : string) :
  plain_integer s = true -> plain_integer t = true ->
  Str.digits_value 0 s = Str.digits_value 0 t -> s = t.
Proof.
  intros Ps Pt V.
  destruct (plain_integer_digits s Ps) as [_ Ds].
  destruct (plain_integer_digits t Pt) as [_ Dt].
  destruct (string_dec s "0") as [-> | Ns]; destruct (string_dec t "0") as [-> | Nt];
    [reflexivity | | |].
  - pose proof (plain_integer_bound t Pt Nt) as B. rewrite <- V in B. change (Str.digits_value 0 "0") with 0 in B.
    assert (0 < 10 ^ (Z.of_nat (String.length t) - 1))
      by (apply Z.pow_pos_nonneg; [lia |]; destruct t; [discriminate | cbn [String.length]; lia]).
    lia.
  - pose proof (plain_integer_bound s Ps Ns) as B. rewrite V in B. change (Str.digits_value 0 "0") with 0 in B.
    assert (0 < 10 ^ (Z.of_nat (String.length s) - 1))
      by (apply Z.pow_pos_nonneg; [lia |]; destruct s; [discriminate | cbn [String.length]; lia]).
    lia.
  - pose proof (plain_integer_bound s Ps Ns) as Bs.
    pose proof (plain_integer_bound t Pt Nt) as Bt. rewrite <- V in Bt.
    apply digits_value_inj; auto.
    assert (Ls : 0 < Z.of_nat (String.length s)) by (destruct s; [discriminate | cbn [String.length]; lia]).
    assert (Lt : 0 < Z.of_nat (String.length t)) by (destruct t; [discriminate | cbn [String.length]; lia]).
    destruct (Z.lt_trichotomy (Z.of_nat (String.length s)) (Z.of_nat (String.length t)))
      as [L | [L | L]]; [exfalso | lia | exfalso].
    + assert (10 ^ Z.of_nat (String.length s) <= 10 ^ (Z.of_nat (String.length t) - 1))
        by (apply Z.pow_le_mono_r; lia).
      lia.
    + assert (10 ^ Z.of_nat (String.length t) <= 10 ^ (Z.of_nat (String.length s) - 1))
        by (apply Z.pow_le_mono_r; lia).
      lia.
Qed.

(** *** The decimal spelling of a number *)

Lemma string_of_uint_digits (u : Decimal.uint) :
  Str.all_digits (NilEmpty.string_of_uint u) = true.
Proof. induction u; simpl; auto. Qed.

Lemma string_of_uint_acc (u : Decimal.uint) (acc : positive) :
  Str.digits_value (Zpos acc) (NilEmpty.string_of_uint u)
  = Zpos (Pos.of_uint_acc u acc).
Proof.
  revert acc. induction u; intros acc; cbn [NilEmpty.string_of_uint Str.digits_value
                                             Pos.of_uint_acc];
    [reflexivity | ..];
    match goal with
    | |- Str.digits_value (10 * _ + Str.digit_val ?c) _ = _ =>
        let v := eval vm_compute in (Str.digit_val c) in
        change (Str.digit_val c) with v
    end;
    try rewrite Z.add_0_r;
    match goal with
    | |- Str.digits_value ?a _ = Zpos (Pos.of_uint_acc _ ?b) =>
        replace a with (Zpos b) by lia
    end; apply IHu.
Qed.

Lemma string_of_uint_value (u : Decimal.uint) :
  Str.digits_value 0 (NilEmpty.string_of_uint u) = Z.of_N (Pos.of_uint u).
Proof.
  induction u; cbn [NilEmpty.string_of_uint Str.digits_value Pos.of_uint];
    [reflexivity | ..];
    match goal with
    | |- Str.digits_value (10 * 0 + Str.digit_val ?c) _ = _ =>
        let v := eval vm_compute in (Str.digit_val c) in
        change (10 * 0 + Str.digit_val c) with v
    end;
    [exact IHu | ..]; apply string_of_uint_acc.
Qed.

Lemma unorm_plain (d : Decimal.uint) :
  plain_integer (NilZero.string_of_uint (Decimal.unorm d)) = true.
Proof.
  unfold Decimal.unorm. pose proof (nzhead_nonzero d) as N.
  destruct (Decimal.nzhead d) as [|u|u|u|u|u|u|u|u|u|u]; try reflexivity;
    try (exfalso; now apply (N u));
    cbn [NilZero.string_of_uint NilEmpty.string_of_uint plain_integer Str.all_digits];
    apply string_of_uint_digits.
Qed.

(** [of_N n] is the plain integer that denotes [n]. *)
Lemma of_N_plain (n : N) :
  plain_integer (Str.of_N n) = true /\ Str.digits_value 0 (Str.of_N n) = Z.of_N n.
Proof.
  unfold Str.of_N.
  assert (U : N.to_uint n = Decimal.unorm (N.to_uint n))
    by (rewrite <- DecimalN.Unsigned.to_of, DecimalN.Unsigned.of_to; reflexivity).
  split.
  - rewrite U. apply unorm_plain.
  - rewrite <- (DecimalN.Unsigned.of_to n) at 2. unfold N.of_uint.
    rewrite <- string_of_uint_value.
    destruct (N.to_uint n); reflexivity.
Qed.

(** The plain integer of a given value. *)
Lemma of_N_unique (t : string) :
  plain_integer t = true -> Str.of_N (Z.to_N (Str.digits_value 0 t)) = t.
Proof.
  intros P. destruct (plain_integer_digits t P) as [_ D].
  pose proof (digits_value_bound t D) as B.
  destruct (of_N_plain (Z.to_N (Str.digits_value 0 t))) as [Q V].
  apply plain_integer_inj; auto. rewrite V. lia.
Qed.

Lemma zeros_digits (j : nat) :
  Str.all_digits (Str.zeros j) = true /\ Str.digits_value 0 (Str.zeros j) = 0
  /\ String.length (Str.zeros j) = j.
Proof.
  induction j as [|j (A & B & C)]; [repeat split |].
  cbn [Str.zeros Str.all_digits Str.digits_value String.length].
  rewrite A, C. repeat split. exact B.
Qed.

Lemma all_digits_append (a b : string) :
  Str.all_digits (a ++ b) = Str.all_digits a && Str.all_digits b.
Proof.
  induction a as [|c a IH]; [reflexivity |].
  simpl. now rewrite IH, andb_assoc.
Qed.

Lemma digits_value_append (a b : string) :
  Str.digits_value 0 (a ++ b)
  = Str.digits_value 0 a * 10 ^ Z.of_nat (String.length b) + Str.digits_value 0 b.
Proof.
  assert (G : forall acc, Str.digits_value acc (a ++ b)
                          = Str.digits_value (Str.digits_value acc a) b).
  { induction a as [|c a IH]; intros acc; [reflexivity |]. simpl. apply IH. }
  rewrite G. apply digits_value_acc.
Qed.

Lemma plain_integer_cons (c : ascii) (r : string) :
  plain_integer (String c r)
  = if Ascii.eqb c "0" then String.eqb r "" else Str.all_digits (String c r).
Proof.
  destruct c as [[] [] [] [] [] [] [] []]; try reflexivity. now destruct r.
Qed.

Lemma plain_integer_append (a b : string) :
  plain_integer a = true -> a <> "0"%string -> Str.all_digits b = true ->
  plain_integer (a ++ b) = true.
Proof.
  intros P N D. destruct a as [|c a]; [discriminate |].
  change (String c a ++ b)%string with (String c (a ++ b)%string).
  rewrite plain_integer_cons in *. destruct (Ascii.eqb c "0") eqn:C.
  - apply Ascii.eqb_eq in C. apply String.eqb_eq in P. subst. congruence.
  - cbn [Str.all_digits] in *. apply andb_true_iff in P as [Dc Da].
    now rewrite Dc, all_digits_append, Da, D.
Qed.

(** Multiplying by a power of ten appends zeros. *)
Lemma of_N_zeros (s : Z) (j : nat) :
  0 < s -> Str.of_N (Z.to_N (s * 10 ^ Z.of_nat j)) = (Str.of_N (Z.to_N s) ++ Str.zeros j)%string.
Proof.
  intros S.
  destruct (of_N_plain (Z.to_N (s * 10 ^ Z.of_nat j))) as [P V].
  destruct (of_N_plain (Z.to_N s)) as [Ps Vs].
  destruct (zeros_digits j) as (Dz & Vz & Lz).
  assert (T : 0 < 10 ^ Z.of_nat j) by (apply Z.pow_pos_nonneg; lia).
  apply plain_integer_inj; [exact P | |].
  - apply plain_integer_append; [exact Ps | | exact Dz].
    intros E. rewrite E in Vs. change (Str.digits_value 0 "0") with 0 in Vs. lia.
  - rewrite V, digits_value_append, Vs, Vz, Lz. rewrite !Z2N.id by nia. lia.
Qed.

Lemma of_N_length (z : Z) (n : Z) :
  0 < z -> 10 ^ (n - 1) <= z < 10 ^ n -> 1 <= n ->
  Z.of_nat (String.length (Str.of_N (Z.to_N z))) = n.
Proof.
  intros Hz B N.
  destruct (of_N_plain (Z.to_N z)) as [P V]. rewrite Z2N.id in V by lia.
  assert (N0 : Str.of_N (Z.to_N z) <> "0"%string).
  { intros E. rewrite E in V. change (Str.digits_value 0 "0") with 0 in V. lia. }
  pose proof (plain_integer_bound _ P N0) as Bt. rewrite V in Bt.
  set (k := Z.of_nat (String.length (Str.of_N (Z.to_N z)))) in *.
  assert (K : 1 <= k).
  { destruct (Z_lt_le_dec k 1) as [L | L]; [| exact L].
    assert (k = 0) by (unfold k in *; lia).
    replace k with 0 in Bt by lia. simpl in Bt. lia. }
  destruct (Z.lt_trichotomy k n) as [L | [L | L]]; [exfalso | exact L | exfalso].
  - assert (10 ^ k <= 10 ^ (n - 1)) by (apply Z.pow_le_mono_r; lia). lia.
  - assert (10 ^ n <= 10 ^ (k - 1)) by (apply Z.pow_le_mono_r; lia). lia.
Qed.

End NumeralFacts.

(* ================================================================= *)
(** ** Number::toString on integers *)

Module ToStringFacts.

Import Num NumFacts Plain NumeralFacts.

Local Open Scope list_scope.

(** *** Integers from [2^53] on *)

Lemma shr_fexp_snd (m e : Z) (l : location) :
  snd (shr_fexp prec emax m e l) = e + Z.max 0 (fexp prec emax (Zdigits2 m + e) - e).
Proof.
  unfold shr_fexp, shr.
  destruct (fexp prec emax (Zdigits2 m + e) - e) as [|p|p]; simpl snd; lia.
Qed.

(** Rounding a value of more than 53 bits gives a Number with a positive
    exponent, or infinity. *)
Lemma binary_round_aux_large (m : Z) (l : location) :
  2 ^ 53 <= m ->
  match binary_round_aux prec emax false m 0 l with
  | S754_finite false _ e => 1 <= e
  | S754_infinity false => True
  | _ => False
  end.
Proof.
  intros M. assert (M0 : 0 < m) by lia.
  assert (L : 53 <= Z.log2 m) by (apply Z.log2_le_pow2; lia).
  assert (D : -1073 <= Zdigits2 m + 0) by (rewrite Zdigits2_log2 by lia; lia).
  unfold binary_round_aux.
  destruct (shr_fexp_pos m 0 l M0 D) as [P1 E1].
  pose proof (shr_fexp_snd m 0 l) as S1.
  destruct (shr_fexp prec emax m 0 l) as [r1 e1]. simpl fst in *; simpl snd in *.
  assert (X1 : 1 <= e1).
  { rewrite S1. unfold fexp, emin, prec, emax. rewrite Zdigits2_log2 by lia. lia. }
  set (m1 := round_nearest_even (shr_m r1) (loc_of_shr_record r1)).
  assert (M1 : shr_m r1 <= m1) by apply round_nearest_even_ge.
  assert (D1 : -1073 <= Zdigits2 m1 + e1).
  { pose proof (Zdigits2_mono (shr_m r1) m1 P1 M1). lia. }
  destruct (shr_fexp_pos m1 e1 loc_Exact) as [P2 _]; [lia | exact D1 |].
  pose proof (shr_fexp_snd m1 e1 loc_Exact) as S2.
  destruct (shr_fexp prec emax m1 e1 loc_Exact) as [r2 e2]. simpl fst in *; simpl snd in *.
  destruct (shr_m r2) as [|p|p]; try lia.
  destruct (e2 <=? emax - prec); [lia | exact I].
Qed.

Lemma of_Z_large (w : Z) :
  2 ^ 53 <= w ->
  match of_Z w with
  | S754_finite false _ e => 1 <= e
  | S754_infinity false => True
  | _ => False
  end.
Proof.
  intros W. destruct w as [|p|p]; try lia.
  assert (L : 53 <= Z.log2 (Z.pos p)) by (apply Z.log2_le_pow2; lia).
  unfold of_Z, of_ratio, SFdiv, SFdiv_core_binary.
  rewrite (Zdigits2_log2 (Z.pos p)) by lia.
  change (Zdigits2 1) with 1.
  unfold fexp, emin, prec, emax.
  replace (Z.min (Z.max (Z.log2 (Z.pos p) + 1 + 0 - (1 + 0) - 53) (3 - 1024 - 53)) (0 - 0))
    with 0 by lia.
  change (0 - 0 - 0) with 0. cbv iota.
  assert (Q : Z.div_eucl (Z.pos p) 1 = (Z.pos p, 0)).
  { pose proof (Z.div_1_r (Z.pos p)) as Q1. pose proof (Z.mod_1_r (Z.pos p)) as Q2.
    unfold Z.div, Z.modulo in Q1, Q2.
    destruct (Z.div_eucl (Z.pos p) 1). simpl in *. congruence. }
  rewrite Q. simpl xorb.
  apply binary_round_aux_large. exact W.
Qed.

(** [==] between the Number of a positive integer and an exact integer
    is equality of the integers. *)
Lemma eqb_of_Z_canon (w z : Z) :
  0 < w -> 0 < z < 2 ^ 53 -> eqb (of_Z w) (canon z) = (w =? z).
Proof.
  intros W Hz. destruct (Z_lt_le_dec w (2 ^ 53)) as [S | B].
  - rewrite of_Z_exact by lia. apply eqb_canon; lia.
  - replace (w =? z) with false by (symmetry; apply Z.eqb_neq; lia).
    pose proof (of_Z_large w B) as H.
    pose proof (Z.log2_nonneg z).
    assert (Z.log2 z < 53) by (apply Z.log2_lt_pow2; lia).
    unfold eqb, SFeqb, SFcompare, canon.
    destruct (of_Z w) as [[]|[]| |[] m e]; try contradiction; try reflexivity.
    destruct (Z.compare_spec e (Z.log2 z - 52)); try reflexivity. lia.
Qed.

(** *** The number of decimal digits *)

Lemma ndigits_spec (fuel : nat) (z : Z) :
  0 < z < 10 ^ Z.of_nat fuel ->
  1 <= ndigits fuel z /\ 10 ^ (ndigits fuel z - 1) <= z < 10 ^ ndigits fuel z.
Proof.
  revert z. induction fuel as [|f IH]; intros z Hz.
  - simpl in Hz. lia.
  - cbn [ndigits]. destruct (z <? 10) eqn:T.
    + apply Z.ltb_lt in T. simpl. lia.
    + apply Z.ltb_ge in T.
      rewrite Nat2Z.inj_succ, Z.pow_succ_r in Hz by lia.
      assert (Q : 0 < z / 10 < 10 ^ Z.of_nat f).
      { split; [apply Z.div_str_pos; lia |]. apply Z.div_lt_upper_bound; lia. }
      destruct (IH _ Q) as [N B].
      replace (1 + ndigits f (z / 10) - 1) with (Z.succ (ndigits f (z / 10) - 1)) by lia.
      replace (1 + ndigits f (z / 10)) with (Z.succ (ndigits f (z / 10))) by lia.
      rewrite !Z.pow_succ_r by lia.
      pose proof (Z.div_mod z 10 ltac:(lia)). pose proof (Z.mod_pos_bound z 10 ltac:(lia)).
      lia.
Qed.

Lemma pow2_le_pow10 (n : Z) : 0 <= n -> 2 ^ n <= 10 ^ n.
Proof. intros N. apply Z.pow_le_mono_l. lia. Qed.

(** *** The shortest digits of an integer *)

Lemma of_decimal_nonneg (m e : Z) : 0 <= e -> of_decimal m e = of_Z (m * 10 ^ e).
Proof. intros E. unfold of_decimal, of_Z. destruct e; try reflexivity. lia. Qed.

Section Integer.

(** An integer [z] below [2^53] with [n] decimal digits, as the fraction
    [a / b]. *)
Variables z a b n : Z.
Hypothesis z_range : 0 < z < 2 ^ 53.
Hypothesis b_pos : 0 < b.
Hypothesis a_value : a = z * b.
Hypothesis n_digits : 10 ^ (n - 1) <= z < 10 ^ n.
Hypothesis n_pos : 1 <= n.

Lemma candidate_integer (k : Z) :
  1 <= k <= n ->
  candidate (canon z) a b n k
  = if z mod 10 ^ (n - k) =? 0 then Some (z / 10 ^ (n - k), n) else None.
Proof.
  intros K. unfold candidate.
  set (j := n - k). assert (J : 0 <= j) by (unfold j; lia).
  assert (T : 0 < 10 ^ j) by (apply Z.pow_pos_nonneg; lia).
  assert (PQ : (let '(p, q) := if n <=? k then (a * 10 ^ (k - n), b)
                               else (a, b * 10 ^ j) in
                (p / q, p mod q))
               = (z / 10 ^ j, z mod 10 ^ j * b)).
  { destruct (n <=? k) eqn:NK.
    - apply Z.leb_le in NK. assert (k = n) by lia. subst k.
      replace j with 0 by (unfold j; lia). rewrite Z.sub_diag. simpl (10 ^ 0).
      rewrite !Z.mul_1_r, Z.div_1_r, Z.mod_1_r, a_value.
      rewrite Z.div_mul, Z.mod_mul by lia. reflexivity.
    - rewrite a_value, (Z.mul_comm b). 
      rewrite Z.div_mul_cancel_r, Z.mul_mod_distr_r by lia. reflexivity. }
  destruct (if n <=? k then (a * 10 ^ (k - n), b) else (a, b * 10 ^ j)) as [p q].
  injection PQ as -> ->.
  pose proof (Z.div_mod z (10 ^ j) ltac:(lia)) as DM.
  pose proof (Z.mod_pos_bound z (10 ^ j) T) as MB.
  assert (LO : 1 <= z / 10 ^ j).
  { apply Z.div_le_lower_bound; [lia |].
    assert (10 ^ j <= 10 ^ (n - 1)) by (apply Z.pow_le_mono_r; unfold j; lia). lia. }
  rewrite !of_decimal_nonneg by assumption.
  replace (z mod 10 ^ j * b =? 0) with (z mod 10 ^ j =? 0).
  2:{ destruct (z mod 10 ^ j =? 0) eqn:R.
      - apply Z.eqb_eq in R. rewrite R. reflexivity.
      - apply Z.eqb_neq in R. symmetry. apply Z.eqb_neq. nia. }
  rewrite !eqb_of_Z_canon by nia.
  destruct (z mod 10 ^ j =? 0) eqn:R.
  - apply Z.eqb_eq in R.
    replace (z / 10 ^ j * 10 ^ j =? z) with true by (symmetry; apply Z.eqb_eq; lia).
    reflexivity.
  - apply Z.eqb_neq in R.
    replace (z / 10 ^ j * 10 ^ j =? z) with false by (symmetry; apply Z.eqb_neq; lia).
    replace ((z / 10 ^ j + 1) * 10 ^ j =? z) with false
      by (symmetry; apply Z.eqb_neq; lia).
    reflexivity.
Qed.

(** The search ends at digits [s] with [s * 10^j = z]. *)
Lemma shortest_integer (fuel : nat) (k : Z) :
  1 <= k <= n -> n - k < Z.of_nat fuel ->
  exists j, 0 <= j <= n - k /\ z mod 10 ^ j = 0
            /\ shortest fuel (canon z) a b n k = (z / 10 ^ j, n).
Proof.
  revert k. induction fuel as [|f IH]; intros k K F; [lia |].
  cbn [shortest]. rewrite candidate_integer by assumption.
  destruct (z mod 10 ^ (n - k) =? 0) eqn:R.
  - apply Z.eqb_eq in R. exists (n - k). split; [lia |]. auto.
  - assert (k < n).
    { destruct (Z.eq_dec k n) as [-> | N]; [| lia].
      rewrite Z.sub_diag in R. simpl (10 ^ 0) in R. rewrite Z.mod_1_r in R. discriminate. }
    destruct (IH (k + 1)) as (j & J & M & S); [lia | lia |].
    exists j. split; [lia |]. auto.
Qed.

(** The digits are laid out as the plain integer. *)
Lemma format_integer (j : Z) :
  0 <= j <= n - 1 -> z mod 10 ^ j = 0 -> n <= 21 ->
  format (z / 10 ^ j) n = Str.of_N (Z.to_N z).
Proof.
  intros J M N.
  assert (T : 0 < 10 ^ j) by (apply Z.pow_pos_nonneg; lia).
  pose proof (Z.div_mod z (10 ^ j) ltac:(lia)) as DM. rewrite M in DM.
  set (s := z / 10 ^ j) in *.
  assert (S : 0 < s) by nia.
  assert (E : Str.of_N (Z.to_N z) = (Str.of_N (Z.to_N s) ++ Str.zeros (Z.to_nat j))%string).
  { rewrite <- of_N_zeros by assumption. rewrite Z2Nat.id by lia. f_equal. f_equal. lia. }
  assert (L : Z.of_nat (String.length (Str.of_N (Z.to_N s))) = n - j).
  { pose proof (of_N_length z n ltac:(lia) n_digits n_pos) as Lz.
    rewrite E, NarratorIdFacts.length_app_s in Lz. destruct (zeros_digits (Z.to_nat j)) as (_ & _ & Lj).
    rewrite Lj in Lz. lia. }
  unfold format. rewrite L.
  replace ((n - j <=? n) && (n <=? 21)) with true
    by (symmetry; apply andb_true_iff; split; apply Z.leb_le; lia).
  rewrite E. do 2 f_equal. lia.
Qed.

End Integer.

Lemma decimal_exponent_integer (z b : Z) :
  0 < z -> 0 < b ->
  1 <= decimal_exponent (z * b) b
  /\ 10 ^ (decimal_exponent (z * b) b - 1) <= z < 10 ^ decimal_exponent (z * b) b.
Proof.
  intros Z B. unfold decimal_exponent.
  replace (b <=? z * b) with true by (symmetry; apply Z.leb_le; nia).
  rewrite Z.div_mul by lia. apply ndigits_spec. split; [lia |].
  pose proof (Z.log2_nonneg z) as L0.
  destruct (Z.log2_spec z Z) as [_ L].
  rewrite Nat2Z.inj_succ, Z2Nat.id by lia.
  pose proof (pow2_le_pow10 (Z.succ (Z.log2 z)) ltac:(lia)). lia.
Qed.

Lemma to_string_canon (z : Z) :
  0 < z < 2 ^ 53 -> to_string (canon z) = Str.of_N (Z.to_N z).
Proof.
  intros Z.
  pose proof (Z.log2_nonneg z) as L0.
  destruct (Z.log2_spec z ltac:(lia)) as [L1 L2].
  assert (L : Z.log2 z <= 52).
  { destruct (Z_le_gt_dec (Z.log2 z) 52) as [|G]; [assumption |].
    assert (2 ^ 53 <= 2 ^ Z.log2 z) by (apply Z.pow_le_mono_r; lia). lia. }
  assert (P : 0 < 2 ^ (52 - Z.log2 z)) by (apply Z.pow_pos_nonneg; lia).
  assert (AB : exists a b,
             match Z.log2 z - 52 with
             | Zneg j => (Zpos (Z.to_pos (z * 2 ^ (52 - Z.log2 z))), 2 ^ Zpos j)
             | e => (Zpos (Z.to_pos (z * 2 ^ (52 - Z.log2 z))) * 2 ^ e, 1)
             end = (a, b) /\ 0 < b /\ a = z * b).
  { rewrite Z2Pos.id by nia. destruct (Z.log2 z - 52) as [|p|p] eqn:E.
    - exists z, 1. replace (52 - Z.log2 z) with 0 by lia.
      simpl (2 ^ 0). rewrite !Z.mul_1_r. repeat split.
    - lia.
    - exists (z * 2 ^ Zpos p), (2 ^ Zpos p).
      replace (52 - Z.log2 z) with (Zpos p) by lia.
      repeat split. apply Z.pow_pos_nonneg; lia. }
  destruct AB as (a & b & AB & B & A).
  unfold to_string, canon.
  replace (match Z.log2 z - 52 with
           | Zneg j => (Zpos (Z.to_pos (z * 2 ^ (52 - Z.log2 z))), 2 ^ Zpos j)
           | _ => (Zpos (Z.to_pos (z * 2 ^ (52 - Z.log2 z))) * 2 ^ (Z.log2 z - 52), 1)
           end) with (a, b)
    by (rewrite <- AB; destruct (Z.log2 z - 52); reflexivity).
  change (S754_finite false (Z.to_pos (z * 2 ^ (52 - Z.log2 z))) (Z.log2 z - 52))
    with (canon z).
  subst a. destruct (decimal_exponent_integer z b ltac:(lia) B) as [N1 N2].
  set (n := decimal_exponent (z * b) b) in *.
  assert (N16 : n <= 16).
  { destruct (Z_le_gt_dec n 16) as [|G]; [assumption |].
    assert (10 ^ 16 <= 10 ^ (n - 1)) by (apply Z.pow_le_mono_r; lia). lia. }
  destruct (shortest_integer z (z * b) b n Z B eq_refl N2 N1 17 1) as (j & J & M & S);
    [lia | lia |].
  rewrite S. cbn [append]. apply (format_integer z n Z N2 N1 j); [lia | assumption | lia].
Qed.

End ToStringFacts.

(* ================================================================= *)
(** ** The text of a range of integers *)

Module RunTextFacts.

Import Regex SequenceList SequenceListFacts Runs Plain.

Local Open Scope list_scope.

(** An integer below [2^53] is shown in plain decimal: no exponent, no
    fraction, no leading zero. *)
Lemma to_string_of_Z (z : Z) :
  0 <= z < 2 ^ 53 -> Num.to_string (Num.of_Z z) = Str.of_N (Z.to_N z).
Proof.
  intros Z. destruct (Z.eq_dec z 0) as [-> | N]; [reflexivity |].
  rewrite NumFacts.of_Z_exact by lia. apply ToStringFacts.to_string_canon. lia.
Qed.

Lemma run_text (a : Z) (tokens : list string) :
  let b := a + Z.of_nat (List.length tokens) - 1 in
  0 <= a -> b < 2 ^ 53 -> tokens <> [] -> run_from a tokens ->
  seriesSequenceList tokens
  = if a =? b then Str.of_N (Z.to_N a)
    else (Str.of_N (Z.to_N a) ++ "-" ++ Str.of_N (Z.to_N b))%string.
Proof.
  intros b A B N R.
  assert (L : (0 < List.length tokens)%nat)
    by (destruct tokens; [congruence | cbn [List.length]; lia]).
  unfold seriesSequenceList. rewrite (RunFacts.run_ranges a tokens A B N R). fold b.
  cbn [map]. unfold render. cbn [start end_ loose_eq].
  rewrite RunFacts.of_Z_eqb by (unfold b in *; lia).
  destruct (a =? b); cbn [Str.join SequenceList.to_string];
    rewrite !to_string_of_Z by (unfold b in *; lia); reflexivity.
Qed.

Lemma run_from_last (tokens : list string) (a : Z) :
  tokens <> [] -> run_from a tokens ->
  integer_token (last tokens ""%string) (a + Z.of_nat (List.length tokens) - 1).
Proof.
  revert a. induction tokens as [|t tokens IH]; intros a N R; [congruence |].
  destruct R as [I R]. destruct tokens as [|u tokens].
  - cbn [last List.length]. now replace (a + Z.of_nat 1 - 1) with a by lia.
  - change (last (t :: u :: tokens) ""%string) with (last (u :: tokens) ""%string).
    replace (a + Z.of_nat (List.length (t :: u :: tokens)) - 1)
      with (a + 1 + Z.of_nat (List.length (u :: tokens)) - 1)
      by (cbn [List.length]; lia).
    apply IH; [discriminate | assumption].
Qed.

(** Consecutive integers are shown as one range in decimal: tokens that
    spell [a], [a + 1], ..., [b] (in digits, leading zeros allowed), all
    below [2^53], give the decimal numeral of [a] alone when there is one
    token, and the numerals of [a] and [b] with a hyphen between them
    otherwise. *)
Theorem integer_run_in_decimal (a : Z) (tokens : list string) :
  let b := a + Z.of_nat (List.length tokens) - 1 in
  0 <= a -> b < 2 ^ 53 -> tokens <> [] -> run_from a tokens ->
  plain_integer (Str.of_N (Z.to_N a)) = true
  /\ plain_integer (Str.of_N (Z.to_N b)) = true
  /\ Str.digits_value 0 (Str.of_N (Z.to_N a)) = a
  /\ Str.digits_value 0 (Str.of_N (Z.to_N b)) = b
  /\ seriesSequenceList tokens
     = match tokens with
       | [_] => Str.of_N (Z.to_N a)
       | _ => (Str.of_N (Z.to_N a) ++ "-" ++ Str.of_N (Z.to_N b))%string
       end.
Proof.
  intros b A B N R.
  assert (L : (0 < List.length tokens)%nat)
    by (destruct tokens; [congruence | cbn [List.length]; lia]).
  destruct (NumeralFacts.of_N_plain (Z.to_N a)) as [Pa Va].
  destruct (NumeralFacts.of_N_plain (Z.to_N b)) as [Pb Vb].
  rewrite Z2N.id in Va, Vb by (unfold b in *; lia).
  repeat (split; [assumption |]).
  rewrite (run_text a tokens A B N R). fold b.
  destruct tokens as [|t [|u tokens]]; [congruence | |].
  - replace (a =? b) with true by (symmetry; apply Z.eqb_eq; unfold b; simpl; lia).
    reflexivity.
  - replace (a =? b) with false
      by (symmetry; apply Z.eqb_neq; unfold b; cbn [List.length]; lia).
    reflexivity.
Qed.

Lemma integer_run_in_decimal_witness :
  seriesSequenceList ["07"; "8"; "009"]%string = "7-9"%string.
Proof.
  apply (integer_run_in_decimal 7 ["07"; "8"; "009"]%string);
    [lia | simpl; lia | discriminate |].
  repeat split; discriminate.
Defined.

(** When the first and the last token of such a run are written without
    leading zeros, the text shown is made of these two tokens as they
    are: the token alone for a single book, and [first-last] otherwise. *)
Theorem plain_run_shows_its_ends (a : Z) (tokens : list string) :
  let b := a + Z.of_nat (List.length tokens) - 1 in
  0 <= a -> b < 2 ^ 53 -> tokens <> [] -> run_from a tokens ->
  plain_integer (hd ""%string tokens) = true ->
  plain_integer (last tokens ""%string) = true ->
  seriesSequenceList tokens
  = match tokens with
    | [t] => t
    | _ => (hd ""%string tokens ++ "-" ++ last tokens ""%string)%string
    end.
Proof.
  intros b A B N R H Lp.
  pose proof (run_from_last tokens a N R) as (_ & _ & Vl). fold b in Vl.
  assert (Vh : Str.digits_value 0 (hd ""%string tokens) = a).
  { destruct tokens as [|t tokens]; [congruence |]. now destruct R as [(_ & _ & V) _]. }
  pose proof (NumeralFacts.of_N_unique _ H) as Uh. rewrite Vh in Uh.
  pose proof (NumeralFacts.of_N_unique _ Lp) as Ul. rewrite Vl in Ul.
  rewrite (run_text a tokens A B N R). fold b. rewrite Uh, Ul.
  destruct tokens as [|t [|u tokens]]; [congruence | |].
  - replace (a =? b) with true by (symmetry; apply Z.eqb_eq; unfold b; simpl; lia).
    reflexivity.
  - replace (a =? b) with false
      by (symmetry; apply Z.eqb_neq; unfold b; cbn [List.length]; lia).
    reflexivity.
Qed.

Lemma plain_run_shows_its_ends_witness :
  seriesSequenceList ["98"; "99"; "100"; "101"]%string = "98-101"%string.
Proof.
  apply (plain_run_shows_its_ends 98 ["98"; "99"; "100"; "101"]%string);
    [lia | simpl; lia | discriminate | | reflexivity | reflexivity].
  repeat split; discriminate.
Defined.

End RunTextFacts.
